(** * Tender requirement graph, extractor and to-do generator

    A shallow embedding of [core/graph.py], [core/extractor.py] and
    [core/todo.py].

    Conventions of the embedding.
    - A Python [dict] that the code iterates ([nodes], [edges]) is an
      insertion-ordered association list ([pydict]); a [dict] that is only
      looked up ([_adjacency], [_reverse_adjacency], [metadata], the
      title index of the extractor, the hash table of the incremental
      extractor) is a [gmap].
    - A [Node] or [Edge] object held by the graph is referred to by the key
      it is stored under, which [add_node] and [add_edge] take from the
      object's own [id] field.  Mutating a field of such an object is
      [dict_alter] at that key.
    - A statement that can raise returns a [result]; [KeyError] and
      [ValueError] are the exceptions the modelled code can raise itself.
    - [datetime.now()], [uuid.uuid4()], the LLM client, [json.loads],
      [str.lower], [str.strip], [datetime.fromisoformat] and [hashlib.md5]
      belong to the environment: they are parameters of the definitions
      that call them. *)

From Stdlib Require Import ZArith Ascii String.
From Stdlib Require Import Floats.PrimFloat Floats.FloatOps Floats.SpecFloat.
From Stdlib Require Import Numbers.Cyclic.Int63.Uint63.
From stdpp Require Import gmap strings list fin_maps pretty.


(** ** Exceptions *)

(** The exception classes the [except] clauses of [extract] tell apart.
    [JSONDecodeError] is a subclass of [ValueError]; [OtherException] is any
    other subclass of [Exception]. *)
Inductive exn_class := JSONDecodeError | ValueError | KeyError | OtherException.

Record pyexn := PyExn { exn_kind : exn_class; exn_text : string }.

Inductive result (A : Type) :=
| Ok (a : A)
| Raise (e : pyexn).
Arguments Ok {A} a.
Arguments Raise {A} e.

(** Sequencing: an exception raised by [m] leaves [k] unexecuted. *)
Definition bind {A B} (m : result A) (k : A → result B) : result B :=
  match m with Ok a => k a | Raise e => Raise e end.

Notation "'let*' x := m 'in' k" := (bind m (fun x => k))
  (at level 10, x pattern, m at level 100, k at level 200).

Definition is_ok {A} (r : result A) : bool :=
  match r with Ok _ => true | Raise _ => false end.

#[global] Instance exn_class_eq_dec : EqDecision exn_class.
Proof. solve_decision. Defined.

(** ** Enumerations of [graph.py] *)

Inductive NodeType :=
| DOCUMENT | REQUIREMENT | CONDITION | CHECKBOX
| SIGNATURE | FIELD | ATTACHMENT | DEADLINE.

Inductive EdgeType :=
| REQUIRES | REQUIRED_BY | CONDITIONAL_ON | TRIGGERS
| PART_OF | REFERENCES | MUTUALLY_EXCLUSIVE | DEPENDS_ON.

Inductive CompletionStatus :=
| NOT_STARTED | IN_PROGRESS | COMPLETED | NOT_APPLICABLE | BLOCKED.

#[global] Instance NodeType_eq_dec : EqDecision NodeType.
Proof. solve_decision. Defined.
#[global] Instance EdgeType_eq_dec : EqDecision EdgeType.
Proof. solve_decision. Defined.
#[global] Instance CompletionStatus_eq_dec : EqDecision CompletionStatus.
Proof. solve_decision. Defined.

(** [member.value]: the string token of an enumeration member. *)
Definition NodeType_value (t : NodeType) : string :=
  match t with
  | DOCUMENT => "document" | REQUIREMENT => "requirement"
  | CONDITION => "condition" | CHECKBOX => "checkbox"
  | SIGNATURE => "signature" | FIELD => "field"
  | ATTACHMENT => "attachment" | DEADLINE => "deadline"
  end.

Definition EdgeType_value (t : EdgeType) : string :=
  match t with
  | REQUIRES => "requires" | REQUIRED_BY => "required_by"
  | CONDITIONAL_ON => "conditional_on" | TRIGGERS => "triggers"
  | PART_OF => "part_of" | REFERENCES => "references"
  | MUTUALLY_EXCLUSIVE => "mutually_exclusive" | DEPENDS_ON => "depends_on"
  end.

Definition CompletionStatus_value (s : CompletionStatus) : string :=
  match s with
  | NOT_STARTED => "not_started" | IN_PROGRESS => "in_progress"
  | COMPLETED => "completed" | NOT_APPLICABLE => "not_applicable"
  | BLOCKED => "blocked"
  end.

Definition all_NodeType : list NodeType :=
  [DOCUMENT; REQUIREMENT; CONDITION; CHECKBOX; SIGNATURE; FIELD; ATTACHMENT; DEADLINE].
Definition all_EdgeType : list EdgeType :=
  [REQUIRES; REQUIRED_BY; CONDITIONAL_ON; TRIGGERS; PART_OF; REFERENCES;
   MUTUALLY_EXCLUSIVE; DEPENDS_ON].
Definition all_CompletionStatus : list CompletionStatus :=
  [NOT_STARTED; IN_PROGRESS; COMPLETED; NOT_APPLICABLE; BLOCKED].

(** [repr(s)] of a string [s]: in single quotes, or in double quotes when
    [s] holds a single quote and no double quote; the backslash, the quote
    in use and the control characters are escaped.  The bytes from 128 on
    are kept: a character outside ASCII that Python can print is written as
    it is. *)
Definition single_quote : ascii := ascii_of_N 39.
Definition double_quote : ascii := ascii_of_N 34.
Definition backslash : ascii := ascii_of_N 92.

Fixpoint has_char (c : ascii) (s : string) : bool :=
  match s with
  | EmptyString => false
  | String c' s' => Ascii.eqb c c' || has_char c s'
  end.

Definition hex_digit (n : N) : ascii :=
  if (n <? 10)%N then ascii_of_N (48 + n) else ascii_of_N (87 + n).

Definition repr_char (quote c : ascii) : string :=
  let n := N_of_ascii c in
  if Ascii.eqb c backslash then String backslash (String backslash "")
  else if Ascii.eqb c quote then String backslash (String quote "")
  else if (n =? 10)%N then String backslash "n"
  else if (n =? 13)%N then String backslash "r"
  else if (n =? 9)%N then String backslash "t"
  else if ((n <? 32) || (n =? 127))%N
       then String backslash
              (String "x"%char
                 (String (hex_digit (n / 16)) (String (hex_digit (n mod 16)) "")))
       else String c "".

Fixpoint repr_body (quote : ascii) (s : string) : string :=
  match s with
  | EmptyString => ""
  | String c s' => repr_char quote c +:+ repr_body quote s'
  end.

Definition py_repr (s : string) : string :=
  let quote :=
    if has_char single_quote s && negb (has_char double_quote s)
    then double_quote else single_quote in
  String quote (repr_body quote s +:+ String quote "").

(** [Enum(value)]: look a member up by its token; when no member carries
    it, [ValueError] with the text ['bogus' is not a valid NodeType]. *)
Definition enum_of_value {A} (members : list A) (value : A → string)
    (cls : string) (s : string) : result A :=
  match List.find (fun m => bool_decide (value m = s)) members with
  | Some m => Ok m
  | None => Raise (PyExn ValueError (py_repr s +:+ " is not a valid " +:+ cls))
  end.

Definition NodeType_of_value : string → result NodeType :=
  enum_of_value all_NodeType NodeType_value "NodeType".
Definition EdgeType_of_value : string → result EdgeType :=
  enum_of_value all_EdgeType EdgeType_value "EdgeType".
Definition CompletionStatus_of_value : string → result CompletionStatus :=
  enum_of_value all_CompletionStatus CompletionStatus_value "CompletionStatus".

(** ** Timestamps *)

(** A naive [datetime.datetime], as [datetime.now()] returns it. *)
Module datetime.
Record t := mk {
  year : N; month : N; day : N;
  hour : N; minute : N; second : N; microsecond : N }.
End datetime.
Abbreviation datetime := datetime.t.

Definition is_leap (y : N) : bool :=
  (((y mod 4 =? 0) && negb (y mod 100 =? 0)) || (y mod 400 =? 0))%N.

Definition days_in_month (y m : N) : N :=
  (match m with
   | 2 => if is_leap y then 29 else 28
   | 4 | 6 | 9 | 11 => 30
   | _ => 31
   end)%N.

(** The ranges every [datetime] object keeps its fields in. *)
Definition datetime_ok (d : datetime) : bool :=
  ((1 <=? datetime.year d) && (datetime.year d <=? 9999)
   && (1 <=? datetime.month d) && (datetime.month d <=? 12)
   && (1 <=? datetime.day d)
   && (datetime.day d <=? days_in_month (datetime.year d) (datetime.month d))
   && (datetime.hour d <? 24) && (datetime.minute d <? 60)
   && (datetime.second d <? 60) && (datetime.microsecond d <? 1000000))%N.

Definition digit (n : N) : ascii := ascii_of_N (48 + n).

(** [n] printed on exactly [w] decimal digits, the leading digit first. *)
Fixpoint zero_pad (w : nat) (n : N) : string :=
  match w with
  | 0 => ""
  | S w' =>
      String (digit (n / 10 ^ N.of_nat w')) (zero_pad w' (n mod 10 ^ N.of_nat w'))
  end.

(** [datetime.isoformat()] of a naive timestamp:
    [YYYY-MM-DDTHH:MM:SS], followed by [.ffffff] when the microsecond
    field is not zero. *)
Definition isoformat (d : datetime) : string :=
  zero_pad 4 (datetime.year d) +:+ "-" +:+ zero_pad 2 (datetime.month d) +:+ "-"
  +:+ zero_pad 2 (datetime.day d) +:+ "T" +:+ zero_pad 2 (datetime.hour d) +:+ ":"
  +:+ zero_pad 2 (datetime.minute d) +:+ ":" +:+ zero_pad 2 (datetime.second d)
  +:+ (if (datetime.microsecond d =? 0)%N then ""
       else "." +:+ zero_pad 6 (datetime.microsecond d)).

Definition digit_val (c : ascii) : option N :=
  let n := N_of_ascii c in
  if ((48 <=? n) && (n <=? 57))%N then Some (n - 48)%N else None.

(** Read exactly [w] decimal digits off the front of [s]. *)
Fixpoint read_digits (w : nat) (acc : N) (s : string) : option (N * string) :=
  match w with
  | 0 => Some (acc, s)
  | S w' =>
      match s with
      | String c s' =>
          match digit_val c with
          | Some v => read_digits w' (10 * acc + v)%N s'
          | None => None
          end
      | EmptyString => None
      end
  end.

Definition expect (c : ascii) (s : string) : option string :=
  match s with
  | String c' s' => if bool_decide (c' = c) then Some s' else None
  | EmptyString => None
  end.

(** A reader of the two layouts [isoformat] writes, with the range checks
    of the [datetime] constructor.  It is the instance of
    [datetime.fromisoformat] used to run the model; Python's function
    accepts further ISO 8601 spellings. *)
Definition parse_isoformat (s : string) : option datetime :=
  '(y, s) ← read_digits 4 0 s; s ← expect "-" s;
  '(mo, s) ← read_digits 2 0 s; s ← expect "-" s;
  '(d, s) ← read_digits 2 0 s; s ← expect "T" s;
  '(h, s) ← read_digits 2 0 s; s ← expect ":" s;
  '(mi, s) ← read_digits 2 0 s; s ← expect ":" s;
  '(se, s) ← read_digits 2 0 s;
  '(us, s) ← match s with
             | EmptyString => Some (0%N, s)
             | _ => s ← expect "." s; read_digits 6 0 s
             end;
  match s with
  | EmptyString =>
      let r := datetime.mk y mo d h mi se us in
      if datetime_ok r then Some r else None
  | _ => None
  end.

Definition fromisoformat_naive (s : string) : result datetime :=
  match parse_isoformat s with
  | Some d => Ok d
  | None => Raise (PyExn ValueError ("Invalid isoformat string: " +:+ s))
  end.

(** ** Python values *)

(** The values an open [metadata] bag holds in this program. *)
Inductive pyval :=
| PNone
| PBool (b : bool)
| PInt (z : Z)
| PFloat (f : float)
| PStr (s : string).

(** Truth value of a string, and of an [Optional[str]]. *)
Definition str_truthy (s : string) : bool := negb (bool_decide (s = "")).
Definition opt_str_truthy (o : option string) : bool :=
  match o with Some s => str_truthy s | None => false end.

(** *** Floats

    A Python [float] is an IEEE 754 binary64 number: Rocq's primitive
    [float].  Integers below [2^53] convert exactly, so [a / b] on two such
    [int]s is the binary64 quotient of their conversions. *)
Definition float_of_Z (z : Z) : float := PrimFloat.of_uint63 (Uint63.of_Z z).
Definition float_of_nat (n : nat) : float := float_of_Z (Z.of_nat n).

(** [n / d] rounded to the nearest integer, ties to the even one. *)
Definition div_half_even (n d : Z) : Z :=
  let q := (n / d)%Z in
  let r := (n mod d)%Z in
  if (2 * r <? d)%Z then q
  else if (d <? 2 * r)%Z then (q + 1)%Z
  else if Z.even q then q else (q + 1)%Z.

(** [round(x, 1)] on a float: the exact value [m * 2^e] of [x] is rounded
    to a multiple of one tenth, ties to even, and the binary64 number
    nearest to that decimal is returned. *)
Definition py_round1 (x : float) : float :=
  match Prim2SF x with
  | S754_finite s m e =>
      let n := (10 * Z.pos m)%Z in
      let k := if (0 <=? e)%Z then (n * 2 ^ e)%Z else div_half_even n (2 ^ (- e))%Z in
      let r := PrimFloat.div (float_of_Z k) (float_of_Z 10) in
      if s then PrimFloat.opp r else r
  | _ => x
  end.

(** A number that is an [int] on one path and a [float] on another. *)
Inductive pynum :=
| PyInt (z : Z)
| PyFloat (f : float).

(** [round(v, 1)]: an [int] is returned unchanged. *)
Definition round1 (v : pynum) : pynum :=
  match v with
  | PyInt z => PyInt z
  | PyFloat f => PyFloat (py_round1 f)
  end.

(** ** Nodes and edges *)

Module Node.
Record t := mk {
  id : string;
  type : NodeType;
  title : string;
  description : string;
  status : CompletionStatus;
  source_document : option string;
  source_location : option string;
  source_text : option string;
  checkbox_state : option bool;
  condition_met : option bool;
  deadline : option datetime;
  created_at : datetime;
  updated_at : datetime;
  confidence : float;
  tags : list string;
  metadata : gmap string pyval;
  notes : option string }.

Definition set_status (s : CompletionStatus) (n : t) : t :=
  mk (id n) (type n) (title n) (description n) s (source_document n)
     (source_location n) (source_text n) (checkbox_state n) (condition_met n)
     (deadline n) (created_at n) (updated_at n) (confidence n) (tags n)
     (metadata n) (notes n).
Definition set_updated_at (d : datetime) (n : t) : t :=
  mk (id n) (type n) (title n) (description n) (status n) (source_document n)
     (source_location n) (source_text n) (checkbox_state n) (condition_met n)
     (deadline n) (created_at n) d (confidence n) (tags n)
     (metadata n) (notes n).
Definition set_source_text (s : option string) (n : t) : t :=
  mk (id n) (type n) (title n) (description n) (status n) (source_document n)
     (source_location n) s (checkbox_state n) (condition_met n)
     (deadline n) (created_at n) (updated_at n) (confidence n) (tags n)
     (metadata n) (notes n).
Definition set_checkbox_state (b : option bool) (n : t) : t :=
  mk (id n) (type n) (title n) (description n) (status n) (source_document n)
     (source_location n) (source_text n) b (condition_met n)
     (deadline n) (created_at n) (updated_at n) (confidence n) (tags n)
     (metadata n) (notes n).
Definition set_deadline (d : option datetime) (n : t) : t :=
  mk (id n) (type n) (title n) (description n) (status n) (source_document n)
     (source_location n) (source_text n) (checkbox_state n) (condition_met n)
     d (created_at n) (updated_at n) (confidence n) (tags n)
     (metadata n) (notes n).
Definition set_tags (l : list string) (n : t) : t :=
  mk (id n) (type n) (title n) (description n) (status n) (source_document n)
     (source_location n) (source_text n) (checkbox_state n) (condition_met n)
     (deadline n) (created_at n) (updated_at n) (confidence n) l
     (metadata n) (notes n).
Definition set_metadata (m : gmap string pyval) (n : t) : t :=
  mk (id n) (type n) (title n) (description n) (status n) (source_document n)
     (source_location n) (source_text n) (checkbox_state n) (condition_met n)
     (deadline n) (created_at n) (updated_at n) (confidence n) (tags n)
     m (notes n).
End Node.
Abbreviation Node := Node.t.

Module Edge.
Record t := mk {
  id : string;
  source_id : string;
  target_id : string;
  type : EdgeType;
  description : option string;
  confidence : float;
  metadata : gmap string pyval }.

Definition set_source_id (s : string) (e : t) : t :=
  mk (id e) s (target_id e) (type e) (description e) (confidence e) (metadata e).
Definition set_target_id (s : string) (e : t) : t :=
  mk (id e) (source_id e) s (type e) (description e) (confidence e) (metadata e).
End Edge.
Abbreviation Edge := Edge.t.

(** Keyword arguments of the [Node] constructor; [None] on a field with a
    non-[None] default means the argument is not passed. *)
Record NodeKwargs := mkNodeKwargs {
  kw_status : option CompletionStatus;
  kw_source_document : option string;
  kw_source_location : option string;
  kw_source_text : option string;
  kw_checkbox_state : option bool;
  kw_condition_met : option bool;
  kw_deadline : option datetime;
  kw_created_at : option datetime;
  kw_updated_at : option datetime;
  kw_confidence : option float;
  kw_tags : option (list string);
  kw_metadata : option (gmap string pyval);
  kw_notes : option string }.

Definition no_kwargs : NodeKwargs :=
  mkNodeKwargs None None None None None None None None None None None None None.

(** [Node(id=..., type=..., title=..., description=..., **kwargs)].  The
    default factories of [created_at] and of [updated_at] call
    [datetime.now] one after the other: [now_created] and [now_updated] are
    what the two calls return. *)
Definition Node_init (id : string) (type : NodeType) (title description : string)
    (kw : NodeKwargs) (now_created now_updated : datetime) : Node :=
  Node.mk id type title description
    (default NOT_STARTED (kw_status kw))
    (kw_source_document kw) (kw_source_location kw) (kw_source_text kw)
    (kw_checkbox_state kw) (kw_condition_met kw) (kw_deadline kw)
    (default now_created (kw_created_at kw))
    (default now_updated (kw_updated_at kw))
    (default 1%float (kw_confidence kw))
    (default [] (kw_tags kw))
    (default ∅ (kw_metadata kw))
    (kw_notes kw).

(** ** Insertion-ordered dictionaries *)

Definition pydict (V : Type) := list (string * V).

(** [d.get(k)] *)
Fixpoint dict_get {V} (k : string) (d : pydict V) : option V :=
  match d with
  | [] => None
  | (k', v) :: d' => if decide (k' = k) then Some v else dict_get k d'
  end.

(** [d[k] = v]: an existing key keeps its position, a new one goes last. *)
Fixpoint dict_set {V} (k : string) (v : V) (d : pydict V) : pydict V :=
  match d with
  | [] => [(k, v)]
  | (k', v') :: d' =>
      if decide (k' = k) then (k, v) :: d' else (k', v') :: dict_set k v d'
  end.

(** In-place change of the object stored under [k]. *)
Fixpoint dict_alter {V} (f : V → V) (k : string) (d : pydict V) : pydict V :=
  match d with
  | [] => []
  | (k', v) :: d' =>
      if decide (k' = k) then (k', f v) :: d' else (k', v) :: dict_alter f k d'
  end.

Fixpoint dict_remove {V} (k : string) (d : pydict V) : pydict V :=
  match d with
  | [] => []
  | (k', v) :: d' => if decide (k' = k) then d' else (k', v) :: dict_remove k d'
  end.

(** [del d[k]] *)
Definition dict_del {V} (k : string) (d : pydict V) : result (pydict V) :=
  match dict_get k d with
  | Some _ => Ok (dict_remove k d)
  | None => Raise (PyExn KeyError k)
  end.

Definition dict_keys {V} (d : pydict V) : list string := d.*1.
Definition dict_values {V} (d : pydict V) : list V := d.*2.

(** [del m[k]] on a dictionary kept as a [gmap]. *)
Definition gmap_del {V} (k : string) (m : gmap string V) : result (gmap string V) :=
  match m !! k with
  | Some _ => Ok (delete k m)
  | None => Raise (PyExn KeyError k)
  end.

(** ** The requirement graph *)

Record RequirementGraph := mkGraph {
  nodes : pydict Node;
  edges : pydict Edge;
  _adjacency : gmap string (list string);
  _reverse_adjacency : gmap string (list string) }.

(** [RequirementGraph()] *)
Definition graph_init : RequirementGraph := mkGraph [] [] ∅ ∅.

Definition set_nodes (ns : pydict Node) (g : RequirementGraph) : RequirementGraph :=
  mkGraph ns (edges g) (_adjacency g) (_reverse_adjacency g).
Definition set_edges (es : pydict Edge) (g : RequirementGraph) : RequirementGraph :=
  mkGraph (nodes g) es (_adjacency g) (_reverse_adjacency g).
Definition set_adjacency (m : gmap string (list string)) (g : RequirementGraph)
    : RequirementGraph :=
  mkGraph (nodes g) (edges g) m (_reverse_adjacency g).
Definition set_reverse_adjacency (m : gmap string (list string))
    (g : RequirementGraph) : RequirementGraph :=
  mkGraph (nodes g) (edges g) (_adjacency g) m.

(** [if k not in index: index[k] = []] *)
Definition index_touch (k : string) (m : gmap string (list string))
    : gmap string (list string) :=
  match m !! k with
  | Some _ => m
  | None => <[k := []]> m
  end.

(** [if k not in index: index[k] = []] followed by [index[k].append(eid)] *)
Definition index_append (k eid : string) (m : gmap string (list string))
    : gmap string (list string) :=
  <[k := default [] (m !! k) ++ [eid]]> m.

(** [add_node]; the method returns its argument. *)
Definition add_node (g : RequirementGraph) (node : Node) : RequirementGraph :=
  mkGraph (dict_set (Node.id node) node (nodes g))
          (edges g)
          (index_touch (Node.id node) (_adjacency g))
          (index_touch (Node.id node) (_reverse_adjacency g)).

(** [create_node]; [uid] is the value of [str(uuid.uuid4())], and
    [now_created] and [now_updated] are the values of the two calls of
    [datetime.now] that follow it. *)
Definition create_node (g : RequirementGraph) (uid : string)
    (now_created now_updated : datetime)
    (type : NodeType) (title description : string) (kw : NodeKwargs)
    : RequirementGraph * Node :=
  let node := Node_init uid type title description kw now_created now_updated in
  (add_node g node, node).

(** [add_edge]; the method returns its argument. *)
Definition add_edge (g : RequirementGraph) (edge : Edge) : RequirementGraph :=
  mkGraph (nodes g)
          (dict_set (Edge.id edge) edge (edges g))
          (index_append (Edge.source_id edge) (Edge.id edge) (_adjacency g))
          (index_append (Edge.target_id edge) (Edge.id edge) (_reverse_adjacency g)).

(** [connect]; [confidence] and [metadata] are the keyword arguments the
    [Edge] constructor leaves to [**kwargs]. *)
Definition connect (g : RequirementGraph) (uid : string)
    (source_id target_id : string) (type : EdgeType)
    (description : option string)
    (confidence : option float) (metadata : option (gmap string pyval))
    : RequirementGraph * Edge :=
  let edge := Edge.mk uid source_id target_id type description
                (default 1%float confidence) (default ∅ metadata) in
  (add_edge g edge, edge).

Definition get_node (g : RequirementGraph) (node_id : string) : option Node :=
  dict_get node_id (nodes g).

(** [[self.edges[eid] for eid in edge_ids]] *)
Fixpoint edges_of_ids (g : RequirementGraph) (edge_ids : list string)
    : result (list Edge) :=
  match edge_ids with
  | [] => Ok []
  | eid :: rest =>
      match dict_get eid (edges g) with
      | Some e => let* es := edges_of_ids g rest in Ok (e :: es)
      | None => Raise (PyExn KeyError eid)
      end
  end.

Definition get_outgoing_edges (g : RequirementGraph) (node_id : string)
    : result (list Edge) :=
  edges_of_ids g (default [] (_adjacency g !! node_id)).

Definition get_incoming_edges (g : RequirementGraph) (node_id : string)
    : result (list Edge) :=
  edges_of_ids g (default [] (_reverse_adjacency g !! node_id)).

(** [edge.type in (DEPENDS_ON, REQUIRES, CONDITIONAL_ON)] *)
Definition is_dependency_type (t : EdgeType) : bool :=
  match t with
  | DEPENDS_ON | REQUIRES | CONDITIONAL_ON => true
  | _ => false
  end.

Definition get_dependencies (g : RequirementGraph) (node_id : string)
    : result (list Node) :=
  let* es := get_outgoing_edges g node_id in
  Ok (omap (fun edge : Edge =>
              if is_dependency_type (Edge.type edge)
              then get_node g (Edge.target_id edge)
              else None) es).

Definition get_dependents (g : RequirementGraph) (node_id : string)
    : result (list Node) :=
  let* es := get_incoming_edges g node_id in
  Ok (omap (fun edge : Edge =>
              if is_dependency_type (Edge.type edge)
              then get_node g (Edge.source_id edge)
              else None) es).

Definition get_nodes_by_type (g : RequirementGraph) (node_type : NodeType)
    : list Node :=
  filter (fun n => Node.type n = node_type) (dict_values (nodes g)).

Definition get_nodes_by_status (g : RequirementGraph) (status : CompletionStatus)
    : list Node :=
  filter (fun n => Node.status n = status) (dict_values (nodes g)).

Definition get_nodes_by_document (g : RequirementGraph) (document_path : string)
    : list Node :=
  filter (fun n => Node.source_document n = Some document_path)
         (dict_values (nodes g)).

(** *** Status updates *)

(** [node.status = status; node.updated_at = datetime.now()] on the node
    stored under [node_id]. *)
Definition assign_status (g : RequirementGraph) (node_id : string)
    (status : CompletionStatus) (now : datetime) : RequirementGraph :=
  set_nodes
    (dict_alter (fun n => Node.set_updated_at now (Node.set_status status n))
                node_id (nodes g)) g.

(** One iteration of the loop of [_propagate_completion].  [dependent] is
    an element of the list [get_dependents] returned before the loop; its
    fields are read from the object as it is now. *)
Definition propagate_step (now : datetime) (g : RequirementGraph)
    (dependent : Node) : result RequirementGraph :=
  match get_node g (Node.id dependent) with
  | Some live =>
      if decide (Node.status live = BLOCKED) then
        let* deps := get_dependencies g (Node.id live) in
        if forallb (fun dep => bool_decide (Node.status dep = COMPLETED)) deps
        then Ok (assign_status g (Node.id dependent) NOT_STARTED now)
        else Ok g
      else Ok g
  | None => Ok g
  end.

(** A [for] loop whose body can raise. *)
Fixpoint for_each {S A} (body : S → A → result S) (s : S) (l : list A) : result S :=
  match l with
  | [] => Ok s
  | x :: l' => let* s' := body s x in for_each body s' l'
  end.

Definition _propagate_completion (g : RequirementGraph)
    (completed_node_id : string) (now : datetime) : result RequirementGraph :=
  let* dependents := get_dependents g completed_node_id in
  for_each (propagate_step now) g dependents.

(** [update_status]: the new graph and the returned value ([None] for an
    unknown id, the updated node otherwise). *)
Definition update_status (g : RequirementGraph) (node_id : string)
    (status : CompletionStatus) (now : datetime)
    : result (RequirementGraph * option Node) :=
  match get_node g node_id with
  | None => Ok (g, None)
  | Some _ =>
      let g1 := assign_status g node_id status now in
      (* If completed, check if any blocked nodes can be unblocked *)
      let* g2 := (if decide (status = COMPLETED)
                  then _propagate_completion g1 node_id now
                  else Ok g1) in
      Ok (g2, get_node g2 node_id)
  end.

(** The body of the inner loop of [evaluate_conditions] for the condition
    node [node] and one of its incoming edges. *)
Definition evaluate_edge (node : Node) (g : RequirementGraph) (edge : Edge)
    : result RequirementGraph :=
  if decide (Edge.type edge = CONDITIONAL_ON) then
    match get_node g (Edge.source_id edge) with
    | Some dependent =>
        if decide (Node.condition_met node = Some false) then
          Ok (set_nodes (dict_alter (Node.set_status NOT_APPLICABLE)
                           (Edge.source_id edge) (nodes g)) g)
        else if decide (Node.status dependent = NOT_APPLICABLE) then
          Ok (set_nodes (dict_alter (Node.set_status NOT_STARTED)
                           (Edge.source_id edge) (nodes g)) g)
        else Ok g
    | None => Ok g
    end
  else Ok g.

Definition evaluate_conditions (g : RequirementGraph) : result RequirementGraph :=
  for_each
    (fun g node =>
       let* es := get_incoming_edges g (Node.id node) in
       for_each (evaluate_edge node) g es)
    g (get_nodes_by_type g CONDITION).

(** *** Queries *)

Definition is_open_status (s : CompletionStatus) : bool :=
  match s with NOT_STARTED | IN_PROGRESS => true | _ => false end.

Definition is_done_status (s : CompletionStatus) : bool :=
  match s with COMPLETED | NOT_APPLICABLE => true | _ => false end.

(** The loop of [get_actionable_items] over [self.nodes.values()]. *)
Fixpoint actionable_loop (g : RequirementGraph) (ns : list Node)
    : result (list Node) :=
  match ns with
  | [] => Ok []
  | node :: rest =>
      if is_open_status (Node.status node) then
        let* deps := get_dependencies g (Node.id node) in
        let all_deps_complete :=
          forallb (fun dep => is_done_status (Node.status dep)) deps in
        let* actionable := actionable_loop g rest in
        Ok (if all_deps_complete then node :: actionable else actionable)
      else actionable_loop g rest
  end.

Definition get_actionable_items (g : RequirementGraph) : result (list Node) :=
  actionable_loop g (dict_values (nodes g)).

Record CompletionStats := mkStats {
  total_nodes : nat;
  by_status : gmap string nat;
  completion_percentage : pynum;
  applicable_items : nat;
  completed_items : nat }.

(** [{status.value: 0 for status in CompletionStatus}] *)
Definition stats_init : gmap string nat :=
  list_to_map ((fun s => (CompletionStatus_value s, 0)) <$> all_CompletionStatus).

(** [stats[node.status.value] += 1] for every node. *)
Definition count_statuses (ns : list Node) : gmap string nat :=
  foldl (fun stats node =>
           let k := CompletionStatus_value (Node.status node) in
           <[k := S (default 0 (stats !! k))]> stats)
        stats_init ns.

Definition get_completion_stats (g : RequirementGraph) : CompletionStats :=
  let stats := count_statuses (dict_values (nodes g)) in
  let total := length (nodes g) in
  let completed := default 0 (stats !! CompletionStatus_value COMPLETED) in
  let not_applicable := default 0 (stats !! CompletionStatus_value NOT_APPLICABLE) in
  let applicable_total := total - not_applicable in
  let percentage :=
    if 0 <? applicable_total
    then PyFloat (PrimFloat.mul
                    (PrimFloat.div (float_of_nat completed) (float_of_nat applicable_total))
                    (float_of_Z 100))
    else PyInt 0 in
  mkStats total stats (round1 percentage) applicable_total completed.

(** *** Merging duplicates *)

(** [edge.target_id = node_id_1], then the append to the reverse index. *)
Definition repoint_incoming (node_id_1 : string) (g : RequirementGraph)
    (edge : Edge) : RequirementGraph :=
  mkGraph (nodes g)
          (dict_alter (Edge.set_target_id node_id_1) (Edge.id edge) (edges g))
          (_adjacency g)
          (index_append node_id_1 (Edge.id edge) (_reverse_adjacency g)).

(** [edge.source_id = node_id_1], then the append to the forward index. *)
Definition repoint_outgoing (node_id_1 : string) (g : RequirementGraph)
    (edge : Edge) : RequirementGraph :=
  mkGraph (nodes g)
          (dict_alter (Edge.set_source_id node_id_1) (Edge.id edge) (edges g))
          (index_append node_id_1 (Edge.id edge) (_adjacency g))
          (_reverse_adjacency g).

(** [list(set(a + b))]: the distinct elements, in the order of the set. *)
Definition tags_union (a b : list string) : list string :=
  elements (list_to_set (a ++ b) : gset string).

(** [a.update(b)]: the keys of [b] overwrite those of [a]. *)
Definition dict_update {V} (a b : gmap string V) : gmap string V := b ∪ a.

(** The three assignments to [node1] under "Merge metadata". *)
Definition merge_into (node1 node2 : Node) : Node :=
  let merged := Node.set_tags (tags_union (Node.tags node1) (Node.tags node2)) node1 in
  let merged := Node.set_metadata
                  (dict_update (Node.metadata node1) (Node.metadata node2)) merged in
  if opt_str_truthy (Node.source_text node2)
     && negb (opt_str_truthy (Node.source_text node1))
  then Node.set_source_text (Node.source_text node2) merged
  else merged.

Definition merge_duplicate_nodes (g : RequirementGraph)
    (node_id_1 node_id_2 : string) : result (RequirementGraph * option Node) :=
  match get_node g node_id_1, get_node g node_id_2 with
  | Some node1, Some node2 =>
      (* Transfer incoming edges *)
      let* incoming := get_incoming_edges g node_id_2 in
      let g := foldl (repoint_incoming node_id_1) g incoming in
      (* Transfer outgoing edges *)
      let* outgoing := get_outgoing_edges g node_id_2 in
      let g := foldl (repoint_outgoing node_id_1) g outgoing in
      (* Merge metadata *)
      let merged := merge_into node1 node2 in
      let g := set_nodes (dict_alter (fun _ => merged) node_id_1 (nodes g)) g in
      (* Remove node2 *)
      let* ns := dict_del node_id_2 (nodes g) in
      let* adj := gmap_del node_id_2 (_adjacency g) in
      let* radj := gmap_del node_id_2 (_reverse_adjacency g) in
      Ok (mkGraph ns (edges g) adj radj, Some merged)
  | _, _ => Ok (g, None)
  end.

(** *** Serialization *)

(** The dictionary [Node.to_dict] builds.  A field read by [from_dict]
    through [data.get(key, default)] with a default other than [None] is an
    [option] whose [None] stands for a missing key. *)
Module NodeDict.
Record t := mk {
  id : string;
  type : string;
  title : string;
  description : string;
  status : string;
  source_document : option string;
  source_location : option string;
  source_text : option string;
  checkbox_state : option bool;
  condition_met : option bool;
  deadline : option string;
  created_at : string;
  updated_at : string;
  confidence : option float;
  tags : option (list string);
  metadata : option (gmap string pyval);
  notes : option string }.
End NodeDict.
Abbreviation NodeDict := NodeDict.t.

Module EdgeDict.
Record t := mk {
  id : string;
  source_id : string;
  target_id : string;
  type : string;
  description : option string;
  confidence : option float;
  metadata : option (gmap string pyval) }.
End EdgeDict.
Abbreviation EdgeDict := EdgeDict.t.

Record GraphDict := mkGraphDict {
  gd_nodes : option (list NodeDict);
  gd_edges : option (list EdgeDict) }.

Definition Node_to_dict (n : Node) : NodeDict :=
  NodeDict.mk
    (Node.id n)
    (NodeType_value (Node.type n))
    (Node.title n)
    (Node.description n)
    (CompletionStatus_value (Node.status n))
    (Node.source_document n)
    (Node.source_location n)
    (Node.source_text n)
    (Node.checkbox_state n)
    (Node.condition_met n)
    (isoformat <$> Node.deadline n)
    (isoformat (Node.created_at n))
    (isoformat (Node.updated_at n))
    (Some (Node.confidence n))
    (Some (Node.tags n))
    (Some (Node.metadata n))
    (Node.notes n).

Definition Edge_to_dict (e : Edge) : EdgeDict :=
  EdgeDict.mk
    (Edge.id e)
    (Edge.source_id e)
    (Edge.target_id e)
    (EdgeType_value (Edge.type e))
    (Edge.description e)
    (Some (Edge.confidence e))
    (Some (Edge.metadata e)).

Definition Edge_from_dict (data : EdgeDict) : result Edge :=
  let* type := EdgeType_of_value (EdgeDict.type data) in
  Ok (Edge.mk
        (EdgeDict.id data)
        (EdgeDict.source_id data)
        (EdgeDict.target_id data)
        type
        (EdgeDict.description data)
        (default 1%float (EdgeDict.confidence data))
        (default ∅ (EdgeDict.metadata data))).

Definition to_dict (g : RequirementGraph) : GraphDict :=
  mkGraphDict (Some (Node_to_dict <$> dict_values (nodes g)))
              (Some (Edge_to_dict <$> dict_values (edges g))).

(** ** Strings *)

(** [hay.startswith(needle)] *)
Fixpoint is_prefix (needle hay : string) : bool :=
  match needle with
  | EmptyString => true
  | String a needle' =>
      match hay with
      | String b hay' => bool_decide (a = b) && is_prefix needle' hay'
      | EmptyString => false
      end
  end.

(** [needle in hay] *)
Fixpoint str_contains (needle hay : string) : bool :=
  if is_prefix needle hay then true
  else match hay with
       | EmptyString => false
       | String _ hay' => str_contains needle hay'
       end.

(** [s.split(sep)] for a one-character separator: the current piece [cur]
    is closed at every [sep]. *)
Fixpoint split_on (sep : ascii) (cur : string) (s : string) : list string :=
  match s with
  | EmptyString => [cur]
  | String c s' =>
      if bool_decide (c = sep) then cur :: split_on sep "" s'
      else split_on sep (cur +:+ String c "") s'
  end.

Definition str_split (sep : ascii) (s : string) : list string := split_on sep "" s.

(** Instances of [str.lower] and [str.strip] on ASCII text: the letters
    [A]-[Z] go to [a]-[z] and the other bytes are kept; the six ASCII white
    space characters are removed at both ends. *)
Definition ascii_lower_char (c : ascii) : ascii :=
  let n := N_of_ascii c in
  if ((65 <=? n) && (n <=? 90))%N then ascii_of_N (n + 32) else c.

Fixpoint ascii_lower (s : string) : string :=
  match s with
  | EmptyString => EmptyString
  | String c s' => String (ascii_lower_char c) (ascii_lower s')
  end.

Definition is_ascii_space (c : ascii) : bool :=
  let n := N_of_ascii c in
  ((n =? 32) || ((9 <=? n) && (n <=? 13)))%N.

Fixpoint lstrip (s : string) : string :=
  match s with
  | String c s' => if is_ascii_space c then lstrip s' else s
  | EmptyString => EmptyString
  end.

Definition ascii_strip (s : string) : string :=
  String.rev (lstrip (String.rev (lstrip s))).

(** A byte below 128: every byte of an ASCII string is one. *)
Definition is_ascii_char (c : ascii) : bool := (N_of_ascii c <? 128)%N.

Fixpoint is_ascii_string (s : string) : bool :=
  match s with
  | EmptyString => true
  | String c s' => is_ascii_char c && is_ascii_string s'
  end.

(** ** The to-do generator ([todo.py]) and the extractor ([extractor.py]) *)

Inductive Priority := CRITICAL | HIGH | MEDIUM | LOW.

#[global] Instance Priority_eq_dec : EqDecision Priority.
Proof. solve_decision. Defined.

(** Keywords that indicate critical/exclusion items. *)
Definition CRITICAL_KEYWORDS : list string :=
  ["ausschluss"; "zwingend"; "muss"; "pflicht"; "erforderlich";
   "unbedingt"; "ausgeschlossen"; "nicht berücksichtigt";
   "fehlen"; "mangel"; "ungültig"; "disqualif"].

(** An item of the [tender_extraction] schema; every property is
    required by the schema. *)
Module Item.
Record t := mk {
  item_type : string;
  title : string;
  description : string;
  source_text : string;
  source_location : string;
  is_required : bool;
  is_checked : bool;
  deadline_date : string;
  confidence : float;
  tags_csv : string;
  requires_item : string;
  conditional_on_item : string }.
End Item.
Abbreviation Item := Item.t.

Record Extraction := mkExtraction {
  document_summary : string;
  document_type : string;
  items : list Item }.

(** [raw_extraction]: [{}], [{"raw_response": text}] or the parsed
    response. *)
Inductive RawExtraction :=
| RawEmpty
| RawResponse (text : string)
| RawParsed (extraction : Extraction).

Record ExtractionResult := mkExtractionResult {
  document_path : string;
  nodes_created : list string;
  edges_created : list string;
  raw_extraction : RawExtraction;
  error : option string }.

Module DocumentContent.
Record t := mk {
  path : string;
  filename : string;
  text : string;
  error : option string }.
End DocumentContent.
Abbreviation DocumentContent := DocumentContent.t.

(** What one call of [client.chat.completions.create] does: it raises, or
    it returns a response whose shape the checks of [extract] tell apart. *)
Inductive llm_outcome :=
| LLMRaises (e : pyexn)
| LLMNone
| LLMNoChoices
| LLMEmptyChoices
| LLMMessageNone
| LLMContentNone
| LLMContent (response_text : string).

(** The effects of the extractor besides the graph: the number of calls
    made to the LLM client, the number of identifiers drawn from
    [uuid.uuid4], the seconds passed to [time.sleep], the extractor's own
    [processed_documents], and the number of calls of [datetime.now]. *)
Record World := mkWorld {
  llm_calls : nat;
  uuids_drawn : nat;
  slept : list nat;
  processed_documents : gset string;
  clock_reads : nat }.

Section Environment.

(** [str.lower] and [str.strip]. *)
Variable lower : string → string.
Variable strip : string → string.
(** [datetime.fromisoformat]; it raises [ValueError]. *)
Variable fromisoformat : string → result datetime.
(** [json.loads] on a response of the [tender_extraction] schema. *)
Variable json_loads : string → result Extraction.
(** The [i]-th value of [str(uuid.uuid4())]. *)
Variable uuid4 : nat → string.
(** [hashlib.md5(content.encode()).hexdigest()]. *)
Variable md5 : string → string.
(** The outcome of the [i]-th call of the LLM client. *)
Variable client : nat → llm_outcome.

Definition Node_from_dict (data : NodeDict) : result Node :=
  let* type := NodeType_of_value (NodeDict.type data) in
  let* status := CompletionStatus_of_value (NodeDict.status data) in
  let* deadline :=
    (if opt_str_truthy (NodeDict.deadline data)
     then let* d := fromisoformat (default "" (NodeDict.deadline data)) in Ok (Some d)
     else Ok None) in
  let* created_at := fromisoformat (NodeDict.created_at data) in
  let* updated_at := fromisoformat (NodeDict.updated_at data) in
  Ok (Node.mk
        (NodeDict.id data)
        type
        (NodeDict.title data)
        (NodeDict.description data)
        status
        (NodeDict.source_document data)
        (NodeDict.source_location data)
        (NodeDict.source_text data)
        (NodeDict.checkbox_state data)
        (NodeDict.condition_met data)
        deadline
        created_at
        updated_at
        (default 1%float (NodeDict.confidence data))
        (default [] (NodeDict.tags data))
        (default ∅ (NodeDict.metadata data))
        (NodeDict.notes data)).

Definition from_dict (data : GraphDict) : result RequirementGraph :=
  let* g := for_each
              (fun g node_data =>
                 let* node := Node_from_dict node_data in Ok (add_node g node))
              graph_init (default [] (gd_nodes data)) in
  for_each
    (fun g edge_data =>
       let* edge := Edge_from_dict edge_data in Ok (add_edge g edge))
    g (default [] (gd_edges data)).

(** [find_nodes] *)
Definition find_nodes (g : RequirementGraph) (query : string) : list Node :=
  let query_lower := lower query in
  filter (fun n =>
            str_contains query_lower (lower (Node.title n))
            || str_contains query_lower (lower (Node.description n)) = true)
         (dict_values (nodes g)).

(** *** [TodoGenerator] *)

Definition _determine_priority (g : RequirementGraph) (node : Node)
    : result Priority :=
  (* Check for critical keywords *)
  let text_to_check :=
    lower (Node.title node +:+ Node.description node
           +:+ default "" (Node.source_text node)) in
  if existsb (fun keyword => str_contains keyword text_to_check) CRITICAL_KEYWORDS
  then Ok CRITICAL
  else
    (* Check metadata *)
    match Node.metadata node !! "is_required" with
    | Some (PBool true) => Ok HIGH
    | _ =>
        (* Check node type *)
        match Node.type node with
        | SIGNATURE => Ok CRITICAL
        | DEADLINE => Ok CRITICAL
        | DOCUMENT => Ok HIGH
        | _ =>
            (* Check if it blocks many other items *)
            let* dependents := get_dependents g (Node.id node) in
            if 3 <=? length dependents then Ok HIGH
            else
              (* Conditional items are medium priority *)
              let* incoming_edges := get_incoming_edges g (Node.id node) in
              if existsb (fun edge =>
                            bool_decide (EdgeType_value (Edge.type edge) = "conditional_on"))
                         incoming_edges
              then Ok MEDIUM
              else Ok MEDIUM
        end
    end.

(** The [blocked_by] and [blocks] lists [_node_to_todo] computes:
    the titles of the dependencies and of the dependents that are not
    completed. *)
Definition todo_blocked_by (g : RequirementGraph) (node : Node) : result (list string) :=
  let* deps := get_dependencies g (Node.id node) in
  Ok (Node.title <$> filter (fun dep => Node.status dep ≠ COMPLETED) deps).

Definition todo_blocks (g : RequirementGraph) (node : Node) : result (list string) :=
  let* deps := get_dependents g (Node.id node) in
  Ok (Node.title <$> filter (fun dep => Node.status dep ≠ COMPLETED) deps).

(** *** [RequirementExtractor] *)

(** [DocumentContent.is_successful] *)
Definition is_successful (d : DocumentContent) : bool :=
  match DocumentContent.error d with
  | None => 0 <? String.length (strip (DocumentContent.text d))
  | Some _ => false
  end.

Definition item_type_mapping : pydict NodeType :=
  [("document", DOCUMENT); ("requirement", REQUIREMENT);
   ("condition", CONDITION); ("checkbox", CHECKBOX);
   ("signature", SIGNATURE); ("field", FIELD);
   ("attachment", ATTACHMENT); ("deadline", DEADLINE)].

Definition _map_item_type (type_str : string) : NodeType :=
  default REQUIREMENT (dict_get (lower type_str) item_type_mapping).

Definition max_retries : nat := 3.
Definition retry_delay : nat := 2.

Definition transient_markers : list string :=
  ["rate limit"; "timeout"; "connection"; "temporary";
   "429"; "500"; "502"; "503"; "504"; "overloaded"].

(** [any(x in error_str for x in [...])] with [error_str = str(e).lower()] *)
Definition retryable (e : pyexn) : bool :=
  let error_str := lower (exn_text e) in
  existsb (fun x => str_contains x error_str) transient_markers.

Definition sleep (seconds : nat) (w : World) : World :=
  mkWorld (llm_calls w) (uuids_drawn w) (slept w ++ [seconds]) (processed_documents w)
          (clock_reads w).

(** The call of the client and the checks on the shape of its response;
    the value is [response.choices[0].message.content]. *)
Definition call_llm (w : World) : World * result string :=
  let w' := mkWorld (S (llm_calls w)) (uuids_drawn w) (slept w) (processed_documents w)
                    (clock_reads w) in
  (w', match client (llm_calls w) with
       | LLMRaises e => Raise e
       | LLMNone => Raise (PyExn ValueError "API returned None response")
       | LLMNoChoices => Raise (PyExn ValueError "API response has no choices")
       | LLMEmptyChoices => Raise (PyExn ValueError "API response has empty choices list")
       | LLMMessageNone => Raise (PyExn ValueError "API response message is None")
       | LLMContentNone => Raise (PyExn ValueError "API response content is None")
       | LLMContent response_text => Ok response_text
       end).

(** What the [try] block of an attempt ends with when its call of the
    client is the [i]-th one: the parsed response, or the exception raised
    by the call, by the checks on the shape of the response or by
    [json.loads]. *)
Definition try_outcome (i : nat) : result Extraction :=
  let* response_text := (call_llm (mkWorld i 0 [] ∅ 0)).2 in
  json_loads response_text.

(** How the retry loop is left: by [break] with the parsed response, by
    [return] with an error result, or by running out of attempts. *)
Inductive loop_exit :=
| Break (extraction : Extraction)
| Return (r : ExtractionResult)
| Exhausted.

Definition error_result (document : DocumentContent) (raw : RawExtraction)
    (msg : string) : ExtractionResult :=
  mkExtractionResult (DocumentContent.path document) [] [] raw (Some msg).

(** The [try] block of one attempt: the world after it, the value of
    [response_text] after it, and the parsed response or the exception. *)
Definition attempt_body (attempt : nat) (w : World) (response_text : option string)
    : World * option string * result Extraction :=
  let w := if 0 <? attempt then sleep (retry_delay * 2 ^ (attempt - 1)) w else w in
  let '(w, r) := call_llm w in
  match r with
  | Ok text => (w, Some text, json_loads text)
  | Raise e => (w, response_text, Raise e)
  end.

(** [for attempt in range(max_retries)], by recursion on the attempts
    left. *)
Fixpoint retry_loop (document : DocumentContent) (attempts : list nat)
    (w : World) (response_text : option string) : World * loop_exit :=
  match attempts with
  | [] => (w, Exhausted)
  | attempt :: rest =>
      let '(w, response_text, r) := attempt_body attempt w response_text in
      match r with
      | Ok extraction => (w, Break extraction)
      | Raise e =>
          match exn_kind e with
          | JSONDecodeError =>
              let last_error := "Failed to parse LLM response as JSON: " +:+ exn_text e in
              if decide (attempt = max_retries - 1)
              then (w, Return (error_result document
                                 (RawResponse (default "" response_text)) last_error))
              else retry_loop document rest w response_text
          | ValueError =>
              let last_error := "Empty API response: " +:+ exn_text e in
              if decide (attempt = max_retries - 1)
              then (w, Return (error_result document RawEmpty last_error))
              else retry_loop document rest w response_text
          | _ =>
              let last_error := "LLM API error: " +:+ exn_text e in
              if retryable e && (attempt <? max_retries - 1)
              then retry_loop document rest w response_text
              else (w, Return (error_result document RawEmpty last_error))
          end
      end
  end.

(** [[t.strip() for t in tags_csv.split(",") if t.strip()] if tags_csv else []] *)
Definition parse_tags (tags_csv : string) : list string :=
  if str_truthy tags_csv
  then filter (fun t => str_truthy t = true) (strip <$> str_split "," tags_csv)
  else [].

(** The state of the two loops over the items. *)
Record ExtractState := mkExtractState {
  es_graph : RequirementGraph;
  es_world : World;
  es_nodes_created : list string;
  es_edges_created : list string;
  es_title_to_node : gmap string string }.

Definition draw_uuid (w : World) : string * World :=
  (uuid4 (uuids_drawn w),
   mkWorld (llm_calls w) (S (uuids_drawn w)) (slept w) (processed_documents w)
           (clock_reads w)).

(** A call of [datetime.now]; [now i] is the value of the [i]-th call. *)
Definition read_clock (now : nat → datetime) (w : World) : datetime * World :=
  (now (clock_reads w),
   mkWorld (llm_calls w) (uuids_drawn w) (slept w) (processed_documents w)
           (S (clock_reads w))).

(** The body of the first loop: one node per extracted item. *)
Definition create_item_node (now : nat → datetime) (document : DocumentContent)
    (extraction : Extraction) (st : ExtractState) (item : Item) : ExtractState :=
  let node_type := _map_item_type (Item.item_type item) in
  let tags := parse_tags (Item.tags_csv item) in
  let metadata : gmap string pyval :=
    <["document_type" := PStr (document_type extraction)]>
      (<["is_required" := PBool (Item.is_required item)]> ∅) in
  let '(uid, w) := draw_uuid (es_world st) in
  let '(now_created, w) := read_clock now w in
  let '(now_updated, w) := read_clock now w in
  let '(g, node) :=
    create_node (es_graph st) uid now_created now_updated node_type
      (Item.title item) (Item.description item)
      (mkNodeKwargs None
         (Some (DocumentContent.path document))
         (Some (Item.source_location item))
         (Some (Item.source_text item))
         None None None None None
         (Some (Item.confidence item))
         (Some tags)
         (Some metadata)
         None) in
  (* Handle checkbox state *)
  let g :=
    if decide (node_type = CHECKBOX) then
      set_nodes
        (dict_alter
           (fun n =>
              let n := Node.set_checkbox_state (Some (Item.is_checked item)) n in
              if Item.is_checked item then Node.set_status COMPLETED n else n)
           (Node.id node) (nodes g)) g
    else g in
  (* Handle deadline *)
  let deadline_str := Item.deadline_date item in
  let g :=
    if str_truthy deadline_str && str_truthy (strip deadline_str) then
      match fromisoformat deadline_str with
      | Ok d =>
          set_nodes (dict_alter (Node.set_deadline (Some d)) (Node.id node) (nodes g)) g
      | Raise _ =>
          set_nodes
            (dict_alter
               (fun n => Node.set_metadata
                           (<["deadline_raw" := PStr deadline_str]> (Node.metadata n)) n)
               (Node.id node) (nodes g)) g
      end
    else g in
  mkExtractState g w
    (es_nodes_created st ++ [Node.id node])
    (es_edges_created st)
    (<[lower (Item.title item) := Node.id node]> (es_title_to_node st)).

(** One relationship of an item ([requires_item] or
    [conditional_on_item]): resolve the referenced title, in this batch
    first and in the whole graph otherwise, and connect. *)
Definition link_reference (source_id item_title reference : string)
    (type : EdgeType) (verb : string) (st : ExtractState) : ExtractState :=
  if str_truthy reference && str_truthy (strip reference) then
    let target_title := lower (strip reference) in
    let target_id := es_title_to_node st !! target_title in
    (* Also search existing graph for target *)
    let target_id :=
      if opt_str_truthy target_id then target_id
      else match find_nodes (es_graph st) (strip reference) with
           | existing :: _ => Some (Node.id existing)
           | [] => target_id
           end in
    match target_id with
    | Some target =>
        if str_truthy target && negb (bool_decide (target = source_id)) then
          let '(uid, w) := draw_uuid (es_world st) in
          let '(g, edge) :=
            connect (es_graph st) uid source_id target type
              (Some (item_title +:+ verb +:+ reference)) None None in
          mkExtractState g w (es_nodes_created st)
            (es_edges_created st ++ [Edge.id edge]) (es_title_to_node st)
        else st
    | None => st
    end
  else st.

(** The body of the second loop: the edges of one item. *)
Definition link_item (st : ExtractState) (item : Item) : ExtractState :=
  let source_title := lower (Item.title item) in
  match es_title_to_node st !! source_title with
  | Some source_id =>
      if str_truthy source_id then
        let st := link_reference source_id (Item.title item)
                    (Item.requires_item item) REQUIRES " requires " st in
        link_reference source_id (Item.title item)
          (Item.conditional_on_item item) CONDITIONAL_ON " conditional on " st
      else st
  | None => st
  end.

(** [extract].  The prompt sent to the client, and with it the truncation
    of the document text, reaches nothing but the client, whose outcomes
    [client] gives call by call. *)
Definition extract (now : nat → datetime) (document : DocumentContent)
    (g : RequirementGraph) (w : World)
    : result (ExtractionResult * RequirementGraph * World) :=
  if opt_str_truthy (DocumentContent.error document) || negb (is_successful document)
  then
    Ok (error_result document RawEmpty
          (if opt_str_truthy (DocumentContent.error document)
           then default "" (DocumentContent.error document)
           else "No content extracted"),
        g, w)
  else
    match retry_loop document (seq 0 max_retries) w None with
    | (w, Return r) => Ok (r, g, w)
    | (w, Exhausted) =>
        Raise (PyExn OtherException "local variable 'extraction' referenced before assignment")
    | (w, Break extraction) =>
        let st := mkExtractState g w [] [] ∅ in
        let st := foldl (create_item_node now document extraction) st (items extraction) in
        let st := foldl link_item st (items extraction) in
        let w := es_world st in
        let w := mkWorld (llm_calls w) (uuids_drawn w) (slept w)
                   ({[ DocumentContent.path document ]} ∪ processed_documents w)
                   (clock_reads w) in
        Ok (mkExtractionResult (DocumentContent.path document)
              (es_nodes_created st) (es_edges_created st)
              (RawParsed extraction) None,
            es_graph st, w)
    end.

(** *** [IncrementalExtractor] *)

(** [for node in old_nodes: del graph.nodes[node.id]] *)
Definition delete_nodes (g : RequirementGraph) (old_nodes : list Node)
    : result RequirementGraph :=
  for_each
    (fun g node =>
       let* ns := dict_del (Node.id node) (nodes g) in Ok (set_nodes ns g))
    g old_nodes.

Record IncrementalState := mkIncrementalState {
  document_hashes : gmap string string;
  inc_graph : RequirementGraph;
  inc_world : World;
  inc_results : list ExtractionResult }.

(** The body of the loop of [process_new_or_changed]. *)
Definition process_document (now : nat → datetime) (st : IncrementalState)
    (doc : DocumentContent) : result IncrementalState :=
  let content_hash := md5 (DocumentContent.text doc) in
  let reprocess (g : RequirementGraph) : result IncrementalState :=
    let* (r, g, w) := extract now doc g (inc_world st) in
    Ok (mkIncrementalState
          (<[DocumentContent.path doc := content_hash]> (document_hashes st))
          g w (inc_results st ++ [r])) in
  match document_hashes st !! DocumentContent.path doc with
  | Some known =>
      if decide (known = content_hash) then Ok st
      else
        (* Document changed - remove old nodes and reprocess *)
        let old_nodes := get_nodes_by_document (inc_graph st) (DocumentContent.path doc) in
        let* g := delete_nodes (inc_graph st) old_nodes in
        reprocess g
  | None => reprocess (inc_graph st)
  end.

Definition process_new_or_changed (now : nat → datetime)
    (document_hashes : gmap string string)
    (documents : list DocumentContent) (g : RequirementGraph) (w : World)
    : result IncrementalState :=
  for_each (process_document now)
           (mkIncrementalState document_hashes g w []) documents.

End Environment.


(** ** Representation invariants *)

(** The two indices list identifiers of stored edges only. *)
Definition index_closed (g : RequirementGraph) : Prop :=
  (∀ k l eid, _adjacency g !! k = Some l → eid ∈ l →
              is_Some (dict_get eid (edges g)))
  ∧ (∀ k l eid, _reverse_adjacency g !! k = Some l → eid ∈ l →
                is_Some (dict_get eid (edges g))).

(** What [add_node], [add_edge] and the other operations of the graph
    keep true: a key occurs once, an object is stored under its own id,
    the indices are closed, a stored node has its two index entries, and a
    stored edge is listed under its source and under its target. *)
Record graph_wf (g : RequirementGraph) : Prop := mk_graph_wf {
  wf_node_keys : NoDup (dict_keys (nodes g));
  wf_edge_keys : NoDup (dict_keys (edges g));
  wf_node_id : ∀ k n, dict_get k (nodes g) = Some n → Node.id n = k;
  wf_edge_id : ∀ k e, dict_get k (edges g) = Some e → Edge.id e = k;
  wf_index_closed : index_closed g;
  wf_node_indexed : ∀ k, is_Some (dict_get k (nodes g)) →
      is_Some (_adjacency g !! k) ∧ is_Some (_reverse_adjacency g !! k);
  wf_edge_indexed : ∀ k e, dict_get k (edges g) = Some e →
      (∃ l, _adjacency g !! Edge.source_id e = Some l ∧ k ∈ l)
      ∧ (∃ l, _reverse_adjacency g !! Edge.target_id e = Some l ∧ k ∈ l) }.

(** The timestamps of a node are [datetime] objects. *)
Definition node_times_ok (n : Node) : Prop :=
  datetime_ok (Node.created_at n) = true
  ∧ datetime_ok (Node.updated_at n) = true
  ∧ ∀ d, Node.deadline n = Some d → datetime_ok d = true.

Definition graph_times_ok (g : RequirementGraph) : Prop :=
  ∀ k n, dict_get k (nodes g) = Some n → node_times_ok n.

(** The graphs built from [RequirementGraph()] by the public mutating
    methods, with a node never merged with itself: [merge_duplicate_nodes]
    takes two equal ids as well, but that call deletes the node and leaves
    its edges out of the indices, so the graphs after it are not among
    these.  [create_node] and [connect] are [add_node] and [add_edge] on a
    fresh object. *)
Inductive reachable : RequirementGraph → Prop :=
| reach_init : reachable graph_init
| reach_add_node g node :
    reachable g → node_times_ok node → reachable (add_node g node)
| reach_add_edge g edge :
    reachable g → reachable (add_edge g edge)
| reach_update_status g node_id status now g' r :
    reachable g → datetime_ok now = true →
    update_status g node_id status now = Ok (g', r) → reachable g'
| reach_evaluate_conditions g g' :
    reachable g → evaluate_conditions g = Ok g' → reachable g'
| reach_merge g node_id_1 node_id_2 g' r :
    reachable g → node_id_1 ≠ node_id_2 →
    merge_duplicate_nodes g node_id_1 node_id_2 = Ok (g', r) → reachable g'.

(** ** The state [update_status] leaves *)

(** All dependencies of the node stored under [k] are completed. *)
Definition deps_all_completed (g : RequirementGraph) (k : string) : bool :=
  match get_dependencies g k with
  | Ok deps => forallb (fun dep => bool_decide (Node.status dep = COMPLETED)) deps
  | Raise _ => false
  end.

(** The node stored under [k] is lifted by a propagation over the
    dependents [ids]: it is one of them, it is blocked, and all its
    dependencies are completed. *)
Definition lifts (g : RequirementGraph) (ids : list string) (k : string) (o : Node)
    : bool :=
  bool_decide (k ∈ ids)
  && bool_decide (Node.status o = BLOCKED)
  && deps_all_completed g k.

Definition lift (now : datetime) (o : Node) : Node :=
  Node.set_updated_at now (Node.set_status NOT_STARTED o).

(** The values of a dictionary changed in place, key by key. *)
Definition dict_map {V} (h : string → V → V) (d : pydict V) : pydict V :=
  (fun kv : string * V => (kv.1, h kv.1 kv.2)) <$> d.

(** The graph after a propagation over the dependents [ids]. *)
Definition lift_all (now : datetime) (g : RequirementGraph) (ids : list string)
    : RequirementGraph :=
  set_nodes
    (dict_map (fun k o => if lifts g ids k o then lift now o else o) (nodes g)) g.

(** ** Readiness *)

(** All dependencies of the node stored under [k] are completed or not
    applicable. *)
Definition deps_all_done (g : RequirementGraph) (k : string) : bool :=
  match get_dependencies g k with
  | Ok deps => forallb (fun dep => is_done_status (Node.status dep)) deps
  | Raise _ => false
  end.

(** The readiness predicate: an open status and no dependency left to
    wait for. *)
Definition is_actionable (g : RequirementGraph) (n : Node) : bool :=
  is_open_status (Node.status n) && deps_all_done g (Node.id n).

(** ** The edges a merge leaves *)

(** The edge stored under [k] once the edges listed in [incoming] have
    been pointed to [keep] and those listed in [outgoing] made to start
    from [keep]. *)
Definition repointed (keep : string) (incoming outgoing : list string)
    (k : string) (e : Edge) : Edge :=
  let e := if decide (k ∈ incoming) then Edge.set_target_id keep e else e in
  if decide (k ∈ outgoing) then Edge.set_source_id keep e else e.

(** ** What an extraction leaves of the graph it is given *)

(** [g'] extends [g]: an edge of [g] is still stored under its key,
    unchanged unless [uuid4] has handed out that key again; [edges] is not
    shorter; and every index entry of [g] is a prefix of the entry of
    [g']. *)
Definition graph_extends (uuid4 : nat → string) (g g' : RequirementGraph) : Prop :=
  (∀ k e, dict_get k (edges g) = Some e →
          dict_get k (edges g') = Some e
          ∨ ((∃ i, uuid4 i = k) ∧ is_Some (dict_get k (edges g'))))
  ∧ length (edges g) ≤ length (edges g')
  ∧ (∀ k l, _adjacency g !! k = Some l →
            ∃ l', _adjacency g' !! k = Some (l ++ l'))
  ∧ (∀ k l, _reverse_adjacency g !! k = Some l →
            ∃ l', _reverse_adjacency g' !! k = Some (l ++ l')).

(** A step of the two loops over the extracted items draws identifiers
    and extends the graph; it makes no call to the client and does not
    sleep. *)
Definition item_step_ok (uuid4 : nat → string) (st st' : ExtractState) : Prop :=
  graph_extends uuid4 (es_graph st) (es_graph st')
  ∧ llm_calls (es_world st') = llm_calls (es_world st)
  ∧ slept (es_world st') = slept (es_world st)
  ∧ processed_documents (es_world st') = processed_documents (es_world st).

(** ** Instances of the environment and example graphs *)

Definition example_now : datetime := datetime.mk 2024 1 15 9 30 0 0.
Definition example_later : datetime := datetime.mk 2024 1 15 9 45 12 250000.

(** An instance of the clock: the [i]-th call of [datetime.now] returns
    [example_now] with [i mod 1000000] microseconds. *)
Definition example_clock (i : nat) : datetime :=
  datetime.mk 2024 1 15 9 30 0 (N.of_nat i mod 1000000).

(** An instance of [uuid.uuid4]: the [i]-th draw is [uuid-i]. *)
Definition counter_uuid4 (i : nat) : string := "uuid-" +:+ pretty i.

(** An instance of the content hash: the text itself. *)
Definition text_digest (s : string) : string := s.

(** A node with the given id, status, tags and metadata, of type
    [requirement], created at [example_now]. *)
Definition example_node (id : string) (status : CompletionStatus)
    (tags : list string) (metadata : gmap string pyval) : Node :=
  Node_init id REQUIREMENT id ""
    (mkNodeKwargs (Some status) None None None None None None None None None
       (Some tags) (Some metadata) None)
    example_now example_now.

Definition example_edge (id source_id target_id : string) (type : EdgeType) : Edge :=
  Edge.mk id source_id target_id type None 1%float ∅.

Definition graph_of (ns : list Node) (es : list Edge) : RequirementGraph :=
  foldl add_edge (foldl add_node graph_init ns) es.

(** [b] waits for [a]; [c] waits for [a] and [d]; [e] refers to a missing
    node [z]. *)
Definition chain_graph : RequirementGraph :=
  graph_of
    [example_node "a" NOT_STARTED [] ∅; example_node "b" BLOCKED [] ∅;
     example_node "c" BLOCKED [] ∅; example_node "d" NOT_STARTED [] ∅;
     example_node "e" NOT_STARTED [] ∅]
    [example_edge "e1" "b" "a" DEPENDS_ON; example_edge "e2" "c" "a" REQUIRES;
     example_edge "e3" "c" "d" DEPENDS_ON; example_edge "e4" "e" "z" REQUIRES;
     example_edge "e5" "e" "a" REFERENCES].

(** [n] has one dependency, [d], which is blocked. *)
Definition waiting_graph : RequirementGraph :=
  graph_of
    [example_node "n" NOT_STARTED [] ∅; example_node "d" BLOCKED [] ∅]
    [example_edge "e1" "n" "d" DEPENDS_ON].

(** Two nodes to merge: both carry a value under the metadata key
    [owner]. *)
Definition merge_graph : RequirementGraph :=
  graph_of
    [example_node "A" NOT_STARTED ["form"; "signed"] {[ "owner" := PStr "kept" ]};
     example_node "B" NOT_STARTED ["signed"; "placeholder"]
       {[ "owner" := PStr "dropped" ]};
     example_node "C" NOT_STARTED [] ∅]
    [example_edge "e1" "C" "B" REQUIRES; example_edge "e2" "B" "A" REFERENCES].

(** Ten nodes: four completed, two not applicable. *)
Definition ten_nodes_graph : RequirementGraph :=
  graph_of
    [example_node "n0" COMPLETED [] ∅; example_node "n1" COMPLETED [] ∅;
     example_node "n2" COMPLETED [] ∅; example_node "n3" COMPLETED [] ∅;
     example_node "n4" NOT_APPLICABLE [] ∅; example_node "n5" NOT_APPLICABLE [] ∅;
     example_node "n6" NOT_STARTED [] ∅; example_node "n7" IN_PROGRESS [] ∅;
     example_node "n8" BLOCKED [] ∅; example_node "n9" NOT_STARTED [] ∅]
    [].

(** Three nodes: one completed. *)
Definition three_nodes_graph : RequirementGraph :=
  graph_of
    [example_node "n0" COMPLETED [] ∅; example_node "n1" NOT_STARTED [] ∅;
     example_node "n2" IN_PROGRESS [] ∅]
    [].

(** [hub] has three dependents, all of them completed. *)
Definition hub_graph : RequirementGraph :=
  graph_of
    [example_node "hub" NOT_STARTED [] ∅; example_node "x" COMPLETED [] ∅;
     example_node "y" COMPLETED [] ∅; example_node "z" COMPLETED [] ∅]
    [example_edge "e1" "x" "hub" DEPENDS_ON; example_edge "e2" "y" "hub" REQUIRES;
     example_edge "e3" "z" "hub" DEPENDS_ON].

(** A node whose description names an exclusion criterion and whose
    metadata say that it is optional. *)
Definition exclusion_node : Node :=
  Node_init "k1" REQUIREMENT "Eignungsnachweis"
    "Fehlt der Nachweis, ist dies ein Ausschlusskriterium."
    (mkNodeKwargs None None None None None None None None None None None
       (Some {[ "is_required" := PBool false ]}) None)
    example_now example_now.

(** A readable document, the extraction the stub of [json.loads] reads
    off the response [response-1], and three stubs of the client. *)
Definition example_document : DocumentContent :=
  DocumentContent.mk "docs/angebot.txt" "angebot.txt" "Angebot mit Unterschrift" None.

Definition example_extraction : Extraction :=
  mkExtraction "Angebotsformular" "form"
    [Item.mk "signature" "Unterschrift" "Unterschrift des Bieters" "Unterschrift"
       "S. 2" true false "2024-03-01T12:00:00" 1%float "form, signed"
       "Angebot" "";
     Item.mk "document" "Angebot" "Das Angebot" "Angebot" "S. 1" true false
       "" 1%float "" "" ""].

Definition stub_json_loads (s : string) : result Extraction :=
  if decide (s = "response-1") then Ok example_extraction
  else Raise (PyExn JSONDecodeError "Expecting value: line 1 column 1 (char 0)").

Definition client_rate_limited (i : nat) : llm_outcome :=
  match i with
  | 0 => LLMRaises (PyExn OtherException "Error code: 429 - Rate limit exceeded")
  | 1 => LLMRaises (PyExn OtherException "Connection reset by peer")
  | _ => LLMContent "response-1"
  end.

Definition client_unauthorized (i : nat) : llm_outcome :=
  match i with
  | 0 => LLMRaises (PyExn OtherException "Error code: 401 - invalid api key")
  | _ => LLMContent "response-1"
  end.

Definition client_value_error (i : nat) : llm_outcome :=
  match i with
  | 0 => LLMRaises (PyExn ValueError "Unsupported response format")
  | _ => LLMContent "response-1"
  end.

Definition client_none_first (i : nat) : llm_outcome :=
  match i with
  | 0 => LLMNone
  | _ => LLMContent "response-1"
  end.

Definition fresh_world : World := mkWorld 0 0 [] ∅ 0.

(** A graph extracted from [docs/angebot.txt] on an earlier run. *)
Definition extracted_graph : RequirementGraph :=
  graph_of
    [Node_init "p" DOCUMENT "Angebot" "" 
       (mkNodeKwargs None (Some "docs/angebot.txt") None None None None None None
          None None None None None) example_now example_now;
     Node_init "q" SIGNATURE "Unterschrift" ""
       (mkNodeKwargs None (Some "docs/angebot.txt") None None None None None None
          None None None None None) example_now example_now;
     Node_init "r" REQUIREMENT "Referenzliste" ""
       (mkNodeKwargs None (Some "docs/referenzen.txt") None None None None None None
          None None None None None) example_now example_now]
    [example_edge "e1" "q" "p" REQUIRES; example_edge "e2" "r" "p" REFERENCES].

Definition example_incremental_state : IncrementalState :=
  mkIncrementalState {[ "docs/angebot.txt" := "Angebot" ]} extracted_graph fresh_world [].

(** * The rest of [graph.py], [todo.py] and [extractor.py] *)

From stdpp Require Import sorting.

(** ** Sorting

    [list.sort] and [sorted] are stable: elements whose keys compare equal
    keep their order, also with [reverse=True].  On a key order that is
    total the result of a stable sort is determined, so the insertion sort
    below returns the list that Python's does. [lt a b] reads "the key of
    [a] is before the key of [b]". *)
Fixpoint sort_insert {A} (lt : A → A → bool) (x : A) (l : list A) : list A :=
  match l with
  | [] => [x]
  | y :: l' => if lt y x then y :: sort_insert lt x l' else x :: y :: l'
  end.

Definition py_sorted {A} (lt : A → A → bool) (l : list A) : list A :=
  foldr (sort_insert lt) [] l.

(** ** The invariant every method of the graph keeps

    [graph_wf] without its last clause: merging a node with itself, or
    deleting a node from [nodes] as the incremental extractor does, leaves
    edges whose endpoint has no index entry. *)
Record graph_safe (g : RequirementGraph) : Prop := mk_graph_safe {
  safe_node_keys : NoDup (dict_keys (nodes g));
  safe_edge_keys : NoDup (dict_keys (edges g));
  safe_node_id : ∀ k n, dict_get k (nodes g) = Some n → Node.id n = k;
  safe_edge_id : ∀ k e, dict_get k (edges g) = Some e → Edge.id e = k;
  safe_index_closed : index_closed g;
  safe_node_indexed : ∀ k, is_Some (dict_get k (nodes g)) →
      is_Some (_adjacency g !! k) ∧ is_Some (_reverse_adjacency g !! k) }.

(** The graphs built from [RequirementGraph()] by any sequence of calls of
    the mutating methods, with any arguments. *)
Inductive built : RequirementGraph → Prop :=
| built_init : built graph_init
| built_add_node g node : built g → built (add_node g node)
| built_add_edge g edge : built g → built (add_edge g edge)
| built_update_status g node_id status now g' r :
    built g → update_status g node_id status now = Ok (g', r) → built g'
| built_evaluate_conditions g g' :
    built g → evaluate_conditions g = Ok g' → built g'
| built_merge g node_id_1 node_id_2 g' r :
    built g → merge_duplicate_nodes g node_id_1 node_id_2 = Ok (g', r) → built g'.

(** ** [evaluate_conditions] as a list of status changes *)

(** What one iteration of the inner loop does to the status of the
    dependent: [not_applicable] if the condition is [False], and back to
    [not_started] from [not_applicable] otherwise. *)
Definition condition_effect (condition_met : option bool) (s : CompletionStatus)
    : CompletionStatus :=
  if decide (condition_met = Some false) then NOT_APPLICABLE
  else if decide (s = NOT_APPLICABLE) then NOT_STARTED
  else s.

(** The iterations of the two loops that reach the assignment, in order:
    the id of the dependent and the [condition_met] of the condition. *)
Definition condition_ops (g : RequirementGraph) : list (string * option bool) :=
  flat_map
    (fun node : Node =>
       match get_incoming_edges g (Node.id node) with
       | Ok es =>
           omap (fun edge : Edge =>
                   if decide (Edge.type edge = CONDITIONAL_ON)
                   then Some (Edge.source_id edge, Node.condition_met node)
                   else None) es
       | Raise _ => []
       end)
    (get_nodes_by_type g CONDITION).

(** The status the iterations listed in [ops] leave the node stored under
    [k] with, from the status [s]. *)
Definition run_conditions (ops : list (string * option bool)) (k : string)
    (s : CompletionStatus) : CompletionStatus :=
  foldl (fun s op => if decide (op.1 = k) then condition_effect op.2 s else s) s ops.

(** The change one iteration makes to the dependent. *)
Definition condition_update (condition_met : option bool) (n : Node) : Node :=
  Node.set_status (condition_effect condition_met (Node.status n)) n.

Definition apply_condition_op (d : pydict Node) (op : string * option bool)
    : pydict Node :=
  dict_alter (condition_update op.2) op.1 d.

Definition edge_ops (node : Node) (es : list Edge) : list (string * option bool) :=
  omap (fun edge : Edge =>
          if decide (Edge.type edge = CONDITIONAL_ON)
          then Some (Edge.source_id edge, Node.condition_met node)
          else None) es.

Definition node_ops (g : RequirementGraph) (node : Node) : list (string * option bool) :=
  match get_incoming_edges g (Node.id node) with
  | Ok es => edge_ops node es
  | Raise _ => []
  end.

(** The nodes [evaluate_conditions] leaves. *)
Definition after_conditions (ops : list (string * option bool)) (n : Node) : Node :=
  Node.set_status (run_conditions ops (Node.id n) (Node.status n)) n.

(** ** Transitive dependents and the critical path *)

(** [_get_transitive_dependents].  [visited] is the one set all the
    recursive calls share: it is passed in and handed back.  [depth] is the
    number of frames the interpreter has left; a call that finds none
    raises [RecursionError]. *)
Fixpoint _get_transitive_dependents (depth : nat) (g : RequirementGraph)
    (node_id : string) (visited : gset string)
    : result (gset string * gset string) :=
  match depth with
  | 0 => Raise (PyExn OtherException "maximum recursion depth exceeded")
  | S depth =>
      if decide (node_id ∈ visited) then Ok (∅, visited)
      else
        let visited := {[node_id]} ∪ visited in
        let* deps := get_dependents g node_id in
        for_each
          (fun (st : gset string * gset string) (dep : Node) =>
             let* sub := _get_transitive_dependents depth g (Node.id dep) st.2 in
             Ok ({[Node.id dep]} ∪ st.1 ∪ sub.1, sub.2))
          (∅, visited) deps
  end.

(** [y] is the id of a node that [get_dependents(x)] returns. *)
Definition dependent_of (g : RequirementGraph) (x y : string) : Prop :=
  ∃ deps n, get_dependents g x = Ok deps ∧ n ∈ deps ∧ Node.id n = y.

(** [y] is reached from [x] by one or more steps of [dependent_of]. *)
Inductive depends_transitively (g : RequirementGraph) (x : string) : string → Prop :=
| dt_direct y : dependent_of g x y → depends_transitively g x y
| dt_more y z :
    depends_transitively g x y → dependent_of g y z → depends_transitively g x z.

(** What a call of [_get_transitive_dependents] on [x] with the visited
    set [V] returns, [r.1], and leaves as visited set, [r.2]; [U] bounds the
    ids that can be visited. *)
Definition dfs_post (g : RequirementGraph) (U : gset string) (x : string)
    (V : gset string) (r : gset string * gset string) : Prop :=
  V ⊆ r.2
  ∧ x ∈ r.2
  ∧ r.2 ⊆ U ∪ V
  ∧ r.1 ⊆ r.2
  ∧ (∀ y, y ∈ r.1 → depends_transitively g x y)
  ∧ (∀ y z, y ∈ r.2 → y ∉ V → dependent_of g y z → z ∈ r.1).

(** The number of transitive dependents [get_critical_path] counts for
    [node_id]. *)
Definition transitive_count (depth : nat) (g : RequirementGraph) (node_id : string)
    : nat :=
  match _get_transitive_dependents depth g node_id ∅ with
  | Ok r => size r.1
  | Raise _ => 0
  end.

(** The loop of [get_critical_path] that fills [blocking_counts]. *)
Definition blocking_counts (depth : nat) (g : RequirementGraph)
    : result (pydict nat) :=
  for_each
    (fun (counts : pydict nat) (node : Node) =>
       if decide (Node.status node = COMPLETED) then Ok counts
       else
         let* r := _get_transitive_dependents depth g (Node.id node) ∅ in
         Ok (dict_set (Node.id node) (size r.1) counts))
    [] (dict_values (nodes g)).

(** [get_critical_path]: the ten ids with the largest counts, the largest
    first. *)
Definition get_critical_path (depth : nat) (g : RequirementGraph)
    : result (list Node) :=
  let* counts := blocking_counts depth g in
  let sorted_nodes := py_sorted (fun a b : string * nat => b.2 <? a.2) counts in
  Ok (omap (fun x : string * nat => get_node g x.1) (take 10 sorted_nodes)).

(** ** The to-do generator *)

(** [Priority.value] *)
Definition Priority_value (p : Priority) : nat :=
  match p with CRITICAL => 1 | HIGH => 2 | MEDIUM => 3 | LOW => 4 end.

Module TodoItem.
Record t := mk {
  id : string;
  title : string;
  description : string;
  priority : Priority;
  status : CompletionStatus;
  category : string;
  source_document : option string;
  deadline : option datetime;
  blocked_by : list string;
  blocks : list string;
  node_id : string;
  tags : list string }.
End TodoItem.
Abbreviation TodoItem := TodoItem.t.

Record TodoCategory := mkTodoCategory {
  cat_name : string;
  cat_description : string;
  cat_items : list TodoItem }.

(** [TodoCategory.total_count], [completed_count] and
    [completion_percentage] *)
Definition total_count (c : TodoCategory) : nat := length (cat_items c).

Definition completed_count (c : TodoCategory) : nat :=
  length (filter (fun i => TodoItem.status i = COMPLETED) (cat_items c)).

Definition category_completion_percentage (c : TodoCategory) : float :=
  if total_count c =? 0 then 100%float
  else py_round1 (PrimFloat.mul
                    (PrimFloat.div (float_of_nat (completed_count c))
                                   (float_of_nat (total_count c)))
                    (float_of_Z 100)).

(** [TodoGenerator.CATEGORIES] *)
Definition CATEGORIES : list (NodeType * string) :=
  [(DOCUMENT, "Documents to Submit");
   (SIGNATURE, "Signatures Required");
   (CHECKBOX, "Checkboxes to Complete");
   (FIELD, "Fields to Fill");
   (ATTACHMENT, "Attachments to Include");
   (REQUIREMENT, "Requirements to Meet");
   (DEADLINE, "Deadlines to Track");
   (CONDITION, "Conditions to Evaluate")].

(** [self.CATEGORIES.get(node.type, "Other")] *)
Definition category_of (t : NodeType) : string :=
  default "Other" (snd <$> find (fun kv => bool_decide (kv.1 = t)) CATEGORIES).

Definition category_order : list string :=
  ["Documents to Submit"; "Signatures Required"; "Checkboxes to Complete";
   "Fields to Fill"; "Attachments to Include"; "Requirements to Meet";
   "Deadlines to Track"; "Conditions to Evaluate"; "Other"].

(** The order of the sort key [(x.priority.value, x.title)]: tuples
    compare lexicographically, strings by code point.  A string of this
    development holds the UTF-8 bytes of the text, whose byte order is the
    order of the code points. *)
Definition todo_key_lt (a b : TodoItem) : bool :=
  let pa := Priority_value (TodoItem.priority a) in
  let pb := Priority_value (TodoItem.priority b) in
  (pa <? pb) || ((pa =? pb) && String.ltb (TodoItem.title a) (TodoItem.title b)).

(** The order of the sort key [x.title]. *)
Definition todo_title_lt (a b : TodoItem) : bool :=
  String.ltb (TodoItem.title a) (TodoItem.title b).

(** [category.items.append(todo_item)] *)
Definition category_append (todo_item : TodoItem) (c : TodoCategory) : TodoCategory :=
  mkTodoCategory (cat_name c) (cat_description c) (cat_items c ++ [todo_item]).

(** [category.items.sort(key=lambda x: (x.priority.value, x.title))] *)
Definition category_sort (c : TodoCategory) : TodoCategory :=
  mkTodoCategory (cat_name c) (cat_description c)
    (py_sorted todo_key_lt (cat_items c)).

(** [get_summary] *)
Record TodoSummary := mkTodoSummary {
  sm_total_items : nat;
  sm_completed_items : nat;
  sm_completion_percentage : pynum;
  sm_critical_items : nat;
  sm_critical_completed : nat;
  sm_actionable_now : nat;
  sm_categories : list (string * nat * nat * float) }.

Section TodoGenerator.

Variable lower : string → string.

(** [_node_to_todo] *)
Definition _node_to_todo (g : RequirementGraph) (node : Node) : result TodoItem :=
  let* priority := _determine_priority lower g node in
  (* Get blocked_by and blocks relationships *)
  let* blocked_by := todo_blocked_by g node in
  let* blocks := todo_blocks g node in
  Ok (TodoItem.mk (Node.id node) (Node.title node) (Node.description node)
        priority (Node.status node) (category_of (Node.type node))
        (Node.source_document node) (Node.deadline node)
        blocked_by blocks (Node.id node) (Node.tags node)).

(** The body of the first loop of [generate]. *)
Definition generate_step (g : RequirementGraph) (categories : pydict TodoCategory)
    (node : Node) : result (pydict TodoCategory) :=
  (* Skip conditions that are just informational *)
  if decide (Node.type node = CONDITION ∧ Node.status node = NOT_APPLICABLE)
  then Ok categories
  else
    let category_name := category_of (Node.type node) in
    let categories :=
      match dict_get category_name categories with
      | Some _ => categories
      | None =>
          dict_set category_name
            (mkTodoCategory category_name
               ("Items of type: " +:+ NodeType_value (Node.type node)) [])
            categories
      end in
    let* todo_item := _node_to_todo g node in
    Ok (dict_alter (category_append todo_item) category_name categories).

(** [generate] *)
Definition generate (g : RequirementGraph) : result (list TodoCategory) :=
  let* categories := for_each (generate_step g) [] (dict_values (nodes g)) in
  (* Sort items within each category by priority, then by title *)
  let categories :=
    (fun kv : string * TodoCategory => (kv.1, category_sort kv.2)) <$> categories in
  (* Sort categories by importance *)
  let sorted_categories :=
    omap (fun name => dict_get name categories) category_order in
  (* Add any remaining categories *)
  let remaining :=
    snd <$> filter (fun kv : string * TodoCategory => kv.1 ∉ category_order)
              categories in
  Ok (sorted_categories ++ remaining).

(** A node that [generate] does not skip. *)
Definition todo_listed (node : Node) : bool :=
  negb (bool_decide (Node.type node = CONDITION ∧ Node.status node = NOT_APPLICABLE)).

(** The nodes of [ns] that [generate] lists under the category [name]. *)
Definition listed_under (name : string) (ns : list Node) : list Node :=
  filter (fun n => todo_listed n = true ∧ category_of (Node.type n) = name) ns.

(** What the first loop of [generate] has built once it has seen the
    nodes [ns]: a category for each name that occurs, holding the items of
    the nodes listed under the name, in their order. *)
Definition generate_inv (g : RequirementGraph) (ns : list Node)
    (categories : pydict TodoCategory) : Prop :=
  NoDup (dict_keys categories)
  ∧ (∀ k c, dict_get k categories = Some c →
            cat_name c = k
            ∧ cat_items c ≠ []
            ∧ Forall2 (fun n t => _node_to_todo g n = Ok t)
                (listed_under k ns) (cat_items c))
  ∧ (∀ k, dict_get k categories = None → listed_under k ns = []).

(** [get_actionable_now] *)
Definition get_actionable_now (g : RequirementGraph) : result (list TodoItem) :=
  let* nodes := get_actionable_items g in
  let* actionable :=
    for_each
      (fun (actionable : list TodoItem) (node : Node) =>
         let* todo := _node_to_todo g node in
         Ok (match TodoItem.blocked_by todo with
             | [] => actionable ++ [todo]
             | _ :: _ => actionable
             end))
      [] nodes in
  (* Sort by priority *)
  Ok (py_sorted todo_key_lt actionable).

(** [get_critical_items] *)
Definition get_critical_items (g : RequirementGraph) : result (list TodoItem) :=
  let* critical :=
    for_each
      (fun (critical : list TodoItem) (node : Node) =>
         if decide (Node.status node = COMPLETED) then Ok critical
         else if decide (Node.status node = NOT_APPLICABLE) then Ok critical
         else
           let* todo := _node_to_todo g node in
           Ok (if decide (TodoItem.priority todo = CRITICAL)
               then critical ++ [todo] else critical))
      [] (dict_values (nodes g)) in
  Ok (py_sorted todo_title_lt critical).

(** [get_summary] *)
Definition get_summary (g : RequirementGraph) : result TodoSummary :=
  let* categories := generate g in
  let total_items := sum_list (total_count <$> categories) in
  let completed_items := sum_list (completed_count <$> categories) in
  let* critical := get_critical_items g in
  let critical_complete :=
    length (filter (fun c => TodoItem.status c = COMPLETED) critical) in
  let completion_percentage :=
    if 0 <? total_items
    then PyFloat (py_round1
                    (PrimFloat.mul
                       (PrimFloat.div (float_of_nat completed_items)
                                      (float_of_nat total_items))
                       (float_of_Z 100)))
    else PyInt 100 in
  let* actionable := get_actionable_now g in
  Ok (mkTodoSummary total_items completed_items completion_percentage
        (length critical) critical_complete (length actionable)
        ((fun c => (cat_name c, total_count c, completed_count c,
                    category_completion_percentage c)) <$> categories)).

End TodoGenerator.

(** ** [RequirementExtractor]: whole directories *)

(** The default of the [threshold] argument of [_fuzzy_match]: the binary64
    number that [0.6] denotes. *)
Definition fuzzy_threshold : float := 0x1.3333333333333p-1%float.

Section Directory.

Variable lower : string → string.
Variable strip : string → string.
(** [str.split()]: the words of a string, separated by runs of
    whitespace. *)
Variable split : string → list string.
Variable fromisoformat : string → result datetime.
Variable json_loads : string → result Extraction.
Variable uuid4 : nat → string.
Variable client : nat → llm_outcome.

(** [_fuzzy_match]: the Jaccard similarity of the two sets of words. *)
Definition _fuzzy_match (str1 str2 : string) (threshold : float) : bool :=
  let s1 : gset string := list_to_set (split (lower str1)) in
  let s2 : gset string := list_to_set (split (lower str2)) in
  if bool_decide (s1 = ∅) || bool_decide (s2 = ∅) then false
  else
    let intersection := size (s1 ∩ s2) in
    let union := size (s1 ∪ s2) in
    PrimFloat.leb threshold
      (PrimFloat.div (float_of_nat intersection) (float_of_nat union)).

(** The test of the inner loop of [_resolve_placeholders]. *)
Definition placeholder_match (placeholder doc : Node) : bool :=
  let placeholder_name := lower (Node.title placeholder) in
  let doc_name := lower (Node.title doc) in
  str_contains placeholder_name doc_name
  || str_contains doc_name placeholder_name
  || _fuzzy_match placeholder_name doc_name fuzzy_threshold.

(** The body of the outer loop: the first real document that matches is
    merged with the placeholder, and the inner loop is left. *)
Definition resolve_placeholder (real_docs : list Node) (g : RequirementGraph)
    (placeholder : Node) : result RequirementGraph :=
  match head (filter (fun doc => placeholder_match placeholder doc = true) real_docs) with
  | Some doc =>
      let* merged := merge_duplicate_nodes g (Node.id doc) (Node.id placeholder) in
      Ok merged.1
  | None => Ok g
  end.

(** [_resolve_placeholders].  The two lists are taken before the loop; a
    merge changes neither the title nor the id of a node, which is all the
    loop reads of them. *)
Definition _resolve_placeholders (g : RequirementGraph) : result RequirementGraph :=
  let placeholders :=
    filter (fun n => "placeholder" ∈ Node.tags n) (dict_values (nodes g)) in
  let real_docs :=
    filter (fun n => Node.type n = DOCUMENT ∧ "placeholder" ∉ Node.tags n)
           (dict_values (nodes g)) in
  for_each (resolve_placeholder real_docs) g placeholders.

(** The state of the loop of [process_directory]: the graph, the world,
    the results and the calls made to [progress_callback]. *)
Record DirectoryState := mkDirectoryState {
  dir_graph : RequirementGraph;
  dir_world : World;
  dir_results : list ExtractionResult;
  dir_progress : list (nat * nat * string) }.

Definition process_directory_step (now : nat → datetime) (progress_callback : bool)
    (total : nat) (st : DirectoryState) (doc : nat * DocumentContent)
    : result DirectoryState :=
  let progress :=
    if progress_callback
    then dir_progress st ++ [(doc.1 + 1, total, DocumentContent.filename doc.2)]
    else dir_progress st in
  let* out := extract lower strip fromisoformat json_loads uuid4 client now doc.2
                (dir_graph st) (dir_world st) in
  Ok (mkDirectoryState out.1.2 out.2 (dir_results st ++ [out.1.1]) progress).

(** [process_directory]; [progress_callback] tells whether a callback is
    given, and the state records the arguments of its calls. *)
Definition process_directory (now : nat → datetime)
    (documents : list DocumentContent)
    (graph : option RequirementGraph) (progress_callback : bool) (w : World)
    : result DirectoryState :=
  let graph := default graph_init graph in
  let total := length documents in
  let* st := for_each (process_directory_step now progress_callback total)
               (mkDirectoryState graph w [] [])
               (zip (seq 0 total) documents) in
  let* g := _resolve_placeholders (dir_graph st) in
  Ok (mkDirectoryState g (dir_world st) (dir_results st) (dir_progress st)).

End Directory.

(** ** What the two loops of [extract] keep

    [g] is the graph [extract] was called with, [u0] the number of
    identifiers drawn before the call. *)
Definition extract_inv (path : string) (g : RequirementGraph)
    (uuid4 : nat → string) (u0 : nat) (st : ExtractState) : Prop :=
  (graph_safe g → graph_safe (es_graph st))
  ∧ (∀ k, k ∉ es_nodes_created st → get_node (es_graph st) k = get_node g k)
  ∧ (∀ k, k ∈ es_nodes_created st →
          ∃ n, get_node (es_graph st) k = Some n
               ∧ Node.id n = k
               ∧ Node.source_document n = Some path)
  ∧ (∀ k, k ∈ es_nodes_created st → ∃ i, uuid4 i = k)
  ∧ (∀ t k, es_title_to_node st !! t = Some k → k ∈ es_nodes_created st)
  ∧ (∀ k, k ∉ es_edges_created st →
          dict_get k (edges (es_graph st)) = dict_get k (edges g))
  ∧ (∀ k, k ∈ es_edges_created st →
          ∃ e, dict_get k (edges (es_graph st)) = Some e
               ∧ Edge.id e = k
               ∧ Edge.source_id e ≠ Edge.target_id e
               ∧ Edge.source_id e ∈ es_nodes_created st
               ∧ (Edge.type e = REQUIRES ∨ Edge.type e = CONDITIONAL_ON)
               ∧ (graph_safe g → is_Some (get_node (es_graph st) (Edge.target_id e))))
  ∧ uuids_drawn (es_world st)
    = u0 + length (es_nodes_created st) + length (es_edges_created st).
(** ** More instances and example graphs *)

(** An instance of [str.split()] for texts whose only whitespace is the
    space. *)
Definition space_split (s : string) : list string :=
  filter (fun t => t ≠ "") (str_split " " s).

(** [a], [b] and [c] wait for each other in a circle; [d] waits for
    [a]. *)
Definition cycle_graph : RequirementGraph :=
  graph_of
    [example_node "a" NOT_STARTED [] ∅; example_node "b" NOT_STARTED [] ∅;
     example_node "c" NOT_STARTED [] ∅; example_node "d" NOT_STARTED [] ∅]
    [example_edge "e1" "b" "a" DEPENDS_ON; example_edge "e2" "c" "b" REQUIRES;
     example_edge "e3" "a" "c" DEPENDS_ON; example_edge "e4" "d" "a" REQUIRES].

(** A node of type [condition] with the given [condition_met]. *)
Definition condition_node (id : string) (condition_met : option bool) : Node :=
  Node_init id CONDITION id ""
    (mkNodeKwargs None None None None None condition_met None None None None
       None None None)
    example_now example_now.

(** The condition [lots] is not met and [lot-form] is conditional on it;
    the condition [abroad] is met and [tax-form], so far not applicable, is
    conditional on it. *)
Definition condition_graph : RequirementGraph :=
  graph_of
    [condition_node "lots" (Some false); example_node "lot-form" NOT_STARTED [] ∅;
     condition_node "abroad" (Some true); example_node "tax-form" NOT_APPLICABLE [] ∅]
    [example_edge "e1" "lot-form" "lots" CONDITIONAL_ON;
     example_edge "e2" "tax-form" "abroad" CONDITIONAL_ON].

(** A node of type [document] with the given title and tags. *)
Definition document_node (id title : string) (tags : list string) : Node :=
  Node_init id DOCUMENT title ""
    (mkNodeKwargs None None None None None None None None None None
       (Some tags) None None)
    example_now example_now.

(** The placeholder [p1] names the document [d1]; the placeholder [p2]
    names no document of the graph. *)
Definition placeholder_graph : RequirementGraph :=
  graph_of
    [document_node "d1" "Formblatt 1 Angebot" [];
     document_node "p1" "formblatt 1" ["placeholder"];
     document_node "p2" "Preisblatt" ["placeholder"];
     example_node "r" NOT_STARTED [] ∅]
    [example_edge "e1" "r" "p1" REQUIRES].

(** A client that is rate limited once and then refuses the key, and a
    client that never returns a response object. *)
Definition client_refused_second (i : nat) : llm_outcome :=
  match i with
  | 0 => LLMRaises (PyExn OtherException "Error code: 429 - Rate limit exceeded")
  | 1 => LLMRaises (PyExn OtherException "Error code: 401 - invalid api key")
  | _ => LLMContent "response-1"
  end.

Definition client_always_none (i : nat) : llm_outcome := LLMNone.

(** [hub] has two dependents: [x], linked to it by two edges, and [y]. *)
Definition double_edge_graph : RequirementGraph :=
  graph_of
    [example_node "hub" NOT_STARTED [] ∅; example_node "x" NOT_STARTED [] ∅;
     example_node "y" NOT_STARTED [] ∅]
    [example_edge "e1" "x" "hub" DEPENDS_ON; example_edge "e2" "x" "hub" REQUIRES;
     example_edge "e3" "y" "hub" DEPENDS_ON].
(** * Properties *)

(** ** The exception monad *)

Lemma bind_Ok {A B} (m : result A) (k : A → result B) (b : B) :
  bind m k = Ok b ↔ ∃ a, m = Ok a ∧ k a = Ok b.
Proof.
  destruct m as [a|e]; simpl; split.
  - intros H. by exists a.
  - by intros (a' & [= ->] & H).
  - done.
  - by intros (a' & [=] & _).
Qed.

(** ** Insertion-ordered dictionaries *)

Section pydict_facts.
Context {V : Type}.
Implicit Types (d : pydict V) (k : string) (v : V).

Lemma dict_get_Some_elem d k v : dict_get k d = Some v → (k, v) ∈ d.
Proof.
  induction d as [|[k' v'] d IH]; simpl; [done|].
  case_decide as Hk; intros H.
  - injection H as ->. subst. apply list_elem_of_here.
  - apply list_elem_of_further. auto.
Qed.

Lemma dict_get_None_keys d k : dict_get k d = None ↔ k ∉ dict_keys d.
Proof.
  unfold dict_keys. induction d as [|[k' v'] d IH]; simpl.
  - split; [intros _; apply not_elem_of_nil|done].
  - rewrite not_elem_of_cons. case_decide as Hk.
    + split; [done|]. intros [Hne _]. by subst.
    + rewrite IH. split; [intros H; split; [congruence|done]|by intros [_ H]].
Qed.

Lemma dict_get_is_Some_keys d k : is_Some (dict_get k d) ↔ k ∈ dict_keys d.
Proof.
  destruct (dict_get k d) as [v|] eqn:E.
  - split; [intros _|by eauto].
    apply dict_get_Some_elem in E. unfold dict_keys.
    apply list_elem_of_fmap. by exists (k, v).
  - split; [by intros [? ?]|]. intros Hin. by apply dict_get_None_keys in E.
Qed.

Lemma dict_elem_get d k v :
  NoDup (dict_keys d) → (k, v) ∈ d → dict_get k d = Some v.
Proof.
  unfold dict_keys. induction d as [|[k' v'] d IH]; simpl; intros Hnd Hin.
  - by apply elem_of_nil in Hin.
  - apply NoDup_cons in Hnd as [Hk' Hnd]. apply elem_of_cons in Hin as [Heq|Hin].
    + injection Heq as -> ->. by rewrite decide_True.
    + case_decide as Hk; [|by auto]. subst k'. exfalso. apply Hk'.
      apply list_elem_of_fmap. by exists (k, v).
Qed.

Lemma dict_values_elem d v : v ∈ dict_values d ↔ ∃ k, (k, v) ∈ d.
Proof.
  unfold dict_values. rewrite list_elem_of_fmap. split.
  - intros ([k v'] & -> & Hin). by exists k.
  - intros (k & Hin). by exists (k, v).
Qed.

Lemma dict_get_set d k k' v :
  dict_get k' (dict_set k v d) = if decide (k = k') then Some v else dict_get k' d.
Proof.
  induction d as [|[k0 v0] d IH]; simpl; [done|].
  destruct (decide (k0 = k)) as [->|Hk0]; simpl.
  - by destruct (decide (k = k')).
  - rewrite IH. destruct (decide (k0 = k')) as [->|Hk']; [|done].
    by rewrite decide_False.
Qed.

Lemma dict_keys_set d k v :
  dict_keys (dict_set k v d)
  = if decide (k ∈ dict_keys d) then dict_keys d else dict_keys d ++ [k].
Proof.
  unfold dict_keys. induction d as [|[k0 v0] d IH].
  - simpl. destruct (decide (k ∈ [])) as [Hin|]; [|done].
    by apply elem_of_nil in Hin.
  - cbn [dict_set]. destruct (decide (k0 = k)) as [->|Hk0].
    + rewrite decide_True; [done|]. rewrite fmap_cons. apply list_elem_of_here.
    + rewrite !fmap_cons, IH. cbn [fst].
      destruct (decide (k ∈ d.*1)) as [Hin|Hin].
      * rewrite decide_True; [done|by apply list_elem_of_further].
      * rewrite decide_False; [done|].
        rewrite not_elem_of_cons. split; [congruence|done].
Qed.

Lemma dict_set_NoDup d k v : NoDup (dict_keys d) → NoDup (dict_keys (dict_set k v d)).
Proof.
  intros Hnd. rewrite dict_keys_set. case_decide; [done|].
  apply NoDup_app. split_and!; [done| |apply NoDup_singleton].
  intros x Hx Hx'. apply list_elem_of_singleton in Hx'. by subst.
Qed.

Lemma dict_set_length d k v :
  length (dict_set k v d)
  = if decide (k ∈ dict_keys d) then length d else S (length d).
Proof.
  pose proof (dict_keys_set d k v) as H.
  apply (f_equal length) in H. unfold dict_keys in *.
  rewrite length_fmap in H. rewrite H.
  destruct (decide (k ∈ d.*1)).
  - by rewrite length_fmap.
  - rewrite length_app, length_fmap. simpl. lia.
Qed.

Lemma dict_get_alter (f : V → V) d k k' :
  dict_get k' (dict_alter f k d)
  = if decide (k = k') then f <$> dict_get k d else dict_get k' d.
Proof.
  induction d as [|[k0 v0] d IH]; simpl; [by case_decide|].
  destruct (decide (k0 = k)) as [->|Hk0]; simpl.
  - by destruct (decide (k = k')).
  - rewrite IH. destruct (decide (k0 = k')) as [->|Hk']; [|done].
    by rewrite decide_False.
Qed.

Lemma dict_keys_alter (f : V → V) d k : dict_keys (dict_alter f k d) = dict_keys d.
Proof.
  unfold dict_keys. induction d as [|[k0 v0] d IH]; simpl; [done|].
  case_decide; simpl; [done|]. by f_equal.
Qed.

Lemma dict_alter_length (f : V → V) d k : length (dict_alter f k d) = length d.
Proof.
  pose proof (dict_keys_alter f d k) as H. apply (f_equal length) in H.
  unfold dict_keys in H. by rewrite !length_fmap in H.
Qed.

Lemma dict_alter_absent (f : V → V) d k : dict_get k d = None → dict_alter f k d = d.
Proof.
  induction d as [|[k0 v0] d IH]; simpl; [done|].
  case_decide; [done|]. intros Hg. by rewrite IH.
Qed.

Lemma dict_get_remove_ne d k k' : k ≠ k' → dict_get k' (dict_remove k d) = dict_get k' d.
Proof.
  intros Hne. induction d as [|[k0 v0] d IH]; simpl; [done|].
  destruct (decide (k0 = k)) as [->|Hk0]; simpl.
  - by rewrite decide_False.
  - by rewrite IH.
Qed.

Lemma dict_get_remove_eq d k : NoDup (dict_keys d) → dict_get k (dict_remove k d) = None.
Proof.
  unfold dict_keys. induction d as [|[k0 v0] d IH]; simpl; [done|].
  intros Hnd. apply NoDup_cons in Hnd as [Hk0 Hnd].
  case_decide as Hk; simpl.
  - subst. by apply dict_get_None_keys.
  - rewrite decide_False by done. auto.
Qed.


Lemma dict_remove_NoDup d k : NoDup (dict_keys d) → NoDup (dict_keys (dict_remove k d)).
Proof.
  unfold dict_keys. induction d as [|[k0 v0] d IH]; simpl; [done|].
  intros Hnd. apply NoDup_cons in Hnd as [Hk0 Hnd].
  case_decide as Hk; simpl; [done|].
  apply NoDup_cons. split; [|by auto].
  intros Hin. apply Hk0. apply list_elem_of_fmap in Hin as ([k1 v1] & -> & Hin).
  simpl. apply list_elem_of_fmap.
  assert (dict_get k1 (dict_remove k d) = Some v1) as Hg.
  { apply dict_elem_get; [by apply IH|done]. }
  rewrite dict_get_remove_ne in Hg.
  - apply dict_get_Some_elem in Hg. by exists (k1, v1).
  - intros ->. rewrite dict_get_remove_eq in Hg; done.
Qed.

Lemma dict_remove_length d k v :
  dict_get k d = Some v → S (length (dict_remove k d)) = length d.
Proof.
  induction d as [|[k0 v0] d IH]; simpl; [done|].
  case_decide; simpl; [done|]. intros Hg. by rewrite IH.
Qed.

End pydict_facts.

(** ** Loops *)

Lemma for_each_invariant {S A} (P : S → Prop) (body : S → A → result S) l s s' :
  (∀ s x s', P s → body s x = Ok s' → P s') →
  P s → for_each body s l = Ok s' → P s'.
Proof.
  intros Hbody. revert s. induction l as [|x l IH]; simpl; intros s Hs H.
  - by injection H as <-.
  - apply bind_Ok in H as (s1 & H1 & H2). eauto.
Qed.

Lemma for_each_total {S A} (P : S → Prop) (body : S → A → result S) l s :
  (∀ s x, P s → ∃ s', body s x = Ok s' ∧ P s') →
  P s → ∃ s', for_each body s l = Ok s' ∧ P s'.
Proof.
  intros Hbody. revert s. induction l as [|x l IH]; simpl; intros s Hs.
  - by exists s.
  - destruct (Hbody s x Hs) as (s1 & -> & Hs1). simpl. auto.
Qed.

(** ** The invariant is kept *)

Lemma index_touch_lookup k k' m :
  index_touch k m !! k' = if decide (k = k') then Some (default [] (m !! k)) else m !! k'.
Proof.
  unfold index_touch. destruct (m !! k) as [l|] eqn:E; simpl.
  - case_decide; [by subst|done].
  - by rewrite lookup_insert.
Qed.

Lemma index_append_lookup k eid k' m :
  index_append k eid m !! k'
  = if decide (k = k') then Some (default [] (m !! k) ++ [eid]) else m !! k'.
Proof. unfold index_append. by rewrite lookup_insert. Qed.

Lemma graph_wf_init : graph_wf graph_init.
Proof.
  split; simpl; try done.
  - constructor.
  - constructor.
Qed.

Lemma index_closed_add_node g node : index_closed g → index_closed (add_node g node).
Proof.
  intros [Ha Hr]. split; simpl; intros k l eid Hl Hin.
  - rewrite index_touch_lookup in Hl. case_decide; [|by eauto].
    injection Hl as <-. destruct (_adjacency g !! Node.id node) eqn:E; simpl in Hin.
    + eauto.
    + by apply elem_of_nil in Hin.
  - rewrite index_touch_lookup in Hl. case_decide; [|by eauto].
    injection Hl as <-. destruct (_reverse_adjacency g !! Node.id node) eqn:E; simpl in Hin.
    + eauto.
    + by apply elem_of_nil in Hin.
Qed.

Lemma graph_wf_add_node g node : graph_wf g → graph_wf (add_node g node).
Proof.
  intros Hwf. split; simpl.
  - apply dict_set_NoDup, Hwf.
  - apply Hwf.
  - intros k n. rewrite dict_get_set. case_decide; [by intros [= <-]|apply Hwf].
  - apply Hwf.
  - apply index_closed_add_node, Hwf.
  - intros k. rewrite dict_get_set, !index_touch_lookup.
    case_decide; [by eauto|]. apply Hwf.
  - intros k e He. destruct (wf_edge_indexed g Hwf k e He) as [(l & Hl & Hin) (l' & Hl' & Hin')].
    rewrite !index_touch_lookup. split.
    + case_decide as Hk; [|by eauto]. rewrite Hk, Hl. by eauto.
    + case_decide as Hk; [|by eauto]. rewrite Hk, Hl'. by eauto.
Qed.

Lemma index_closed_add_edge g edge : index_closed g → index_closed (add_edge g edge).
Proof.
  intros [Ha Hr]. split; simpl; intros k l eid Hl Hin; rewrite dict_get_set.
  - case_decide; [by eauto|]. rewrite index_append_lookup in Hl.
    case_decide; [|by eauto]. injection Hl as <-.
    apply elem_of_app in Hin as [Hin|Hin%list_elem_of_singleton]; [|done].
    destruct (_adjacency g !! Edge.source_id edge) eqn:E; simpl in Hin.
    + eauto.
    + by apply elem_of_nil in Hin.
  - case_decide; [by eauto|]. rewrite index_append_lookup in Hl.
    case_decide; [|by eauto]. injection Hl as <-.
    apply elem_of_app in Hin as [Hin|Hin%list_elem_of_singleton]; [|done].
    destruct (_reverse_adjacency g !! Edge.target_id edge) eqn:E; simpl in Hin.
    + eauto.
    + by apply elem_of_nil in Hin.
Qed.

Lemma graph_wf_add_edge g edge : graph_wf g → graph_wf (add_edge g edge).
Proof.
  intros Hwf. split; simpl.
  - apply Hwf.
  - apply dict_set_NoDup, Hwf.
  - apply Hwf.
  - intros k e. rewrite dict_get_set. case_decide; [by intros [= <-]|apply Hwf].
  - apply index_closed_add_edge, Hwf.
  - intros k Hk. destruct (wf_node_indexed g Hwf k Hk) as [[l Hl] [l' Hl']].
    rewrite !index_append_lookup. split; case_decide; eauto.
  - intros k e. rewrite dict_get_set, !index_append_lookup.
    destruct (decide (Edge.id edge = k)) as [<-|Hk].
    + intros [= <-]. rewrite !decide_True by done. split; eexists; split; try done.
      * apply elem_of_app. right. by apply list_elem_of_singleton.
      * apply elem_of_app. right. by apply list_elem_of_singleton.
    + intros He.
      destruct (wf_edge_indexed g Hwf k e He) as [(l & Hl & Hin) (l' & Hl' & Hin')].
      split.
      * case_decide as Hs; [|by eauto]. rewrite Hs, Hl. simpl.
        eexists. split; [done|]. apply elem_of_app. by left.
      * case_decide as Hs; [|by eauto]. rewrite Hs, Hl'. simpl.
        eexists. split; [done|]. apply elem_of_app. by left.
Qed.

(** A change of a stored node that keeps its [id]. *)
Lemma graph_wf_alter_node g (f : Node → Node) k :
  (∀ n, Node.id (f n) = Node.id n) →
  graph_wf g → graph_wf (set_nodes (dict_alter f k (nodes g)) g).
Proof.
  intros Hf Hwf. split; simpl; try apply Hwf.
  - rewrite dict_keys_alter. apply Hwf.
  - intros k' n. rewrite dict_get_alter. case_decide as Hk; [|apply Hwf].
    subst k'. destruct (dict_get k (nodes g)) as [n0|] eqn:E; [|done].
    intros [= <-]. rewrite Hf. by apply Hwf.
  - intros k' Hk'. apply Hwf. rewrite dict_get_alter in Hk'.
    case_decide; [|done]. subst. by apply fmap_is_Some in Hk'.
Qed.

Lemma graph_wf_assign_status g k status now :
  graph_wf g → graph_wf (assign_status g k status now).
Proof. by apply graph_wf_alter_node. Qed.

(** ** Edge lookups and the dependency relation *)

Lemma edges_of_ids_spec g ids es :
  edges_of_ids g ids = Ok es →
  Forall2 (fun eid e => dict_get eid (edges g) = Some e) ids es.
Proof.
  revert es. induction ids as [|eid ids IH]; simpl; intros es H.
  - injection H as <-. constructor.
  - destruct (dict_get eid (edges g)) as [e|] eqn:He; [|done].
    apply bind_Ok in H as (es' & Hes' & [= <-]).
    constructor; auto.
Qed.

Lemma edges_of_ids_total g ids :
  (∀ eid, eid ∈ ids → is_Some (dict_get eid (edges g))) →
  ∃ es, edges_of_ids g ids = Ok es.
Proof.
  induction ids as [|eid ids IH]; simpl; intros Hall; [by eexists|].
  destruct (Hall eid) as [e ->]; [apply list_elem_of_here|].
  destruct IH as [es ->].
  - intros eid' Hin. apply Hall. by apply list_elem_of_further.
  - by eexists.
Qed.

Lemma edges_of_ids_elem g ids es e :
  edges_of_ids g ids = Ok es →
  e ∈ es ↔ ∃ eid, eid ∈ ids ∧ dict_get eid (edges g) = Some e.
Proof.
  intros H. apply edges_of_ids_spec in H.
  induction H as [|eid e' ids es He _ IH].
  - split; [by intros ?%elem_of_nil|by intros (? & ?%elem_of_nil & _)].
  - rewrite elem_of_cons, IH. split.
    + intros [->|(eid' & Hin & Hg)].
      * exists eid. split; [apply list_elem_of_here|done].
      * exists eid'. split; [by apply list_elem_of_further|done].
    + intros (eid' & [->|Hin]%elem_of_cons & Hg).
      * left. congruence.
      * right. eauto.
Qed.

Lemma get_outgoing_edges_total g node_id :
  index_closed g → ∃ es, get_outgoing_edges g node_id = Ok es.
Proof.
  intros [Hadj _]. apply edges_of_ids_total. intros eid Hin.
  destruct (_adjacency g !! node_id) as [l|] eqn:E; simpl in Hin.
  - by eapply Hadj.
  - by apply elem_of_nil in Hin.
Qed.

Lemma get_incoming_edges_total g node_id :
  index_closed g → ∃ es, get_incoming_edges g node_id = Ok es.
Proof.
  intros [_ Hradj]. apply edges_of_ids_total. intros eid Hin.
  destruct (_reverse_adjacency g !! node_id) as [l|] eqn:E; simpl in Hin.
  - by eapply Hradj.
  - by apply elem_of_nil in Hin.
Qed.

Lemma get_dependencies_total g node_id :
  index_closed g → ∃ deps, get_dependencies g node_id = Ok deps.
Proof.
  intros Hc. unfold get_dependencies.
  destruct (get_outgoing_edges_total g node_id Hc) as [es ->]. by eexists.
Qed.

Lemma get_dependents_total g node_id :
  index_closed g → ∃ deps, get_dependents g node_id = Ok deps.
Proof.
  intros Hc. unfold get_dependents.
  destruct (get_incoming_edges_total g node_id Hc) as [es ->]. by eexists.
Qed.

Lemma get_dependencies_elem g node_id deps n :
  get_dependencies g node_id = Ok deps →
  n ∈ deps ↔
  ∃ eid e, eid ∈ default [] (_adjacency g !! node_id)
           ∧ dict_get eid (edges g) = Some e
           ∧ is_dependency_type (Edge.type e) = true
           ∧ get_node g (Edge.target_id e) = Some n.
Proof.
  unfold get_dependencies. intros (es & Hes & [= <-])%bind_Ok.
  rewrite list_elem_of_omap. split.
  - intros (e & He & Hn). eapply edges_of_ids_elem in He as (eid & Hin & Hg); [|done].
    destruct (is_dependency_type (Edge.type e)) eqn:Ht; [|done].
    by exists eid, e.
  - intros (eid & e & Hin & Hg & Ht & Hn). exists e. split.
    + eapply edges_of_ids_elem; [done|]. by exists eid.
    + by rewrite Ht.
Qed.

Lemma get_dependents_elem g node_id deps n :
  get_dependents g node_id = Ok deps →
  n ∈ deps ↔
  ∃ eid e, eid ∈ default [] (_reverse_adjacency g !! node_id)
           ∧ dict_get eid (edges g) = Some e
           ∧ is_dependency_type (Edge.type e) = true
           ∧ get_node g (Edge.source_id e) = Some n.
Proof.
  unfold get_dependents. intros (es & Hes & [= <-])%bind_Ok.
  rewrite list_elem_of_omap. split.
  - intros (e & He & Hn). eapply edges_of_ids_elem in He as (eid & Hin & Hg); [|done].
    destruct (is_dependency_type (Edge.type e)) eqn:Ht; [|done].
    by exists eid, e.
  - intros (eid & e & Hin & Hg & Ht & Hn). exists e. split.
    + eapply edges_of_ids_elem; [done|]. by exists eid.
    + by rewrite Ht.
Qed.

(** C3.  On a graph whose indices are closed, dangling edges included,
    [get_dependencies] and [get_dependents] raise nothing, and the nodes
    they return are exactly the nodes stored under the far endpoint of a
    listed dependency edge: an edge whose endpoint is not a key of [nodes]
    contributes nothing, and every returned node is a value of [nodes]. *)
Theorem dependencies_total_and_present (g : RequirementGraph) (node_id : string) :
  index_closed g →
  ∃ deps dependents,
    get_dependencies g node_id = Ok deps
    ∧ get_dependents g node_id = Ok dependents
    ∧ (∀ n, n ∈ deps ↔
            ∃ eid e, eid ∈ default [] (_adjacency g !! node_id)
                     ∧ dict_get eid (edges g) = Some e
                     ∧ is_dependency_type (Edge.type e) = true
                     ∧ get_node g (Edge.target_id e) = Some n)
    ∧ (∀ n, n ∈ dependents ↔
            ∃ eid e, eid ∈ default [] (_reverse_adjacency g !! node_id)
                     ∧ dict_get eid (edges g) = Some e
                     ∧ is_dependency_type (Edge.type e) = true
                     ∧ get_node g (Edge.source_id e) = Some n)
    ∧ (∀ n, n ∈ deps ∨ n ∈ dependents → n ∈ dict_values (nodes g)).
Proof.
  intros Hc.
  destruct (get_dependencies_total g node_id Hc) as [deps Hdeps].
  destruct (get_dependents_total g node_id Hc) as [dts Hdts].
  exists deps, dts. split_and!; [done|done| | |].
  - intros n. by apply get_dependencies_elem.
  - intros n. by apply get_dependents_elem.
  - intros n [Hn|Hn].
    + eapply get_dependencies_elem in Hn as (eid & e & _ & _ & _ & Hg); [|done].
      apply dict_values_elem. eexists. by apply dict_get_Some_elem.
    + eapply get_dependents_elem in Hn as (eid & e & _ & _ & _ & Hg); [|done].
      apply dict_values_elem. eexists. by apply dict_get_Some_elem.
Qed.

(** ** Completion propagation *)

Section dict_map_facts.
Context {V : Type}.
Implicit Types (d : pydict V) (h : string → V → V).

Lemma dict_get_map h d k : dict_get k (dict_map h d) = h k <$> dict_get k d.
Proof.
  unfold dict_map. induction d as [|[k0 v0] d IH]; simpl; [done|].
  case_decide; [by subst|done].
Qed.

Lemma dict_keys_map h d : dict_keys (dict_map h d) = dict_keys d.
Proof.
  unfold dict_keys, dict_map. rewrite <- list_fmap_compose.
  by apply list_fmap_ext.
Qed.

Lemma dict_map_ext h h' d :
  (∀ k v, (k, v) ∈ d → h k v = h' k v) → dict_map h d = dict_map h' d.
Proof.
  intros Hext. unfold dict_map. apply Forall_fmap_ext_1, Forall_forall.
  intros [k v] Hin. simpl. f_equal. by apply Hext.
Qed.

Lemma dict_map_id d : dict_map (fun _ v => v) d = d.
Proof.
  unfold dict_map. induction d as [|[k0 v0] d IH]; simpl; [done|]. by f_equal.
Qed.

Lemma dict_alter_map (f : V → V) h d k :
  dict_alter f k (dict_map h d)
  = dict_map (fun k' v => if decide (k' = k) then f (h k' v) else h k' v) d
  ∨ ¬ NoDup (dict_keys d).
Proof.
  destruct (decide (NoDup (dict_keys d))) as [Hnd|]; [left|by right].
  unfold dict_map, dict_keys in *.
  induction d as [|[k0 v0] d IH]; simpl; [done|].
  apply NoDup_cons in Hnd as [Hk0 Hnd].
  destruct (decide (k0 = k)) as [->|Hne]; simpl.
  - f_equal. apply Forall_fmap_ext_1, Forall_forall. intros [k1 v1] Hin. simpl.
    rewrite decide_False; [done|]. intros ->. apply Hk0.
    apply list_elem_of_fmap. by exists (k, v1).
  - f_equal. by apply IH.
Qed.

End dict_map_facts.

Lemma lift_all_edges now g ids : edges (lift_all now g ids) = edges g.
Proof. done. Qed.

Lemma get_node_lift_all now g ids k :
  get_node (lift_all now g ids) k
  = (fun o => if lifts g ids k o then lift now o else o) <$> get_node g k.
Proof. unfold get_node, lift_all. simpl. apply dict_get_map. Qed.

Lemma forallb_omap_rel {A B} (P : B → bool) (f f' : A → option B) l :
  (∀ x, match f x, f' x with
        | Some y, Some y' => P y' = P y
        | None, None => True
        | _, _ => False
        end) →
  forallb P (omap f' l) = forallb P (omap f l).
Proof.
  intros Hrel. induction l as [|x l IH]; simpl; [done|].
  specialize (Hrel x). destruct (f x), (f' x); simpl; try done.
  rewrite Hrel. f_equal. exact IH.
Qed.

Lemma deps_all_completed_lift_all now g ids k :
  deps_all_completed (lift_all now g ids) k = deps_all_completed g k.
Proof.
  unfold deps_all_completed, get_dependencies, get_outgoing_edges.
  change (_adjacency (lift_all now g ids)) with (_adjacency g).
  assert (∀ l, edges_of_ids (lift_all now g ids) l = edges_of_ids g l) as ->.
  { induction l as [|eid l IH]; simpl; [done|]. by rewrite IH. }
  destruct (edges_of_ids g (default [] (_adjacency g !! k))) as [es|e]; simpl; [|done].
  apply forallb_omap_rel. intros e.
  destruct (is_dependency_type (Edge.type e)); [|done].
  rewrite get_node_lift_all.
  destruct (get_node g (Edge.target_id e)) as [o|]; simpl; [|done].
  unfold lifts. destruct (bool_decide (Edge.target_id e ∈ ids)); simpl; [|done].
  destruct (bool_decide_reflect (Node.status o = BLOCKED)) as [Hb|Hb]; simpl; [|done].
  destruct (deps_all_completed g (Edge.target_id e)); [|done].
  simpl. rewrite Hb. done.
Qed.

Lemma lifts_snoc g ids k k' o :
  k' ≠ k → lifts g (ids ++ [k]) k' o = lifts g ids k' o.
Proof.
  intros Hne. unfold lifts. f_equal. f_equal. apply bool_decide_ext.
  rewrite elem_of_app, list_elem_of_singleton. tauto.
Qed.

Lemma lifts_snoc_eq g ids k o :
  lifts g (ids ++ [k]) k o
  = bool_decide (Node.status o = BLOCKED) && deps_all_completed g k.
Proof.
  unfold lifts. rewrite bool_decide_eq_true_2; [done|].
  apply elem_of_app. right. by apply list_elem_of_singleton.
Qed.

Lemma lifts_true g ids k o :
  lifts g ids k o = true →
  k ∈ ids ∧ Node.status o = BLOCKED ∧ deps_all_completed g k = true.
Proof.
  unfold lifts. intros [[Hin Hb]%andb_true_iff Hd]%andb_true_iff.
  by apply bool_decide_eq_true in Hin, Hb.
Qed.

Lemma lift_all_snoc_same now g ids k :
  graph_wf g →
  (∀ o, get_node g k = Some o → lifts g (ids ++ [k]) k o = lifts g ids k o) →
  lift_all now g (ids ++ [k]) = lift_all now g ids.
Proof.
  intros Hwf Hsame. unfold lift_all. f_equal. apply dict_map_ext. intros k' o Hin.
  apply dict_elem_get in Hin; [|apply Hwf].
  destruct (decide (k' = k)) as [->|Hne].
  - by rewrite Hsame.
  - by rewrite lifts_snoc.
Qed.

Lemma lift_all_snoc_lift now g ids k :
  graph_wf g →
  (∀ o, get_node g k = Some o →
        lifts g (ids ++ [k]) k o = true ∧ lifts g ids k o = false) →
  lift_all now g (ids ++ [k]) = assign_status (lift_all now g ids) k NOT_STARTED now.
Proof.
  intros Hwf Hlift. unfold assign_status, lift_all, set_nodes. simpl. f_equal.
  destruct (dict_alter_map
              (fun n => Node.set_updated_at now (Node.set_status NOT_STARTED n))
              (fun k o => if lifts g ids k o then lift now o else o)
              (nodes g) k) as [->|Hnd]; [|exfalso; apply Hnd, Hwf].
  apply dict_map_ext. intros k' o Hin.
  apply dict_elem_get in Hin; [|apply Hwf].
  destruct (decide (k' = k)) as [->|Hne].
  - destruct (Hlift o Hin) as [-> ->]. done.
  - by rewrite lifts_snoc.
Qed.

(** One iteration of the loop, in closed form. *)
Lemma propagate_step_lift_all now g ids dependent :
  graph_wf g →
  propagate_step now (lift_all now g ids) dependent
  = Ok (lift_all now g (ids ++ [Node.id dependent])).
Proof.
  intros Hwf. set (k := Node.id dependent). unfold propagate_step. fold k.
  rewrite get_node_lift_all.
  destruct (get_node g k) as [o|] eqn:Ho; simpl.
  - assert (Node.id o = k) as Hid by (by apply Hwf).
    destruct (lifts g ids k o) eqn:Hl; simpl.
    + (* lifted by an earlier iteration: not blocked any more *)
      f_equal. symmetry. apply lift_all_snoc_same; [done|].
      intros o' Ho'. assert (o' = o) as -> by congruence.
      rewrite lifts_snoc_eq, Hl. apply lifts_true in Hl as (_ & Hb & ->).
      by rewrite bool_decide_eq_true_2.
    + destruct (decide (Node.status o = BLOCKED)) as [Hb|Hb].
      * rewrite Hid.
        pose proof (deps_all_completed_lift_all now g ids k) as Hd.
        unfold deps_all_completed in Hd at 1.
        destruct (get_dependencies_total (lift_all now g ids) k) as [deps Hdeps].
        { apply Hwf. }
        rewrite Hdeps in Hd. rewrite Hdeps. simpl. rewrite Hd.
        destruct (deps_all_completed g k) eqn:Hc.
        -- f_equal. symmetry. apply lift_all_snoc_lift; [done|].
           intros o' Ho'. assert (o' = o) as -> by congruence. split; [|done].
           by rewrite lifts_snoc_eq, Hc, bool_decide_eq_true_2.
        -- f_equal. symmetry. apply lift_all_snoc_same; [done|].
           intros o' Ho'. assert (o' = o) as -> by congruence.
           by rewrite lifts_snoc_eq, Hc, Hl, andb_false_r.
      * f_equal. symmetry. apply lift_all_snoc_same; [done|].
        intros o' Ho'. assert (o' = o) as -> by congruence.
        by rewrite lifts_snoc_eq, Hl, bool_decide_eq_false_2.
  - f_equal. symmetry. apply lift_all_snoc_same; [done|]. intros o' Ho'. congruence.
Qed.

Lemma lift_all_nil now g : lift_all now g [] = g.
Proof.
  unfold lift_all. destruct g as [ns es a r]. unfold set_nodes. simpl. f_equal.
  apply dict_map_id.
Qed.

Lemma for_each_propagate_lift_all now g ids dependents :
  graph_wf g →
  for_each (propagate_step now) (lift_all now g ids) dependents
  = Ok (lift_all now g (ids ++ (Node.id <$> dependents))).
Proof.
  intros Hwf. revert ids. induction dependents as [|d l IH]; intros ids; simpl.
  - by rewrite app_nil_r.
  - rewrite propagate_step_lift_all by done. simpl.
    rewrite IH. by rewrite <- app_assoc.
Qed.

(** [_propagate_completion] in closed form. *)
Lemma propagate_completion_lift_all now g node_id :
  graph_wf g →
  ∃ dependents,
    get_dependents g node_id = Ok dependents
    ∧ _propagate_completion g node_id now
      = Ok (lift_all now g (Node.id <$> dependents)).
Proof.
  intros Hwf. destruct (get_dependents_total g node_id) as [ds Hds]; [apply Hwf|].
  exists ds. split; [done|]. unfold _propagate_completion. rewrite Hds. simpl.
  rewrite <- (lift_all_nil now g) at 1.
  by rewrite for_each_propagate_lift_all.
Qed.

Lemma deps_all_completed_spec g k :
  deps_all_completed g k = true ↔
  ∃ deps, get_dependencies g k = Ok deps
          ∧ ∀ d, d ∈ deps → Node.status d = COMPLETED.
Proof.
  unfold deps_all_completed. destruct (get_dependencies g k) as [deps|e].
  - rewrite forallb_forall. split.
    + intros Hall. exists deps. split; [done|]. intros d Hd.
      apply list_elem_of_In, Hall in Hd. by apply bool_decide_eq_true in Hd.
    + intros (deps' & [= <-] & Hall) d Hd. apply bool_decide_eq_true.
      by apply Hall, list_elem_of_In.
  - split; [done|]. by intros (deps & [=] & _).
Qed.

Lemma lifts_spec g (dependents : list Node) k o :
  lifts g (Node.id <$> dependents) k o = true ↔
  (∃ d, d ∈ dependents ∧ Node.id d = k)
  ∧ Node.status o = BLOCKED
  ∧ ∃ deps, get_dependencies g k = Ok deps
            ∧ ∀ d, d ∈ deps → Node.status d = COMPLETED.
Proof.
  unfold lifts. rewrite !andb_true_iff, !bool_decide_eq_true.
  rewrite deps_all_completed_spec, list_elem_of_fmap. split.
  - intros [[(d & -> & Hd) Hb] Hc]. split_and!; [by exists d|done|done].
  - intros ((d & Hd & <-) & Hb & Hc). split_and!; [by exists d|done|done].
Qed.

(** C1.  On a graph that satisfies the invariant, [update_status(n,
    completed)] raises nothing, returns the node [n] with status completed,
    leaves the edges, both indices and the keys of [nodes] as they were,
    and changes another node only in one way: a direct dependent of [n]
    that is blocked and all of whose direct dependencies are completed
    once [n] is gets status [not_started] (and the timestamp of the
    change); every other node is the object it was.  So no other node
    becomes completed, and a status that changes becomes [not_started]. *)
Theorem update_status_completed (g : RequirementGraph) (node_id : string)
    (now : datetime) (node : Node) :
  graph_wf g →
  get_node g node_id = Some node →
  ∃ g' node' dependents,
    update_status g node_id COMPLETED now = Ok (g', Some node')
    ∧ get_dependents (assign_status g node_id COMPLETED now) node_id = Ok dependents
    ∧ get_node g' node_id = Some node'
    ∧ node' = Node.set_updated_at now (Node.set_status COMPLETED node)
    ∧ Node.status node' = COMPLETED
    ∧ edges g' = edges g
    ∧ _adjacency g' = _adjacency g
    ∧ _reverse_adjacency g' = _reverse_adjacency g
    ∧ dict_keys (nodes g') = dict_keys (nodes g)
    ∧ ∀ k o, k ≠ node_id → get_node g k = Some o →
        let lifted :=
          (∃ d, d ∈ dependents ∧ Node.id d = k)
          ∧ Node.status o = BLOCKED
          ∧ ∃ deps, get_dependencies (assign_status g node_id COMPLETED now) k = Ok deps
                    ∧ ∀ d, d ∈ deps → Node.status d = COMPLETED in
        ∃ o', get_node g' k = Some o'
              ∧ (lifted → o' = Node.set_updated_at now (Node.set_status NOT_STARTED o))
              ∧ (¬ lifted → o' = o)
              ∧ (Node.status o' = COMPLETED → Node.status o = COMPLETED)
              ∧ (Node.status o' ≠ Node.status o → Node.status o' = NOT_STARTED).
Proof.
  intros Hwf Hnode.
  set (g1 := assign_status g node_id COMPLETED now).
  assert (graph_wf g1) as Hwf1 by (by apply graph_wf_assign_status).
  destruct (propagate_completion_lift_all now g1 node_id Hwf1) as (ds & Hds & Hprop).
  set (node1 := Node.set_updated_at now (Node.set_status COMPLETED node)).
  assert (get_node g1 node_id = Some node1) as Hnode1.
  { unfold get_node, g1, assign_status. simpl.
    rewrite dict_get_alter, decide_True by done.
    unfold get_node in Hnode. by rewrite Hnode. }
  assert (get_node (lift_all now g1 (Node.id <$> ds)) node_id = Some node1) as Hnode'.
  { rewrite get_node_lift_all, Hnode1. simpl.
    destruct (lifts g1 (Node.id <$> ds) node_id node1) eqn:Hl; [|done].
    by apply lifts_true in Hl as (_ & Hb & _). }
  exists (lift_all now g1 (Node.id <$> ds)), node1, ds.
  split_and!; try done.
  - unfold update_status. rewrite Hnode. fold g1. rewrite decide_True by done.
    rewrite Hprop. simpl. by rewrite Hnode'.
  - unfold lift_all, g1, assign_status. simpl.
    by rewrite dict_keys_map, dict_keys_alter.
  - intros k o Hk Ho lifted.
    assert (get_node g1 k = Some o) as Ho1.
    { unfold get_node, g1, assign_status. simpl.
      by rewrite dict_get_alter, decide_False. }
    pose proof (lifts_spec g1 ds k o) as Hspec. fold lifted in Hspec.
    rewrite get_node_lift_all, Ho1. simpl.
    destruct (lifts g1 (Node.id <$> ds) k o) eqn:Hl.
    + assert lifted as Hlifted by (by apply Hspec).
      exists (lift now o). split_and!; done.
    + assert (¬ lifted) as Hn.
      { intros Hlifted. apply Hspec in Hlifted. congruence. }
      exists o. split_and!; try done.
Qed.

(** ** Actionable items *)

Lemma deps_all_done_spec g k :
  deps_all_done g k = true ↔
  ∃ deps, get_dependencies g k = Ok deps
          ∧ ∀ d, d ∈ deps → is_done_status (Node.status d) = true.
Proof.
  unfold deps_all_done. destruct (get_dependencies g k) as [deps|e].
  - rewrite forallb_forall. split.
    + intros Hall. exists deps. split; [done|]. intros d Hd.
      by apply Hall, list_elem_of_In.
    + intros (deps' & [= <-] & Hall) d Hd. by apply Hall, list_elem_of_In.
  - split; [done|]. by intros (deps & [=] & _).
Qed.

(** The loop of [get_actionable_items] is a filter. *)
Lemma actionable_loop_filter g ns :
  index_closed g →
  actionable_loop g ns = Ok (filter (fun n => is_actionable g n = true) ns).
Proof.
  intros Hc. induction ns as [|n ns IH]; simpl; [done|].
  rewrite filter_cons, IH.
  destruct (get_dependencies_total g (Node.id n) Hc) as [deps Hdeps].
  assert (is_actionable g n
          = is_open_status (Node.status n)
            && forallb (fun dep => is_done_status (Node.status dep)) deps) as Ha.
  { unfold is_actionable, deps_all_done. by rewrite Hdeps. }
  rewrite Hdeps. simpl.
  destruct (decide (is_actionable g n = true)) as [Ht|Hf].
  - rewrite Ha in Ht. apply andb_true_iff in Ht as [-> ->]. done.
  - rewrite Ha in Hf. destruct (is_open_status (Node.status n)); [|done].
    destruct (forallb (fun dep => is_done_status (Node.status dep)) deps); [|done].
    by exfalso.
Qed.

Lemma omap_fmap_pointwise {A B} (h : B → B) (f f' : A → option B) (l : list A) :
  (∀ x, f' x = h <$> f x) → omap f' l = h <$> omap f l.
Proof.
  intros Hp. induction l as [|x l IH]; [done|].
  cbn [omap list_omap]. rewrite Hp. destruct (f x) as [y|]; simpl.
  - f_equal. exact IH.
  - exact IH.
Qed.

Lemma get_node_assign_status g k status now k' :
  graph_wf g →
  get_node (assign_status g k status now) k'
  = (fun d => if decide (Node.id d = k)
              then Node.set_updated_at now (Node.set_status status d)
              else d) <$> get_node g k'.
Proof.
  intros Hwf. unfold get_node, assign_status. simpl. rewrite dict_get_alter.
  destruct (dict_get k' (nodes g)) as [d|] eqn:Hd.
  - assert (Node.id d = k') as Hid by (by apply Hwf).
    destruct (decide (k = k')) as [->|Hne].
    + rewrite Hd. simpl. by rewrite decide_True.
    + simpl. rewrite decide_False by congruence. done.
  - destruct (decide (k = k')) as [->|Hne]; [by rewrite Hd|done].
Qed.

Lemma get_dependencies_assign_status g k status now node_id deps :
  graph_wf g →
  get_dependencies g node_id = Ok deps →
  get_dependencies (assign_status g k status now) node_id
  = Ok ((fun d => if decide (Node.id d = k)
                  then Node.set_updated_at now (Node.set_status status d)
                  else d) <$> deps).
Proof.
  intros Hwf. unfold get_dependencies, get_outgoing_edges.
  change (_adjacency (assign_status g k status now)) with (_adjacency g).
  assert (∀ l, edges_of_ids (assign_status g k status now) l = edges_of_ids g l) as ->.
  { induction l as [|eid l IH]; simpl; [done|]. by rewrite IH. }
  intros (es & -> & [= <-])%bind_Ok. simpl. f_equal.
  apply omap_fmap_pointwise. intros e.
  destruct (is_dependency_type (Edge.type e)); [|done].
  by apply get_node_assign_status.
Qed.

(** C2.  On a graph that satisfies the invariant [get_actionable_items]
    raises nothing and returns, in the order of [nodes], exactly the nodes
    whose status is [not_started] or [in_progress] and whose every
    dependency reported by [get_dependencies] is [completed] or
    [not_applicable].  A node whose one dependency is blocked is not
    returned; once [update_status] has made that dependency
    [not_applicable], the node, if its own status is open, is returned. *)
Theorem get_actionable_items_spec (g : RequirementGraph) :
  graph_wf g →
  ∃ l,
    get_actionable_items g = Ok l
    ∧ l = filter (fun n => is_actionable g n = true) (dict_values (nodes g))
    ∧ (∀ n, n ∈ l ↔
            n ∈ dict_values (nodes g)
            ∧ (Node.status n = NOT_STARTED ∨ Node.status n = IN_PROGRESS)
            ∧ ∃ deps, get_dependencies g (Node.id n) = Ok deps
                      ∧ ∀ d, d ∈ deps →
                             Node.status d = COMPLETED
                             ∨ Node.status d = NOT_APPLICABLE)
    ∧ (∀ n d, n ∈ dict_values (nodes g) →
              get_dependencies g (Node.id n) = Ok [d] →
              Node.status d = BLOCKED → n ∉ l)
    ∧ (∀ n d now, n ∈ dict_values (nodes g) →
                  get_dependencies g (Node.id n) = Ok [d] →
                  Node.id d ≠ Node.id n →
                  Node.status n = NOT_STARTED ∨ Node.status n = IN_PROGRESS →
                  ∃ g' r l',
                    update_status g (Node.id d) NOT_APPLICABLE now = Ok (g', r)
                    ∧ get_actionable_items g' = Ok l'
                    ∧ n ∈ l').
Proof.
  intros Hwf.
  assert (∀ g n, is_actionable g n = true ↔
            (Node.status n = NOT_STARTED ∨ Node.status n = IN_PROGRESS)
            ∧ ∃ deps, get_dependencies g (Node.id n) = Ok deps
                      ∧ ∀ d, d ∈ deps →
                             Node.status d = COMPLETED
                             ∨ Node.status d = NOT_APPLICABLE) as Hact.
  { intros g0 n. unfold is_actionable.
    rewrite andb_true_iff, deps_all_done_spec.
    assert (∀ s, is_open_status s = true ↔ s = NOT_STARTED ∨ s = IN_PROGRESS) as Hopen.
    { intros s. destruct s; simpl; intuition congruence. }
    assert (∀ s, is_done_status s = true ↔ s = COMPLETED ∨ s = NOT_APPLICABLE) as Hdone.
    { intros s. destruct s; simpl; intuition congruence. }
    rewrite Hopen. split.
    - intros [Ho (deps & Hdeps & Hall)]. split; [done|]. exists deps.
      split; [done|]. intros d Hd. by apply Hdone, Hall.
    - intros [Ho (deps & Hdeps & Hall)]. split; [done|]. exists deps.
      split; [done|]. intros d Hd. by apply Hdone, Hall. }
  eexists. split_and!.
  - unfold get_actionable_items. apply actionable_loop_filter, Hwf.
  - done.
  - intros n. rewrite list_elem_of_filter, Hact. tauto.
  - intros n d Hn Hdeps Hb. rewrite list_elem_of_filter, Hact.
    intros [(_ & deps & Hdeps' & Hall) _].
    assert (deps = [d]) as -> by congruence.
    destruct (Hall d) as [Hs|Hs]; [apply list_elem_of_here| |]; congruence.
  - intros n d now Hn Hdeps Hne Hopen.
    apply dict_values_elem in Hn as [kn Hn].
    apply dict_elem_get in Hn; [|apply Hwf].
    assert (Node.id n = kn) as Hkn by (by apply Hwf).
    assert (get_node g (Node.id d) = Some d) as Hd.
    { eapply get_dependencies_elem in Hdeps.
      destruct (proj1 Hdeps) as (eid & e & _ & _ & _ & Hg); [apply list_elem_of_here|].
      unfold get_node in *. by rewrite (wf_node_id g Hwf _ _ Hg). }
    set (g' := assign_status g (Node.id d) NOT_APPLICABLE now).
    assert (graph_wf g') as Hwf' by (by apply graph_wf_assign_status).
    exists g', (get_node g' (Node.id d)),
      (filter (fun n => is_actionable g' n = true) (dict_values (nodes g'))).
    split_and!.
    + unfold update_status. by rewrite Hd.
    + unfold get_actionable_items. apply actionable_loop_filter, Hwf'.
    + apply list_elem_of_filter. split.
      * apply Hact. split; [done|].
        eexists. split.
        -- by apply get_dependencies_assign_status.
        -- intros d' Hd'. simpl in Hd'. rewrite decide_True in Hd' by done.
           apply list_elem_of_singleton in Hd'. subst d'. by right.
      * apply dict_values_elem. exists kn. apply dict_get_Some_elem.
        unfold g', assign_status. simpl. rewrite dict_get_alter.
        rewrite decide_False by congruence. done.
Qed.

(** ** Completion statistics *)

Lemma CompletionStatus_value_inj s s' :
  CompletionStatus_value s = CompletionStatus_value s' → s = s'.
Proof. by destruct s, s'. Qed.

Lemma stats_init_lookup s : stats_init !! CompletionStatus_value s = Some 0.
Proof. by destruct s. Qed.

(** The counter of a status after the counting loop. *)
Lemma count_statuses_lookup ns s :
  count_statuses ns !! CompletionStatus_value s
  = Some (length (filter (fun n => Node.status n = s) ns)).
Proof.
  unfold count_statuses.
  assert (∀ (m : gmap string nat) c,
            m !! CompletionStatus_value s = Some c →
            foldl (fun stats node =>
                     let k := CompletionStatus_value (Node.status node) in
                     <[k := S (default 0 (stats !! k))]> stats) m ns
              !! CompletionStatus_value s
            = Some (c + length (filter (fun n => Node.status n = s) ns))) as Hgen.
  { induction ns as [|n ns IH]; intros m c Hm; simpl.
    - by rewrite Nat.add_0_r.
    - rewrite filter_cons. destruct (decide (Node.status n = s)) as [Hs|Hs].
      + rewrite (IH _ (S c)).
        * simpl. f_equal. lia.
        * rewrite Hs, lookup_insert_eq, Hm. done.
      + apply IH. rewrite lookup_insert_ne; [done|].
        intros Heq. by apply CompletionStatus_value_inj in Heq. }
  exact (Hgen _ 0 (stats_init_lookup s)).
Qed.

Lemma get_completion_stats_percentage g :
  completion_percentage (get_completion_stats g)
  = if 0 <? length (nodes g) - length (get_nodes_by_status g NOT_APPLICABLE)
    then PyFloat (py_round1
           (PrimFloat.mul
              (PrimFloat.div
                 (float_of_nat (length (get_nodes_by_status g COMPLETED)))
                 (float_of_nat (length (nodes g)
                                - length (get_nodes_by_status g NOT_APPLICABLE))))
              (float_of_Z 100)))
    else PyInt 0.
Proof.
  unfold get_completion_stats, get_nodes_by_status. cbn [completion_percentage].
  rewrite !count_statuses_lookup. cbn [default].
  by destruct (0 <? _).
Qed.

(** C6, as the code has it.  [get_completion_stats] reports
    [round(completed / (total - not_applicable) * 100, 1)], the quotient
    and the product being those of binary64 floats, and the integer [0]
    when [total - not_applicable] is [0]; [total] is the number of nodes
    and the two counts are those of the nodes with that status.  With 10
    nodes of which 2 are not applicable and 4 completed it reports
    [50.0]. *)
Theorem completion_percentage_rounded :
  (∀ g : RequirementGraph,
     completion_percentage (get_completion_stats g)
     = if 0 <? length (nodes g) - length (get_nodes_by_status g NOT_APPLICABLE)
       then PyFloat (py_round1
              (PrimFloat.mul
                 (PrimFloat.div
                    (float_of_nat (length (get_nodes_by_status g COMPLETED)))
                    (float_of_nat (length (nodes g)
                                   - length (get_nodes_by_status g NOT_APPLICABLE))))
                 (float_of_Z 100)))
       else PyInt 0)
  ∧ (∀ g : RequirementGraph,
       length (nodes g) = 10 ∧
       length (get_nodes_by_status g NOT_APPLICABLE) = 2 ∧
       length (get_nodes_by_status g COMPLETED) = 4 →
       completion_percentage (get_completion_stats g) = PyFloat 50%float).
Proof.
  split; [apply get_completion_stats_percentage|].
  intros g (Ht & Hn & Hc). rewrite get_completion_stats_percentage, Ht, Hn, Hc.
  vm_compute. reflexivity.
Qed.

(** ** Substrings *)

#[local] Arguments String.append : simpl nomatch.

Lemma str_app_assoc (a b c : string) : (a +:+ b) +:+ c = a +:+ (b +:+ c).
Proof. induction a as [|x a IH]; simpl; [done|]. by rewrite IH. Qed.

Lemma str_app_nil_r (a : string) : a +:+ "" = a.
Proof. induction a as [|x a IH]; simpl; [done|]. by rewrite IH. Qed.

Lemma is_prefix_spec needle hay :
  is_prefix needle hay = true ↔ ∃ post, hay = needle +:+ post.
Proof.
  revert hay. induction needle as [|a needle IH]; intros hay; simpl.
  - split; [intros _; by exists hay|done].
  - destruct hay as [|b hay].
    + split; [done|]. by intros [post [=]].
    + rewrite andb_true_iff, bool_decide_eq_true, IH. split.
      * intros [-> [post ->]]. by exists post.
      * intros [post [= -> ->]]. split; [done|by exists post].
Qed.

Lemma str_contains_spec needle hay :
  str_contains needle hay = true ↔ ∃ pre post, hay = pre +:+ needle +:+ post.
Proof.
  induction hay as [|c hay IH]; simpl.
  - destruct (is_prefix needle "") eqn:Hp.
    + apply is_prefix_spec in Hp as [post Hp]. split; [|done].
      intros _. by exists "", post.
    + split; [done|]. intros (pre & post & H).
      destruct pre; simpl in H.
      * assert (is_prefix needle "" = true) as Hp'; [|congruence].
        apply is_prefix_spec. by exists post.
      * done.
  - destruct (is_prefix needle (String c hay)) eqn:Hp.
    + apply is_prefix_spec in Hp as [post Hp]. split; [|done].
      intros _. by exists "", post.
    + rewrite IH. split.
      * intros (pre & post & ->). by exists (String c pre), post.
      * intros (pre & post & H). destruct pre as [|c' pre]; simpl in H.
        -- assert (is_prefix needle (String c hay) = true) as Hp'; [|congruence].
           apply is_prefix_spec. by exists post.
        -- injection H as -> ->. by exists pre, post.
Qed.

Lemma str_contains_trans a b c :
  str_contains a b = true → str_contains b c = true → str_contains a c = true.
Proof.
  rewrite !str_contains_spec. intros (p1 & q1 & ->) (p2 & q2 & ->).
  exists (p2 +:+ p1), (q1 +:+ q2). by rewrite !str_app_assoc.
Qed.

Lemma str_contains_app_l needle a b :
  str_contains needle a = true → str_contains needle (a +:+ b) = true.
Proof.
  rewrite !str_contains_spec. intros (p & q & ->).
  exists p, (q +:+ b). by rewrite !str_app_assoc.
Qed.

Lemma str_contains_app_r needle a b :
  str_contains needle b = true → str_contains needle (a +:+ b) = true.
Proof.
  rewrite !str_contains_spec. intros (p & q & ->).
  exists (a +:+ p), q. by rewrite !str_app_assoc.
Qed.

Lemma ascii_lower_app a b : ascii_lower (a +:+ b) = ascii_lower a +:+ ascii_lower b.
Proof. induction a as [|x a IH]; simpl; [done|]. by rewrite IH. Qed.

(** The ASCII instance of [str.lower] keeps an occurrence of a substring
    in place. *)
Lemma ascii_lower_contains s t :
  is_ascii_string s = true →
  str_contains s t = true → str_contains (ascii_lower s) (ascii_lower t) = true.
Proof.
  intros _. rewrite !str_contains_spec. intros (p & q & ->).
  exists (ascii_lower p), (ascii_lower q). by rewrite !ascii_lower_app.
Qed.

(** ** Priorities *)

Section priority.

Variable lower : string → string.

(** Lowering a text lowers each occurrence of an ASCII substring where it
    stands: [str.lower] maps the characters one by one, and the ASCII
    letters to their ASCII lower case. *)
Hypothesis lower_ascii_contains : ∀ s t,
  is_ascii_string s = true →
  str_contains s t = true → str_contains (ascii_lower s) (lower t) = true.

Lemma determine_priority_keyword g node :
  existsb
    (fun keyword =>
       str_contains keyword
         (lower (Node.title node +:+ Node.description node
                 +:+ default "" (Node.source_text node))))
    CRITICAL_KEYWORDS = true →
  _determine_priority lower g node = Ok CRITICAL.
Proof. intros H. unfold _determine_priority. by rewrite H. Qed.

(** C8.  A node whose title, description and source text, concatenated
    and lowered, contain one of the critical keywords has priority
    CRITICAL, whatever its metadata, its type and the graph; so has a node
    whose description contains "Ausschlusskriterium" and whose metadata
    say [is_required = False]. *)
Theorem critical_keyword_outranks_metadata :
  (∀ g node keyword,
     keyword ∈ CRITICAL_KEYWORDS →
     str_contains keyword
       (lower (Node.title node +:+ Node.description node
               +:+ default "" (Node.source_text node))) = true →
     _determine_priority lower g node = Ok CRITICAL)
  ∧ (∀ g node,
       str_contains "Ausschlusskriterium" (Node.description node) = true →
       Node.metadata node !! "is_required" = Some (PBool false) →
       _determine_priority lower g node = Ok CRITICAL).
Proof.
  assert (∀ g node keyword,
     keyword ∈ CRITICAL_KEYWORDS →
     str_contains keyword
       (lower (Node.title node +:+ Node.description node
               +:+ default "" (Node.source_text node))) = true →
     _determine_priority lower g node = Ok CRITICAL) as Hgen.
  { intros g node keyword Hin Hc. apply determine_priority_keyword.
    apply existsb_exists. exists keyword. split; [by apply list_elem_of_In|done]. }
  split; [done|].
  intros g node Hdesc _. apply (Hgen g node "ausschluss").
  - apply list_elem_of_here.
  - apply (str_contains_trans _ (ascii_lower "Ausschlusskriterium")); [done|].
    apply lower_ascii_contains; [done|].
    by apply str_contains_app_r, str_contains_app_l.
Qed.

(** C9, as the code has it.  For a node that none of the rules on
    keywords, [is_required], and the types signature, deadline and document
    applies to, the priority is HIGH exactly when the list that
    [get_dependents] returns has three entries or more, and MEDIUM
    otherwise.  The list has one entry for every incoming edge of type
    [depends_on], [requires] or [conditional_on] whose source is a stored
    node, whatever the status of that node: a completed dependent is
    counted, and a dependent linked by two such edges is counted twice. *)
Theorem priority_by_dependent_count (g : RequirementGraph) (node : Node) :
  index_closed g →
  existsb
    (fun keyword =>
       str_contains keyword
         (lower (Node.title node +:+ Node.description node
                 +:+ default "" (Node.source_text node))))
    CRITICAL_KEYWORDS = false →
  Node.metadata node !! "is_required" ≠ Some (PBool true) →
  Node.type node ≠ SIGNATURE →
  Node.type node ≠ DEADLINE →
  Node.type node ≠ DOCUMENT →
  ∃ dependents,
    get_dependents g (Node.id node) = Ok dependents
    ∧ _determine_priority lower g node
      = Ok (if 3 <=? length dependents then HIGH else MEDIUM)
    ∧ (_determine_priority lower g node = Ok HIGH ↔ 3 ≤ length dependents)
    ∧ (_determine_priority lower g node = Ok MEDIUM ↔ length dependents < 3)
    ∧ ∃ incoming,
        get_incoming_edges g (Node.id node) = Ok incoming
        ∧ dependents
          = omap (fun edge : Edge =>
                    if is_dependency_type (Edge.type edge)
                    then get_node g (Edge.source_id edge)
                    else None) incoming
        ∧ length dependents
          = length (filter (fun edge : Edge =>
                              is_dependency_type (Edge.type edge) = true
                              ∧ is_Some (get_node g (Edge.source_id edge)))
                      incoming).
Proof.
  intros Hc Hkw Hreq Hsig Hdl Hdoc.
  destruct (get_dependents_total g (Node.id node) Hc) as [ds Hds].
  destruct (get_incoming_edges_total g (Node.id node) Hc) as [es Hes].
  assert (_determine_priority lower g node
          = Ok (if 3 <=? length ds then HIGH else MEDIUM)) as Hp.
  { unfold _determine_priority. rewrite Hkw.
    assert (∀ r : result Priority,
              match Node.metadata node !! "is_required" with
              | Some (PBool true) => Ok HIGH
              | _ => r
              end = r) as ->.
    { intros r. destruct (Node.metadata node !! "is_required") as [[| [|] | | |]|]; done. }
    destruct (Node.type node); try done.
    all: rewrite Hds; cbn [bind]; destruct (3 <=? length ds); [done|].
    all: rewrite Hes; cbn [bind]; by destruct (existsb _ es). }
  exists ds. split_and!; [done|done| | |].
  - rewrite Hp. destruct (Nat.leb_spec 3 (length ds)); split; try done; lia.
  - rewrite Hp. destruct (Nat.leb_spec 3 (length ds)); split; try done; lia.
  - exists es. split; [done|].
    unfold get_dependents in Hds. rewrite Hes in Hds. cbn [bind] in Hds.
    injection Hds as <-. split; [done|].
    clear. induction es as [|edge es IH]; [done|].
    cbn [omap list_omap]. rewrite filter_cons.
    destruct (is_dependency_type (Edge.type edge)).
    + destruct (get_node g (Edge.source_id edge)) as [n|].
      * rewrite decide_True by (split; [done|by eexists]). simpl. by rewrite IH.
      * rewrite decide_False; [done|]. by intros [_ [? ?]].
    + rewrite decide_False; [done|]. by intros [? _].
Qed.

End priority.

(** ** Timestamps in ISO form *)

Lemma digit_val_digit q : (q < 10)%N → digit_val (digit q) = Some q.
Proof.
  intros Hq. unfold digit_val, digit.
  rewrite N_ascii_embedding by lia.
  assert (((48 <=? 48 + q) && (48 + q <=? 57))%N = true) as ->.
  { apply andb_true_iff. split; apply N.leb_le; lia. }
  f_equal. lia.
Qed.

Lemma read_digits_zero_pad w n acc rest :
  (n < 10 ^ N.of_nat w)%N →
  read_digits w acc (zero_pad w n +:+ rest)
  = Some ((acc * 10 ^ N.of_nat w + n)%N, rest).
Proof.
  revert n acc. induction w as [|w IH]; intros n acc Hn.
  - simpl in *. f_equal. f_equal. lia.
  - rewrite Nat2N.inj_succ, N.pow_succ_r' in *.
    assert (10 ^ N.of_nat w ≠ 0)%N as Hpos by (apply N.pow_nonzero; lia).
    pose proof (N.div_mod n (10 ^ N.of_nat w)) as Hdm.
    pose proof (N.mod_lt n (10 ^ N.of_nat w)) as Hlt.
    assert (n / 10 ^ N.of_nat w < 10)%N as Hq.
    { apply N.Div0.div_lt_upper_bound. lia. }
    cbn [zero_pad read_digits]. simpl String.append. cbv iota beta.
    rewrite digit_val_digit by done.
    specialize (Hdm Hpos). specialize (Hlt Hpos).
    rewrite IH by lia. f_equal. f_equal. nia.
Qed.

Lemma zero_pad_succ_nonempty w n rest : zero_pad (S w) n +:+ rest ≠ "".
Proof. done. Qed.

(** The reader inverts [isoformat] on every [datetime] object. *)
Lemma parse_isoformat_isoformat (d : datetime) :
  datetime_ok d = true → parse_isoformat (isoformat d) = Some d.
Proof.
  destruct d as [y mo da h mi se us]. unfold datetime_ok. simpl.
  rewrite !andb_true_iff, !N.leb_le, !N.ltb_lt.
  intros (((((((((Hy1 & Hy2) & Hm1) & Hm2) & Hd1) & Hd2) & Hh) & Hmi) & Hse) & Hus).
  assert (da <= 31)%N as Hda.
  { etrans; [exact Hd2|]. unfold days_in_month. destruct (is_leap y).
    all: repeat match goal with
                | |- context [match ?x with _ => _ end] => destruct x
                end; lia. }
  unfold parse_isoformat, isoformat. cbn [datetime.year datetime.month
    datetime.day datetime.hour datetime.minute datetime.second datetime.microsecond].
  rewrite (read_digits_zero_pad 4 y) by (simpl; lia).
  cbn [mbind option_bind String.append expect].
  rewrite bool_decide_eq_true_2 by done. cbn [mbind option_bind].
  rewrite (read_digits_zero_pad 2 mo) by (simpl; lia).
  cbn [mbind option_bind String.append expect].
  rewrite bool_decide_eq_true_2 by done. cbn [mbind option_bind].
  rewrite (read_digits_zero_pad 2 da) by (simpl; lia).
  cbn [mbind option_bind String.append expect].
  rewrite bool_decide_eq_true_2 by done. cbn [mbind option_bind].
  rewrite (read_digits_zero_pad 2 h) by (simpl; lia).
  cbn [mbind option_bind String.append expect].
  rewrite bool_decide_eq_true_2 by done. cbn [mbind option_bind].
  rewrite (read_digits_zero_pad 2 mi) by (simpl; lia).
  cbn [mbind option_bind String.append expect].
  rewrite bool_decide_eq_true_2 by done. cbn [mbind option_bind].
  rewrite (read_digits_zero_pad 2 se) by (simpl; lia).
  cbn [mbind option_bind].
  assert (datetime_ok (datetime.mk y mo da h mi se us) = true) as Hok.
  { unfold datetime_ok. simpl.
    rewrite !andb_true_iff, !N.leb_le, !N.ltb_lt. tauto. }
  rewrite !N.mul_0_l, !N.add_0_l.
  destruct (N.eqb_spec us 0) as [->|Hne].
  - cbn [mbind option_bind]. by rewrite Hok.
  - cbn [String.append expect mbind option_bind].
    rewrite bool_decide_eq_true_2 by done. cbn [mbind option_bind].
    rewrite <- (str_app_nil_r (zero_pad 6 us)).
    rewrite (read_digits_zero_pad 6 us) by (simpl; lia).
    cbn [mbind option_bind]. rewrite !N.mul_0_l, !N.add_0_l. by rewrite Hok.
Qed.

(** ** Merging duplicates *)

Section fold_facts.
Context {V X : Type}.
Implicit Types (d : pydict V) (f : V → V) (key : X → string).

(** Altering the entries named by a list, one after the other. *)
Lemma dict_get_foldl_alter f key (xs : list X) d k :
  (∀ v, f (f v) = f v) →
  dict_get k (foldl (fun d x => dict_alter f (key x) d) d xs)
  = if decide (k ∈ key <$> xs) then f <$> dict_get k d else dict_get k d.
Proof.
  intros Hidem. revert d. induction xs as [|x xs IH]; intros d.
  - simpl. done.
  - cbn [foldl]. rewrite fmap_cons, IH, dict_get_alter.
    destruct (decide (key x = k)) as [Hx|Hx].
    + rewrite (decide_True (P := k ∈ key x :: (key <$> xs)))
        by (subst; apply list_elem_of_here).
      subst k. destruct (decide (key x ∈ key <$> xs)); [|done].
      destruct (dict_get (key x) d); simpl; [|done]. by rewrite Hidem.
    + destruct (decide (k ∈ key <$> xs)) as [Hin|Hin].
      * rewrite decide_True; [done|by apply list_elem_of_further].
      * rewrite decide_False; [done|].
        rewrite not_elem_of_cons. split; [congruence|done].
Qed.

Lemma dict_keys_foldl_alter f key (xs : list X) d :
  dict_keys (foldl (fun d x => dict_alter f (key x) d) d xs) = dict_keys d.
Proof.
  revert d. induction xs as [|x xs IH]; intros d; simpl; [done|].
  by rewrite IH, dict_keys_alter.
Qed.

Lemma index_foldl_append key (xs : list X) (m : gmap string (list string)) a k :
  foldl (fun m x => index_append a (key x) m) m xs !! k
  = if decide (a = k)
    then match xs with
         | [] => m !! a
         | _ => Some (default [] (m !! a) ++ (key <$> xs))
         end
    else m !! k.
Proof.
  revert m. induction xs as [|x xs IH]; intros m.
  - simpl. by case_decide; subst.
  - cbn [foldl]. rewrite IH, !index_append_lookup.
    destruct (decide (a = k)) as [->|Hne]; [|done].
    rewrite decide_True by done. cbn [default].
    destruct xs as [|x' xs]; [done|].
    f_equal. unfold id. rewrite !fmap_cons, <- app_assoc. done.
Qed.

End fold_facts.

Lemma foldl_repoint_incoming a g es :
  foldl (repoint_incoming a) g es
  = mkGraph (nodes g)
      (foldl (fun d e => dict_alter (Edge.set_target_id a) (Edge.id e) d) (edges g) es)
      (_adjacency g)
      (foldl (fun m e => index_append a (Edge.id e) m) (_reverse_adjacency g) es).
Proof.
  revert g. induction es as [|e es IH]; intros g; simpl.
  - by destruct g.
  - by rewrite IH.
Qed.

Lemma foldl_repoint_outgoing a g es :
  foldl (repoint_outgoing a) g es
  = mkGraph (nodes g)
      (foldl (fun d e => dict_alter (Edge.set_source_id a) (Edge.id e) d) (edges g) es)
      (foldl (fun m e => index_append a (Edge.id e) m) (_adjacency g) es)
      (_reverse_adjacency g).
Proof.
  revert g. induction es as [|e es IH]; intros g; simpl.
  - by destruct g.
  - by rewrite IH.
Qed.

Lemma edges_of_ids_ids g ids es :
  (∀ k e, dict_get k (edges g) = Some e → Edge.id e = k) →
  edges_of_ids g ids = Ok es → Edge.id <$> es = ids.
Proof.
  intros Hid H. apply edges_of_ids_spec in H.
  induction H as [|eid e ids es He _ IH]; simpl; [done|].
  f_equal; [by apply Hid|done].
Qed.

(** What a merge of two distinct stored nodes returns. *)
Lemma merge_duplicate_nodes_Ok g keep drop node1 node2 :
  graph_wf g → keep ≠ drop →
  get_node g keep = Some node1 → get_node g drop = Some node2 →
  ∃ g',
    merge_duplicate_nodes g keep drop = Ok (g', Some (merge_into node1 node2))
    ∧ nodes g' = dict_remove drop
                   (dict_alter (fun _ => merge_into node1 node2) keep (nodes g))
    ∧ dict_keys (edges g') = dict_keys (edges g)
    ∧ (∀ k, dict_get k (edges g')
            = repointed keep (default [] (_reverse_adjacency g !! drop))
                (default [] (_adjacency g !! drop)) k
              <$> dict_get k (edges g))
    ∧ (∀ k, _adjacency g' !! k
            = if decide (k = drop) then None
              else if decide (k = keep)
                   then Some (default [] (_adjacency g !! keep)
                              ++ default [] (_adjacency g !! drop))
                   else _adjacency g !! k)
    ∧ (∀ k, _reverse_adjacency g' !! k
            = if decide (k = drop) then None
              else if decide (k = keep)
                   then Some (default [] (_reverse_adjacency g !! keep)
                              ++ default [] (_reverse_adjacency g !! drop))
                   else _reverse_adjacency g !! k).
Proof.
  intros Hwf Hne Hkeep Hdrop.
  destruct (wf_node_indexed g Hwf keep) as [[lk Hlk] [rk Hrk]]; [by eexists|].
  destruct (wf_node_indexed g Hwf drop) as [[ld Hld] [rd Hrd]]; [by eexists|].
  unfold merge_duplicate_nodes. rewrite Hkeep, Hdrop.
  destruct (get_incoming_edges_total g drop) as [inc Hinc]; [apply Hwf|].
  rewrite Hinc. cbn [bind]. rewrite foldl_repoint_incoming.
  assert (Edge.id <$> inc = rd) as Hinc_ids.
  { unfold get_incoming_edges in Hinc. rewrite Hrd in Hinc.
    eapply edges_of_ids_ids; [apply Hwf|done]. }
  set (es1 := foldl (fun d e => dict_alter (Edge.set_target_id keep) (Edge.id e) d)
                (edges g) inc).
  set (r1 := foldl (fun m e => index_append keep (Edge.id e) m)
               (_reverse_adjacency g) inc).
  set (g1 := mkGraph (nodes g) es1 (_adjacency g) r1).
  assert (∀ k, dict_get k es1
               = (fun e => if decide (k ∈ rd) then Edge.set_target_id keep e else e)
                   <$> dict_get k (edges g)) as Hes1.
  { intros k. unfold es1. rewrite dict_get_foldl_alter by done. rewrite Hinc_ids.
    destruct (decide (k ∈ rd)); [done|]. by destruct (dict_get k (edges g)). }
  assert (∃ out, get_outgoing_edges g1 drop = Ok out) as [out Hout].
  { apply edges_of_ids_total. simpl. rewrite Hld. simpl. intros eid Hin.
    rewrite Hes1. apply fmap_is_Some. by eapply (proj1 (wf_index_closed g Hwf)). }
  rewrite Hout. cbn [bind]. rewrite foldl_repoint_outgoing.
  assert (Edge.id <$> out = ld) as Hout_ids.
  { unfold get_outgoing_edges in Hout. simpl in Hout. rewrite Hld in Hout.
    eapply edges_of_ids_ids; [|done]. simpl. intros k e. rewrite Hes1.
    destruct (dict_get k (edges g)) as [e0|] eqn:He0; [|done].
    intros [= <-]. destruct (decide (k ∈ rd)); simpl; by apply Hwf. }
  cbn [nodes edges _adjacency _reverse_adjacency g1 set_nodes].
  set (es2 := foldl (fun d e => dict_alter (Edge.set_source_id keep) (Edge.id e) d)
                es1 out).
  set (a2 := foldl (fun m e => index_append keep (Edge.id e) m) (_adjacency g) out).
  unfold dict_del. rewrite dict_get_alter, decide_False by done.
  unfold get_node in Hdrop. rewrite Hdrop. cbn [bind].
  assert (∀ k, a2 !! k = if decide (keep = k) then Some (lk ++ ld) else _adjacency g !! k)
    as Ha2.
  { intros k. unfold a2. rewrite index_foldl_append, Hout_ids.
    destruct (decide (keep = k)) as [<-|]; [|done]. rewrite Hlk. simpl.
    destruct out; [|done]. simpl in Hout_ids. subst ld. by rewrite app_nil_r. }
  assert (∀ k, r1 !! k = if decide (keep = k) then Some (rk ++ rd)
                          else _reverse_adjacency g !! k) as Hr1.
  { intros k. unfold r1. rewrite index_foldl_append, Hinc_ids.
    destruct (decide (keep = k)) as [<-|]; [|done]. rewrite Hrk. simpl.
    destruct inc; [|done]. simpl in Hinc_ids. subst rd. by rewrite app_nil_r. }
  unfold gmap_del. rewrite Ha2, decide_False, Hld by done. cbn [bind].
  rewrite Hr1, decide_False, Hrd by done. cbn [bind].
  eexists. split; [done|]. cbn [nodes edges _adjacency _reverse_adjacency].
  split_and!.
  - done.
  - unfold es2, es1. by rewrite !dict_keys_foldl_alter.
  - intros k. unfold es2. rewrite dict_get_foldl_alter by done.
    rewrite Hout_ids, Hes1, ?Hrd, ?Hld. unfold repointed. cbn [default].
    destruct (dict_get k (edges g)) as [e|]; simpl; [|by case_decide].
    by destruct (decide (k ∈ ld)).
  - intros k. rewrite lookup_delete, Ha2, ?Hlk, ?Hld. cbn [default]. unfold id.
    destruct (decide (drop = k)) as [->|Hk].
    + by rewrite decide_True.
    + rewrite (decide_False (P := k = drop)) by done.
      destruct (decide (keep = k)) as [->|Hk'].
      * by rewrite decide_True.
      * by rewrite decide_False.
  - intros k. rewrite lookup_delete, Hr1, ?Hrk, ?Hrd. cbn [default]. unfold id.
    destruct (decide (drop = k)) as [->|Hk].
    + by rewrite decide_True.
    + rewrite (decide_False (P := k = drop)) by done.
      destruct (decide (keep = k)) as [->|Hk'].
      * by rewrite decide_True.
      * by rewrite decide_False.
Qed.

Lemma merge_into_id node1 node2 : Node.id (merge_into node1 node2) = Node.id node1.
Proof. unfold merge_into. by destruct (_ && _). Qed.

Lemma repointed_id keep inc out k e : Edge.id (repointed keep inc out k e) = Edge.id e.
Proof. unfold repointed. by repeat case_decide. Qed.

Lemma repointed_source keep inc out k e :
  Edge.source_id (repointed keep inc out k e)
  = if decide (k ∈ out) then keep else Edge.source_id e.
Proof. unfold repointed. by repeat case_decide. Qed.

Lemma repointed_target keep inc out k e :
  Edge.target_id (repointed keep inc out k e)
  = if decide (k ∈ inc) then keep else Edge.target_id e.
Proof. unfold repointed. by repeat case_decide. Qed.

(** After a merge of two distinct stored nodes no edge starts from or
    points to the dropped node. *)
Lemma merge_no_edge_to_dropped g keep drop node1 node2 g' r :
  graph_wf g → keep ≠ drop →
  get_node g keep = Some node1 → get_node g drop = Some node2 →
  merge_duplicate_nodes g keep drop = Ok (g', r) →
  ∀ k e, dict_get k (edges g') = Some e →
         Edge.source_id e ≠ drop ∧ Edge.target_id e ≠ drop.
Proof.
  intros Hwf Hne Hkeep Hdrop Hm.
  destruct (merge_duplicate_nodes_Ok g keep drop node1 node2)
    as (g'' & Hm' & _ & _ & Hes & _); try done.
  rewrite Hm in Hm'. injection Hm' as <- _.
  intros k e. rewrite Hes.
  destruct (dict_get k (edges g)) as [e0|] eqn:He0; [|done].
  intros [= <-]. rewrite repointed_source, repointed_target.
  destruct (wf_edge_indexed g Hwf k e0 He0) as [(l & Hl & Hin) (l' & Hl' & Hin')].
  split.
  - case_decide as Hk; [done|]. intros Hs. apply Hk. by rewrite <- Hs, Hl.
  - case_decide as Hk; [done|]. intros Hs. apply Hk. by rewrite <- Hs, Hl'.
Qed.

Lemma graph_wf_merge g keep drop g' r :
  graph_wf g → keep ≠ drop →
  merge_duplicate_nodes g keep drop = Ok (g', r) → graph_wf g'.
Proof.
  intros Hwf Hne Hm.
  destruct (get_node g keep) as [node1|] eqn:Hkeep; cycle 1.
  { unfold merge_duplicate_nodes in Hm. rewrite Hkeep in Hm. by injection Hm as <- _. }
  destruct (get_node g drop) as [node2|] eqn:Hdrop; cycle 1.
  { unfold merge_duplicate_nodes in Hm. rewrite Hkeep, Hdrop in Hm.
    by injection Hm as <- _. }
  destruct (merge_duplicate_nodes_Ok g keep drop node1 node2)
    as (g'' & Hm' & Hns & Hks & Hes & Hadj & Hradj); try done.
  rewrite Hm in Hm'. injection Hm' as <- _.
  destruct (wf_node_indexed g Hwf keep) as [[lk Hlk] [rk Hrk]]; [by eexists|].
  destruct (wf_node_indexed g Hwf drop) as [[ld Hld] [rd Hrd]]; [by eexists|].
  assert (∀ k n, dict_get k (nodes g') = Some n →
                 k ≠ drop ∧ Node.id n = k ∧ is_Some (dict_get k (nodes g))) as Hnode.
  { intros k n. rewrite Hns. destruct (decide (drop = k)) as [<-|Hk].
    - rewrite dict_get_remove_eq; [done|]. rewrite dict_keys_alter. apply Hwf.
    - rewrite dict_get_remove_ne, dict_get_alter by done.
      destruct (decide (keep = k)) as [<-|Hk'].
      + unfold get_node in Hkeep. rewrite Hkeep. simpl. intros [= <-].
        rewrite merge_into_id. split_and!; [done| |by eexists]. by apply Hwf.
      + intros Hn. split_and!; [done| |by eexists]. by apply Hwf. }
  split.
  - rewrite Hns. apply dict_remove_NoDup. rewrite dict_keys_alter. apply Hwf.
  - rewrite Hks. apply Hwf.
  - intros k n Hn. by apply Hnode in Hn as (_ & ? & _).
  - intros k e. rewrite Hes.
    destruct (dict_get k (edges g)) as [e0|] eqn:He0; [|done].
    intros [= <-]. rewrite repointed_id. by apply Hwf.
  - split.
    + intros k l eid. rewrite Hadj, Hes. intros Hl Hin. apply fmap_is_Some.
      repeat case_decide; try done.
      * injection Hl as <-. rewrite Hlk, Hld in Hin. simpl in Hin.
        apply elem_of_app in Hin as [Hin|Hin].
        -- exact (proj1 (wf_index_closed g Hwf) keep lk eid Hlk Hin).
        -- exact (proj1 (wf_index_closed g Hwf) drop ld eid Hld Hin).
      * exact (proj1 (wf_index_closed g Hwf) k l eid Hl Hin).
    + intros k l eid. rewrite Hradj, Hes. intros Hl Hin. apply fmap_is_Some.
      repeat case_decide; try done.
      * injection Hl as <-. rewrite Hrk, Hrd in Hin. simpl in Hin.
        apply elem_of_app in Hin as [Hin|Hin].
        -- exact (proj2 (wf_index_closed g Hwf) keep rk eid Hrk Hin).
        -- exact (proj2 (wf_index_closed g Hwf) drop rd eid Hrd Hin).
      * exact (proj2 (wf_index_closed g Hwf) k l eid Hl Hin).
  - intros k [n Hn]. apply Hnode in Hn as (Hk & _ & Hin).
    rewrite Hadj, Hradj. rewrite !(decide_False (P := k = drop)) by done.
    destruct (decide (k = keep)); [by eauto|]. by apply Hwf.
  - intros k e. rewrite Hes.
    destruct (dict_get k (edges g)) as [e0|] eqn:He0; [|done].
    intros [= <-]. rewrite repointed_source, repointed_target.
    destruct (wf_edge_indexed g Hwf k e0 He0) as [(l & Hl & Hin) (l' & Hl' & Hin')].
    rewrite Hadj, Hradj, Hlk, Hld, Hrk, Hrd. cbn [default]. unfold id. split.
    + destruct (decide (k ∈ ld)) as [Hk|Hk].
      * rewrite decide_False, decide_True by done.
        eexists. split; [done|]. apply elem_of_app. by right.
      * rewrite decide_False; [|intros Hsd; apply Hk; rewrite Hsd, Hld in Hl; by injection Hl as ->].
        case_decide as Hsk; [|by eauto].
        eexists. split; [done|]. apply elem_of_app. left.
        rewrite Hsk, Hlk in Hl. by injection Hl as ->.
    + destruct (decide (k ∈ rd)) as [Hk|Hk].
      * rewrite decide_False, decide_True by done.
        eexists. split; [done|]. apply elem_of_app. by right.
      * rewrite decide_False; [|intros Hsd; apply Hk; rewrite Hsd, Hrd in Hl'; by injection Hl' as ->].
        case_decide as Hsk; [|by eauto].
        eexists. split; [done|]. apply elem_of_app. left.
        rewrite Hsk, Hrk in Hl'. by injection Hl' as ->.
Qed.

(** ** Every reachable graph satisfies the invariant *)

Lemma propagate_step_cases now g dependent g' :
  propagate_step now g dependent = Ok g' →
  g' = g ∨ g' = assign_status g (Node.id dependent) NOT_STARTED now.
Proof.
  unfold propagate_step. destruct (get_node g (Node.id dependent)) as [live|].
  - case_decide; [|intros [= <-]; by left].
    intros (deps & _ & Hd)%bind_Ok. destruct (forallb _ deps).
    + injection Hd as <-. by right.
    + injection Hd as <-. by left.
  - intros [= <-]. by left.
Qed.

Lemma update_status_preserves (P : RequirementGraph → Prop) g node_id status now g' r :
  (∀ g k s, P g → P (assign_status g k s now)) →
  P g → update_status g node_id status now = Ok (g', r) → P g'.
Proof.
  intros Hassign HP. unfold update_status.
  destruct (get_node g node_id); [|by intros [= <- _]].
  intros (g2 & Hg2 & [= <- _])%bind_Ok.
  case_decide; [|injection Hg2 as <-; by apply Hassign].
  unfold _propagate_completion in Hg2.
  apply bind_Ok in Hg2 as (ds & _ & Hloop).
  eapply (for_each_invariant P); [|by apply Hassign|exact Hloop].
  intros s x s' Hs [->| ->]%propagate_step_cases; [done|by apply Hassign].
Qed.

Lemma evaluate_conditions_preserves (P : RequirementGraph → Prop) g g' :
  (∀ g k s, P g → P (set_nodes (dict_alter (Node.set_status s) k (nodes g)) g)) →
  P g → evaluate_conditions g = Ok g' → P g'.
Proof.
  intros Halter HP. unfold evaluate_conditions.
  apply for_each_invariant; [|done].
  intros s node s' Hs (es & _ & Hloop)%bind_Ok.
  eapply (for_each_invariant P); [|done|exact Hloop].
  clear -Halter. intros s edge s' Hs. unfold evaluate_edge.
  case_decide; [|by intros [= <-]].
  destruct (get_node s (Edge.source_id edge)); [|by intros [= <-]].
  repeat case_decide; intros [= <-]; auto.
Qed.

Lemma graph_times_ok_alter g (f : Node → Node) k :
  (∀ n, node_times_ok n → node_times_ok (f n)) →
  graph_times_ok g → graph_times_ok (set_nodes (dict_alter f k (nodes g)) g).
Proof.
  intros Hf Hok k' n. simpl. rewrite dict_get_alter. case_decide; [|apply Hok].
  destruct (dict_get k (nodes g)) as [n0|] eqn:E; [|done].
  intros [= <-]. by apply Hf, (Hok k).
Qed.

Lemma merge_into_times_ok node1 node2 :
  node_times_ok node1 → node_times_ok (merge_into node1 node2).
Proof. unfold merge_into. by destruct (_ && _). Qed.

Lemma graph_times_ok_merge g keep drop g' r :
  graph_wf g → keep ≠ drop → graph_times_ok g →
  merge_duplicate_nodes g keep drop = Ok (g', r) → graph_times_ok g'.
Proof.
  intros Hwf Hne Hok Hm.
  destruct (get_node g keep) as [node1|] eqn:Hkeep; cycle 1.
  { unfold merge_duplicate_nodes in Hm. rewrite Hkeep in Hm. by injection Hm as <- _. }
  destruct (get_node g drop) as [node2|] eqn:Hdrop; cycle 1.
  { unfold merge_duplicate_nodes in Hm. rewrite Hkeep, Hdrop in Hm.
    by injection Hm as <- _. }
  destruct (merge_duplicate_nodes_Ok g keep drop node1 node2)
    as (g'' & Hm' & Hns & _); try done.
  rewrite Hm in Hm'. injection Hm' as <- _.
  intros k n. rewrite Hns. destruct (decide (drop = k)) as [<-|Hk].
  - rewrite dict_get_remove_eq; [done|]. rewrite dict_keys_alter. apply Hwf.
  - rewrite dict_get_remove_ne, dict_get_alter by done.
    case_decide; [|apply Hok]. unfold get_node in Hkeep. rewrite Hkeep.
    intros [= <-]. apply merge_into_times_ok. by apply (Hok keep).
Qed.

Lemma reachable_wf g : reachable g → graph_wf g ∧ graph_times_ok g.
Proof.
  induction 1 as [|g node _ [IHwf IHok] Hnode|g edge _ [IHwf IHok]
                  |g node_id status now g' r _ [IHwf IHok] Hnow Hupd
                  |g g' _ [IHwf IHok] Hev
                  |g keep drop g' r _ [IHwf IHok] Hne Hm].
  - split; [apply graph_wf_init|]. by intros k n.
  - split; [by apply graph_wf_add_node|].
    intros k n. simpl. rewrite dict_get_set. case_decide; [by intros [= <-]|apply IHok].
  - split; [by apply graph_wf_add_edge|]. exact IHok.
  - split.
    + eapply (update_status_preserves graph_wf); [|exact IHwf|exact Hupd].
      intros. by apply graph_wf_assign_status.
    + eapply (update_status_preserves graph_times_ok); [|exact IHok|exact Hupd].
      intros g0 k s Hg0. apply graph_times_ok_alter; [|done].
      intros n (Hc & Hu & Hd). by split_and!.
  - split.
    + eapply (evaluate_conditions_preserves graph_wf); [|exact IHwf|exact Hev].
      intros. by apply graph_wf_alter_node.
    + eapply (evaluate_conditions_preserves graph_times_ok); [|exact IHok|exact Hev].
      intros g0 k s Hg0. by apply graph_times_ok_alter.
  - split; [by eapply graph_wf_merge|by eapply graph_times_ok_merge].
Qed.

(** C4, as the code has it.  On a graph that satisfies the invariant
    [graph_wf], which asks in particular that every edge is listed under
    its [source_id] in [_adjacency] and under its [target_id] in
    [_reverse_adjacency], a merge of two distinct stored nodes raises
    nothing and returns the kept node; afterwards the dropped id is no key
    of [nodes], no edge has it as [source_id] or [target_id], the tags of
    the kept node are, as a set, the union of the tags of the two nodes,
    [nodes] has one entry less, and the metadata of the kept node are its
    own updated with those of the dropped node: on a key both have, the
    value of the dropped node stands.  The graphs built by the public
    mutating methods satisfy the invariant as long as no node is merged
    with itself ([reachable_wf]); a merge of a node with itself deletes the
    node and leaves its edges unlisted, and the sentence on the edges fails
    from then on. *)
Theorem merge_duplicate_nodes_spec (g : RequirementGraph) (keep drop : string)
    (node1 node2 : Node) :
  graph_wf g →
  keep ≠ drop →
  get_node g keep = Some node1 →
  get_node g drop = Some node2 →
  ∃ g' merged,
    merge_duplicate_nodes g keep drop = Ok (g', Some merged)
    ∧ get_node g' keep = Some merged
    ∧ get_node g' drop = None
    ∧ (∀ k e, dict_get k (edges g') = Some e →
              Edge.source_id e ≠ drop ∧ Edge.target_id e ≠ drop)
    ∧ (∀ t, t ∈ Node.tags merged ↔ t ∈ Node.tags node1 ∨ t ∈ Node.tags node2)
    ∧ NoDup (Node.tags merged)
    ∧ S (length (nodes g')) = length (nodes g)
    ∧ (∀ key, Node.metadata merged !! key
              = match Node.metadata node2 !! key with
                | Some v => Some v
                | None => Node.metadata node1 !! key
                end).
Proof.
  intros Hwf Hne Hkeep Hdrop.
  destruct (merge_duplicate_nodes_Ok g keep drop node1 node2)
    as (g' & Hm & Hns & _); try done.
  exists g', (merge_into node1 node2).
  assert (Node.tags (merge_into node1 node2)
          = tags_union (Node.tags node1) (Node.tags node2)) as Htags.
  { unfold merge_into. by destruct (_ && _). }
  assert (Node.metadata (merge_into node1 node2)
          = dict_update (Node.metadata node1) (Node.metadata node2)) as Hmeta.
  { unfold merge_into. by destruct (_ && _). }
  unfold get_node in *. split_and!.
  - done.
  - rewrite Hns, dict_get_remove_ne, dict_get_alter, decide_True, Hkeep by done. done.
  - rewrite Hns. apply dict_get_remove_eq. rewrite dict_keys_alter. apply Hwf.
  - by eapply merge_no_edge_to_dropped.
  - intros t. rewrite Htags. unfold tags_union.
    by rewrite elem_of_elements, elem_of_list_to_set, elem_of_app.
  - rewrite Htags. apply NoDup_elements.
  - rewrite Hns. erewrite dict_remove_length.
    + apply dict_alter_length.
    + rewrite dict_get_alter, decide_False by done. exact Hdrop.
  - intros key. rewrite Hmeta. unfold dict_update. rewrite lookup_union.
    by destruct (Node.metadata node2 !! key), (Node.metadata node1 !! key).
Qed.

(** ** Serialization round trip *)

Lemma NodeType_of_value_value t : NodeType_of_value (NodeType_value t) = Ok t.
Proof. by destruct t. Qed.

Lemma EdgeType_of_value_value t : EdgeType_of_value (EdgeType_value t) = Ok t.
Proof. by destruct t. Qed.

Lemma CompletionStatus_of_value_value s :
  CompletionStatus_of_value (CompletionStatus_value s) = Ok s.
Proof. by destruct s. Qed.

Lemma isoformat_truthy d : str_truthy (isoformat d) = true.
Proof. done. Qed.

Lemma fromisoformat_naive_isoformat d :
  datetime_ok d = true → fromisoformat_naive (isoformat d) = Ok d.
Proof.
  intros Hd. unfold fromisoformat_naive. by rewrite parse_isoformat_isoformat.
Qed.

Lemma Edge_from_dict_to_dict e : Edge_from_dict (Edge_to_dict e) = Ok e.
Proof.
  unfold Edge_from_dict, Edge_to_dict. simpl.
  rewrite EdgeType_of_value_value. simpl. by destruct e.
Qed.

Lemma dict_set_fresh {V} (d : pydict V) k v :
  k ∉ dict_keys d → dict_set k v d = d ++ [(k, v)].
Proof.
  unfold dict_keys. induction d as [|[k0 v0] d IH]; simpl; [done|].
  rewrite not_elem_of_cons. intros [Hne Hin].
  rewrite decide_False by congruence. by rewrite IH.
Qed.

Section roundtrip.

Variable fromisoformat : string → result datetime.

(** [datetime.fromisoformat] is the inverse of [datetime.isoformat]. *)
Hypothesis fromisoformat_isoformat :
  ∀ d, datetime_ok d = true → fromisoformat (isoformat d) = Ok d.

Lemma Node_from_dict_to_dict n :
  node_times_ok n → Node_from_dict fromisoformat (Node_to_dict n) = Ok n.
Proof.
  intros (Hc & Hu & Hd). unfold Node_from_dict, Node_to_dict.
  cbn [NodeDict.id NodeDict.type NodeDict.title NodeDict.description
       NodeDict.status NodeDict.source_document NodeDict.source_location
       NodeDict.source_text NodeDict.checkbox_state NodeDict.condition_met
       NodeDict.deadline NodeDict.created_at NodeDict.updated_at
       NodeDict.confidence NodeDict.tags NodeDict.metadata NodeDict.notes].
  rewrite NodeType_of_value_value, CompletionStatus_of_value_value. cbn [bind].
  rewrite !fromisoformat_isoformat by done.
  destruct n as [? ? ? ? ? ? ? ? ? ? dl ? ? ? ? ? ?]. simpl in *.
  destruct dl as [d|]; simpl.
  - rewrite fromisoformat_isoformat by auto. done.
  - done.
Qed.

Lemma load_nodes (l : pydict Node) g0 :
  (∀ k n, (k, n) ∈ l → Node.id n = k ∧ node_times_ok n) →
  NoDup (dict_keys (nodes g0) ++ dict_keys l) →
  ∃ g', for_each
          (fun g node_data =>
             let* node := Node_from_dict fromisoformat node_data in
             Ok (add_node g node))
          g0 (Node_to_dict <$> dict_values l) = Ok g'
        ∧ nodes g' = nodes g0 ++ l
        ∧ edges g' = edges g0.
Proof.
  revert g0. induction l as [|[k n] l IH]; intros g0 Hl Hnd.
  - exists g0. by rewrite app_nil_r.
  - destruct (Hl k n) as [Hid Hok]; [apply list_elem_of_here|].
    cbn [dict_values fmap list_fmap snd for_each].
    rewrite Node_from_dict_to_dict by done. cbn [bind].
    unfold dict_keys in Hnd. rewrite fmap_cons in Hnd. cbn [fst] in Hnd.
    assert (nodes (add_node g0 n) = nodes g0 ++ [(k, n)]) as Hadd.
    { simpl. rewrite Hid. apply dict_set_fresh.
      apply NoDup_app in Hnd as (_ & Hdisj & _). intros Hin.
      apply (Hdisj k Hin). apply list_elem_of_here. }
    destruct (IH (add_node g0 n)) as (g' & Hg' & Hns & Hes).
    + intros k' n' Hin. apply Hl. by apply list_elem_of_further.
    + rewrite Hadd. unfold dict_keys. rewrite fmap_app, <- app_assoc. done.
    + exists g'. split_and!; [exact Hg'| |done].
      rewrite Hns, Hadd, <- app_assoc. done.
Qed.

Lemma load_edges (l : pydict Edge) g0 :
  (∀ k e, (k, e) ∈ l → Edge.id e = k) →
  NoDup (dict_keys (edges g0) ++ dict_keys l) →
  ∃ g', for_each
          (fun g edge_data =>
             let* edge := Edge_from_dict edge_data in Ok (add_edge g edge))
          g0 (Edge_to_dict <$> dict_values l) = Ok g'
        ∧ nodes g' = nodes g0
        ∧ edges g' = edges g0 ++ l.
Proof.
  revert g0. induction l as [|[k e] l IH]; intros g0 Hl Hnd.
  - exists g0. by rewrite app_nil_r.
  - pose proof (Hl k e (list_elem_of_here _ _)) as Hid.
    cbn [dict_values fmap list_fmap snd for_each].
    rewrite Edge_from_dict_to_dict. cbn [bind].
    unfold dict_keys in Hnd. rewrite fmap_cons in Hnd. cbn [fst] in Hnd.
    assert (edges (add_edge g0 e) = edges g0 ++ [(k, e)]) as Hadd.
    { simpl. rewrite Hid. apply dict_set_fresh.
      apply NoDup_app in Hnd as (_ & Hdisj & _). intros Hin.
      apply (Hdisj k Hin). apply list_elem_of_here. }
    destruct (IH (add_edge g0 e)) as (g' & Hg' & Hns & Hes).
    + intros k' e' Hin. apply Hl. by apply list_elem_of_further.
    + rewrite Hadd. unfold dict_keys. rewrite fmap_app, <- app_assoc. done.
    + exists g'. split_and!; [exact Hg'|done|].
      rewrite Hes, Hadd, <- app_assoc. done.
Qed.

(** C5.  For a graph built by the public mutating methods,
    [from_dict(to_dict(g))] raises nothing and yields a graph whose [nodes]
    and [edges] are those of [g], entry by entry, field by field and in the
    same order.  In the dictionaries an enumeration member stands as its
    string token and a timestamp as its ISO text, and each node and each
    edge is read back from its own dictionary. *)
Theorem from_dict_to_dict (g : RequirementGraph) :
  reachable g →
  ∃ g',
    from_dict fromisoformat (to_dict g) = Ok g'
    ∧ nodes g' = nodes g
    ∧ edges g' = edges g
    ∧ (∀ n, n ∈ dict_values (nodes g) →
            Node_from_dict fromisoformat (Node_to_dict n) = Ok n
            ∧ NodeDict.type (Node_to_dict n) = NodeType_value (Node.type n)
            ∧ NodeDict.status (Node_to_dict n) = CompletionStatus_value (Node.status n)
            ∧ NodeDict.created_at (Node_to_dict n) = isoformat (Node.created_at n)
            ∧ NodeDict.updated_at (Node_to_dict n) = isoformat (Node.updated_at n)
            ∧ NodeDict.deadline (Node_to_dict n) = isoformat <$> Node.deadline n)
    ∧ (∀ e, e ∈ dict_values (edges g) →
            Edge_from_dict (Edge_to_dict e) = Ok e
            ∧ EdgeDict.type (Edge_to_dict e) = EdgeType_value (Edge.type e)).
Proof.
  intros [Hwf Hok]%reachable_wf.
  assert (∀ k n, (k, n) ∈ nodes g → Node.id n = k ∧ node_times_ok n) as Hnodes.
  { intros k n Hin. apply dict_elem_get in Hin; [|apply Hwf].
    split; [by apply Hwf|by apply (Hok k)]. }
  destruct (load_nodes (nodes g) graph_init Hnodes) as (g1 & Hg1 & Hns1 & Hes1).
  { simpl. apply Hwf. }
  destruct (load_edges (edges g) g1) as (g2 & Hg2 & Hns2 & Hes2).
  { intros k e Hin. apply dict_elem_get in Hin; [|apply Hwf]. by apply Hwf. }
  { rewrite Hes1. simpl. apply Hwf. }
  exists g2. split_and!.
  - unfold from_dict, to_dict. cbn [gd_nodes gd_edges default]. unfold id.
    rewrite Hg1. cbn [bind]. exact Hg2.
  - by rewrite Hns2, Hns1.
  - by rewrite Hes2, Hes1.
  - intros n [k Hin]%dict_values_elem. split_and!; try done.
    apply Node_from_dict_to_dict. by apply (Hnodes k).
  - intros e _. split; [apply Edge_from_dict_to_dict|done].
Qed.

End roundtrip.

(** ** The extractor *)

Section extractor.

Variable lower : string → string.
Variable strip : string → string.
Variable fromisoformat : string → result datetime.
Variable json_loads : string → result Extraction.
Variable uuid4 : nat → string.
Variable md5 : string → string.
Variable client : nat → llm_outcome.

Local Abbreviation extends := (graph_extends uuid4).

Lemma extends_refl g : extends g g.
Proof.
  split_and!; [by left|done| |].
  - intros k l Hl. exists []. by rewrite app_nil_r.
  - intros k l Hl. exists []. by rewrite app_nil_r.
Qed.

Lemma extends_trans g1 g2 g3 : extends g1 g2 → extends g2 g3 → extends g1 g3.
Proof.
  intros (He & Hl & Ha & Hr) (He' & Hl' & Ha' & Hr'). split_and!.
  - intros k e Hk. destruct (He k e Hk) as [H2|[Hi [e2 H2]]].
    + destruct (He' k e H2) as [H3|[Hi H3]]; [by left|by right].
    + right. split; [done|].
      destruct (He' k e2 H2) as [H3|[_ H3]]; [by eexists|done].
  - lia.
  - intros k l Hk. destruct (Ha k l Hk) as [l1 H1].
    destruct (Ha' k _ H1) as [l2 H2]. exists (l1 ++ l2). by rewrite app_assoc.
  - intros k l Hk. destruct (Hr k l Hk) as [l1 H1].
    destruct (Hr' k _ H1) as [l2 H2]. exists (l1 ++ l2). by rewrite app_assoc.
Qed.

Lemma extends_set_nodes g ns : extends g (set_nodes ns g).
Proof.
  split_and!; simpl; [by left|done| |].
  - intros k l Hl. exists []. by rewrite app_nil_r.
  - intros k l Hl. exists []. by rewrite app_nil_r.
Qed.

Lemma extends_add_node g node : extends g (add_node g node).
Proof.
  split_and!; simpl; [by left|done| |].
  - intros k l Hl. rewrite index_touch_lookup. case_decide as Hk.
    + subst. rewrite Hl. exists []. by rewrite app_nil_r.
    + exists []. by rewrite app_nil_r.
  - intros k l Hl. rewrite index_touch_lookup. case_decide as Hk.
    + subst. rewrite Hl. exists []. by rewrite app_nil_r.
    + exists []. by rewrite app_nil_r.
Qed.

Lemma extends_add_edge g edge i :
  Edge.id edge = uuid4 i → extends g (add_edge g edge).
Proof.
  intros Hid. split_and!; simpl.
  - intros k e Hk. rewrite dict_get_set. case_decide as Hk'; [|by left].
    right. split; [by exists i; congruence|by eexists].
  - rewrite dict_set_length. case_decide; lia.
  - intros k l Hl. rewrite index_append_lookup. case_decide as Hk.
    + subst. rewrite Hl. by eexists.
    + exists []. by rewrite app_nil_r.
  - intros k l Hl. rewrite index_append_lookup. case_decide as Hk.
    + subst. rewrite Hl. by eexists.
    + exists []. by rewrite app_nil_r.
Qed.

Local Abbreviation step_ok := (item_step_ok uuid4).

Lemma step_ok_refl st : step_ok st st.
Proof. split_and!; [apply extends_refl|done..]. Qed.

Lemma step_ok_trans st1 st2 st3 : step_ok st1 st2 → step_ok st2 st3 → step_ok st1 st3.
Proof.
  intros (He & Hc & Hs & Hp) (He' & Hc' & Hs' & Hp').
  split_and!; [by eapply extends_trans|congruence..].
Qed.

Lemma foldl_step_ok {A} (f : ExtractState → A → ExtractState) l st :
  (∀ st x, step_ok st (f st x)) → step_ok st (foldl f st l).
Proof.
  intros Hf. revert st. induction l as [|x l IH]; intros st; simpl.
  - apply step_ok_refl.
  - eapply step_ok_trans; [apply Hf|apply IH].
Qed.

Lemma create_item_node_ok now document extraction st item :
  step_ok st (create_item_node lower strip fromisoformat uuid4 now document
                extraction st item).
Proof.
  unfold create_item_node, draw_uuid, read_clock, create_node. cbv beta iota zeta.
  split_and!; cbn [es_graph es_world llm_calls slept processed_documents]; try done.
  eapply extends_trans; [apply extends_add_node|].
  eapply extends_trans; [|apply extends_refl].
  repeat match goal with
         | |- extends _ (if ?b then _ else _) => destruct b
         | |- extends _ (match ?r with Ok _ => _ | Raise _ => _ end) => destruct r
         | |- extends ?g (set_nodes _ ?g') =>
             eapply extends_trans; [|apply extends_set_nodes]
         end; apply extends_refl.
Qed.

Lemma link_reference_ok source_id item_title reference type verb st :
  step_ok st (link_reference lower strip uuid4 source_id item_title reference
                type verb st).
Proof.
  unfold link_reference.
  destruct (_ && _); [|apply step_ok_refl].
  match goal with |- context [match ?t with Some _ => _ | None => _ end] =>
    destruct t as [target|] end; [|apply step_ok_refl].
  destruct (_ && _); [|apply step_ok_refl].
  unfold draw_uuid, connect.
  split_and!; cbn [es_graph es_world llm_calls slept processed_documents]; try done.
  by eapply extends_add_edge.
Qed.

Lemma link_item_ok st item : step_ok st (link_item lower strip uuid4 st item).
Proof.
  unfold link_item.
  destruct (es_title_to_node st !! lower (Item.title item)) as [source_id|];
    [|apply step_ok_refl].
  destruct (str_truthy source_id); [|apply step_ok_refl].
  eapply step_ok_trans; apply link_reference_ok.
Qed.

(** The last attempt never falls out of the retry loop. *)
Lemma retry_loop_not_exhausted document attempts w response_text :
  last attempts = Some (max_retries - 1) →
  (retry_loop lower json_loads client document attempts w response_text).2 ≠ Exhausted.
Proof.
  revert w response_text. induction attempts as [|attempt rest IH];
    intros w response_text Hlast; [done|].
  assert (attempt ≠ max_retries - 1 → last rest = Some (max_retries - 1)) as Hrest.
  { intros Hne. destruct rest; [|done]. exfalso. apply Hne.
    cbn [last] in Hlast. by injection Hlast. }
  cbn [retry_loop].
  destruct (attempt_body json_loads client attempt w response_text) as [[w' rt'] r].
  destruct r as [extraction|e]; [done|].
  destruct (exn_kind e).
  - case_decide; [done|]. by apply IH, Hrest.
  - case_decide; [done|]. by apply IH, Hrest.
  - destruct (retryable lower e && (attempt <? max_retries - 1)) eqn:Hr; [|done].
    apply andb_true_iff in Hr as [_ Hlt%Nat.ltb_lt]. apply IH, Hrest. lia.
  - destruct (retryable lower e && (attempt <? max_retries - 1)) eqn:Hr; [|done].
    apply andb_true_iff in Hr as [_ Hlt%Nat.ltb_lt]. apply IH, Hrest. lia.
Qed.

(** [extract] raises nothing, and whatever it does to the graph extends
    it. *)
Lemma extract_total now document g w :
  ∃ r g' w',
    extract lower strip fromisoformat json_loads uuid4 client now document g w
    = Ok (r, g', w')
    ∧ extends g g'.
Proof.
  unfold extract. destruct (_ || _).
  - eexists _, _, _. split; [done|apply extends_refl].
  - pose proof (retry_loop_not_exhausted document (seq 0 max_retries) w None eq_refl)
      as Hne.
    destruct (retry_loop lower json_loads client document (seq 0 max_retries) w None)
      as [w1 [extraction|r|]]; [| |done].
    + eexists _, _, _. split; [done|]. cbn [es_graph].
      set (st0 := mkExtractState g w1 [] [] ∅).
      change g with (es_graph st0) at 1.
      eapply extends_trans.
      * apply (foldl_step_ok (create_item_node lower strip fromisoformat uuid4 now
                                document extraction)).
        intros. apply create_item_node_ok.
      * apply (foldl_step_ok (link_item lower strip uuid4)).
        intros. apply link_item_ok.
    + eexists _, _, _. split; [done|apply extends_refl].
Qed.

(** What [extract] returns once the retry loop has been left by
    [break]. *)
Lemma extract_after_break now document g w w1 extraction :
  opt_str_truthy (DocumentContent.error document) = false →
  is_successful strip document = true →
  retry_loop lower json_loads client document (seq 0 max_retries) w None
  = (w1, Break extraction) →
  ∃ r g' w',
    extract lower strip fromisoformat json_loads uuid4 client now document g w
    = Ok (r, g', w')
    ∧ error r = None
    ∧ raw_extraction r = RawParsed extraction
    ∧ llm_calls w' = llm_calls w1
    ∧ slept w' = slept w1.
Proof.
  intros Herr Hsucc Hloop. unfold extract. rewrite Herr, Hsucc, Hloop. simpl.
  eexists _, _, _. split; [done|]. cbn [error raw_extraction llm_calls slept].
  set (st0 := mkExtractState g w1 [] [] ∅).
  pose proof (foldl_step_ok (create_item_node lower strip fromisoformat uuid4 now
                               document extraction) (items extraction) st0
                (fun st x => create_item_node_ok now document extraction st x))
    as (_ & Hc1 & Hs1 & _).
  pose proof (foldl_step_ok (link_item lower strip uuid4) (items extraction)
                (foldl (create_item_node lower strip fromisoformat uuid4 now
                          document extraction) st0 (items extraction))
                link_item_ok) as (_ & Hc2 & Hs2 & _).
  split_and!; [done|done| |].
  - by rewrite Hc2, Hc1.
  - by rewrite Hs2, Hs1.
Qed.

Lemma readable_document document :
  DocumentContent.error document = None →
  strip (DocumentContent.text document) ≠ "" →
  opt_str_truthy (DocumentContent.error document) = false
  ∧ is_successful strip document = true.
Proof.
  intros Herr Htext. unfold is_successful. rewrite Herr. split; [done|].
  by destruct (strip (DocumentContent.text document)).
Qed.

(** Two transient failures, then a response that parses. *)
Lemma retry_loop_third_attempt document w e0 e1 text extraction :
  client (llm_calls w) = LLMRaises e0 → retryable lower e0 = true →
  client (S (llm_calls w)) = LLMRaises e1 → retryable lower e1 = true →
  client (S (S (llm_calls w))) = LLMContent text →
  json_loads text = Ok extraction →
  ∃ w3,
    retry_loop lower json_loads client document (seq 0 max_retries) w None
    = (w3, Break extraction)
    ∧ llm_calls w3 = llm_calls w + 3
    ∧ slept w3 = slept w ++ [2; 4].
Proof.
  intros H0 Hr0 H1 Hr1 H2 Hjson.
  cbn [seq max_retries retry_loop]. unfold attempt_body at 1, call_llm.
  cbn [Nat.ltb Nat.leb llm_calls]. rewrite H0.
  assert (∀ (e : pyexn) (A : Type) (again stop1 stop2 stop3 : A),
            retryable lower e = true →
            match exn_kind e with
            | JSONDecodeError => if decide (0 = 3 - 1) then stop1 else again
            | ValueError => if decide (0 = 3 - 1) then stop2 else again
            | _ => if retryable lower e && (0 <? 3 - 1) then again else stop3
            end = again) as Hfirst.
  { intros e A again s1 s2 s3 Hr. rewrite Hr. by destruct (exn_kind e). }
  assert (∀ (e : pyexn) (A : Type) (again stop1 stop2 stop3 : A),
            retryable lower e = true →
            match exn_kind e with
            | JSONDecodeError => if decide (1 = 3 - 1) then stop1 else again
            | ValueError => if decide (1 = 3 - 1) then stop2 else again
            | _ => if retryable lower e && (1 <? 3 - 1) then again else stop3
            end = again) as Hsecond.
  { intros e A again s1 s2 s3 Hr. rewrite Hr. by destruct (exn_kind e). }
  rewrite Hfirst by done.
  unfold attempt_body at 1, call_llm, sleep.
  cbn [Nat.ltb Nat.leb llm_calls uuids_drawn slept processed_documents].
  rewrite H1. rewrite Hsecond by done.
  unfold attempt_body at 1, call_llm, sleep.
  cbn [Nat.ltb Nat.leb llm_calls uuids_drawn slept processed_documents].
  rewrite H2, Hjson.
  eexists. split; [done|]. cbn [llm_calls slept]. split; [lia|].
  by rewrite <- app_assoc.
Qed.

(** An exception that is no [ValueError] and carries no transient marker
    ends the loop at once. *)
Lemma retry_loop_terminal document w e :
  client (llm_calls w) = LLMRaises e →
  exn_kind e ≠ JSONDecodeError → exn_kind e ≠ ValueError →
  retryable lower e = false →
  retry_loop lower json_loads client document (seq 0 max_retries) w None
  = (mkWorld (S (llm_calls w)) (uuids_drawn w) (slept w) (processed_documents w)
       (clock_reads w),
     Return (error_result document RawEmpty ("LLM API error: " +:+ exn_text e))).
Proof.
  intros H0 Hj Hv Hr. cbn [seq max_retries retry_loop].
  unfold attempt_body, call_llm. cbn [Nat.ltb Nat.leb llm_calls]. rewrite H0.
  rewrite Hr. by destruct (exn_kind e).
Qed.

Lemma attempt_body_world attempt w response_text w1 rt1 r :
  attempt_body json_loads client attempt w response_text = (w1, rt1, r) →
  llm_calls w1 = S (llm_calls w)
  ∧ slept w1 = slept w ++ (if 0 <? attempt then [retry_delay * 2 ^ (attempt - 1)] else [])
  ∧ uuids_drawn w1 = uuids_drawn w
  ∧ processed_documents w1 = processed_documents w
  ∧ clock_reads w1 = clock_reads w.
Proof.
  unfold attempt_body, call_llm, sleep.
  destruct (0 <? attempt);
    cbn [llm_calls uuids_drawn slept processed_documents clock_reads];
    destruct (client _); intros [= <- _ _];
    cbn [llm_calls uuids_drawn slept processed_documents clock_reads];
    by rewrite ?app_nil_r.
Qed.

Lemma attempt_body_outcome attempt w response_text w1 rt1 r :
  attempt_body json_loads client attempt w response_text = (w1, rt1, r) →
  r = try_outcome json_loads client (llm_calls w).
Proof.
  unfold attempt_body, try_outcome, call_llm.
  destruct (0 <? attempt); cbn [llm_calls sleep snd];
    destruct (client _); by intros [= _ _ <-].
Qed.

(** The seconds slept before the attempts [a, ..., a+k-1]. *)
Local Abbreviation delays a k :=
  ((fun i => retry_delay * 2 ^ (i - 1)) <$> filter (fun i => 0 < i) (seq a k)).

(** An exception of class [JSONDecodeError] or [ValueError], or one whose
    text carries a transient marker, lets the loop go on when an attempt is
    left: after [k] such attempts the loop stands at attempt [a + k]. *)
Lemma retry_loop_retried document k a w response_text :
  a + k < max_retries →
  (∀ i, i < k →
        ∃ e, try_outcome json_loads client (llm_calls w + i) = Raise e
             ∧ (exn_kind e = JSONDecodeError ∨ exn_kind e = ValueError
                ∨ retryable lower e = true)) →
  ∃ w1 rt1,
    retry_loop lower json_loads client document (seq a (max_retries - a)) w response_text
    = retry_loop lower json_loads client document
        (seq (a + k) (max_retries - (a + k))) w1 rt1
    ∧ llm_calls w1 = llm_calls w + k
    ∧ slept w1 = slept w ++ delays a k
    ∧ uuids_drawn w1 = uuids_drawn w
    ∧ processed_documents w1 = processed_documents w
    ∧ clock_reads w1 = clock_reads w.
Proof.
  revert a w response_text. induction k as [|k IH]; intros a w response_text Hlt Hfail.
  - exists w, response_text. rewrite Nat.add_0_r. split_and!; try done; try lia.
    by rewrite app_nil_r.
  - replace (max_retries - a) with (S (max_retries - S a)) by lia.
    cbn [seq retry_loop].
    destruct (attempt_body json_loads client a w response_text) as [[w' rt'] r] eqn:Hb.
    pose proof (attempt_body_outcome _ _ _ _ _ _ Hb) as Hr.
    apply attempt_body_world in Hb as (Hc & Hs & Hu & Hp & Hk).
    destruct (Hfail 0) as (e & He & Hkind); [lia|].
    rewrite Nat.add_0_r in He. rewrite He in Hr. subst r.
    destruct (IH (S a) w' rt') as (w1 & rt1 & Hloop & Hc1 & Hs1 & Hu1 & Hp1 & Hk1).
    { lia. }
    { intros i Hi. destruct (Hfail (S i)) as (e' & He' & Hkind'); [lia|].
      exists e'. split; [|done]. rewrite Hc. by replace (S (llm_calls w) + i)
        with (llm_calls w + S i) by lia. }
    exists w1, rt1.
    replace (a + S k) with (S a + k) by lia.
    split_and!; try congruence; try lia.
    + rewrite <- Hloop.
      assert (a ≠ max_retries - 1) as Hne by lia.
      assert ((a <? max_retries - 1) = true) as Hltb by (apply Nat.ltb_lt; lia).
      destruct (exn_kind e) eqn:Hek.
      * by rewrite decide_False.
      * by rewrite decide_False.
      * destruct Hkind as [|[|Hre]]; [done|done|]. by rewrite Hre, Hltb.
      * destruct Hkind as [|[|Hre]]; [done|done|]. by rewrite Hre, Hltb.
    + rewrite Hs1, Hs. cbn [seq]. rewrite filter_cons, <- app_assoc. f_equal.
      destruct (decide (0 < a)) as [Ha|Ha].
      * by destruct a; [lia|].
      * by destruct a; [|lia].
Qed.

Lemma delays_take k :
  k < 3 → delays 0 k ++ (if 0 <? k then [retry_delay * 2 ^ (k - 1)] else []) = take k [2; 4].
Proof. intros Hk. destruct k as [|[|[|k]]]; [done..|lia]. Qed.

(** The attempt at which the loop stands, when its [try] block ends with
    [r]. *)
Lemma retry_loop_attempt document k w response_text :
  k < max_retries →
  ∃ w1 rt1,
    llm_calls w1 = S (llm_calls w)
    ∧ slept w1 = slept w ++ (if 0 <? k then [retry_delay * 2 ^ (k - 1)] else [])
    ∧ uuids_drawn w1 = uuids_drawn w
    ∧ processed_documents w1 = processed_documents w
    ∧ clock_reads w1 = clock_reads w
    ∧ (∀ extraction,
         try_outcome json_loads client (llm_calls w) = Ok extraction →
         retry_loop lower json_loads client document
           (seq k (max_retries - k)) w response_text
         = (w1, Break extraction))
    ∧ (∀ e,
         try_outcome json_loads client (llm_calls w) = Raise e →
         exn_kind e ≠ JSONDecodeError → exn_kind e ≠ ValueError →
         retryable lower e = false →
         retry_loop lower json_loads client document
           (seq k (max_retries - k)) w response_text
         = (w1, Return (error_result document RawEmpty
                          ("LLM API error: " +:+ exn_text e))))
    ∧ (∀ e,
         try_outcome json_loads client (llm_calls w) = Raise e →
         k = max_retries - 1 →
         retry_loop lower json_loads client document
           (seq k (max_retries - k)) w response_text
         = (w1, Return (error_result document
                          (match exn_kind e with
                           | JSONDecodeError => RawResponse (default "" rt1)
                           | _ => RawEmpty
                           end)
                          (match exn_kind e with
                           | JSONDecodeError => "Failed to parse LLM response as JSON: "
                           | ValueError => "Empty API response: "
                           | _ => "LLM API error: "
                           end +:+ exn_text e)))).
Proof.
  intros Hk. replace (max_retries - k) with (S (max_retries - S k)) by lia.
  cbn [seq retry_loop].
  destruct (attempt_body json_loads client k w response_text) as [[w1 rt1] r] eqn:Hb.
  pose proof (attempt_body_outcome _ _ _ _ _ _ Hb) as Hr.
  apply attempt_body_world in Hb as (Hc & Hs & Hu & Hp & Hcl).
  exists w1, rt1. split_and!; try done.
  - intros extraction He. rewrite He in Hr. by subst r.
  - intros e He Hj Hv Hre. rewrite He in Hr. subst r. rewrite Hre.
    by destruct (exn_kind e).
  - intros e He ->. rewrite He in Hr. subst r.
    destruct (exn_kind e).
    + by rewrite decide_True.
    + by rewrite decide_True.
    + by rewrite andb_false_r.
    + by rewrite andb_false_r.
Qed.

(** C7, as the code has it.  For a readable, non-empty document: when
    the first two calls of the client raise an exception whose text carries
    a transient marker and the third returns a response that parses,
    [extract] returns a result without error after exactly three calls
    (having slept 2 and then 4 seconds); when a call raises an exception
    that carries no transient marker and is not a [ValueError] (a JSON
    decoding error is one), [extract] makes no further call and returns at
    once a result whose error is that exception's text, the graph being
    untouched.

    The third part states this for every attempt.  Let the [try] blocks of
    the first [k] attempts, [k < 3], end with an exception that is a JSON
    decoding error, a [ValueError] of whatever text, or an exception whose
    text carries a transient marker: each of them is retried.  Then, when
    the [try] block of attempt [k + 1] ends with a parsed response,
    [extract] returns a result without error after [k + 1] calls; when it
    ends with an exception of another class whose text carries no transient
    marker, [extract] returns at once with the error [LLM API error: ...]
    after [k + 1] calls and leaves the graph untouched; and when attempt
    [k + 1] is the third, any exception ends the extraction after three
    calls, with the error text of its class. *)
Theorem extract_retry_policy :
  (∀ now document g w e0 e1 text extraction,
     DocumentContent.error document = None →
     strip (DocumentContent.text document) ≠ "" →
     client (llm_calls w) = LLMRaises e0 → retryable lower e0 = true →
     client (S (llm_calls w)) = LLMRaises e1 → retryable lower e1 = true →
     client (S (S (llm_calls w))) = LLMContent text →
     json_loads text = Ok extraction →
     ∃ r g' w',
       extract lower strip fromisoformat json_loads uuid4 client now document g w
       = Ok (r, g', w')
       ∧ error r = None
       ∧ raw_extraction r = RawParsed extraction
       ∧ llm_calls w' = llm_calls w + 3
       ∧ slept w' = slept w ++ [2; 4])
  ∧ (∀ now document g w e,
       DocumentContent.error document = None →
       strip (DocumentContent.text document) ≠ "" →
       client (llm_calls w) = LLMRaises e →
       exn_kind e ≠ JSONDecodeError → exn_kind e ≠ ValueError →
       retryable lower e = false →
       ∃ r w',
         extract lower strip fromisoformat json_loads uuid4 client now document g w
         = Ok (r, g, w')
         ∧ error r = Some ("LLM API error: " +:+ exn_text e)
         ∧ nodes_created r = [] ∧ edges_created r = []
         ∧ llm_calls w' = llm_calls w + 1
         ∧ slept w' = slept w)
  ∧ (∀ now document g w k,
       DocumentContent.error document = None →
       strip (DocumentContent.text document) ≠ "" →
       k < 3 →
       (∀ i, i < k →
             ∃ e, try_outcome json_loads client (llm_calls w + i) = Raise e
                  ∧ (exn_kind e = JSONDecodeError ∨ exn_kind e = ValueError
                     ∨ retryable lower e = true)) →
       (∀ extraction,
          try_outcome json_loads client (llm_calls w + k) = Ok extraction →
          ∃ r g' w',
            extract lower strip fromisoformat json_loads uuid4 client now document g w
            = Ok (r, g', w')
            ∧ error r = None
            ∧ raw_extraction r = RawParsed extraction
            ∧ llm_calls w' = llm_calls w + k + 1
            ∧ slept w' = slept w ++ take k [2; 4])
       ∧ (∀ e,
            try_outcome json_loads client (llm_calls w + k) = Raise e →
            exn_kind e ≠ JSONDecodeError → exn_kind e ≠ ValueError →
            retryable lower e = false →
            ∃ r w',
              extract lower strip fromisoformat json_loads uuid4 client now document g w
              = Ok (r, g, w')
              ∧ error r = Some ("LLM API error: " +:+ exn_text e)
              ∧ nodes_created r = [] ∧ edges_created r = []
              ∧ llm_calls w' = llm_calls w + k + 1
              ∧ slept w' = slept w ++ take k [2; 4])
       ∧ (∀ e,
            try_outcome json_loads client (llm_calls w + k) = Raise e →
            k = 2 →
            ∃ r w',
              extract lower strip fromisoformat json_loads uuid4 client now document g w
              = Ok (r, g, w')
              ∧ error r
                = Some (match exn_kind e with
                        | JSONDecodeError => "Failed to parse LLM response as JSON: "
                        | ValueError => "Empty API response: "
                        | _ => "LLM API error: "
                        end +:+ exn_text e)
              ∧ nodes_created r = [] ∧ edges_created r = []
              ∧ llm_calls w' = llm_calls w + 3
              ∧ slept w' = slept w ++ [2; 4])).
Proof.
  split; [|split].
  - intros now document g w e0 e1 text extraction Herr Htext H0 Hr0 H1 Hr1 H2 Hjson.
    destruct (readable_document document Herr Htext) as [Ht Hs].
    destruct (retry_loop_third_attempt document w e0 e1 text extraction)
      as (w3 & Hloop & Hcalls & Hslept); try done.
    destruct (extract_after_break now document g w w3 extraction)
      as (r & g' & w' & Hex & He & Hraw & Hc & Hsl); try done.
    exists r, g', w'. split_and!; try done; congruence.
  - intros now document g w e Herr Htext H0 Hj Hv Hr.
    destruct (readable_document document Herr Htext) as [Ht Hs].
    unfold extract. rewrite Ht, Hs, (retry_loop_terminal document w e) by done.
    simpl. eexists _, _. split; [done|]. simpl. split_and!; try done. lia.
  - intros now document g w k Herr Htext Hk Hfail.
    destruct (readable_document document Herr Htext) as [Ht Hs].
    destruct (retry_loop_retried document k 0 w None) as
      (w1 & rt1 & Hloop & Hc1 & Hs1 & _); [unfold max_retries; lia|done|].
    rewrite Nat.sub_0_r in Hloop. cbn [Nat.add] in Hloop.
    destruct (retry_loop_attempt document k w1 rt1) as
      (w2 & rt2 & Hc2 & Hs2 & _ & _ & _ & Hok & Hterminal & Hlast);
      [unfold max_retries; lia|].
    rewrite Hc1 in Hok, Hterminal, Hlast.
    assert (slept w2 = slept w ++ take k [2; 4]) as Hslept.
    { rewrite Hs2, Hs1, <- app_assoc. f_equal. by apply delays_take. }
    split_and!.
    + intros extraction He. rewrite (Hok extraction He) in Hloop.
      destruct (extract_after_break now document g w w2 extraction)
        as (r & g' & w' & Hex & He' & Hraw & Hc & Hsl); try done.
      exists r, g', w'. split_and!; try done; [lia|congruence].
    + intros e He Hj Hv Hre. rewrite (Hterminal e He Hj Hv Hre) in Hloop.
      unfold extract. rewrite Ht, Hs, Hloop. simpl.
      eexists _, _. split; [done|]. simpl. split_and!; try done. lia.
    + intros e He ->. rewrite (Hlast e He eq_refl) in Hloop.
      unfold extract. rewrite Ht, Hs, Hloop. simpl.
      eexists _, _. split; [done|]. simpl. split_and!; try done. lia.
Qed.

(** *** Reprocessing a changed document *)

Lemma delete_nodes_frame g l g' :
  delete_nodes g l = Ok g' →
  edges g' = edges g
  ∧ _adjacency g' = _adjacency g
  ∧ _reverse_adjacency g' = _reverse_adjacency g.
Proof.
  unfold delete_nodes.
  apply (for_each_invariant
           (fun s => edges s = edges g ∧ _adjacency s = _adjacency g
                     ∧ _reverse_adjacency s = _reverse_adjacency g)); [|done].
  by intros s x s' Hs (ns & _ & [= <-])%bind_Ok.
Qed.

Lemma delete_nodes_spec g l :
  NoDup (dict_keys (nodes g)) →
  (∀ n, n ∈ l → is_Some (get_node g (Node.id n))) →
  NoDup (Node.id <$> l) →
  ∃ g', delete_nodes g l = Ok g'
        ∧ ∀ k, get_node g' k
               = if decide (k ∈ Node.id <$> l) then None else get_node g k.
Proof.
  unfold delete_nodes, get_node.
  revert g. induction l as [|n l IH]; intros g Hnd Hin Hids.
  - exists g. split; [done|]. intros k. rewrite decide_False; [done|].
    apply not_elem_of_nil.
  - rewrite fmap_cons in Hids. apply NoDup_cons in Hids as [Hn Hids].
    destruct (Hin n) as [n' Hn']; [apply list_elem_of_here|].
    cbn [for_each]. unfold dict_del at 1. unfold get_node in Hn'. rewrite Hn'.
    cbn [bind].
    destruct (IH (set_nodes (dict_remove (Node.id n) (nodes g)) g))
      as (g' & Hg' & Hget).
    + simpl. by apply dict_remove_NoDup.
    + intros m Hm. simpl. rewrite dict_get_remove_ne.
      * apply Hin. by apply list_elem_of_further.
      * intros Heq. apply Hn. rewrite Heq. apply list_elem_of_fmap. by exists m.
    + done.
    + exists g'. split; [exact Hg'|]. intros k. rewrite Hget.
      cbn [nodes set_nodes]. rewrite fmap_cons.
      destruct (decide (k ∈ Node.id <$> l)) as [Hk|Hk].
      * rewrite decide_True; [done|by apply list_elem_of_further].
      * destruct (decide (k = Node.id n)) as [->|Hne].
        -- rewrite decide_True by apply list_elem_of_here.
           by apply dict_get_remove_eq.
        -- rewrite decide_False.
           ++ by apply dict_get_remove_ne.
           ++ rewrite not_elem_of_cons. done.
Qed.

Lemma node_ids_keys g :
  graph_wf g → Node.id <$> dict_values (nodes g) = dict_keys (nodes g).
Proof.
  intros Hwf. unfold dict_values, dict_keys. rewrite <- list_fmap_compose.
  apply Forall_fmap_ext_1, Forall_forall. intros [k n] Hin. simpl.
  apply Hwf. apply dict_elem_get; [apply Hwf|done].
Qed.

Lemma extract_extends now document g w r g' w' :
  extract lower strip fromisoformat json_loads uuid4 client now document g w
  = Ok (r, g', w') →
  extends g g'.
Proof.
  intros Hex. destruct (extract_total now document g w) as (r0 & g0 & w0 & Hex0 & He).
  rewrite Hex in Hex0. by injection Hex0 as -> -> ->.
Qed.

Lemma process_document_edges now st doc st' :
  process_document lower strip fromisoformat json_loads uuid4 md5 client now st doc
  = Ok st' →
  length (edges (inc_graph st)) ≤ length (edges (inc_graph st')).
Proof.
  unfold process_document. cbv zeta.
  destruct (document_hashes st !! DocumentContent.path doc) as [known|].
  - case_decide; [by intros [= <-]|].
    intros (g1 & Hdel & ([[r g'] w'] & Hex & [= <-])%bind_Ok)%bind_Ok.
    apply delete_nodes_frame in Hdel as (Hes & _).
    apply extract_extends in Hex as (_ & Hlen & _). simpl. rewrite <- Hes. exact Hlen.
  - intros ([[r g'] w'] & Hex & [= <-])%bind_Ok.
    apply extract_extends in Hex as (_ & Hlen & _). exact Hlen.
Qed.

End extractor.

(** * Further properties of the graph *)

(** ** Insertion and lookup *)

Lemma edges_of_ids_ext g g' ids :
  (∀ eid, eid ∈ ids → dict_get eid (edges g') = dict_get eid (edges g)) →
  edges_of_ids g' ids = edges_of_ids g ids.
Proof.
  induction ids as [|eid ids IH]; intros Hext; [done|].
  cbn [edges_of_ids]. rewrite (Hext eid) by apply list_elem_of_here.
  rewrite IH; [done|]. intros eid' Hin. apply Hext. by apply list_elem_of_further.
Qed.

Lemma edges_of_ids_app g ids ids' :
  edges_of_ids g (ids ++ ids')
  = let* es := edges_of_ids g ids in
    let* es' := edges_of_ids g ids' in Ok (es ++ es').
Proof.
  induction ids as [|eid ids IH]; cbn [edges_of_ids app bind].
  - by destruct (edges_of_ids g ids').
  - destruct (dict_get eid (edges g)); [|done]. rewrite IH.
    destruct (edges_of_ids g ids); [|done]. cbn [bind].
    by destruct (edges_of_ids g ids').
Qed.

(** X1.  [add_node] stores the node under its own id, in the place of a node
    that had this id; the other nodes, the edges and the edge lists of
    every node, the replaced one included, are as before, and the number of
    nodes grows by one exactly when the id is new. *)
Theorem add_node_get_node :
  ∀ (g : RequirementGraph) (node : Node),
    get_node (add_node g node) (Node.id node) = Some node
    ∧ (∀ k, k ≠ Node.id node → get_node (add_node g node) k = get_node g k)
    ∧ edges (add_node g node) = edges g
    ∧ (∀ k, get_outgoing_edges (add_node g node) k = get_outgoing_edges g k)
    ∧ (∀ k, get_incoming_edges (add_node g node) k = get_incoming_edges g k)
    ∧ length (nodes (add_node g node))
      = match get_node g (Node.id node) with
        | Some _ => length (nodes g)
        | None => S (length (nodes g))
        end.
Proof.
  intros g node.
  assert (∀ k, get_outgoing_edges (add_node g node) k = get_outgoing_edges g k) as Hout.
  { intros k. unfold get_outgoing_edges. cbn [add_node _adjacency].
    rewrite index_touch_lookup.
    replace (default [] (if decide (Node.id node = k)
                         then Some (default [] (_adjacency g !! Node.id node))
                         else _adjacency g !! k))
      with (default [] (_adjacency g !! k)) by (case_decide; by subst).
    by apply edges_of_ids_ext. }
  split_and!.
  - unfold get_node, add_node. cbn [nodes]. rewrite dict_get_set. by rewrite decide_True.
  - intros k Hk. unfold get_node, add_node. cbn [nodes]. rewrite dict_get_set.
    by rewrite decide_False.
  - done.
  - exact Hout.
  - intros k. unfold get_incoming_edges. cbn [add_node _reverse_adjacency].
    rewrite index_touch_lookup.
    replace (default [] (if decide (Node.id node = k)
                         then Some (default [] (_reverse_adjacency g !! Node.id node))
                         else _reverse_adjacency g !! k))
      with (default [] (_reverse_adjacency g !! k)) by (case_decide; by subst).
    by apply edges_of_ids_ext.
  - cbn [add_node nodes]. rewrite dict_set_length. unfold get_node.
    case_decide as Hin.
    + apply dict_get_is_Some_keys in Hin as [v ->]. done.
    + apply dict_get_None_keys in Hin as ->. done.
Qed.

Lemma edges_of_ids_add_edge g edge ids :
  Edge.id edge ∉ ids →
  edges_of_ids (add_edge g edge) ids = edges_of_ids g ids.
Proof.
  intros Hfresh. apply edges_of_ids_ext. intros eid Hin.
  cbn [add_edge edges]. rewrite dict_get_set. case_decide; [by subst|done].
Qed.

(** X2.  [add_edge] does not look at the endpoints.  On a graph whose indices
    are closed, an edge with a new id is appended to the outgoing edges of
    its source and to the incoming edges of its target, whether or not
    these are nodes of the graph; the edge lists of the other ids and the
    nodes are as before. *)
Theorem add_edge_appends (g : RequirementGraph) (edge : Edge) :
  index_closed g →
  dict_get (Edge.id edge) (edges g) = None →
  ∃ out inc,
    get_outgoing_edges g (Edge.source_id edge) = Ok out
    ∧ get_incoming_edges g (Edge.target_id edge) = Ok inc
    ∧ get_outgoing_edges (add_edge g edge) (Edge.source_id edge) = Ok (out ++ [edge])
    ∧ get_incoming_edges (add_edge g edge) (Edge.target_id edge) = Ok (inc ++ [edge])
    ∧ (∀ k, k ≠ Edge.source_id edge →
            get_outgoing_edges (add_edge g edge) k = get_outgoing_edges g k)
    ∧ (∀ k, k ≠ Edge.target_id edge →
            get_incoming_edges (add_edge g edge) k = get_incoming_edges g k)
    ∧ nodes (add_edge g edge) = nodes g
    ∧ length (edges (add_edge g edge)) = S (length (edges g)).
Proof.
  intros [Hadj Hrev] Hfresh.
  assert (∀ k, Edge.id edge ∉ default [] (_adjacency g !! k)) as Hout.
  { intros k Hin. destruct (_adjacency g !! k) as [l|] eqn:Hl; [|by inv Hin].
    destruct (Hadj k l _ Hl Hin) as [e He]. congruence. }
  assert (∀ k, Edge.id edge ∉ default [] (_reverse_adjacency g !! k)) as Hinc.
  { intros k Hin. destruct (_reverse_adjacency g !! k) as [l|] eqn:Hl; [|by inv Hin].
    destruct (Hrev k l _ Hl Hin) as [e He]. congruence. }
  destruct (get_outgoing_edges_total g (Edge.source_id edge) (conj Hadj Hrev))
    as [out Hout_eq].
  destruct (get_incoming_edges_total g (Edge.target_id edge) (conj Hadj Hrev))
    as [inc Hinc_eq].
  assert (edges_of_ids (add_edge g edge) [Edge.id edge] = Ok [edge]) as Hnew.
  { cbn [edges_of_ids add_edge edges]. rewrite dict_get_set, decide_True by done. done. }
  exists out, inc. split_and!; try done.
  - unfold get_outgoing_edges in *. cbn [add_edge _adjacency].
    rewrite index_append_lookup, decide_True by done. cbn [from_option id].
    rewrite edges_of_ids_app, edges_of_ids_add_edge, Hout_eq by apply Hout.
    cbn [bind]. by rewrite Hnew.
  - unfold get_incoming_edges in *. cbn [add_edge _reverse_adjacency].
    rewrite index_append_lookup, decide_True by done. cbn [from_option id].
    rewrite edges_of_ids_app, edges_of_ids_add_edge, Hinc_eq by apply Hinc.
    cbn [bind]. by rewrite Hnew.
  - intros k Hk. unfold get_outgoing_edges. cbn [add_edge _adjacency].
    rewrite index_append_lookup, decide_False by done.
    apply edges_of_ids_add_edge, Hout.
  - intros k Hk. unfold get_incoming_edges. cbn [add_edge _reverse_adjacency].
    rewrite index_append_lookup, decide_False by done.
    apply edges_of_ids_add_edge, Hinc.
  - cbn [add_edge edges]. rewrite dict_set_length, decide_False; [done|].
    by apply dict_get_None_keys.
Qed.

(** ** Status updates that do not propagate *)

(** X3.  With an id that is not stored, [update_status] returns [None] and
    leaves the graph as it is, whatever the status.  With a status other
    than [completed] it changes the status and the timestamp of the node
    itself and nothing else, and it cannot raise, whatever the state of the
    indices. *)
Theorem update_status_without_propagation :
  (∀ g node_id status now,
     get_node g node_id = None →
     update_status g node_id status now = Ok (g, None))
  ∧ (∀ g node_id status now node,
       status ≠ COMPLETED →
       get_node g node_id = Some node →
       ∃ g',
         update_status g node_id status now
         = Ok (g', Some (Node.set_updated_at now (Node.set_status status node)))
         ∧ get_node g' node_id
           = Some (Node.set_updated_at now (Node.set_status status node))
         ∧ (∀ k, k ≠ node_id → get_node g' k = get_node g k)
         ∧ dict_keys (nodes g') = dict_keys (nodes g)
         ∧ edges g' = edges g
         ∧ _adjacency g' = _adjacency g
         ∧ _reverse_adjacency g' = _reverse_adjacency g).
Proof.
  split.
  - intros g node_id status now Hnone. unfold update_status. by rewrite Hnone.
  - intros g node_id status now node Hs Hnode.
    assert (get_node (assign_status g node_id status now) node_id
            = Some (Node.set_updated_at now (Node.set_status status node))) as Hget.
    { unfold get_node, assign_status in *. cbn [set_nodes nodes].
      rewrite dict_get_alter, decide_True by done. by rewrite Hnode. }
    exists (assign_status g node_id status now). split_and!; try done.
    + unfold update_status. rewrite Hnode, decide_False by done.
      cbn [bind]. by rewrite Hget.
    + intros k Hk. unfold get_node, assign_status. cbn [set_nodes nodes].
      by rewrite dict_get_alter, decide_False.
    + unfold assign_status. cbn [set_nodes nodes]. apply dict_keys_alter.
Qed.

(** ** Statistics *)

Lemma length_by_status (ns : list Node) :
  length ns
  = length (filter (fun n => Node.status n = NOT_STARTED) ns)
    + length (filter (fun n => Node.status n = IN_PROGRESS) ns)
    + length (filter (fun n => Node.status n = COMPLETED) ns)
    + length (filter (fun n => Node.status n = NOT_APPLICABLE) ns)
    + length (filter (fun n => Node.status n = BLOCKED) ns).
Proof.
  induction ns as [|n ns IH]; [done|].
  rewrite !filter_cons. destruct (Node.status n) eqn:Hs;
    repeat (first [rewrite decide_True by done | rewrite decide_False by done]);
    cbn [length]; lia.
Qed.

(** X4.  [get_completion_stats] counts every node once: for each status the
    entry of [by_status] is the number of nodes with that status, the five
    entries add up to [total_nodes], and [applicable_items] is
    [total_nodes] less the nodes that are not applicable; for the empty
    graph the percentage is the integer [0]. *)
Theorem completion_stats_counts :
  ∀ g : RequirementGraph,
    let stats := get_completion_stats g in
    let count s := default 0 (by_status stats !! CompletionStatus_value s) in
    (∀ s, by_status stats !! CompletionStatus_value s
          = Some (length (get_nodes_by_status g s)))
    ∧ total_nodes stats = length (nodes g)
    ∧ total_nodes stats
      = count NOT_STARTED + count IN_PROGRESS + count COMPLETED
        + count NOT_APPLICABLE + count BLOCKED
    ∧ completed_items stats = count COMPLETED
    ∧ applicable_items stats = total_nodes stats - count NOT_APPLICABLE
    ∧ applicable_items stats + count NOT_APPLICABLE = total_nodes stats
    ∧ completed_items stats ≤ applicable_items stats
    ∧ (nodes g = [] → completion_percentage stats = PyInt 0).
Proof.
  intros g stats count.
  assert (∀ s, by_status stats !! CompletionStatus_value s
               = Some (length (get_nodes_by_status g s))) as Hcount.
  { intros s. unfold stats, get_completion_stats. cbn [by_status].
    apply count_statuses_lookup. }
  assert (∀ s, count s = length (get_nodes_by_status g s)) as Hc.
  { intros s. unfold count. by rewrite Hcount. }
  assert (length (nodes g) = length (dict_values (nodes g))) as Hlen.
  { unfold dict_values. by rewrite length_fmap. }
  pose proof (length_by_status (dict_values (nodes g))) as Hsum.
  fold (get_nodes_by_status g NOT_STARTED) in Hsum.
  fold (get_nodes_by_status g IN_PROGRESS) in Hsum.
  fold (get_nodes_by_status g COMPLETED) in Hsum.
  fold (get_nodes_by_status g NOT_APPLICABLE) in Hsum.
  fold (get_nodes_by_status g BLOCKED) in Hsum.
  assert (total_nodes stats = length (nodes g)) as Htotal by done.
  assert (completed_items stats = count COMPLETED) as Hcompleted by done.
  assert (applicable_items stats = total_nodes stats - count NOT_APPLICABLE) as Happ
    by done.
  split_and!; try done.
  - rewrite !Hc, Htotal, Hlen. exact Hsum.
  - rewrite Happ, !Hc, Htotal, Hlen. lia.
  - rewrite Happ, Hcompleted, !Hc, Htotal, Hlen. lia.
  - intros Hnil. unfold stats. rewrite get_completion_stats_percentage, Hnil. done.
Qed.

(** * No method of the graph raises *)

Lemma graph_wf_safe g : graph_wf g → graph_safe g.
Proof. intros Hwf. split; apply Hwf. Qed.

Lemma graph_safe_init : graph_safe graph_init.
Proof. apply graph_wf_safe, graph_wf_init. Qed.

Lemma graph_safe_add_node g node : graph_safe g → graph_safe (add_node g node).
Proof.
  intros Hs. split; simpl.
  - apply dict_set_NoDup, Hs.
  - apply Hs.
  - intros k n. rewrite dict_get_set. case_decide; [by intros [= <-]|apply Hs].
  - apply Hs.
  - apply index_closed_add_node, Hs.
  - intros k. rewrite dict_get_set, !index_touch_lookup.
    case_decide; [by eauto|]. apply Hs.
Qed.

Lemma graph_safe_add_edge g edge : graph_safe g → graph_safe (add_edge g edge).
Proof.
  intros Hs. split; simpl.
  - apply Hs.
  - apply dict_set_NoDup, Hs.
  - apply Hs.
  - intros k e. rewrite dict_get_set. case_decide; [by intros [= <-]|apply Hs].
  - apply index_closed_add_edge, Hs.
  - intros k Hk. destruct (safe_node_indexed g Hs k Hk) as [[l Hl] [l' Hl']].
    rewrite !index_append_lookup. split; case_decide; eauto.
Qed.

Lemma graph_safe_alter_node g (f : Node → Node) k :
  (∀ n, Node.id (f n) = Node.id n) →
  graph_safe g → graph_safe (set_nodes (dict_alter f k (nodes g)) g).
Proof.
  intros Hf Hs. split; simpl; try apply Hs.
  - rewrite dict_keys_alter. apply Hs.
  - intros k' n. rewrite dict_get_alter. case_decide as Hk; [|apply Hs].
    subst k'. destruct (dict_get k (nodes g)) as [n0|] eqn:E; [|done].
    intros [= <-]. rewrite Hf. by apply Hs.
  - intros k' Hk'. apply Hs. rewrite dict_get_alter in Hk'.
    case_decide; [|done]. subst. by apply fmap_is_Some in Hk'.
Qed.

Lemma graph_safe_assign_status g k status now :
  graph_safe g → graph_safe (assign_status g k status now).
Proof. by apply graph_safe_alter_node. Qed.

Lemma propagate_step_total now g dependent :
  graph_safe g → ∃ g', propagate_step now g dependent = Ok g' ∧ graph_safe g'.
Proof.
  intros Hs. unfold propagate_step.
  destruct (get_node g (Node.id dependent)) as [live|]; [|by eauto].
  case_decide; [|by eauto].
  destruct (get_dependencies_total g (Node.id live)) as [deps ->]; [apply Hs|].
  cbn [bind]. destruct (forallb _ deps); [|by eauto].
  eexists. split; [done|]. by apply graph_safe_assign_status.
Qed.

Lemma update_status_total g node_id status now :
  graph_safe g →
  ∃ g' r, update_status g node_id status now = Ok (g', r) ∧ graph_safe g'.
Proof.
  intros Hs. unfold update_status.
  destruct (get_node g node_id) as [node|]; [|by eauto].
  pose proof (graph_safe_assign_status g node_id status now Hs) as Hs1.
  case_decide.
  - unfold _propagate_completion.
    destruct (get_dependents_total (assign_status g node_id status now) node_id)
      as [deps ->]; [apply Hs1|].
    cbn [bind].
    destruct (for_each_total graph_safe (propagate_step now) deps
                (assign_status g node_id status now)) as (g2 & -> & Hs2).
    + intros s x Hsx. by apply propagate_step_total.
    + done.
    + cbn [bind]. by eauto.
  - cbn [bind]. by eauto.
Qed.

Lemma evaluate_edge_total node g edge :
  graph_safe g → ∃ g', evaluate_edge node g edge = Ok g' ∧ graph_safe g'.
Proof.
  intros Hs. unfold evaluate_edge. case_decide; [|by eauto].
  destruct (get_node g (Edge.source_id edge)) as [dependent|]; [|by eauto].
  case_decide.
  - eexists. split; [done|]. by apply graph_safe_alter_node.
  - case_decide; [|by eauto].
    eexists. split; [done|]. by apply graph_safe_alter_node.
Qed.

Lemma evaluate_conditions_total g :
  graph_safe g → ∃ g', evaluate_conditions g = Ok g' ∧ graph_safe g'.
Proof.
  intros Hs. unfold evaluate_conditions.
  apply (for_each_total graph_safe); [|done].
  intros s node Hss.
  destruct (get_incoming_edges_total s (Node.id node)) as [es ->]; [apply Hss|].
  cbn [bind]. apply (for_each_total graph_safe); [|done].
  intros s' e Hs'. by apply evaluate_edge_total.
Qed.

(** The merge on a graph that satisfies the invariant, the two ids being
    equal or not. *)
Lemma merge_duplicate_nodes_safe g a b node1 node2 :
  graph_safe g →
  get_node g a = Some node1 → get_node g b = Some node2 →
  ∃ g',
    merge_duplicate_nodes g a b = Ok (g', Some (merge_into node1 node2))
    ∧ nodes g' = dict_remove b
                   (dict_alter (fun _ => merge_into node1 node2) a (nodes g))
    ∧ dict_keys (edges g') = dict_keys (edges g)
    ∧ (∀ k e', dict_get k (edges g') = Some e' →
               ∃ e, dict_get k (edges g) = Some e ∧ Edge.id e' = Edge.id e)
    ∧ (∀ k, _adjacency g' !! k
            = if decide (k = b) then None
              else if decide (k = a)
                   then Some (default [] (_adjacency g !! a)
                              ++ default [] (_adjacency g !! b))
                   else _adjacency g !! k)
    ∧ (∀ k, _reverse_adjacency g' !! k
            = if decide (k = b) then None
              else if decide (k = a)
                   then Some (default [] (_reverse_adjacency g !! a)
                              ++ default [] (_reverse_adjacency g !! b))
                   else _reverse_adjacency g !! k).
Proof.
  intros Hs Hkeep Hdrop.
  destruct (safe_node_indexed g Hs a) as [[lk Hlk] [rk Hrk]]; [by eexists|].
  destruct (safe_node_indexed g Hs b) as [[ld Hld] [rd Hrd]]; [by eexists|].
  unfold merge_duplicate_nodes. rewrite Hkeep, Hdrop.
  destruct (get_incoming_edges_total g b) as [inc Hinc]; [apply Hs|].
  rewrite Hinc. cbn [bind]. rewrite foldl_repoint_incoming.
  assert (Edge.id <$> inc = rd) as Hinc_ids.
  { unfold get_incoming_edges in Hinc. rewrite Hrd in Hinc.
    eapply edges_of_ids_ids; [apply Hs|done]. }
  set (es1 := foldl (fun d e => dict_alter (Edge.set_target_id a) (Edge.id e) d)
                (edges g) inc).
  set (r1 := foldl (fun m e => index_append a (Edge.id e) m)
               (_reverse_adjacency g) inc).
  set (g1 := mkGraph (nodes g) es1 (_adjacency g) r1).
  assert (∀ k, dict_get k es1
               = (fun e => if decide (k ∈ rd) then Edge.set_target_id a e else e)
                   <$> dict_get k (edges g)) as Hes1.
  { intros k. unfold es1. rewrite dict_get_foldl_alter by done. rewrite Hinc_ids.
    destruct (decide (k ∈ rd)); [done|]. by destruct (dict_get k (edges g)). }
  assert (∃ out, get_outgoing_edges g1 b = Ok out) as [out Hout].
  { apply edges_of_ids_total. simpl. rewrite Hld. simpl. intros eid Hin.
    rewrite Hes1. apply fmap_is_Some.
    exact (proj1 (safe_index_closed g Hs) b ld eid Hld Hin). }
  rewrite Hout. cbn [bind]. rewrite foldl_repoint_outgoing.
  assert (Edge.id <$> out = ld) as Hout_ids.
  { unfold get_outgoing_edges in Hout. simpl in Hout. rewrite Hld in Hout.
    eapply edges_of_ids_ids; [|done]. simpl. intros k e. rewrite Hes1.
    destruct (dict_get k (edges g)) as [e0|] eqn:He0; [|done].
    intros [= <-]. destruct (decide (k ∈ rd)); simpl; by apply Hs. }
  cbn [nodes edges _adjacency _reverse_adjacency g1 set_nodes].
  set (es2 := foldl (fun d e => dict_alter (Edge.set_source_id a) (Edge.id e) d)
                es1 out).
  set (a2 := foldl (fun m e => index_append a (Edge.id e) m) (_adjacency g) out).
  assert (∀ k, a2 !! k = if decide (a = k) then Some (lk ++ ld) else _adjacency g !! k)
    as Ha2.
  { intros k. unfold a2. rewrite index_foldl_append, Hout_ids.
    destruct (decide (a = k)) as [<-|]; [|done]. rewrite Hlk. simpl.
    destruct out; [|done]. simpl in Hout_ids. subst ld. by rewrite app_nil_r. }
  assert (∀ k, r1 !! k = if decide (a = k) then Some (rk ++ rd)
                          else _reverse_adjacency g !! k) as Hr1.
  { intros k. unfold r1. rewrite index_foldl_append, Hinc_ids.
    destruct (decide (a = k)) as [<-|]; [|done]. rewrite Hrk. simpl.
    destruct inc; [|done]. simpl in Hinc_ids. subst rd. by rewrite app_nil_r. }
  assert (is_Some (dict_get b (dict_alter (fun _ => merge_into node1 node2) a (nodes g))))
    as [nb Hnb].
  { rewrite dict_get_alter. unfold get_node in *.
    case_decide; [rewrite Hkeep|rewrite Hdrop]; by eexists. }
  unfold dict_del. rewrite Hnb. cbn [bind].
  assert (is_Some (a2 !! b)) as [ab Hab].
  { rewrite Ha2. case_decide; [|rewrite Hld]; by eexists. }
  assert (is_Some (r1 !! b)) as [rb Hrb].
  { rewrite Hr1. case_decide; [|rewrite Hrd]; by eexists. }
  unfold gmap_del. rewrite Hab. cbn [bind]. rewrite Hrb. cbn [bind].
  eexists. split; [done|]. cbn [nodes edges _adjacency _reverse_adjacency].
  split_and!.
  - done.
  - unfold es2, es1. by rewrite !dict_keys_foldl_alter.
  - intros k e'. unfold es2. rewrite dict_get_foldl_alter by done. rewrite Hes1.
    destruct (dict_get k (edges g)) as [e|]; [|by case_decide].
    intros He'. exists e. split; [done|].
    repeat case_decide; simpl in He'; by injection He' as <-.
  - intros k. destruct (decide (k = b)) as [->|Hk]; [by rewrite lookup_delete_eq|].
    rewrite lookup_delete_ne by done. rewrite Ha2.
    destruct (decide (a = k)) as [<-|]; [|by rewrite decide_False by done].
    rewrite decide_True by done. by rewrite Hlk, Hld.
  - intros k. destruct (decide (k = b)) as [->|Hk]; [by rewrite lookup_delete_eq|].
    rewrite lookup_delete_ne by done. rewrite Hr1.
    destruct (decide (a = k)) as [<-|]; [|by rewrite decide_False by done].
    rewrite decide_True by done. by rewrite Hrk, Hrd.
Qed.

Lemma merge_duplicate_nodes_total g a b :
  graph_safe g →
  ∃ g' r, merge_duplicate_nodes g a b = Ok (g', r) ∧ graph_safe g'.
Proof.
  intros Hs.
  destruct (get_node g a) as [node1|] eqn:Ha;
    [|exists g, None; split; [|done]; unfold merge_duplicate_nodes; by rewrite Ha].
  destruct (get_node g b) as [node2|] eqn:Hb;
    [|exists g, None; split; [|done]; unfold merge_duplicate_nodes; by rewrite Ha, Hb].
  destruct (merge_duplicate_nodes_safe g a b node1 node2 Hs Ha Hb)
    as (g' & Hm & Hns & Hks & Hes & Hadj & Hrev).
  exists g', (Some (merge_into node1 node2)). split; [done|].
  assert (∀ k, dict_get k (nodes g')
               = if decide (k = b) then None
                 else if decide (k = a) then Some (merge_into node1 node2)
                      else dict_get k (nodes g)) as Hget.
  { intros k. rewrite Hns. destruct (decide (k = b)) as [->|Hk].
    - rewrite dict_get_remove_eq; [done|]. rewrite dict_keys_alter. apply Hs.
    - rewrite dict_get_remove_ne by done. rewrite dict_get_alter.
      destruct (decide (a = k)) as [<-|]; [|by rewrite decide_False by done].
      rewrite decide_True by done. unfold get_node in Ha. by rewrite Ha. }
  split.
  - rewrite Hns. apply dict_remove_NoDup. rewrite dict_keys_alter. apply Hs.
  - rewrite Hks. apply Hs.
  - intros k n. rewrite Hget. case_decide; [done|]. case_decide; [|apply Hs].
    intros [= <-]. subst k. rewrite merge_into_id. by apply Hs.
  - intros k e' He'. destruct (Hes k e' He') as (e & He & ->). by apply Hs.
  - assert (∀ eid, is_Some (dict_get eid (edges g)) → is_Some (dict_get eid (edges g')))
      as Hkeys.
    { intros eid. rewrite !dict_get_is_Some_keys. by rewrite Hks. }
    destruct (safe_index_closed g Hs) as [Hca Hcr].
    split; intros k l eid.
    + rewrite Hadj. case_decide; [done|]. case_decide; [|by eauto].
      intros [= <-] [Hin|Hin]%elem_of_app; apply Hkeys.
      * destruct (_adjacency g !! a) eqn:E; [by eauto|by inv Hin].
      * destruct (_adjacency g !! b) eqn:E; [by eauto|by inv Hin].
    + rewrite Hrev. case_decide; [done|]. case_decide; [|by eauto].
      intros [= <-] [Hin|Hin]%elem_of_app; apply Hkeys.
      * destruct (_reverse_adjacency g !! a) eqn:E; [by eauto|by inv Hin].
      * destruct (_reverse_adjacency g !! b) eqn:E; [by eauto|by inv Hin].
  - intros k. rewrite Hget, Hadj, Hrev. case_decide; [by intros [? ?]|].
    case_decide; [by eauto|]. apply Hs.
Qed.

Lemma built_safe g : built g → graph_safe g.
Proof.
  induction 1 as [|g node _ IH|g edge _ IH|g node_id status now g' r _ IH Hupd
                  |g g' _ IH Hev|g a b g' r _ IH Hm].
  - apply graph_safe_init.
  - by apply graph_safe_add_node.
  - by apply graph_safe_add_edge.
  - destruct (update_status_total g node_id status now IH) as (g2 & r2 & Hupd' & Hs).
    congruence.
  - destruct (evaluate_conditions_total g IH) as (g2 & Hev' & Hs). congruence.
  - destruct (merge_duplicate_nodes_total g a b IH) as (g2 & r2 & Hm' & Hs). congruence.
Qed.

(** X5.  On a graph built from [RequirementGraph()] by any calls of
    [add_node], [add_edge], [update_status], [evaluate_conditions] and
    [merge_duplicate_nodes], with any arguments, no method of the graph
    raises: the mutating methods return, for every id, status and pair of
    ids, and so do the queries. *)
Theorem graph_methods_never_raise (g : RequirementGraph) :
  built g →
  (∀ node_id status now, ∃ g' r, update_status g node_id status now = Ok (g', r))
  ∧ (∃ g', evaluate_conditions g = Ok g')
  ∧ (∀ node_id_1 node_id_2,
       ∃ g' r, merge_duplicate_nodes g node_id_1 node_id_2 = Ok (g', r))
  ∧ (∀ node_id, ∃ es, get_outgoing_edges g node_id = Ok es)
  ∧ (∀ node_id, ∃ es, get_incoming_edges g node_id = Ok es)
  ∧ (∀ node_id, ∃ deps, get_dependencies g node_id = Ok deps)
  ∧ (∀ node_id, ∃ deps, get_dependents g node_id = Ok deps)
  ∧ (∃ l, get_actionable_items g = Ok l).
Proof.
  intros Hs%built_safe. split_and!.
  - intros node_id status now.
    destruct (update_status_total g node_id status now Hs) as (g' & r & H & _).
    by eauto.
  - destruct (evaluate_conditions_total g Hs) as (g' & H & _). by eauto.
  - intros a b. destruct (merge_duplicate_nodes_total g a b Hs) as (g' & r & H & _).
    by eauto.
  - intros node_id. apply get_outgoing_edges_total, Hs.
  - intros node_id. apply get_incoming_edges_total, Hs.
  - intros node_id. apply get_dependencies_total, Hs.
  - intros node_id. apply get_dependents_total, Hs.
  - eexists. apply actionable_loop_filter, Hs.
Qed.

(** * Further properties of [merge_duplicate_nodes] *)

Lemma merge_lookup g a b node1 node2 g' :
  graph_safe g →
  get_node g a = Some node1 →
  nodes g' = dict_remove b (dict_alter (fun _ => merge_into node1 node2) a (nodes g)) →
  ∀ k, get_node g' k
       = if decide (k = b) then None
         else if decide (k = a) then Some (merge_into node1 node2)
              else get_node g k.
Proof.
  intros Hs Ha Hns k. unfold get_node in *. rewrite Hns.
  destruct (decide (k = b)) as [->|Hk].
  - rewrite dict_get_remove_eq; [done|]. rewrite dict_keys_alter. apply Hs.
  - rewrite dict_get_remove_ne by done. rewrite dict_get_alter.
    destruct (decide (a = k)) as [<-|]; [|by rewrite decide_False by done].
    rewrite decide_True by done. by rewrite Ha.
Qed.

(** X6.  Merging a stored node with itself deletes it: the call returns the
    node, which is then no longer in the graph, together with its two
    index entries; the edges all stay. *)
Theorem merge_with_itself_deletes (g : RequirementGraph) (a : string) (node : Node) :
  built g →
  get_node g a = Some node →
  ∃ g' merged,
    merge_duplicate_nodes g a a = Ok (g', Some merged)
    ∧ Node.id merged = a
    ∧ get_node g' a = None
    ∧ S (length (nodes g')) = length (nodes g)
    ∧ (∀ k, k ≠ a → get_node g' k = get_node g k)
    ∧ dict_keys (edges g') = dict_keys (edges g)
    ∧ _adjacency g' !! a = None
    ∧ _reverse_adjacency g' !! a = None.
Proof.
  intros Hs%built_safe Ha.
  destruct (merge_duplicate_nodes_safe g a a node node Hs Ha Ha)
    as (g' & Hm & Hns & Hks & _ & Hadj & Hrev).
  pose proof (merge_lookup g a a node node g' Hs Ha Hns) as Hget.
  exists g', (merge_into node node). split_and!.
  - done.
  - rewrite merge_into_id. by apply Hs.
  - by rewrite Hget, decide_True.
  - rewrite Hns. erewrite dict_remove_length; [by rewrite dict_alter_length|].
    rewrite dict_get_alter, decide_True by done. unfold get_node in Ha. by rewrite Ha.
  - intros k Hk. by rewrite Hget, !decide_False.
  - done.
  - by rewrite Hadj, decide_True.
  - by rewrite Hrev, decide_True.
Qed.

(** A merge that names an id that is not stored returns [None] and leaves
    the graph as it is. *)
Lemma merge_unknown_id :
  ∀ (g : RequirementGraph) (node_id_1 node_id_2 : string),
    get_node g node_id_1 = None ∨ get_node g node_id_2 = None →
    merge_duplicate_nodes g node_id_1 node_id_2 = Ok (g, None).
Proof.
  intros g a b [Hn|Hn]; unfold merge_duplicate_nodes; rewrite Hn; [done|].
  by destruct (get_node g a).
Qed.


(** X8.  Of the kept node a merge changes the tags, the metadata and, when
    its own is missing or empty and that of the dropped node is not, the
    source text; its other fields, the timestamp of the last update among
    them, and all the other nodes are as before. *)
Theorem merge_kept_node (g : RequirementGraph) (keep drop : string)
    (node1 node2 : Node) :
  built g →
  keep ≠ drop →
  get_node g keep = Some node1 →
  get_node g drop = Some node2 →
  ∃ g' merged,
    merge_duplicate_nodes g keep drop = Ok (g', Some merged)
    ∧ get_node g' keep = Some merged
    ∧ merged
      = Node.mk (Node.id node1) (Node.type node1) (Node.title node1)
          (Node.description node1) (Node.status node1)
          (Node.source_document node1) (Node.source_location node1)
          (Node.source_text merged)
          (Node.checkbox_state node1) (Node.condition_met node1)
          (Node.deadline node1) (Node.created_at node1) (Node.updated_at node1)
          (Node.confidence node1) (Node.tags merged) (Node.metadata merged)
          (Node.notes node1)
    ∧ Node.source_text merged
      = (if opt_str_truthy (Node.source_text node1) then Node.source_text node1
         else if opt_str_truthy (Node.source_text node2) then Node.source_text node2
              else Node.source_text node1)
    ∧ (∀ k, k ≠ keep → k ≠ drop → get_node g' k = get_node g k).
Proof.
  intros Hs%built_safe Hne Hkeep Hdrop.
  destruct (merge_duplicate_nodes_safe g keep drop node1 node2 Hs Hkeep Hdrop)
    as (g' & Hm & Hns & _).
  pose proof (merge_lookup g keep drop node1 node2 g' Hs Hkeep Hns) as Hget.
  exists g', (merge_into node1 node2). split_and!.
  - done.
  - by rewrite Hget, decide_False, decide_True.
  - unfold merge_into. by destruct (_ && _).
  - unfold merge_into.
    destruct (opt_str_truthy (Node.source_text node2));
      by destruct (opt_str_truthy (Node.source_text node1)).
  - intros k Hk Hk'. by rewrite Hget, !decide_False.
Qed.

(** * [evaluate_conditions] *)

Lemma set_status_same n : Node.set_status (Node.status n) n = n.
Proof. by destruct n. Qed.

Lemma set_status_twice s s' n :
  Node.set_status s (Node.set_status s' n) = Node.set_status s n.
Proof. done. Qed.

Lemma set_nodes_same g : set_nodes (nodes g) g = g.
Proof. by destruct g. Qed.

Lemma dict_alter_ext_at {V} (f f' : V → V) k (d : pydict V) :
  (∀ v, dict_get k d = Some v → f v = f' v) →
  dict_alter f k d = dict_alter f' k d.
Proof.
  induction d as [|[k' v] d IH]; intros Hf; [done|].
  cbn [dict_alter dict_get] in *. case_decide.
  - by rewrite Hf.
  - by rewrite IH.
Qed.

Lemma dict_alter_id {V} (f : V → V) k (d : pydict V) :
  (∀ v, dict_get k d = Some v → f v = v) → dict_alter f k d = d.
Proof.
  induction d as [|[k' v] d IH]; intros Hf; [done|].
  cbn [dict_alter dict_get] in *. case_decide.
  - by rewrite Hf.
  - by rewrite IH.
Qed.

Lemma dict_ext {V} (d d' : pydict V) :
  NoDup (dict_keys d) → dict_keys d = dict_keys d' →
  (∀ k, dict_get k d = dict_get k d') → d = d'.
Proof.
  revert d'. induction d as [|[k v] d IH]; intros [|[k' v'] d'] Hnd Hks Hget;
    try done.
  cbn in Hks. injection Hks as <- Hks.
  apply NoDup_cons in Hnd as [Hk Hnd].
  pose proof (Hget k) as Hk0. cbn [dict_get] in Hk0.
  rewrite !decide_True in Hk0 by done. injection Hk0 as <-.
  f_equal. apply IH; [done|done|]. intros k0. specialize (Hget k0).
  cbn [dict_get] in Hget. case_decide as Hk0; [|done]. subst k0.
  assert (dict_get k d = None) as -> by by apply dict_get_None_keys.
  symmetry. apply dict_get_None_keys. unfold dict_keys in *. by rewrite <- Hks.
Qed.

Lemma evaluate_edge_alter node g edge :
  evaluate_edge node g edge
  = Ok (if decide (Edge.type edge = CONDITIONAL_ON)
        then set_nodes (apply_condition_op (nodes g)
                          (Edge.source_id edge, Node.condition_met node)) g
        else g).
Proof.
  unfold evaluate_edge, apply_condition_op. case_decide; [|done]. cbn [fst snd].
  unfold get_node.
  destruct (dict_get (Edge.source_id edge) (nodes g)) as [dependent|] eqn:Hd.
  - unfold condition_update, condition_effect.
    destruct (decide (Node.condition_met node = Some false)) as [Hc|Hc]; [done|].
    destruct (decide (Node.status dependent = NOT_APPLICABLE)) as [Hst|Hst].
    + do 2 f_equal. apply dict_alter_ext_at. intros v Hv.
      assert (v = dependent) as -> by congruence. by rewrite decide_True.
    + rewrite dict_alter_id; [by rewrite set_nodes_same|].
      intros v Hv. assert (v = dependent) as -> by congruence.
      rewrite decide_False by done. apply set_status_same.
  - rewrite dict_alter_absent by done. by rewrite set_nodes_same.
Qed.

Lemma for_each_evaluate_edge node g es :
  for_each (evaluate_edge node) g es
  = Ok (set_nodes (foldl apply_condition_op (nodes g) (edge_ops node es)) g).
Proof.
  revert g. induction es as [|e es IH]; intros g.
  - cbn. by rewrite set_nodes_same.
  - cbn [for_each]. rewrite evaluate_edge_alter. cbn [bind]. rewrite IH.
    unfold edge_ops. cbn [omap list_omap]. case_decide; [|done].
    cbn [foldl]. by destruct g.
Qed.

Lemma get_incoming_edges_set_nodes ns g k :
  get_incoming_edges (set_nodes ns g) k = get_incoming_edges g k.
Proof. unfold get_incoming_edges. by apply edges_of_ids_ext. Qed.

Lemma for_each_conditions g0 ns conds :
  index_closed g0 →
  for_each
    (fun g node =>
       let* es := get_incoming_edges g (Node.id node) in
       for_each (evaluate_edge node) g es)
    (set_nodes ns g0) conds
  = Ok (set_nodes (foldl apply_condition_op ns (flat_map (node_ops g0) conds)) g0).
Proof.
  intros Hc. revert ns. induction conds as [|node conds IH]; intros ns; [done|].
  cbn [for_each flat_map]. rewrite get_incoming_edges_set_nodes.
  unfold node_ops at 1.
  destruct (get_incoming_edges_total g0 (Node.id node) Hc) as [es ->].
  cbn [bind]. rewrite for_each_evaluate_edge. cbn [bind].
  cbn [set_nodes nodes edges _adjacency _reverse_adjacency].
  rewrite foldl_app. apply IH.
Qed.

Lemma evaluate_conditions_closed_form g :
  index_closed g →
  evaluate_conditions g
  = Ok (set_nodes (foldl apply_condition_op (nodes g) (condition_ops g)) g).
Proof.
  intros Hc. unfold evaluate_conditions.
  rewrite <- (set_nodes_same g) at 1. by rewrite for_each_conditions.
Qed.

Lemma dict_keys_foldl_ops d ops :
  dict_keys (foldl apply_condition_op d ops) = dict_keys d.
Proof.
  revert d. induction ops as [|op ops IH]; intros d; [done|].
  cbn [foldl]. rewrite IH. apply dict_keys_alter.
Qed.

Lemma dict_get_foldl_ops d ops k :
  dict_get k (foldl apply_condition_op d ops)
  = (fun n => Node.set_status (run_conditions ops k (Node.status n)) n)
      <$> dict_get k d.
Proof.
  revert d. induction ops as [|op ops IH]; intros d.
  - cbn. destruct (dict_get k d) as [n|]; [|done]. cbn. by rewrite set_status_same.
  - cbn [foldl]. rewrite IH. unfold apply_condition_op at 1.
    rewrite dict_get_alter. unfold run_conditions. cbn [foldl].
    destruct (decide (op.1 = k)) as [Hk|Hk]; [|done].
    destruct (dict_get op.1 d) as [n|] eqn:Hn; rewrite <- Hk, Hn; [|done].
    cbn. done.
Qed.

Lemma condition_effect_idem c s :
  condition_effect c (condition_effect c s) = condition_effect c s.
Proof. unfold condition_effect. repeat case_decide; congruence. Qed.

Lemma condition_effect_true c s :
  c ≠ Some false → condition_effect c s = condition_effect None s.
Proof.
  intros Hc. unfold condition_effect.
  rewrite (decide_False (P := c = Some false)) by done.
  by rewrite (decide_False (P := None = Some false)).
Qed.

Lemma run_conditions_cases ops k :
  (∀ s s', run_conditions ops k s = run_conditions ops k s')
  ∨ (∀ s, run_conditions ops k s = condition_effect None s)
  ∨ (∀ s, run_conditions ops k s = s).
Proof.
  induction ops as [|op ops IH]; [by right; right|].
  unfold run_conditions in *. cbn [foldl].
  destruct (decide (op.1 = k)) as [Hk|Hk]; [|exact IH].
  destruct (decide (op.2 = Some false)) as [Hf|Hf].
  - left. intros s s'. unfold condition_effect. by rewrite !decide_True.
  - destruct IH as [IH|[IH|IH]].
    + left. intros s s'. apply IH.
    + right. left. intros s. rewrite IH, (condition_effect_true op.2) by done.
      apply condition_effect_idem.
    + right. left. intros s. rewrite IH. by apply condition_effect_true.
Qed.

Lemma run_conditions_idem ops k s :
  run_conditions ops k (run_conditions ops k s) = run_conditions ops k s.
Proof.
  destruct (run_conditions_cases ops k) as [H|[H|H]].
  - apply H.
  - rewrite !H. apply condition_effect_idem.
  - by rewrite !H.
Qed.

Lemma run_conditions_values ops k s :
  run_conditions ops k s = s
  ∨ run_conditions ops k s = NOT_APPLICABLE
  ∨ run_conditions ops k s = NOT_STARTED.
Proof.
  revert s. induction ops as [|op ops IH]; intros s; [by left|].
  unfold run_conditions in *. cbn [foldl].
  destruct (decide (op.1 = k)); [|apply IH].
  destruct (IH (condition_effect op.2 s)) as [Heq|[Heq|Heq]]; rewrite Heq;
    [|by auto|by auto].
  unfold condition_effect. repeat case_decide; auto.
Qed.

Lemma run_conditions_untouched ops k s :
  k ∉ ops.*1 → run_conditions ops k s = s.
Proof.
  revert s. induction ops as [|op ops IH]; intros s Hk; [done|].
  unfold run_conditions in *. cbn [foldl].
  apply not_elem_of_cons in Hk as [Hk Hks]. rewrite decide_False by done.
  by apply IH.
Qed.

Lemma nodes_foldl_ops d ops :
  NoDup (dict_keys d) →
  (∀ k n, dict_get k d = Some n → Node.id n = k) →
  foldl apply_condition_op d ops = dict_map (fun _ n => after_conditions ops n) d.
Proof.
  intros Hnd Hid. apply dict_ext.
  - by rewrite dict_keys_foldl_ops.
  - by rewrite dict_keys_foldl_ops, dict_keys_map.
  - intros k. rewrite dict_get_foldl_ops, dict_get_map.
    destruct (dict_get k d) as [n|] eqn:Hn; [|done]. cbn.
    unfold after_conditions. by rewrite (Hid k n Hn).
Qed.

Lemma dict_values_map {V} (h : V → V) (d : pydict V) :
  dict_values (dict_map (fun _ v => h v) d) = h <$> dict_values d.
Proof.
  unfold dict_values, dict_map. rewrite <- !list_fmap_compose.
  by apply list_fmap_ext.
Qed.

Lemma flat_map_filter_fmap {A B} (P : A → Prop) `{!∀ x, Decision (P x)}
    (F F' : A → list B) (h : A → A) (l : list A) :
  (∀ x, P (h x) ↔ P x) → (∀ x, F' (h x) = F x) →
  flat_map F' (filter P (h <$> l)) = flat_map F (filter P l).
Proof.
  intros HP HF. induction l as [|x l IH]; [done|].
  rewrite fmap_cons, !filter_cons.
  destruct (decide (P x)) as [Hx|Hx].
  - rewrite decide_True by by apply HP. cbn [flat_map]. by rewrite HF, IH.
  - rewrite decide_False by by rewrite HP. exact IH.
Qed.

Lemma condition_ops_after g ops :
  condition_ops (set_nodes (dict_map (fun _ n => after_conditions ops n) (nodes g)) g)
  = condition_ops g.
Proof.
  unfold condition_ops, get_nodes_by_type. cbn [set_nodes nodes].
  rewrite dict_values_map. apply flat_map_filter_fmap.
  - intros n. done.
  - intros n. cbn [after_conditions Node.id Node.set_status Node.condition_met].
    by rewrite get_incoming_edges_set_nodes.
Qed.

Lemma after_conditions_idem ops n :
  after_conditions ops (after_conditions ops n) = after_conditions ops n.
Proof.
  unfold after_conditions. cbn [Node.id Node.status Node.set_status].
  by rewrite run_conditions_idem.
Qed.

Lemma evaluate_conditions_after g :
  graph_safe g →
  evaluate_conditions g
  = Ok (set_nodes (dict_map (fun _ n => after_conditions (condition_ops g) n)
                     (nodes g)) g).
Proof.
  intros Hs. rewrite evaluate_conditions_closed_form by apply Hs.
  rewrite nodes_foldl_ops; [done|apply Hs|apply Hs].
Qed.

(** X9.  [evaluate_conditions] changes statuses and nothing else.  The node
    stored under [k] gets the status that the iterations for [k] leave: it
    is the old status, [not_applicable] or [not_started]; a node that is not
    the source of a [conditional_on] edge listed as incoming to a condition
    node is the object it was.  The edges, the indices and the keys of
    [nodes] are as before. *)
Theorem evaluate_conditions_changes_statuses (g : RequirementGraph) :
  built g →
  ∃ g',
    evaluate_conditions g = Ok g'
    ∧ edges g' = edges g
    ∧ _adjacency g' = _adjacency g
    ∧ _reverse_adjacency g' = _reverse_adjacency g
    ∧ dict_keys (nodes g') = dict_keys (nodes g)
    ∧ ∀ k n, get_node g k = Some n →
        ∃ s, get_node g' k = Some (Node.set_status s n)
             ∧ s = run_conditions (condition_ops g) k (Node.status n)
             ∧ (s = Node.status n ∨ s = NOT_APPLICABLE ∨ s = NOT_STARTED)
             ∧ (k ∉ (condition_ops g).*1 → get_node g' k = Some n).
Proof.
  intros Hs%built_safe. eexists. split; [by apply evaluate_conditions_after|].
  cbn [set_nodes edges _adjacency _reverse_adjacency nodes].
  split_and!; try done.
  - apply dict_keys_map.
  - intros k n Hn. unfold get_node in *. cbn [set_nodes nodes].
    rewrite dict_get_map, Hn. cbn [fmap option_fmap option_map].
    unfold after_conditions. rewrite (safe_node_id g Hs k n Hn).
    eexists. split_and!; [done|done|apply run_conditions_values|].
    intros Hk. by rewrite run_conditions_untouched, set_status_same.
Qed.

(** X10.  [evaluate_conditions] is idempotent: a second call in a row changes
    nothing. *)
Theorem evaluate_conditions_idempotent (g g' : RequirementGraph) :
  built g →
  evaluate_conditions g = Ok g' →
  evaluate_conditions g' = Ok g'.
Proof.
  intros Hb Hev.
  assert (graph_safe g') as Hs' by (apply built_safe; by eapply built_evaluate_conditions).
  apply built_safe in Hb as Hs.
  rewrite evaluate_conditions_after in Hev by done. injection Hev as <-.
  rewrite evaluate_conditions_after by done.
  rewrite condition_ops_after. cbn [set_nodes nodes edges _adjacency _reverse_adjacency].
  f_equal. unfold set_nodes. cbn [nodes edges _adjacency _reverse_adjacency].
  f_equal. unfold dict_map. rewrite <- list_fmap_compose.
  apply list_fmap_ext. intros i [k n] _. cbn. by rewrite after_conditions_idem.
Qed.

(** * Sorting *)

Section sorting.
Context {A : Type} (lt : A → A → bool).

Lemma sort_insert_Permutation x l : sort_insert lt x l ≡ₚ x :: l.
Proof.
  induction l as [|y l IH]; [done|]. cbn [sort_insert].
  destruct (lt y x); [|done]. rewrite IH. apply Permutation_swap.
Qed.

Lemma py_sorted_Permutation l : py_sorted lt l ≡ₚ l.
Proof.
  induction l as [|x l IH]; [done|]. unfold py_sorted in *. cbn [foldr].
  by rewrite sort_insert_Permutation, IH.
Qed.

Lemma py_sorted_elem x l : x ∈ py_sorted lt l ↔ x ∈ l.
Proof. by rewrite py_sorted_Permutation. Qed.

Lemma py_sorted_length l : length (py_sorted lt l) = length l.
Proof. by rewrite py_sorted_Permutation. Qed.

(** [lt] is the strict part of a total preorder. *)
Hypothesis lt_asym : ∀ a b, lt a b = true → lt b a = false.
Hypothesis le_trans : ∀ a b c, lt b a = false → lt c b = false → lt c a = false.

Lemma sort_insert_sorted x l :
  StronglySorted (fun a b => lt b a = false) l →
  StronglySorted (fun a b => lt b a = false) (sort_insert lt x l).
Proof.
  induction 1 as [|y l Hl IH Hy]; cbn [sort_insert].
  - repeat constructor.
  - destruct (lt y x) eqn:Hyx.
    + constructor; [done|]. rewrite sort_insert_Permutation.
      constructor; [by apply lt_asym|done].
    + constructor; [by constructor|]. constructor; [done|].
      eapply Forall_impl; [exact Hy|]. intros z Hz. by eapply le_trans.
Qed.

Lemma py_sorted_sorted l :
  StronglySorted (fun a b => lt b a = false) (py_sorted lt l).
Proof.
  induction l as [|x l IH]; [constructor|]. unfold py_sorted in *. cbn [foldr].
  by apply sort_insert_sorted.
Qed.

End sorting.

(** Stability: the elements with one key keep their order. *)
Lemma py_sorted_stable {A K} `{EqDecision K} (key : A → K) (ltk : K → K → bool)
    (k : K) (l : list A) :
  (∀ k, ltk k k = false) →
  filter (fun x => key x = k) (py_sorted (fun a b => ltk (key a) (key b)) l)
  = filter (fun x => key x = k) l.
Proof.
  intros Hirr. induction l as [|x l IH]; [done|].
  unfold py_sorted in *. cbn [foldr]. rewrite filter_cons, <- IH.
  generalize (foldr (sort_insert (fun a b => ltk (key a) (key b))) [] l).
  clear IH. intros s. induction s as [|y s IHs]; cbn [sort_insert].
  - by rewrite filter_cons.
  - destruct (ltk (key y) (key x)) eqn:Hyx.
    + rewrite !filter_cons, IHs.
      destruct (decide (key x = k)) as [Hx|Hx]; [|done].
      destruct (decide (key y = k)) as [Hy|Hy]; [|done].
      rewrite Hx, Hy, Hirr in Hyx. done.
    + by rewrite (filter_cons _ x).
Qed.

(** * Transitive dependents *)

Lemma dt_prepend g x y z :
  dependent_of g x y → depends_transitively g y z → depends_transitively g x z.
Proof.
  intros Hxy. induction 1 as [z Hyz|w z _ IH Hwz].
  - eapply dt_more; [by apply dt_direct|done].
  - eapply dt_more; [by apply IH|done].
Qed.

Section dfs.
Variable g : RequirementGraph.
Variable U : gset string.
Hypothesis Hclosed : index_closed g.
Hypothesis HU : ∀ x y, dependent_of g x y → y ∈ U.

Lemma dfs_loop d x V1 (deps : list Node) :
  (∀ x V, x ∈ U → size (U ∖ V) < d →
          ∃ r, _get_transitive_dependents d g x V = Ok r ∧ dfs_post g U x V r) →
  size (U ∖ V1) < d →
  (∀ n, n ∈ deps → dependent_of g x (Node.id n)) →
  ∀ st, dfs_post g U x V1 st →
  ∃ st',
    for_each
      (fun (st : gset string * gset string) (dep : Node) =>
         let* sub := _get_transitive_dependents d g (Node.id dep) st.2 in
         Ok ({[Node.id dep]} ∪ st.1 ∪ sub.1, sub.2))
      st deps = Ok st'
    ∧ dfs_post g U x V1 st'
    ∧ st.1 ⊆ st'.1
    ∧ (∀ n, n ∈ deps → Node.id n ∈ st'.1).
Proof.
  intros IH Hsize. induction deps as [|n deps IHdeps]; intros Hdeps st Hst.
  - exists st. split; [done|]. split; [done|]. split; [done|]. intros n Hn. by inv Hn.
  - cbn [for_each].
    assert (dependent_of g x (Node.id n)) as Hn by apply Hdeps, list_elem_of_here.
    destruct Hst as (HV1 & Hx & Hsub & HD & Hreach & Hclose).
    destruct (IH (Node.id n) st.2) as (sub & -> & Hpost).
    { by eapply HU. }
    { eapply Nat.le_lt_trans; [|exact Hsize]. apply subseteq_size. set_solver. }
    cbn [bind].
    destruct Hpost as (HV2 & Hn2 & Hsub2 & HD2 & Hreach2 & Hclose2).
    destruct (IHdeps) with (st := ({[Node.id n]} ∪ st.1 ∪ sub.1, sub.2))
      as (st' & Hfor & Hpost' & Hmono & Hids).
    { intros n' Hn'. apply Hdeps. by apply list_elem_of_further. }
    { unfold dfs_post. cbn [fst snd]. split_and!.
      - set_solver.
      - set_solver.
      - set_solver.
      - set_solver.
      - intros y [[->%elem_of_singleton|Hy]%elem_of_union|Hy]%elem_of_union.
        + by apply dt_direct.
        + by apply Hreach.
        + eapply dt_prepend; [exact Hn|]. by apply Hreach2.
      - intros y z Hy HyV Hyz. destruct (decide (y ∈ st.2)) as [Hin|Hin].
        + apply elem_of_union. left. apply elem_of_union. right. by eapply Hclose.
        + apply elem_of_union. right. by eapply Hclose2. }
    cbn [fst] in Hmono.
    exists st'. split; [done|]. split; [done|]. split; [set_solver|].
    intros n' [->|Hn']%elem_of_cons; [set_solver|by apply Hids].
Qed.

Lemma dfs_spec depth x V :
  x ∈ U → size (U ∖ V) < depth →
  ∃ r, _get_transitive_dependents depth g x V = Ok r ∧ dfs_post g U x V r.
Proof.
  revert x V. induction depth as [|d IH]; intros x V Hx Hsize; [lia|].
  cbn [_get_transitive_dependents]. destruct (decide (x ∈ V)) as [HxV|HxV].
  - exists (∅, V). split; [done|]. unfold dfs_post. cbn [fst snd].
    split_and!; try set_solver.
  - destruct (get_dependents_total g x Hclosed) as [deps Hdeps]. rewrite Hdeps.
    cbn [bind].
    assert (size (U ∖ ({[x]} ∪ V)) < d) as Hsize1.
    { assert (size (U ∖ V) = size ({[x]} : gset string) + size (U ∖ ({[x]} ∪ V)))
        as Heq.
      { rewrite <- size_union by set_solver. f_equal. apply set_eq. intros y.
        rewrite elem_of_union, !elem_of_difference, elem_of_union, elem_of_singleton.
        destruct (decide (y = x)) as [->|]; naive_solver. }
      rewrite size_singleton in Heq. lia. }
    destruct (dfs_loop d x ({[x]} ∪ V) deps IH Hsize1) with (st := (∅ : gset string, {[x]} ∪ V))
      as (st' & Hfor & Hpost & _ & Hids).
    { intros n Hn. by exists deps, n. }
    { unfold dfs_post. cbn [fst snd]. split_and!; try set_solver. }
    exists st'. split; [done|].
    destruct Hpost as (HV1 & Hx1 & Hsub & HD & Hreach & Hclose).
    unfold dfs_post. split_and!; try done.
    + set_solver.
    + set_solver.
    + intros y z Hy HyV Hyz. destruct (decide (y = x)) as [->|Hne].
      * destruct Hyz as (deps' & n & Hdeps' & Hn & <-).
        apply Hids. congruence.
      * eapply Hclose; [done| |done]. set_solver.
Qed.

End dfs.

Lemma dependent_of_key g x y :
  graph_safe g → dependent_of g x y → y ∈ dict_keys (nodes g).
Proof.
  intros Hs (deps & n & Hdeps & Hn & <-).
  apply (get_dependents_elem g x deps n Hdeps) in Hn as (eid & e & _ & _ & _ & Hget).
  unfold get_node in Hget. rewrite (safe_node_id g Hs _ _ Hget).
  apply dict_get_is_Some_keys. by eexists.
Qed.

(** X11.  [_get_transitive_dependents] terminates on every graph, cycles
    included, without going deeper than the number of nodes plus two, and
    returns exactly the ids reached from the node by one or more steps
    from a node to one of its dependents; the id of the node itself is
    among them when it lies on a cycle. *)
Theorem transitive_dependents_reached (g : RequirementGraph) (node_id : string)
    (depth : nat) :
  built g →
  length (nodes g) + 2 ≤ depth →
  ∃ dependents visited,
    _get_transitive_dependents depth g node_id ∅ = Ok (dependents, visited)
    ∧ (∀ y, y ∈ dependents ↔ depends_transitively g node_id y)
    ∧ (∀ y, y ∈ dependents → is_Some (get_node g y))
    ∧ size dependents ≤ length (nodes g).
Proof.
  intros Hs%built_safe Hdepth.
  set (K := list_to_set (dict_keys (nodes g)) : gset string).
  assert (size K = length (nodes g)) as HK.
  { unfold K. rewrite size_list_to_set by apply Hs. unfold dict_keys.
    by rewrite length_fmap. }
  assert (∀ x y, dependent_of g x y → y ∈ K) as HUK.
  { intros x y Hxy. apply elem_of_list_to_set. by eapply dependent_of_key. }
  destruct (dfs_spec g (K ∪ {[node_id]}) (safe_index_closed g Hs)) with
    (depth := depth) (x := node_id) (V := (∅ : gset string))
    as ([D V'] & Hrun & HV & Hx & Hsub & HD & Hreach & Hclose).
  { intros x y Hxy. apply elem_of_union. left. by eapply HUK. }
  { set_solver. }
  { eapply Nat.le_lt_trans; [apply subseteq_size|].
    - apply subseteq_difference_l. reflexivity.
    - rewrite size_union_alt. 
      assert (size (({[node_id]} : gset string) ∖ K) ≤ 1).
      { rewrite <- (size_singleton (C := gset string) node_id).
        apply subseteq_size. set_solver. }
      lia. }
  cbn [fst snd] in *.
  assert (∀ y, depends_transitively g node_id y → y ∈ D) as Hcomplete.
  { intros y. induction 1 as [y Hxy|y z _ IH Hyz].
    - eapply Hclose; [exact Hx|set_solver|done].
    - eapply Hclose; [apply HD, IH|set_solver|done]. }
  assert (∀ y, y ∈ D → y ∈ K) as HDK.
  { intros y Hy. specialize (Hreach y Hy). inv Hreach; by eapply HUK. }
  exists D, V'. split_and!.
  - done.
  - intros y. split; [apply Hreach|apply Hcomplete].
  - intros y Hy%HDK. apply elem_of_list_to_set in Hy.
    by apply dict_get_is_Some_keys.
  - rewrite <- HK. apply subseteq_size. intros y. apply HDK.
Qed.

(** * The critical path *)

Lemma StronglySorted_lookup {A} (R : A → A → Prop) (l : list A) i j a b :
  StronglySorted R l → i < j → l !! i = Some a → l !! j = Some b → R a b.
Proof.
  intros Hl Hij Ha Hb. rewrite <- (take_drop j l) in Hl.
  eapply StronglySorted_app_1_elem_of; [exact Hl| |].
  - apply elem_of_take. by exists i.
  - apply list_elem_of_lookup. exists 0. by rewrite lookup_drop, Nat.add_0_r.
Qed.

Lemma Permutation_fmap_inv {A B} (f : A → B) (l1 : list B) (l2 : list A) :
  l1 ≡ₚ f <$> l2 → ∃ l3, l1 = f <$> l3 ∧ l2 ≡ₚ l3.
Proof.
  assert (∀ l, map f l = f <$> l) as Hmap.
  { induction l as [|x l IH]; [done|]. cbn. by rewrite IH. }
  rewrite <- Hmap. intros (l3 & Heq & Hperm)%Permutation_map_inv.
  exists l3. by rewrite <- Hmap.
Qed.

Lemma node_ids_keys_safe g :
  graph_safe g → Node.id <$> dict_values (nodes g) = dict_keys (nodes g).
Proof.
  intros Hs. unfold dict_values, dict_keys. rewrite <- list_fmap_compose.
  apply Forall_fmap_ext_1, Forall_forall. intros [k n] Hin. simpl.
  apply Hs. apply dict_elem_get; [apply Hs|done].
Qed.

Lemma get_node_value g n :
  graph_safe g → n ∈ dict_values (nodes g) → get_node g (Node.id n) = Some n.
Proof.
  intros Hs (k & Hin)%dict_values_elem.
  assert (dict_get k (nodes g) = Some n) as Hget by (apply dict_elem_get; [apply Hs|done]).
  unfold get_node. by rewrite (safe_node_id g Hs k n Hget).
Qed.

Lemma blocking_counts_loop depth g (ns : list Node) (acc : pydict nat) :
  (∀ n, n ∈ ns → ∃ r, _get_transitive_dependents depth g (Node.id n) ∅ = Ok r) →
  NoDup (dict_keys acc ++ (Node.id <$> ns)) →
  for_each
    (fun (counts : pydict nat) (node : Node) =>
       if decide (Node.status node = COMPLETED) then Ok counts
       else
         let* r := _get_transitive_dependents depth g (Node.id node) ∅ in
         Ok (dict_set (Node.id node) (size r.1) counts))
    acc ns
  = Ok (acc ++ ((fun n => (Node.id n, transitive_count depth g (Node.id n)))
                  <$> filter (fun n => Node.status n ≠ COMPLETED) ns)).
Proof.
  revert acc. induction ns as [|n ns IH]; intros acc Hrun Hnd.
  - cbn. by rewrite app_nil_r.
  - cbn [for_each]. rewrite filter_cons. rewrite fmap_cons in Hnd.
    destruct (decide (Node.status n = COMPLETED)) as [Hc|Hc].
    + cbn [bind]. rewrite decide_False by (intros H; by apply H).
      apply IH.
      * intros n' Hn'. apply Hrun. by apply list_elem_of_further.
      * apply NoDup_app in Hnd as (Ha & Hdis & Hns). apply NoDup_cons in Hns as [_ Hns].
        apply NoDup_app. split_and!; [done| |done].
        intros k Hk Hk'. apply (Hdis k Hk). by apply list_elem_of_further.
    + rewrite decide_True by done.
      destruct (Hrun n) as [r Hr]; [apply list_elem_of_here|]. rewrite Hr. cbn [bind].
      rewrite dict_set_fresh.
      2:{ apply NoDup_app in Hnd as (_ & Hdis & _). intros Hin.
          apply (Hdis _ Hin). apply list_elem_of_here. }
      rewrite IH.
      * rewrite fmap_cons, <- app_assoc. cbn [app]. unfold transitive_count at 2.
        by rewrite Hr.
      * intros n' Hn'. apply Hrun. by apply list_elem_of_further.
      * unfold dict_keys. rewrite fmap_app, <- app_assoc. done.
Qed.

(** X12.  On a graph built by the public methods, with room for as many frames
    as the graph has nodes and two more, [get_critical_path] returns the
    nodes that are not completed with the most transitive dependents: at
    most ten, each a stored node that is not completed, no node twice, in
    the order of their counts, the largest first; a node that is left out
    has no more transitive dependents than any node returned. *)
Theorem get_critical_path_top_ten (g : RequirementGraph) (depth : nat) :
  built g →
  length (nodes g) + 2 ≤ depth →
  ∃ path,
    get_critical_path depth g = Ok path
    ∧ length path
      = min 10 (length (filter (fun n => Node.status n ≠ COMPLETED)
                          (dict_values (nodes g))))
    ∧ NoDup (Node.id <$> path)
    ∧ (∀ n, n ∈ path → n ∈ dict_values (nodes g) ∧ Node.status n ≠ COMPLETED)
    ∧ (∀ i j n m, i < j → path !! i = Some n → path !! j = Some m →
                  transitive_count depth g (Node.id m)
                  ≤ transitive_count depth g (Node.id n))
    ∧ (∀ n m, n ∈ path → m ∈ dict_values (nodes g) →
              Node.status m ≠ COMPLETED → m ∉ path →
              transitive_count depth g (Node.id m)
              ≤ transitive_count depth g (Node.id n)).
Proof.
  intros Hb Hdepth. pose proof (built_safe g Hb) as Hs.
  set (cand := filter (fun n => Node.status n ≠ COMPLETED) (dict_values (nodes g))).
  set (f := fun n : Node => (Node.id n, transitive_count depth g (Node.id n))).
  set (lt := fun a b : string * nat => b.2 <? a.2).
  assert (blocking_counts depth g = Ok (f <$> cand)) as Hcounts.
  { unfold blocking_counts. rewrite blocking_counts_loop; [done| |].
    - intros n _.
      destruct (transitive_dependents_reached g (Node.id n) depth Hb Hdepth)
        as (D & V & Hrun & _).
      by eexists.
    - cbn [dict_keys fmap list_fmap app]. rewrite node_ids_keys_safe by done.
      apply Hs. }
  destruct (Permutation_fmap_inv f (py_sorted lt (f <$> cand)) cand)
    as (cand' & Hsorted & Hperm).
  { apply py_sorted_Permutation. }
  assert (StronglySorted (fun a b => lt b a = false) (f <$> cand')) as Hss.
  { rewrite <- Hsorted.
    apply py_sorted_sorted.
    - intros a b. unfold lt. rewrite Nat.ltb_lt, Nat.ltb_ge. lia.
    - intros a b c. unfold lt. rewrite !Nat.ltb_ge. lia. }
  assert (∀ n, n ∈ cand' → n ∈ dict_values (nodes g) ∧ Node.status n ≠ COMPLETED)
    as Hcand'.
  { intros n Hn. rewrite <- Hperm in Hn. by apply list_elem_of_filter in Hn as [? ?]. }
  assert (∀ l : list Node, (∀ n, n ∈ l → n ∈ cand') →
               omap (fun x : string * nat => get_node g x.1) (f <$> l) = l) as Homap.
  { induction l as [|n l IH]; intros Hl; [done|].
    rewrite fmap_cons. cbn [omap list_omap f fst].
    rewrite get_node_value; [|done|apply Hcand', Hl, list_elem_of_here].
    f_equal. apply IH. intros n' Hn'. apply Hl. by apply list_elem_of_further. }
  assert (∀ i j n m, i < j → cand' !! i = Some n → cand' !! j = Some m →
                     transitive_count depth g (Node.id m)
                     ≤ transitive_count depth g (Node.id n)) as Horder.
  { intros i j n m Hij Hn Hm.
    pose proof (StronglySorted_lookup _ _ i j (f n) (f m) Hss Hij) as HR.
    rewrite !list_lookup_fmap, Hn, Hm in HR. specialize (HR eq_refl eq_refl).
    unfold lt, f in HR. cbn [snd] in HR. by apply Nat.ltb_ge in HR. }
  exists (take 10 cand'). split_and!.
  - unfold get_critical_path. rewrite Hcounts. cbn [bind]. fold lt.
    rewrite Hsorted.
    rewrite <- fmap_take, Homap; [done|]. intros n Hn. by eapply subseteq_take.
  - rewrite length_take. by rewrite <- Hperm.
  - eapply sublist_NoDup; [|apply (fmap_sublist Node.id), sublist_take].
    rewrite <- Hperm. unfold cand.
    eapply sublist_NoDup; [|apply (fmap_sublist Node.id), sublist_filter].
    rewrite node_ids_keys_safe by done. apply Hs.
  - intros n Hn%subseteq_take. by apply Hcand'.
  - intros i j n m Hij [Hn _]%lookup_take_Some [Hm _]%lookup_take_Some.
    by eapply Horder.
  - intros n m [i [Hn Hi]]%elem_of_take Hm Hst Hnot.
    assert (m ∈ cand') as [j Hj]%list_elem_of_lookup.
    { rewrite <- Hperm. by apply list_elem_of_filter. }
    destruct (decide (j < 10)) as [Hlt|Hge].
    + exfalso. apply Hnot. apply elem_of_take. by exists j.
    + apply (Horder i j); [lia|done|done].
Qed.

(** * The to-do generator *)

(** ** The sort keys *)

Lemma String_compare_refl s : String.compare s s = Eq.
Proof.
  induction s as [|c s IH]; [done|]. cbn. unfold Ascii.compare.
  by rewrite N.compare_refl.
Qed.

Lemma String_compare_lt_trans a b c :
  String.compare a b = Lt → String.compare b c = Lt → String.compare a c = Lt.
Proof.
  revert b c. induction a as [|x a IH]; intros [|y b] [|z c]; cbn; try done.
  unfold Ascii.compare.
  destruct (N.compare_spec (N_of_ascii x) (N_of_ascii y)) as [Hxy|Hxy|Hxy];
    destruct (N.compare_spec (N_of_ascii y) (N_of_ascii z)) as [Hyz|Hyz|Hyz];
    destruct (N.compare_spec (N_of_ascii x) (N_of_ascii z)) as [Hxz|Hxz|Hxz];
    try done; try lia.
  apply IH.
Qed.

Lemma String_ltb_asym a b : String.ltb a b = true → String.ltb b a = false.
Proof.
  unfold String.ltb. rewrite (String.compare_antisym b a).
  by destruct (String.compare a b).
Qed.

Lemma String_leb_trans a b c :
  String.ltb b a = false → String.ltb c b = false → String.ltb c a = false.
Proof.
  unfold String.ltb. intros Hba Hcb.
  destruct (String.compare c a) eqn:Hca; try done. exfalso.
  destruct (String.compare b a) eqn:Eba; try done.
  - apply String.compare_eq_iff in Eba as ->. by rewrite Hca in Hcb.
  - destruct (String.compare c b) eqn:Ecb; try done.
    + apply String.compare_eq_iff in Ecb as ->. congruence.
    + rewrite (String.compare_antisym b a) in Eba.
      rewrite (String.compare_antisym c b) in Ecb.
      destruct (String.compare a b) eqn:Eab; try done.
      destruct (String.compare b c) eqn:Ebc; try done.
      pose proof (String_compare_lt_trans a b c Eab Ebc) as Hac.
      rewrite (String.compare_antisym c a), Hac in Hca. done.
Qed.

Lemma todo_title_lt_asym a b : todo_title_lt a b = true → todo_title_lt b a = false.
Proof. apply String_ltb_asym. Qed.

Lemma todo_title_le_trans a b c :
  todo_title_lt b a = false → todo_title_lt c b = false → todo_title_lt c a = false.
Proof. apply String_leb_trans. Qed.

Lemma todo_key_lt_asym a b : todo_key_lt a b = true → todo_key_lt b a = false.
Proof.
  unfold todo_key_lt.
  destruct (Nat.ltb_spec (Priority_value (TodoItem.priority a))
              (Priority_value (TodoItem.priority b))) as [Hab|Hab];
    destruct (Nat.ltb_spec (Priority_value (TodoItem.priority b))
                (Priority_value (TodoItem.priority a))) as [Hba|Hba];
    cbn [orb]; try lia.
  - intros _. destruct (Nat.eqb_spec (Priority_value (TodoItem.priority b))
                          (Priority_value (TodoItem.priority a))); [lia|done].
  - intros [H _]%andb_true_iff. apply Nat.eqb_eq in H. lia.
  - intros [_ H]%andb_true_iff. apply String_ltb_asym in H. rewrite H.
    by rewrite andb_false_r.
Qed.

Lemma todo_key_le_trans a b c :
  todo_key_lt b a = false → todo_key_lt c b = false → todo_key_lt c a = false.
Proof.
  unfold todo_key_lt.
  set (pa := Priority_value (TodoItem.priority a)).
  set (pb := Priority_value (TodoItem.priority b)).
  set (pc := Priority_value (TodoItem.priority c)).
  intros [Hba Hba']%orb_false_iff [Hcb Hcb']%orb_false_iff.
  apply Nat.ltb_ge in Hba, Hcb. apply orb_false_iff. split.
  - apply Nat.ltb_ge. lia.
  - destruct (Nat.eqb_spec pc pa) as [Hca|Hca]; [|done]. cbn [andb].
    assert (pb = pa) as Hpb by lia. assert (pc = pb) as Hpc by lia.
    rewrite Hpb, Nat.eqb_refl in Hba'. rewrite Hpc, Nat.eqb_refl in Hcb'.
    cbn [andb] in *. by eapply String_leb_trans.
Qed.

Lemma Forall2_elem_functional {A B} (R : A → B → Prop) (l : list A) (items : list B) y :
  (∀ x y y', R x y → R x y' → y = y') →
  Forall2 R l items →
  y ∈ items ↔ ∃ x, x ∈ l ∧ R x y.
Proof.
  intros Hfun. induction 1 as [|x t l items Hx _ IH].
  - split; [by intros H; inv H|]. intros (x & Hx & _). by inv Hx.
  - rewrite elem_of_cons, IH. split.
    + intros [->|(x' & Hx' & H')].
      * exists x. split; [apply list_elem_of_here|done].
      * exists x'. split; [by apply list_elem_of_further|done].
    + intros (x' & [->|Hx']%elem_of_cons & H').
      * left. by eapply Hfun.
      * right. by exists x'.
Qed.

(** ** Priorities *)

Section todo.
Variable lower : string → string.

Lemma determine_priority_total g node :
  index_closed g → ∃ p, _determine_priority lower g node = Ok p ∧ p ≠ LOW.
Proof.
  intros Hc. unfold _determine_priority.
  destruct (existsb _ CRITICAL_KEYWORDS); [by eexists|].
  destruct (get_dependents_total g (Node.id node) Hc) as [ds Hds].
  destruct (get_incoming_edges_total g (Node.id node) Hc) as [es Hes].
  assert (∃ p, (let* dependents := get_dependents g (Node.id node) in
                if 3 <=? length dependents then Ok HIGH
                else
                  let* incoming_edges := get_incoming_edges g (Node.id node) in
                  if existsb (fun edge =>
                                bool_decide (EdgeType_value (Edge.type edge)
                                             = "conditional_on")) incoming_edges
                  then Ok MEDIUM else Ok MEDIUM) = Ok p ∧ p ≠ LOW) as Hrest.
  { rewrite Hds. cbn [bind]. destruct (3 <=? length ds); [by eexists|].
    rewrite Hes. cbn [bind]. destruct (existsb _ es); by eexists. }
  destruct (Node.metadata node !! "is_required") as [[| [|] | | |]|];
    destruct (Node.type node); try exact Hrest; by eexists.
Qed.

(** X13.  The rules of [_determine_priority] that come after the keywords
    apply in the order in which they are written: [is_required = True] in
    the metadata gives HIGH whatever the type, so also for a signature or a
    deadline, which are CRITICAL only without it; a document without it is
    HIGH.  No node gets the priority LOW. *)
Theorem priority_rules_in_order (g : RequirementGraph) (node : Node) :
  existsb
    (fun keyword =>
       str_contains keyword
         (lower (Node.title node +:+ Node.description node
                 +:+ default "" (Node.source_text node))))
    CRITICAL_KEYWORDS = false →
  (Node.metadata node !! "is_required" = Some (PBool true) →
   _determine_priority lower g node = Ok HIGH)
  ∧ (Node.metadata node !! "is_required" ≠ Some (PBool true) →
     Node.type node = SIGNATURE ∨ Node.type node = DEADLINE →
     _determine_priority lower g node = Ok CRITICAL)
  ∧ (Node.metadata node !! "is_required" ≠ Some (PBool true) →
     Node.type node = DOCUMENT →
     _determine_priority lower g node = Ok HIGH)
  ∧ (∀ p, _determine_priority lower g node = Ok p → p ≠ LOW).
Proof.
  intros Hkw. split_and!.
  - intros Hreq. unfold _determine_priority. by rewrite Hkw, Hreq.
  - intros Hreq Ht. unfold _determine_priority. rewrite Hkw.
    destruct (Node.metadata node !! "is_required") as [[| [|] | | |]|];
      try done; by destruct Ht as [-> | ->].
  - intros Hreq Ht. unfold _determine_priority. rewrite Hkw, Ht.
    by destruct (Node.metadata node !! "is_required") as [[| [|] | | |]|].
  - intros p. unfold _determine_priority. rewrite Hkw.
    assert (∀ r : result Priority, r = Ok p → (∀ q, r = Ok q → q ≠ LOW) → p ≠ LOW)
      as Hgen by (intros r Hr Hq; by apply Hq).
    destruct (Node.metadata node !! "is_required") as [[| [|] | | |]|];
      destruct (Node.type node); try (by intros [= <-]).
    all: intros Hp; eapply Hgen; [exact Hp|]; intros q;
      destruct (get_dependents g (Node.id node)) as [ds|]; [|done]; cbn [bind];
      destruct (3 <=? length ds); [by intros [= <-]|];
      destruct (get_incoming_edges g (Node.id node)) as [es|]; [|done]; cbn [bind];
      destruct (existsb _ es); by intros [= <-].
Qed.

(** ** To-do items *)

Lemma node_to_todo_total g node :
  index_closed g →
  ∃ priority deps dependents,
    _determine_priority lower g node = Ok priority
    ∧ get_dependencies g (Node.id node) = Ok deps
    ∧ get_dependents g (Node.id node) = Ok dependents
    ∧ _node_to_todo lower g node
      = Ok (TodoItem.mk (Node.id node) (Node.title node) (Node.description node)
              priority (Node.status node) (category_of (Node.type node))
              (Node.source_document node) (Node.deadline node)
              (Node.title <$> filter (fun dep => Node.status dep ≠ COMPLETED) deps)
              (Node.title <$> filter (fun dep => Node.status dep ≠ COMPLETED)
                                dependents)
              (Node.id node) (Node.tags node)).
Proof.
  intros Hc.
  destruct (determine_priority_total g node Hc) as (p & Hp & _).
  destruct (get_dependencies_total g (Node.id node) Hc) as [deps Hdeps].
  destruct (get_dependents_total g (Node.id node) Hc) as [ds Hds].
  exists p, deps, ds. split_and!; try done.
  unfold _node_to_todo, todo_blocked_by, todo_blocks.
  rewrite Hp, Hdeps, Hds. done.
Qed.

Lemma node_to_todo_fields g node todo :
  _node_to_todo lower g node = Ok todo →
  TodoItem.node_id todo = Node.id node
  ∧ TodoItem.id todo = Node.id node
  ∧ TodoItem.title todo = Node.title node
  ∧ TodoItem.status todo = Node.status node
  ∧ TodoItem.category todo = category_of (Node.type node)
  ∧ _determine_priority lower g node = Ok (TodoItem.priority todo)
  ∧ todo_blocked_by g node = Ok (TodoItem.blocked_by todo).
Proof.
  unfold _node_to_todo.
  intros (p & Hp & (bb & Hbb & (bl & Hbl & [= <-])%bind_Ok)%bind_Ok)%bind_Ok.
  done.
Qed.

Lemma blocked_by_nil g node todo :
  _node_to_todo lower g node = Ok todo →
  TodoItem.blocked_by todo = [] ↔ deps_all_completed g (Node.id node) = true.
Proof.
  intros (_ & _ & _ & _ & _ & _ & Hbb)%node_to_todo_fields.
  unfold todo_blocked_by in Hbb. unfold deps_all_completed.
  destruct (get_dependencies g (Node.id node)) as [deps|]; [|done].
  cbn [bind] in Hbb. injection Hbb as <-.
  induction deps as [|d deps IH]; [done|]. rewrite filter_cons. cbn [forallb].
  destruct (decide (Node.status d ≠ COMPLETED)) as [Hd|Hd].
  - rewrite fmap_cons. rewrite bool_decide_eq_false_2 by done. done.
  - rewrite bool_decide_eq_true_2 by (by destruct (decide (Node.status d = COMPLETED))).
    exact IH.
Qed.

(** A loop that turns the nodes it keeps into to-do items. *)
Lemma todo_loop g (keep : Node → TodoItem → bool)
    (body : list TodoItem → Node → result (list TodoItem)) (ns : list Node) acc :
  index_closed g →
  (∀ acc node,
     body acc node
     = let* todo := _node_to_todo lower g node in
       Ok (if keep node todo then acc ++ [todo] else acc)) →
  ∃ items,
    for_each body acc ns = Ok (acc ++ items)
    ∧ Forall2 (fun node todo => _node_to_todo lower g node = Ok todo)
        (filter (fun node => match _node_to_todo lower g node with
                             | Ok todo => keep node todo
                             | Raise _ => false
                             end = true) ns) items.
Proof.
  intros Hc Hbody. revert acc. induction ns as [|n ns IH]; intros acc.
  - exists []. split; [by rewrite app_nil_r|]. constructor.
  - cbn [for_each]. rewrite Hbody, filter_cons.
    destruct (node_to_todo_total g n Hc) as (p & deps & ds & _ & _ & _ & Htodo).
    rewrite Htodo. cbn [bind].
    set (todo := TodoItem.mk _ _ _ _ _ _ _ _ _ _ _ _) in *.
    destruct (keep n todo) eqn:Hkeep.
    + rewrite decide_True by done.
      destruct (IH (acc ++ [todo])) as (items & -> & Hitems).
      exists (todo :: items). split; [by rewrite <- app_assoc|].
      by constructor.
    + rewrite decide_False by done.
      apply IH.
Qed.

Lemma get_actionable_now_completed_only_spec (g : RequirementGraph) :
  built g →
  ∃ items ready,
    get_actionable_now lower g = Ok items
    ∧ ready = filter (fun n => is_open_status (Node.status n)
                               && deps_all_completed g (Node.id n) = true)
                (dict_values (nodes g))
    ∧ TodoItem.node_id <$> items ≡ₚ Node.id <$> ready
    ∧ (∀ todo, todo ∈ items ↔
               ∃ n, n ∈ ready ∧ _node_to_todo lower g n = Ok todo)
    ∧ (∀ todo, todo ∈ items → TodoItem.blocked_by todo = [])
    ∧ StronglySorted (fun a b => todo_key_lt b a = false) items
    ∧ (∀ n d actionable,
         n ∈ dict_values (nodes g) →
         get_dependencies g (Node.id n) = Ok [d] →
         Node.status d = NOT_APPLICABLE →
         get_actionable_items g = Ok actionable →
         (n ∈ actionable ↔ is_open_status (Node.status n) = true)
         ∧ ∀ todo, todo ∈ items → TodoItem.node_id todo ≠ Node.id n).
Proof.
  intros Hs%built_safe. pose proof (safe_index_closed g Hs) as Hc.
  unfold get_actionable_now, get_actionable_items.
  rewrite actionable_loop_filter by done. cbn [bind].
  set (acts := filter (fun n => is_actionable g n = true) (dict_values (nodes g))).
  destruct (todo_loop g
              (fun _ todo => match TodoItem.blocked_by todo with
                             | [] => true | _ :: _ => false end)
              (fun (actionable : list TodoItem) (node : Node) =>
                 let* todo := _node_to_todo lower g node in
                 Ok (match TodoItem.blocked_by todo with
                     | [] => actionable ++ [todo]
                     | _ :: _ => actionable
                     end)) acts [] Hc) as (items0 & Hloop & Hitems0).
  { intros acc node. destruct (_node_to_todo lower g node) as [todo|]; [|done].
    cbn [bind]. by destruct (TodoItem.blocked_by todo). }
  rewrite Hloop. cbn [bind app].
  set (ready := filter (fun n => is_open_status (Node.status n)
                                 && deps_all_completed g (Node.id n) = true)
                  (dict_values (nodes g))).
  assert (filter (fun node => match _node_to_todo lower g node with
                              | Ok todo => match TodoItem.blocked_by todo with
                                           | [] => true | _ :: _ => false end
                              | Raise _ => false
                              end = true) acts = ready) as Hready.
  { unfold acts, ready. rewrite list_filter_filter. apply list_filter_iff.
    intros n. unfold is_actionable.
    destruct (node_to_todo_total g n Hc) as (p & deps & ds & _ & _ & _ & Htodo).
    pose proof (blocked_by_nil g n _ Htodo) as Hnil. rewrite Htodo.
    set (todo := TodoItem.mk _ _ _ _ _ _ _ _ _ _ _ _) in *.
    assert (deps_all_completed g (Node.id n) = true → deps_all_done g (Node.id n) = true)
      as Hdone.
    { unfold deps_all_completed, deps_all_done.
      destruct (get_dependencies g (Node.id n)) as [l|]; [|done].
      rewrite !forallb_forall. intros Hall d Hd. specialize (Hall d Hd).
      apply bool_decide_eq_true in Hall. by rewrite Hall. }
    rewrite !andb_true_iff. split.
    - intros [Hb [Ho _]]. split; [done|]. apply Hnil.
      by destruct (TodoItem.blocked_by todo).
    - intros [Ho Hd]. apply Hnil in Hd as Hd'. rewrite Hd'. auto. }
  rewrite Hready in Hitems0.
  assert (TodoItem.node_id <$> items0 = Node.id <$> ready) as Hids.
  { clear -Hitems0. induction Hitems0 as [|n todo ns items Hn _ IH]; [done|].
    rewrite !fmap_cons, IH. f_equal. by apply node_to_todo_fields in Hn as [-> _]. }
  assert (∀ todo, todo ∈ items0 ↔ ∃ n, n ∈ ready ∧ _node_to_todo lower g n = Ok todo)
    as Hmem.
  { clear -Hitems0. intros todo.
    induction Hitems0 as [|n t ns items Hn _ IH].
    - split; [by intros H; inv H|]. intros (n & Hn & _). by inv Hn.
    - rewrite elem_of_cons, IH. split.
      + intros [->|(n' & Hn' & Ht)].
        * exists n. split; [apply list_elem_of_here|done].
        * exists n'. split; [by apply list_elem_of_further|done].
      + intros (n' & [->|Hn']%elem_of_cons & Ht).
        * left. congruence.
        * right. by exists n'. }
  assert (∀ todo, todo ∈ items0 → TodoItem.blocked_by todo = []) as Hnil.
  { intros todo (n & Hn & Ht)%Hmem. apply (blocked_by_nil g n todo Ht).
    unfold ready in Hn. apply list_elem_of_filter in Hn as [Hn _].
    by apply andb_true_iff in Hn as [_ Hn]. }
  exists (py_sorted todo_key_lt items0), ready. split_and!.
  - done.
  - done.
  - by rewrite py_sorted_Permutation, Hids.
  - intros todo. by rewrite py_sorted_elem.
  - intros todo Ht%py_sorted_elem. by apply Hnil.
  - apply py_sorted_sorted; [apply todo_key_lt_asym|apply todo_key_le_trans].
  - intros n d actionable Hn Hdeps Hd [= <-]. split.
    + unfold acts. rewrite list_elem_of_filter. unfold is_actionable, deps_all_done.
      rewrite Hdeps. cbn [forallb]. rewrite Hd. cbn [is_done_status andb].
      rewrite andb_true_r. tauto.
    + intros todo (n' & Hn' & Ht)%py_sorted_elem%Hmem Hid.
      apply node_to_todo_fields in Ht as (Hid' & _). rewrite Hid' in Hid.
      unfold ready in Hn'. apply list_elem_of_filter in Hn' as [Hready' Hn'].
      apply andb_true_iff in Hready' as [_ Hcomp].
      unfold deps_all_completed in Hcomp. rewrite Hid, Hdeps in Hcomp.
      cbn [forallb] in Hcomp. rewrite Hd in Hcomp. done.
Qed.

(** X14.  [get_actionable_now] is stricter than [get_actionable_items]: it
    returns the to-do items of the nodes whose status is [not_started] or
    [in_progress] and whose every dependency is [completed]; a dependency
    that is [not_applicable] keeps the node out of it, though not out of
    [get_actionable_items].  The items are in the order of priority and
    then of title. *)
Theorem get_actionable_now_completed_only (g : RequirementGraph) :
  built g →
  ∃ items ready,
    get_actionable_now lower g = Ok items
    ∧ ready = filter (fun n => is_open_status (Node.status n)
                               && deps_all_completed g (Node.id n) = true)
                (dict_values (nodes g))
    ∧ TodoItem.node_id <$> items ≡ₚ Node.id <$> ready
    ∧ (∀ todo, todo ∈ items ↔
               ∃ n, n ∈ ready ∧ _node_to_todo lower g n = Ok todo)
    ∧ (∀ todo, todo ∈ items → TodoItem.blocked_by todo = [])
    ∧ StronglySorted (fun a b => todo_key_lt b a = false) items
    ∧ (∀ n d actionable,
         n ∈ dict_values (nodes g) →
         get_dependencies g (Node.id n) = Ok [d] →
         Node.status d = NOT_APPLICABLE →
         get_actionable_items g = Ok actionable →
         (n ∈ actionable ↔ is_open_status (Node.status n) = true)
         ∧ ∀ todo, todo ∈ items → TodoItem.node_id todo ≠ Node.id n).
Proof. exact (get_actionable_now_completed_only_spec g). Qed.

Lemma critical_items_are_open_spec (g : RequirementGraph) :
  built g →
  ∃ items,
    get_critical_items lower g = Ok items
    ∧ (∀ todo, todo ∈ items ↔
               ∃ n, n ∈ dict_values (nodes g)
                    ∧ Node.status n ≠ COMPLETED
                    ∧ Node.status n ≠ NOT_APPLICABLE
                    ∧ _node_to_todo lower g n = Ok todo
                    ∧ TodoItem.priority todo = CRITICAL)
    ∧ (∀ todo, todo ∈ items →
               TodoItem.priority todo = CRITICAL
               ∧ TodoItem.status todo ≠ COMPLETED
               ∧ TodoItem.status todo ≠ NOT_APPLICABLE)
    ∧ filter (fun c => TodoItem.status c = COMPLETED) items = []
    ∧ StronglySorted (fun a b => todo_title_lt b a = false) items.
Proof.
  intros Hs%built_safe. pose proof (safe_index_closed g Hs) as Hc.
  unfold get_critical_items.
  set (keep := fun (node : Node) (todo : TodoItem) =>
                 bool_decide (Node.status node ≠ COMPLETED)
                 && bool_decide (Node.status node ≠ NOT_APPLICABLE)
                 && bool_decide (TodoItem.priority todo = CRITICAL)).
  destruct (todo_loop g keep
              (fun (critical : list TodoItem) (node : Node) =>
                 if decide (Node.status node = COMPLETED) then Ok critical
                 else if decide (Node.status node = NOT_APPLICABLE) then Ok critical
                 else
                   let* todo := _node_to_todo lower g node in
                   Ok (if decide (TodoItem.priority todo = CRITICAL)
                       then critical ++ [todo] else critical))
              (dict_values (nodes g)) [] Hc) as (items0 & Hloop & Hitems0).
  { intros acc node. unfold keep.
    destruct (node_to_todo_total g node Hc) as (p & deps & ds & _ & _ & _ & ->).
    cbn [bind]. destruct (decide (Node.status node = COMPLETED)) as [Hcm|Hcm].
    { by rewrite bool_decide_eq_false_2 by (intros H; by apply H). }
    rewrite bool_decide_eq_true_2 by done.
    destruct (decide (Node.status node = NOT_APPLICABLE)) as [Hna|Hna].
    { by rewrite bool_decide_eq_false_2 by (intros H; by apply H). }
    rewrite bool_decide_eq_true_2 by done. cbn [andb].
    by case_decide; [rewrite bool_decide_eq_true_2|rewrite bool_decide_eq_false_2]. }
  rewrite Hloop. cbn [bind app].
  assert (∀ todo, todo ∈ items0 ↔
                  ∃ n, n ∈ dict_values (nodes g)
                       ∧ Node.status n ≠ COMPLETED
                       ∧ Node.status n ≠ NOT_APPLICABLE
                       ∧ _node_to_todo lower g n = Ok todo
                       ∧ TodoItem.priority todo = CRITICAL) as Hmem.
  { intros todo.
    assert (∀ (x : Node) (y y' : TodoItem),
              _node_to_todo lower g x = Ok y → _node_to_todo lower g x = Ok y' → y = y')
      as Hfun by (intros; congruence).
    rewrite (Forall2_elem_functional _ _ _ todo Hfun Hitems0).
    split.
    - intros (n & [Hkeep Hn]%list_elem_of_filter & Ht). rewrite Ht in Hkeep.
      unfold keep in Hkeep.
      apply andb_true_iff in Hkeep as [[Hcm Hna]%andb_true_iff Hp].
      apply bool_decide_eq_true in Hcm, Hna, Hp. by exists n.
    - intros (n & Hn & Hcm & Hna & Ht & Hp). exists n. split; [|done].
      apply list_elem_of_filter. split; [|done]. rewrite Ht. unfold keep.
      by rewrite !bool_decide_eq_true_2. }
  assert (∀ todo, todo ∈ items0 →
                  TodoItem.priority todo = CRITICAL
                  ∧ TodoItem.status todo ≠ COMPLETED
                  ∧ TodoItem.status todo ≠ NOT_APPLICABLE) as Hopen.
  { intros todo (n & _ & Hcm & Hna & Ht & Hp)%Hmem.
    apply node_to_todo_fields in Ht as (_ & _ & _ & -> & _). done. }
  exists (py_sorted todo_title_lt items0). split_and!.
  - done.
  - intros todo. by rewrite py_sorted_elem.
  - intros todo Ht%py_sorted_elem. by apply Hopen.
  - assert (∀ l : list TodoItem,
              (∀ t, t ∈ l → TodoItem.status t ≠ COMPLETED) →
              filter (fun c => TodoItem.status c = COMPLETED) l = []) as Hnil.
    { induction l as [|t l IH]; intros Hl; [done|].
      rewrite filter_cons, decide_False by apply Hl, list_elem_of_here.
      apply IH. intros t' Ht'. apply Hl. by apply list_elem_of_further. }
    apply Hnil. intros todo Ht%py_sorted_elem%Hopen. tauto.
  - apply py_sorted_sorted; [apply todo_title_lt_asym|apply todo_title_le_trans].
Qed.

(** X15.  [get_critical_items] returns the to-do items of priority CRITICAL
    of the nodes that are neither completed nor not applicable, in the
    order of their titles: no item it returns is completed. *)
Theorem critical_items_are_open (g : RequirementGraph) :
  built g →
  ∃ items,
    get_critical_items lower g = Ok items
    ∧ (∀ todo, todo ∈ items ↔
               ∃ n, n ∈ dict_values (nodes g)
                    ∧ Node.status n ≠ COMPLETED
                    ∧ Node.status n ≠ NOT_APPLICABLE
                    ∧ _node_to_todo lower g n = Ok todo
                    ∧ TodoItem.priority todo = CRITICAL)
    ∧ (∀ todo, todo ∈ items →
               TodoItem.priority todo = CRITICAL
               ∧ TodoItem.status todo ≠ COMPLETED
               ∧ TodoItem.status todo ≠ NOT_APPLICABLE)
    ∧ filter (fun c => TodoItem.status c = COMPLETED) items = []
    ∧ StronglySorted (fun a b => todo_title_lt b a = false) items.
Proof. exact (critical_items_are_open_spec g). Qed.

End todo.

(** * [generate] *)

Lemma category_of_in_order t : category_of t ∈ category_order.
Proof.
  destruct t; cbv [category_of category_order];
    cbn; repeat first [apply list_elem_of_here | apply list_elem_of_further].
Qed.

Lemma category_of_not_other t : category_of t ≠ "Other".
Proof. by destruct t. Qed.

Lemma category_order_NoDup : NoDup category_order.
Proof.
  unfold category_order.
  repeat (apply NoDup_cons; split;
          [intros Hin; repeat (apply elem_of_cons in Hin as [Hin|Hin]; [done|]);
           by inv Hin|]).
  constructor.
Qed.

Lemma sum_list_indicator (names : list string) (a : string → nat) (k0 : string) :
  NoDup names → k0 ∈ names →
  sum_list ((fun k => a k + (if decide (k0 = k) then 1 else 0)) <$> names)
  = S (sum_list (a <$> names)).
Proof.
  induction names as [|k names IH]; intros Hnd Hin; [by inv Hin|].
  apply NoDup_cons in Hnd as [Hk Hnd]. rewrite !fmap_cons. cbn [sum_list].
  destruct (decide (k0 = k)) as [->|Hne].
  - assert (sum_list ((fun k' => a k' + (if decide (k = k') then 1 else 0)) <$> names)
            = sum_list (a <$> names)) as ->; [|unfold id; lia].
    f_equal. apply list_fmap_ext. intros i k' Hk'.
    rewrite decide_False; [lia|]. intros <-. apply Hk.
    by eapply list_elem_of_lookup_2.
  - apply elem_of_cons in Hin as [?|Hin]; [done|]. rewrite IH by done. unfold id. lia.
Qed.

(** The items of a list are counted once under the keys they fall
    under. *)
Lemma count_by_key {A} (P : A → bool) (f : A → string) (names : list string)
    (l : list A) :
  NoDup names →
  (∀ x, x ∈ l → P x = true → f x ∈ names) →
  sum_list ((fun k => length (filter (fun x => P x = true ∧ f x = k) l)) <$> names)
  = length (filter (fun x => P x = true) l).
Proof.
  intros Hnd. induction l as [|x l IH]; intros Hin.
  - cbn. clear. induction names as [|k names IHn]; [done|]. cbn. exact IHn.
  - rewrite filter_cons. destruct (decide (P x = true)) as [HP|HP].
    + cbn [length]. rewrite <- IH.
      2:{ intros y Hy. apply Hin. by apply list_elem_of_further. }
      rewrite <- (sum_list_indicator names _ (f x)); [|done|].
      2:{ apply Hin; [apply list_elem_of_here|done]. }
      f_equal. apply list_fmap_ext. intros i k _. rewrite filter_cons.
      destruct (decide (f x = k)) as [Hk|Hk].
      * rewrite decide_True by done. cbn [length]. lia.
      * rewrite decide_False by tauto. lia.
    + rewrite <- IH.
      2:{ intros y Hy. apply Hin. by apply list_elem_of_further. }
      f_equal. apply list_fmap_ext. intros i k _. rewrite filter_cons.
      by rewrite decide_False by tauto.
Qed.

Section generate.
Variable lower : string → string.

Lemma listed_under_snoc k ns n :
  listed_under k (ns ++ [n])
  = listed_under k ns
    ++ (if decide (todo_listed n = true ∧ category_of (Node.type n) = k)
        then [n] else []).
Proof. unfold listed_under. rewrite filter_app, filter_cons. by case_decide. Qed.

Lemma generate_step_inv g ns cats n :
  index_closed g →
  generate_inv lower g ns cats →
  ∃ cats', generate_step lower g cats n = Ok cats'
           ∧ generate_inv lower g (ns ++ [n]) cats'.
Proof.
  intros Hc (Hnd & Hsome & Hnone). unfold generate_step.
  destruct (decide (Node.type n = CONDITION ∧ Node.status n = NOT_APPLICABLE))
    as [Hskip|Hskip].
  - exists cats. split; [done|].
    assert (todo_listed n = false) as Hl.
    { unfold todo_listed. by rewrite bool_decide_eq_true_2. }
    assert (∀ k, listed_under k (ns ++ [n]) = listed_under k ns) as Heq.
    { intros k. rewrite listed_under_snoc, decide_False, app_nil_r; [done|].
      rewrite Hl. by intros [? _]. }
    split_and!; [done| |].
    + intros k c Hk. rewrite Heq. by apply Hsome.
    + intros k Hk. rewrite Heq. by apply Hnone.
  - assert (todo_listed n = true) as Hl.
    { unfold todo_listed. by rewrite bool_decide_eq_false_2. }
    destruct (node_to_todo_total lower g n Hc) as (p & deps & ds & _ & _ & _ & Htodo).
    rewrite Htodo. cbn [bind].
    set (todo := TodoItem.mk _ _ _ _ _ _ _ _ _ _ _ _) in *.
    set (k0 := category_of (Node.type n)).
    set (fresh := mkTodoCategory k0 ("Items of type: " +:+ NodeType_value (Node.type n)) []).
    set (cats1 := match dict_get k0 cats with
                  | Some _ => cats
                  | None => dict_set k0 fresh cats
                  end).
    assert (NoDup (dict_keys cats1)) as Hnd1.
    { unfold cats1. destruct (dict_get k0 cats); [done|]. by apply dict_set_NoDup. }
    assert (∀ k, dict_get k cats1
                 = if decide (k0 = k)
                   then Some (default fresh (dict_get k0 cats))
                   else dict_get k cats) as Hget1.
    { intros k. unfold cats1. destruct (dict_get k0 cats) as [c0|] eqn:Hk0.
      - case_decide; [by subst|done].
      - by rewrite dict_get_set. }
    eexists. split; [done|]. split_and!.
    + by rewrite dict_keys_alter.
    + intros k c. rewrite dict_get_alter, Hget1, listed_under_snoc.
      destruct (decide (k0 = k)) as [<-|Hne].
      * rewrite decide_True by done.
        destruct (dict_get k0 cats) as [c0|] eqn:Hk0;
          cbn [from_option id fmap option_fmap option_map];
          intros [= <-]; cbn [category_append cat_name cat_items];
          rewrite (decide_True (P := todo_listed n = true
                                     ∧ category_of (Node.type n) = k0)) by done.
        -- destruct (Hsome k0 c0 Hk0) as (Hname & Hne & Hitems).
           split_and!; [done|by destruct (cat_items c0)|].
           apply Forall2_app; [done|]. by repeat constructor.
        -- rewrite (Hnone k0 Hk0). cbn [fresh cat_name cat_items app].
           split_and!; [done|done|]. by repeat constructor.
      * rewrite Hget1, (decide_False (P := k0 = k)) by done.
        rewrite (decide_False (P := todo_listed n = true
                                    ∧ category_of (Node.type n) = k)) by tauto.
        rewrite app_nil_r. apply Hsome.
    + intros k. rewrite dict_get_alter, Hget1, listed_under_snoc.
      destruct (decide (k0 = k)) as [<-|Hne]; [by rewrite decide_True by done|].
      rewrite ?Hget1, ?(decide_False (P := k0 = k)) by done.
      rewrite (decide_False (P := todo_listed n = true
                                  ∧ category_of (Node.type n) = k)) by tauto.
      rewrite app_nil_r. apply Hnone.
Qed.

Lemma generate_loop_inv g done rest cats :
  index_closed g →
  generate_inv lower g done cats →
  ∃ cats', for_each (generate_step lower g) cats rest = Ok cats'
           ∧ generate_inv lower g (done ++ rest) cats'.
Proof.
  intros Hc. revert done cats. induction rest as [|n rest IH]; intros done cats Hinv.
  - exists cats. by rewrite app_nil_r.
  - cbn [for_each].
    destruct (generate_step_inv g done cats n Hc Hinv) as (cats1 & -> & Hinv1).
    cbn [bind]. destruct (IH (done ++ [n]) cats1 Hinv1) as (cats' & Hrun & Hinv').
    exists cats'. split; [done|]. by rewrite <- app_assoc in Hinv'.
Qed.

Lemma generate_inv_listed g ns cats k c :
  generate_inv lower g ns cats → dict_get k cats = Some c →
  ∃ n, n ∈ ns ∧ todo_listed n = true ∧ category_of (Node.type n) = k.
Proof.
  intros (_ & Hsome & _) Hk. destruct (Hsome k c Hk) as (_ & Hne & Hitems).
  destruct (listed_under k ns) as [|n l] eqn:Hl.
  - apply Forall2_nil_inv_l in Hitems. done.
  - assert (n ∈ listed_under k ns) as Hn by (rewrite Hl; apply list_elem_of_here).
    unfold listed_under in Hn. apply list_elem_of_filter in Hn as [[? ?] ?].
    by exists n.
Qed.

Lemma generate_result g :
  index_closed g →
  ∃ cats0,
    generate_inv lower g (dict_values (nodes g)) cats0
    ∧ generate lower g
      = Ok (omap (fun name => category_sort <$> dict_get name cats0) category_order).
Proof.
  intros Hc.
  destruct (generate_loop_inv g [] (dict_values (nodes g)) [] Hc) as (cats0 & Hrun & Hinv).
  { split_and!; [constructor|done|done]. }
  cbn [app] in Hinv. exists cats0. split; [done|].
  unfold generate. rewrite Hrun. cbn [bind].
  change ((fun kv : string * TodoCategory => (kv.1, category_sort kv.2)) <$> cats0)
    with (dict_map (fun _ c => category_sort c) cats0).
  match goal with
  | |- context [?front ++ ?rest.*2] => assert (rest = []) as ->
  end.
  { assert (∀ l : list (string * TodoCategory),
              (∀ kv, kv ∈ l → kv.1 ∈ category_order) →
              filter (fun kv : string * TodoCategory => kv.1 ∉ category_order) l = [])
      as Hnil.
    { induction l as [|kv l IH]; intros Hl; [done|].
      rewrite filter_cons, decide_False.
      - apply IH. intros kv' Hkv'. apply Hl. by apply list_elem_of_further.
      - intros Hnot. apply Hnot, Hl, list_elem_of_here. }
    apply Hnil. intros [k c] Hkc. cbn [fst].
    assert (k ∈ dict_keys cats0) as Hk.
    { rewrite <- (dict_keys_map (fun _ c => category_sort c)).
      unfold dict_keys. apply list_elem_of_fmap. by exists (k, c). }
    apply dict_get_is_Some_keys in Hk as [c0 Hc0].
    destruct (generate_inv_listed g _ cats0 k c0 Hinv Hc0) as (n & _ & _ & <-).
    apply category_of_in_order. }
  rewrite app_nil_r. f_equal.
  induction category_order as [|name names IH]; [done|].
  cbn [omap list_omap]. by rewrite dict_get_map, IH.
Qed.

Lemma omap_names_sublist (F : string → option TodoCategory) (names : list string) :
  (∀ name c, F name = Some c → cat_name c = name) →
  (cat_name <$> omap F names) `sublist_of` names.
Proof.
  intros HF. induction names as [|k names IH]; [constructor|].
  cbn [omap list_omap]. destruct (F k) as [c|] eqn:Hk.
  - rewrite fmap_cons, (HF k c Hk). by constructor.
  - by constructor.
Qed.

Lemma omap_sum (F : string → option TodoCategory) (count : TodoCategory → nat)
    (a : string → nat) (names : list string) :
  (∀ name, a name = match F name with Some c => count c | None => 0 end) →
  sum_list (count <$> omap F names) = sum_list (a <$> names).
Proof.
  intros Ha. induction names as [|k names IH]; [done|].
  cbn [omap list_omap]. rewrite fmap_cons. cbn [sum_list]. specialize (Ha k).
  destruct (F k) as [c|]; rewrite Ha.
  - rewrite fmap_cons. cbn [sum_list]. by rewrite IH.
  - by rewrite IH.
Qed.

Lemma Forall2_todo_completed g (ns : list Node) (items : list TodoItem) :
  Forall2 (fun n t => _node_to_todo lower g n = Ok t) ns items →
  length (filter (fun i => TodoItem.status i = COMPLETED) items)
  = length (filter (fun n => Node.status n = COMPLETED) ns).
Proof.
  induction 1 as [|n t ns items Hn _ IH]; [done|].
  rewrite !filter_cons.
  apply node_to_todo_fields in Hn as (_ & _ & _ & -> & _).
  case_decide; cbn [length]; by rewrite IH.
Qed.

Lemma generate_groups_by_type_spec (g : RequirementGraph) :
  built g →
  ∃ categories,
    generate lower g = Ok categories
    ∧ ((cat_name <$> categories) `sublist_of` category_order)
    ∧ ("Other" ∉ cat_name <$> categories)
    ∧ (∀ n, n ∈ dict_values (nodes g) → todo_listed n = true →
            category_of (Node.type n) ∈ cat_name <$> categories)
    ∧ (∀ c, c ∈ categories →
            cat_items c ≠ []
            ∧ StronglySorted (fun a b => todo_key_lt b a = false) (cat_items c)
            ∧ ∃ items,
                Forall2 (fun n t => _node_to_todo lower g n = Ok t)
                  (listed_under (cat_name c) (dict_values (nodes g))) items
                ∧ cat_items c = py_sorted todo_key_lt items)
    ∧ sum_list (total_count <$> categories)
      = length (filter (fun n => todo_listed n = true) (dict_values (nodes g)))
    ∧ sum_list (completed_count <$> categories)
      = length (get_nodes_by_status g COMPLETED).
Proof.
  intros Hs%built_safe. pose proof (safe_index_closed g Hs) as Hc.
  destruct (generate_result g Hc) as (cats0 & Hinv & Hgen).
  set (F := fun name => category_sort <$> dict_get name cats0) in *.
  assert (∀ name c, F name = Some c →
            cat_name c = name
            ∧ ∃ c0, dict_get name cats0 = Some c0 ∧ c = category_sort c0) as HF.
  { intros name c. unfold F. destruct (dict_get name cats0) as [c0|] eqn:Hc0; [|done].
    intros [= <-]. split; [|by exists c0].
    destruct Hinv as (_ & Hsome & _). by destruct (Hsome name c0 Hc0) as (? & _). }
  exists (omap F category_order). split_and!.
  - done.
  - apply omap_names_sublist. intros name c Hn. by apply HF.
  - intros (c & Hname & (name & Hin & Hc')%list_elem_of_omap)%list_elem_of_fmap.
    destruct (HF name c Hc') as (Hn & c0 & Hc0 & _).
    destruct (generate_inv_listed g _ cats0 name c0 Hinv Hc0) as (n & _ & _ & Hcat).
    apply (category_of_not_other (Node.type n)). congruence.
  - intros n Hn Hl. set (k := category_of (Node.type n)).
    destruct (dict_get k cats0) as [c0|] eqn:Hc0.
    + apply list_elem_of_fmap. exists (category_sort c0). split.
      * destruct Hinv as (_ & Hsome & _). by destruct (Hsome k c0 Hc0) as (<- & _).
      * apply list_elem_of_omap. exists k. split; [apply category_of_in_order|].
        unfold F. by rewrite Hc0.
    + exfalso. destruct Hinv as (_ & _ & Hnone). specialize (Hnone k Hc0).
      assert (n ∈ listed_under k (dict_values (nodes g))) as Hin.
      { unfold listed_under. by apply list_elem_of_filter. }
      rewrite Hnone in Hin. by inv Hin.
  - intros c (name & _ & Hc')%list_elem_of_omap.
    destruct (HF name c Hc') as (Hn & c0 & Hc0 & ->).
    destruct Hinv as (_ & Hsome & _). destruct (Hsome name c0 Hc0) as (Hn0 & Hne & Hitems).
    cbn [category_sort cat_items cat_name]. split_and!.
    + intros Hnil. apply Hne. apply length_zero_iff_nil.
      by rewrite <- (py_sorted_length todo_key_lt), Hnil.
    + apply py_sorted_sorted; [apply todo_key_lt_asym|apply todo_key_le_trans].
    + exists (cat_items c0). split; [by rewrite Hn0|done].
  - rewrite (omap_sum F total_count
               (fun k => length (listed_under k (dict_values (nodes g))))).
    + apply (count_by_key todo_listed (fun n => category_of (Node.type n))).
      * apply category_order_NoDup.
      * intros n _ _. apply category_of_in_order.
    + intros name. unfold F. destruct Hinv as (_ & Hsome & Hnone).
      destruct (dict_get name cats0) as [c0|] eqn:Hc0.
      * destruct (Hsome name c0 Hc0) as (_ & _ & Hitems).
        cbn [fmap option_fmap option_map]. unfold total_count, category_sort.
        cbn [cat_items]. rewrite py_sorted_length. by eapply Forall2_length.
      * by rewrite (Hnone name Hc0).
  - rewrite (omap_sum F completed_count
               (fun k => length (filter (fun n => Node.status n = COMPLETED)
                                   (listed_under k (dict_values (nodes g)))))).
    + set (P := fun n => todo_listed n && bool_decide (Node.status n = COMPLETED)).
      assert (∀ k, filter (fun n => Node.status n = COMPLETED)
                     (listed_under k (dict_values (nodes g)))
                   = filter (fun n => P n = true ∧ category_of (Node.type n) = k)
                       (dict_values (nodes g))) as Hk.
      { intros k. unfold listed_under. rewrite list_filter_filter.
        apply list_filter_iff. intros n. unfold P.
        rewrite andb_true_iff, bool_decide_eq_true. tauto. }
      erewrite list_fmap_ext; [|intros i k _; by rewrite Hk].
      rewrite (count_by_key P (fun n => category_of (Node.type n)));
        [|apply category_order_NoDup|intros n _ _; apply category_of_in_order].
      unfold get_nodes_by_status. f_equal. apply list_filter_iff. intros n.
      unfold P, todo_listed. rewrite andb_true_iff, bool_decide_eq_true.
      split; [tauto|]. intros Hn. split; [|done].
      rewrite bool_decide_eq_false_2; [done|]. rewrite Hn. by intros [_ ?].
    + intros name. unfold F. destruct Hinv as (_ & Hsome & Hnone).
      destruct (dict_get name cats0) as [c0|] eqn:Hc0.
      * destruct (Hsome name c0 Hc0) as (_ & _ & Hitems).
        cbn [fmap option_fmap option_map]. unfold completed_count, category_sort.
        cbn [cat_items]. rewrite py_sorted_Permutation.
        symmetry. by apply (Forall2_todo_completed g).
      * by rewrite (Hnone name Hc0).
Qed.

(** X16.  [generate] lists every node but the condition nodes that are not
    applicable, once, under the category of its type.  The categories
    returned are those that have an item, in the fixed order of
    [category_order]; the category "Other" never occurs.  The items of a
    category are the to-do items of its nodes in the order of priority and
    then of title, nodes with equal keys in the order of [nodes]. *)
Theorem generate_groups_by_type (g : RequirementGraph) :
  built g →
  ∃ categories,
    generate lower g = Ok categories
    ∧ ((cat_name <$> categories) `sublist_of` category_order)
    ∧ ("Other" ∉ cat_name <$> categories)
    ∧ (∀ n, n ∈ dict_values (nodes g) → todo_listed n = true →
            category_of (Node.type n) ∈ cat_name <$> categories)
    ∧ (∀ c, c ∈ categories →
            cat_items c ≠ []
            ∧ StronglySorted (fun a b => todo_key_lt b a = false) (cat_items c)
            ∧ ∃ items,
                Forall2 (fun n t => _node_to_todo lower g n = Ok t)
                  (listed_under (cat_name c) (dict_values (nodes g))) items
                ∧ cat_items c = py_sorted todo_key_lt items)
    ∧ sum_list (total_count <$> categories)
      = length (filter (fun n => todo_listed n = true) (dict_values (nodes g)))
    ∧ sum_list (completed_count <$> categories)
      = length (get_nodes_by_status g COMPLETED).
Proof. exact (generate_groups_by_type_spec g). Qed.

(** X17.  [get_summary] counts as [total_items] every node but the condition
    nodes that are not applicable, and as [completed_items] the completed
    nodes; its percentage is [100] when there is no item and
    [round(completed_items / total_items * 100, 1)] otherwise.
    [critical_completed] is always [0], since [get_critical_items] leaves
    the completed nodes out. *)
Theorem summary_counts (g : RequirementGraph) :
  built g →
  ∃ s,
    get_summary lower g = Ok s
    ∧ sm_total_items s
      = length (filter (fun n => todo_listed n = true) (dict_values (nodes g)))
    ∧ sm_completed_items s = length (get_nodes_by_status g COMPLETED)
    ∧ sm_critical_completed s = 0
    ∧ sm_completion_percentage s
      = (if 0 <? sm_total_items s
         then PyFloat (py_round1
                         (PrimFloat.mul
                            (PrimFloat.div (float_of_nat (sm_completed_items s))
                                           (float_of_nat (sm_total_items s)))
                            (float_of_Z 100)))
         else PyInt 100)
    ∧ (nodes g = [] → sm_completion_percentage s = PyInt 100).
Proof.
  intros Hb. pose proof (built_safe g Hb) as Hs.
  pose proof (safe_index_closed g Hs) as Hc.
  destruct (generate_groups_by_type_spec g Hb)
    as (cats & Hgen & _ & _ & _ & _ & Htotal & Hdone).
  destruct (critical_items_are_open_spec lower g Hb) as (critical & Hcrit & _ & _ & Hnone & _).
  destruct (get_actionable_now_completed_only_spec lower g Hb)
    as (actionable & ready & Hact & _).
  unfold get_summary. rewrite Hgen. cbn [bind]. rewrite Hcrit. cbn [bind].
  rewrite Hact. cbn [bind]. eexists. split; [done|].
  cbn [sm_total_items sm_completed_items sm_critical_completed
       sm_completion_percentage].
  split_and!; try done.
  - by rewrite Hnone.
  - intros Hnil. rewrite Htotal, Hnil. done.
Qed.

End generate.
(** ** More on the extractor *)

Section extract_extra.

Variable lower : string → string.
Variable strip : string → string.
Variable fromisoformat : string → result datetime.
Variable json_loads : string → result Extraction.
Variable uuid4 : nat → string.
Variable md5 : string → string.
Variable client : nat → llm_outcome.

Local Abbreviation extract' :=
  (extract lower strip fromisoformat json_loads uuid4 client).
Local Abbreviation create' :=
  (create_item_node lower strip fromisoformat uuid4).
Local Abbreviation link' := (link_item lower strip uuid4).

(** The retry loop over the attempts [a, a+1, ..., a+n-1]: it is left
    after [j] of them, having slept before each but attempt 0. *)
Lemma retry_loop_effects document n a w response_text w' exit :
  retry_loop lower json_loads client document (seq a n) w response_text = (w', exit) →
  ∃ j, j ≤ n ∧ (0 < n → 0 < j)
       ∧ llm_calls w' = llm_calls w + j
       ∧ slept w' = slept w ++ ((fun i => retry_delay * 2 ^ (i - 1))
                                <$> filter (fun i => 0 < i) (seq a j))
       ∧ uuids_drawn w' = uuids_drawn w
       ∧ processed_documents w' = processed_documents w
       ∧ clock_reads w' = clock_reads w
       ∧ (∀ r, exit = Return r → ∃ raw msg, r = error_result document raw msg).
Proof.
  revert a w response_text. induction n as [|n IH]; intros a w response_text.
  - intros [= <- <-]. exists 0. split_and!; try done; try lia.
    by rewrite app_nil_r.
  - cbn [seq retry_loop].
    destruct (attempt_body json_loads client a w response_text) as [[w1 rt1] r] eqn:Hb.
    apply attempt_body_world in Hb as (Hc & Hs & Hu & Hp & Hk).
    assert (∀ w' exit,
              (w1, exit) = (w', exit) →
              (∀ r, exit = Return r → ∃ raw msg, r = error_result document raw msg) →
              ∃ j, j ≤ S n ∧ (0 < S n → 0 < j)
                   ∧ llm_calls w' = llm_calls w + j
                   ∧ slept w' = slept w ++ ((fun i => retry_delay * 2 ^ (i - 1))
                                            <$> filter (fun i => 0 < i) (seq a j))
                   ∧ uuids_drawn w' = uuids_drawn w
                   ∧ processed_documents w' = processed_documents w
                   ∧ clock_reads w' = clock_reads w
                   ∧ (∀ r, exit = Return r →
                           ∃ raw msg, r = error_result document raw msg)) as Hstop.
    { intros w2 exit2 [= <-] Hret. exists 1. split_and!; try done; try lia.
      rewrite Hs. cbn [seq]. rewrite filter_cons.
      destruct (decide (0 < a)) as [Ha|Ha].
      - by destruct a; [lia|].
      - by destruct a; [|lia]. }
    assert (retry_loop lower json_loads client document (seq (S a) n) w1 rt1 = (w', exit) →
            ∃ j, j ≤ S n ∧ (0 < S n → 0 < j)
                 ∧ llm_calls w' = llm_calls w + j
                 ∧ slept w' = slept w ++ ((fun i => retry_delay * 2 ^ (i - 1))
                                          <$> filter (fun i => 0 < i) (seq a j))
                 ∧ uuids_drawn w' = uuids_drawn w
                 ∧ processed_documents w' = processed_documents w
                 ∧ clock_reads w' = clock_reads w
                 ∧ (∀ r, exit = Return r →
                         ∃ raw msg, r = error_result document raw msg)) as Hgo.
    { intros Hrec. apply IH in Hrec as (j & Hj & _ & Hc' & Hs' & Hu' & Hp' & Hk' & Hret).
      exists (S j). split_and!; try done; try lia; try congruence.
      rewrite Hs', Hs. cbn [seq]. rewrite filter_cons, <- app_assoc. f_equal.
      destruct (decide (0 < a)) as [Ha|Ha].
      - by destruct a; [lia|].
      - by destruct a; [|lia]. }
    destruct r as [extraction|e].
    { intros [= <- <-]. by apply Hstop. }
    destruct (exn_kind e).
    + case_decide; [|exact Hgo].
      intros [= <- <-]. apply Hstop; [done|]. intros r [= <-]. by eexists _, _.
    + case_decide; [|exact Hgo].
      intros [= <- <-]. apply Hstop; [done|]. intros r [= <-]. by eexists _, _.
    + destruct (_ && _); [exact Hgo|].
      intros [= <- <-]. apply Hstop; [done|]. intros r [= <-]. by eexists _, _.
    + destruct (_ && _); [exact Hgo|].
      intros [= <- <-]. apply Hstop; [done|]. intros r [= <-]. by eexists _, _.
Qed.

Lemma unreadable_iff document :
  opt_str_truthy (DocumentContent.error document) || negb (is_successful strip document)
  = true
  ↔ DocumentContent.error document ≠ None ∨ strip (DocumentContent.text document) = "".
Proof.
  unfold is_successful, opt_str_truthy.
  destruct (DocumentContent.error document) as [e|]; simpl.
  - rewrite orb_true_r. split; [by left|done].
  - destruct (strip (DocumentContent.text document)); simpl.
    + split; [by right|done].
    + split; [done|]. by intros [|].
Qed.

(** The two ways [extract] ends: with an error result and the graph as it
    was, or with the state of the two loops over the items. *)
Lemma extract_cases now document g w :
  ∃ j w1,
    j ≤ 3
    ∧ llm_calls w1 = llm_calls w + j
    ∧ slept w1 = slept w ++ take (j - 1) [2; 4]
    ∧ uuids_drawn w1 = uuids_drawn w
    ∧ processed_documents w1 = processed_documents w
    ∧ clock_reads w1 = clock_reads w
    ∧ (j = 0 ↔ DocumentContent.error document ≠ None
               ∨ strip (DocumentContent.text document) = "")
    ∧ ((∃ raw msg, extract' now document g w = Ok (error_result document raw msg, g, w1))
       ∨ (∃ extraction,
            let st := foldl link'
                        (foldl (create' now document extraction)
                           (mkExtractState g w1 [] [] ∅) (items extraction))
                        (items extraction) in
            extract' now document g w
            = Ok (mkExtractionResult (DocumentContent.path document)
                    (es_nodes_created st) (es_edges_created st)
                    (RawParsed extraction) None,
                  es_graph st,
                  mkWorld (llm_calls (es_world st)) (uuids_drawn (es_world st))
                    (slept (es_world st))
                    ({[ DocumentContent.path document ]}
                     ∪ processed_documents (es_world st))
                    (clock_reads (es_world st))))).
Proof.
  unfold extract.
  destruct (opt_str_truthy (DocumentContent.error document)
            || negb (is_successful strip document)) eqn:Hskip.
  - exists 0, w. split_and!; try done; try lia.
    + by rewrite app_nil_r.
    + split; [intros _; by apply unreadable_iff|done].
    + left. by eexists _, _.
  - pose proof (retry_loop_not_exhausted lower json_loads client document
                  (seq 0 max_retries) w None eq_refl) as Hne.
    destruct (retry_loop lower json_loads client document (seq 0 max_retries) w None)
      as [w1 exit] eqn:Hloop.
    apply retry_loop_effects in Hloop as (j & Hj & Hpos & Hc & Hs & Hu & Hp & Hk & Hret).
    exists j, w1. unfold max_retries in Hj, Hpos.
    assert (0 < j) as Hj0 by (apply Hpos; lia).
    split_and!; try done.
    + rewrite Hs. f_equal.
      destruct j as [|[|[|[|j]]]]; try lia; reflexivity.
    + split; [lia|]. intros Hun%unreadable_iff. congruence.
    + destruct exit as [extraction|r|]; [|left|done].
      * right. by exists extraction.
      * destruct (Hret r eq_refl) as (raw & msg & ->). by eexists _, _.
Qed.

Lemma foldl_invariant {A B} (P : A → Prop) (f : A → B → A) l a :
  (∀ a x, P a → P (f a x)) → P a → P (foldl f a l).
Proof. intros Hf. revert a. induction l; simpl; auto. Qed.

Lemma extract_loops_world now document extraction st :
  let st' := foldl link' (foldl (create' now document extraction) st (items extraction))
               (items extraction) in
  llm_calls (es_world st') = llm_calls (es_world st)
  ∧ slept (es_world st') = slept (es_world st)
  ∧ processed_documents (es_world st') = processed_documents (es_world st).
Proof.
  cbv zeta.
  pose proof (foldl_step_ok uuid4 (create' now document extraction) (items extraction) st
                (fun st x => create_item_node_ok lower strip fromisoformat uuid4
                               now document extraction st x))
    as (_ & Hc1 & Hs1 & Hp1).
  pose proof (foldl_step_ok uuid4 link' (items extraction)
                (foldl (create' now document extraction) st (items extraction))
                (link_item_ok lower strip uuid4)) as (_ & Hc2 & Hs2 & Hp2).
  split_and!; congruence.
Qed.

Lemma extract_attempts_bounded_spec now document g w :
  ∃ r g' w' j,
    extract' now document g w = Ok (r, g', w')
    ∧ j ≤ 3
    ∧ llm_calls w' = llm_calls w + j
    ∧ slept w' = slept w ++ take (j - 1) [2; 4]
    ∧ (j = 0 ↔ DocumentContent.error document ≠ None
               ∨ strip (DocumentContent.text document) = "").
Proof.
  destruct (extract_cases now document g w)
    as (j & w1 & Hj & Hc & Hs & _ & _ & _ & Hj0
        & [(raw & msg & Hex)|(extraction & Hex)]).
  - eexists _, _, _, j. by split_and!.
  - cbv zeta in Hex. eexists _, _, _, j. split; [exact Hex|].
    destruct (extract_loops_world now document extraction (mkExtractState g w1 [] [] ∅))
      as (Hc' & Hs' & _).
    cbn [llm_calls slept es_world] in *. split_and!; try done; congruence.
Qed.

(** *** The two loops over the items *)

Lemma create_item_node_inv now document extraction g u0 st item :
  extract_inv (DocumentContent.path document) g uuid4 u0 st →
  extract_inv (DocumentContent.path document) g uuid4 u0
    (create' now document extraction st item).
Proof.
  intros (Hsafe & Hold & Hnew & Huuid & Httn & Heold & Henew & Hcount).
  unfold create_item_node, draw_uuid, read_clock, create_node. cbv beta iota zeta.
  set (uid := uuid4 (uuids_drawn (es_world st))).
  set (node := Node_init uid _ _ _ _ _ _).
  change (Node.id node) with uid.
  set (stored := fun h : RequirementGraph =>
         edges h = edges (es_graph st)
         ∧ (graph_safe (es_graph st) → graph_safe h)
         ∧ (∃ n, get_node h uid = Some n ∧ Node.id n = uid
                 ∧ Node.source_document n = Some (DocumentContent.path document))
         ∧ (∀ k, k ≠ uid → get_node h k = get_node (es_graph st) k)).
  assert (stored (add_node (es_graph st) node)) as Hadd.
  { split_and!.
    - done.
    - apply graph_safe_add_node.
    - exists node. split_and!; try done.
      unfold get_node, add_node. cbn [nodes]. rewrite dict_get_set.
      by rewrite decide_True.
    - intros k Hk. unfold get_node, add_node. cbn [nodes]. rewrite dict_get_set.
      by rewrite decide_False. }
  assert (∀ (f : Node → Node) h,
            (∀ n, Node.id (f n) = Node.id n
                  ∧ Node.source_document (f n) = Node.source_document n) →
            stored h → stored (set_nodes (dict_alter f uid (nodes h)) h)) as Halter.
  { intros f h Hf (He & Hs & (n & Hn & Hid & Hdoc) & Hother). split_and!.
    - done.
    - intros Hs0. apply graph_safe_alter_node; [apply Hf|by apply Hs].
    - exists (f n). destruct (Hf n) as (Hf1 & Hf2). split_and!; try congruence.
      unfold get_node in *. cbn [nodes set_nodes]. rewrite dict_get_alter.
      rewrite decide_True by done. by rewrite Hn.
    - intros k Hk. rewrite <- Hother by done. unfold get_node.
      cbn [nodes set_nodes]. rewrite dict_get_alter. by rewrite decide_False. }
  match goal with
  | |- extract_inv _ _ _ _ (mkExtractState ?G0 _ _ _ _) => set (G := G0)
  end.
  assert (stored G) as HG.
  { subst G.
    repeat match goal with
           | |- stored (if ?b then _ else _) => destruct b
           | |- stored (match ?r with Ok _ => _ | Raise _ => _ end) => destruct r
           | |- stored (set_nodes (dict_alter _ _ (nodes ?h)) ?h) =>
               apply Halter; [intros n; try destruct (Item.is_checked item); done|]
           end; exact Hadd. }
  clearbody G.
  destruct HG as (He & Hs & (n & Hn & Hid & Hdoc) & Hother).
  assert (∀ k, is_Some (get_node (es_graph st) k) → is_Some (get_node G k)) as Hmono.
  { intros k Hk. destruct (decide (k = uid)) as [->|Hne].
    - rewrite Hn. by eexists.
    - by rewrite Hother. }
  unfold extract_inv. cbn [es_graph es_world es_nodes_created es_edges_created
                            es_title_to_node uuids_drawn].
  split_and!.
  - intros Hg. by apply Hs, Hsafe.
  - intros k Hk. apply not_elem_of_app in Hk as [Hk Hne].
    rewrite Hother by (intros ->; apply Hne, list_elem_of_here). by apply Hold.
  - intros k Hk. destruct (decide (k = uid)) as [->|Hne].
    + by exists n.
    + rewrite Hother by done. apply Hnew.
      apply elem_of_app in Hk as [Hk|Hk%list_elem_of_singleton]; done.
  - intros k [Hk|Hk%list_elem_of_singleton]%elem_of_app; [by apply Huuid|].
    subst k. by eexists.
  - intros t k [[_ <-]|[_ Hk]]%lookup_insert_Some.
    + apply elem_of_app. right. apply list_elem_of_here.
    + apply elem_of_app. left. by eapply Httn.
  - intros k Hk. rewrite He. by apply Heold.
  - intros k Hk. destruct (Henew k Hk) as (e & Hget & Heid & Hst & Hsrc & Hty & Htgt).
    exists e. rewrite He. split_and!; try done.
    + apply elem_of_app. by left.
    + intros Hg. by apply Hmono, Htgt.
  - rewrite Hcount, length_app. simpl. lia.
Qed.

Lemma link_reference_inv path g u0 source_id item_title reference type verb st :
  source_id ∈ es_nodes_created st →
  type = REQUIRES ∨ type = CONDITIONAL_ON →
  extract_inv path g uuid4 u0 st →
  extract_inv path g uuid4 u0
    (link_reference lower strip uuid4 source_id item_title reference type verb st).
Proof.
  intros Hsrc Htype Hinv. unfold link_reference.
  destruct (_ && _); [|done].
  match goal with |- context [match ?t with Some _ => _ | None => _ end] =>
    set (target_id := t) end.
  assert (∀ target, target_id = Some target → str_truthy target = true →
                    graph_safe g → is_Some (get_node (es_graph st) target)) as Htarget.
  { destruct Hinv as (Hsafe & _ & Hnew & _ & Httn & _).
    intros target Ht Htruthy Hg. subst target_id.
    destruct (es_title_to_node st !! lower (strip reference)) as [x|] eqn:Hx;
      cbn [opt_str_truthy] in Ht.
    - destruct (str_truthy x) eqn:Hxt.
      + injection Ht as <-. destruct (Hnew x (Httn _ _ Hx)) as (n & -> & _). by eexists.
      + destruct (find_nodes lower (es_graph st) (strip reference))
          as [|existing rest] eqn:Hfind; [congruence|].
        injection Ht as <-. exists existing. apply get_node_value; [by apply Hsafe|].
        assert (existing ∈ find_nodes lower (es_graph st) (strip reference)) as Hin
          by (rewrite Hfind; apply list_elem_of_here).
        unfold find_nodes in Hin. by apply list_elem_of_filter in Hin as [_ Hin].
    - destruct (find_nodes lower (es_graph st) (strip reference))
        as [|existing rest] eqn:Hfind; [done|].
      injection Ht as <-. exists existing. apply get_node_value; [by apply Hsafe|].
      assert (existing ∈ find_nodes lower (es_graph st) (strip reference)) as Hin
        by (rewrite Hfind; apply list_elem_of_here).
      unfold find_nodes in Hin. by apply list_elem_of_filter in Hin as [_ Hin]. }
  destruct target_id as [target|]; [|done].
  destruct (str_truthy target && negb (bool_decide (target = source_id))) eqn:Hc;
    [|done].
  apply andb_true_iff in Hc as [Htruthy Hne].
  apply negb_true_iff, bool_decide_eq_false in Hne.
  specialize (Htarget target eq_refl Htruthy).
  destruct Hinv as (Hsafe & Hold & Hnew & Huuid & Httn & Heold & Henew & Hcount).
  unfold draw_uuid, connect. cbv beta iota zeta.
  set (uid := uuid4 (uuids_drawn (es_world st))).
  set (edge := Edge.mk uid _ _ _ _ _ _).
  change (Edge.id edge) with uid.
  unfold extract_inv. cbn [es_graph es_world es_nodes_created es_edges_created
                            es_title_to_node uuids_drawn].
  split_and!; try done.
  - intros Hg. by apply graph_safe_add_edge, Hsafe.
  - intros k Hk. apply not_elem_of_app in Hk as [Hk Hne'].
    cbn [add_edge edges]. change (Edge.id edge) with uid. rewrite dict_get_set.
    rewrite decide_False by (intros ->; apply Hne', list_elem_of_here).
    by apply Heold.
  - intros k Hk. cbn [add_edge edges]. change (Edge.id edge) with uid.
    rewrite dict_get_set.
    destruct (decide (uid = k)) as [<-|Hne'].
    + exists edge. by split_and!.
    + apply elem_of_app in Hk as [Hk|Hk%list_elem_of_singleton]; [|congruence].
      by apply Henew.
  - rewrite Hcount, length_app. simpl. lia.
Qed.

Lemma link_item_inv path g u0 st item :
  extract_inv path g uuid4 u0 st → extract_inv path g uuid4 u0 (link' st item).
Proof.
  intros Hinv. unfold link_item.
  destruct (es_title_to_node st !! lower (Item.title item)) as [source_id|] eqn:Hs;
    [|done].
  destruct (str_truthy source_id); [|done].
  assert (source_id ∈ es_nodes_created st) as Hsrc.
  { destruct Hinv as (_ & _ & _ & _ & Httn & _). by eapply Httn. }
  apply link_reference_inv; [|by right|].
  - assert (es_nodes_created
              (link_reference lower strip uuid4 source_id (Item.title item)
                 (Item.requires_item item) REQUIRES " requires " st)
            = es_nodes_created st) as ->; [|done].
    unfold link_reference. repeat case_match; done.
  - apply link_reference_inv; [done|by left|done].
Qed.

Lemma extract_inv_init path g w :
  extract_inv path g uuid4 (uuids_drawn w) (mkExtractState g w [] [] ∅).
Proof.
  unfold extract_inv. cbn [es_graph es_world es_nodes_created es_edges_created
                            es_title_to_node].
  split_and!; try done; try (intros k Hk; by apply elem_of_nil in Hk).
  simpl. lia.
Qed.

Lemma extract_loops_inv now document extraction g w :
  extract_inv (DocumentContent.path document) g uuid4 (uuids_drawn w)
    (foldl link'
       (foldl (create' now document extraction) (mkExtractState g w [] [] ∅)
          (items extraction))
       (items extraction)).
Proof.
  apply foldl_invariant; [intros; by apply link_item_inv|].
  apply foldl_invariant; [intros; by apply create_item_node_inv|].
  apply extract_inv_init.
Qed.

Lemma extract_loops_lengths now document extraction st :
  let st' := foldl link' (foldl (create' now document extraction) st (items extraction))
               (items extraction) in
  length (es_nodes_created st')
  = length (es_nodes_created st) + length (items extraction)
  ∧ length (es_edges_created st')
    ≤ length (es_edges_created st) + 2 * length (items extraction)
  ∧ clock_reads (es_world st')
    = clock_reads (es_world st) + 2 * length (items extraction).
Proof.
  cbv zeta.
  assert (∀ l st,
            length (es_nodes_created (foldl (create' now document extraction) st l))
            = length (es_nodes_created st) + length l
            ∧ es_edges_created (foldl (create' now document extraction) st l)
              = es_edges_created st
            ∧ clock_reads (es_world (foldl (create' now document extraction) st l))
              = clock_reads (es_world st) + 2 * length l) as Hcreate.
  { induction l as [|item l IH]; intros st0; simpl; [split_and!; [lia|done|lia]|].
    destruct (IH (create' now document extraction st0 item)) as (-> & -> & ->).
    unfold create_item_node, draw_uuid, read_clock, create_node. cbv beta iota zeta.
    cbn [es_nodes_created es_edges_created es_world clock_reads].
    rewrite length_app. simpl. split_and!; [lia|done|lia]. }
  assert (∀ source_id item_title reference type verb st,
            es_nodes_created
              (link_reference lower strip uuid4 source_id item_title reference type verb st)
            = es_nodes_created st
            ∧ length (es_edges_created
                        (link_reference lower strip uuid4 source_id item_title
                           reference type verb st))
              ≤ length (es_edges_created st) + 1
            ∧ clock_reads (es_world (link_reference lower strip uuid4 source_id
                                       item_title reference type verb st))
              = clock_reads (es_world st)) as Href.
  { intros. unfold link_reference, draw_uuid, connect.
    repeat case_match; cbn [es_nodes_created es_edges_created es_world clock_reads];
      rewrite ?length_app; simpl; split_and!; (done || lia). }
  assert (∀ l st,
            length (es_nodes_created (foldl link' st l)) = length (es_nodes_created st)
            ∧ length (es_edges_created (foldl link' st l))
              ≤ length (es_edges_created st) + 2 * length l
            ∧ clock_reads (es_world (foldl link' st l)) = clock_reads (es_world st))
    as Hlink.
  { induction l as [|item l IH]; intros st0; simpl; [split_and!; [done|lia|done]|].
    destruct (IH (link' st0 item)) as (-> & Hle & ->).
    assert (es_nodes_created (link' st0 item) = es_nodes_created st0
            ∧ length (es_edges_created (link' st0 item))
              ≤ length (es_edges_created st0) + 2
            ∧ clock_reads (es_world (link' st0 item)) = clock_reads (es_world st0))
      as (-> & Hle' & ->).
    { unfold link_item. repeat case_match; try (split_and!; [done|lia|done]).
      match goal with
      | |- context [link_reference _ _ _ ?s ?t ?r2 ?ty2 ?v2
                      (link_reference _ _ _ ?s ?t ?r1 ?ty1 ?v1 ?st)] =>
          destruct (Href s t r1 ty1 v1 st) as (Hn1 & He1 & Hc1);
          destruct (Href s t r2 ty2 v2
                      (link_reference lower strip uuid4 s t r1 ty1 v1 st))
            as (Hn2 & He2 & Hc2)
      end.
      split_and!; [congruence|lia|congruence]. }
    split_and!; [done|lia|done]. }
  destruct (Hlink (items extraction)
              (foldl (create' now document extraction) st (items extraction)))
    as (-> & Hle & ->).
  destruct (Hcreate (items extraction) st) as (-> & He & ->). rewrite He in Hle.
  split_and!; [done|lia|done].
Qed.

(** What [extract] returns, by the field [error] of the result. *)
Lemma extract_outcomes_spec now document g w :
  ∃ r g' w',
    extract' now document g w = Ok (r, g', w')
    ∧ document_path r = DocumentContent.path document
    ∧ match error r with
      | Some _ =>
          g' = g ∧ nodes_created r = [] ∧ edges_created r = []
          ∧ uuids_drawn w' = uuids_drawn w
          ∧ clock_reads w' = clock_reads w
          ∧ processed_documents w' = processed_documents w
      | None =>
          ∃ extraction,
            raw_extraction r = RawParsed extraction
            ∧ length (nodes_created r) = length (items extraction)
            ∧ length (edges_created r) ≤ 2 * length (items extraction)
            ∧ uuids_drawn w'
              = uuids_drawn w + length (nodes_created r) + length (edges_created r)
            ∧ clock_reads w' = clock_reads w + 2 * length (nodes_created r)
            ∧ processed_documents w'
              = {[ DocumentContent.path document ]} ∪ processed_documents w
      end.
Proof.
  destruct (extract_cases now document g w)
    as (j & w1 & _ & _ & _ & Hu & Hp & Hk & _
        & [(raw & msg & Hex)|(extraction & Hex)]).
  - eexists _, _, _. split; [exact Hex|]. by cbn [document_path error error_result].
  - cbv zeta in Hex. eexists _, _, _. split; [exact Hex|].
    cbn [document_path error nodes_created edges_created raw_extraction
           uuids_drawn processed_documents clock_reads].
    split; [done|]. exists extraction.
    destruct (extract_loops_lengths now document extraction (mkExtractState g w1 [] [] ∅))
      as (Hn & He & Hc).
    destruct (extract_loops_world now document extraction (mkExtractState g w1 [] [] ∅))
      as (_ & _ & Hp').
    pose proof (extract_loops_inv now document extraction g w1)
      as (_ & _ & _ & _ & _ & _ & _ & Hcount).
    cbv zeta in Hn, He, Hc, Hp'.
    cbn [es_nodes_created es_edges_created es_world] in *.
    simpl in Hn, He.
    split_and!;
      first [done | lia | congruence
            | rewrite Hp'; cbn [processed_documents]; by rewrite Hp].
Qed.

(** The nodes and the edges of the graph [extract] returns. *)
Lemma extract_created_spec now document g w r g' w' :
  extract' now document g w = Ok (r, g', w') →
  (graph_safe g → graph_safe g')
  ∧ (∀ k, k ∉ nodes_created r → get_node g' k = get_node g k)
  ∧ (∀ k, k ∈ nodes_created r →
          ∃ n, get_node g' k = Some n
               ∧ Node.id n = k
               ∧ Node.source_document n = Some (DocumentContent.path document))
  ∧ (∀ k, k ∈ nodes_created r → ∃ i, uuid4 i = k)
  ∧ (∀ k, k ∉ edges_created r → dict_get k (edges g') = dict_get k (edges g))
  ∧ (∀ k, k ∈ edges_created r →
          ∃ e, dict_get k (edges g') = Some e
               ∧ Edge.id e = k
               ∧ Edge.source_id e ≠ Edge.target_id e
               ∧ Edge.source_id e ∈ nodes_created r
               ∧ (Edge.type e = REQUIRES ∨ Edge.type e = CONDITIONAL_ON)
               ∧ (graph_safe g → is_Some (get_node g' (Edge.target_id e)))).
Proof.
  intros Hex0.
  destruct (extract_cases now document g w)
    as (j & w1 & _ & _ & _ & _ & _ & _ & _
        & [(raw & msg & Hex)|(extraction & Hex)]).
  - rewrite Hex in Hex0. injection Hex0 as <- <- <-.
    cbn [nodes_created edges_created error_result].
    split_and!; try done; intros k Hk; by apply elem_of_nil in Hk.
  - cbv zeta in Hex. rewrite Hex in Hex0. injection Hex0 as <- <- <-.
    cbn [nodes_created edges_created].
    pose proof (extract_loops_inv now document extraction g w1)
      as (Hsafe & Hold & Hnew & Huuid & _ & Heold & Henew & _).
    by split_and!.
Qed.



(** X20.  The nodes [extract] reports as created are in the graph under
    the reported ids, which are values of [uuid4], each with the path of
    the document as its [source_document]; every other id of the graph holds
    what it held before the call. *)
Theorem extract_created_nodes now document g w r g' w' :
  extract lower strip fromisoformat json_loads uuid4 client now document g w
  = Ok (r, g', w') →
  (∀ k, k ∈ nodes_created r →
        (∃ i, uuid4 i = k)
        ∧ ∃ n, get_node g' k = Some n
               ∧ Node.id n = k
               ∧ Node.source_document n = Some (DocumentContent.path document))
  ∧ (∀ k, k ∉ nodes_created r → get_node g' k = get_node g k).
Proof.
  intros Hex.
  destruct (extract_created_spec now document g w r g' w' Hex)
    as (_ & Hold & Hnew & Huuid & _).
  split; [|done]. intros k Hk. split; [by apply Huuid|by apply Hnew].
Qed.

(** X21.  On a graph whose indexes are consistent, [extract] keeps them
    consistent, and every edge it reports as created is in the graph under
    the reported id: it is of type [requires] or [conditional_on], starts at
    a node created by the same call, ends at another node, and that node is
    in the graph.  Every other edge id holds what it held before. *)
Theorem extract_created_edges now document g w r g' w' :
  graph_safe g →
  extract lower strip fromisoformat json_loads uuid4 client now document g w
  = Ok (r, g', w') →
  graph_safe g'
  ∧ (∀ k, k ∈ edges_created r →
          ∃ e, dict_get k (edges g') = Some e
               ∧ Edge.id e = k
               ∧ (Edge.type e = REQUIRES ∨ Edge.type e = CONDITIONAL_ON)
               ∧ Edge.source_id e ∈ nodes_created r
               ∧ Edge.target_id e ≠ Edge.source_id e
               ∧ is_Some (get_node g' (Edge.target_id e)))
  ∧ (∀ k, k ∉ edges_created r → dict_get k (edges g') = dict_get k (edges g)).
Proof.
  intros Hg Hex.
  destruct (extract_created_spec now document g w r g' w' Hex)
    as (Hsafe & _ & _ & _ & Heold & Henew).
  split_and!; [by apply Hsafe| |done].
  intros k Hk. destruct (Henew k Hk) as (e & Hget & Hid & Hne & Hsrc & Hty & Htgt).
  exists e. split_and!; try done. by apply Htgt.
Qed.

(** *** [IncrementalExtractor] *)

Local Abbreviation process_document' :=
  (process_document lower strip fromisoformat json_loads uuid4 md5 client).

Lemma process_document_hashes now st doc st' :
  process_document' now st doc = Ok st' →
  document_hashes st' !! DocumentContent.path doc = Some (md5 (DocumentContent.text doc))
  ∧ (∀ p, p ≠ DocumentContent.path doc →
          document_hashes st' !! p = document_hashes st !! p).
Proof.
  unfold process_document. cbv zeta.
  assert (∀ h,
            (let* (r, g, w) := extract' now doc h (inc_world st) in
             Ok (mkIncrementalState
                   (<[DocumentContent.path doc := md5 (DocumentContent.text doc)]>
                      (document_hashes st))
                   g w (inc_results st ++ [r]))) = Ok st' →
            document_hashes st' !! DocumentContent.path doc
            = Some (md5 (DocumentContent.text doc))
            ∧ (∀ p, p ≠ DocumentContent.path doc →
                    document_hashes st' !! p = document_hashes st !! p)) as Hre.
  { intros h ([[r g1] w1] & _ & [= <-])%bind_Ok. cbn [document_hashes]. split.
    - by rewrite lookup_insert_eq.
    - intros p Hp. by rewrite lookup_insert_ne. }
  destruct (document_hashes st !! DocumentContent.path doc) as [known|] eqn:Hk.
  - case_decide as Heq.
    + intros [= <-]. split; [congruence|done].
    + intros (g1 & _ & Hr)%bind_Ok. by eapply Hre.
  - apply Hre.
Qed.

Lemma process_documents_hashes now docs st st' :
  NoDup (DocumentContent.path <$> docs) →
  for_each (process_document' now) st docs = Ok st' →
  (∀ doc, doc ∈ docs →
          document_hashes st' !! DocumentContent.path doc
          = Some (md5 (DocumentContent.text doc)))
  ∧ (∀ p, p ∉ DocumentContent.path <$> docs →
          document_hashes st' !! p = document_hashes st !! p).
Proof.
  revert st. induction docs as [|doc docs IH]; intros st Hnd; cbn [for_each].
  - intros [= <-]. split; [by intros doc Hd%elem_of_nil|done].
  - rewrite fmap_cons in Hnd. apply NoDup_cons in Hnd as [Hdoc Hnd].
    intros (st1 & H1 & Hrest)%bind_Ok.
    destruct (process_document_hashes now st doc st1 H1) as [Hthis Hother].
    destruct (IH st1 Hnd Hrest) as [Hin Hout]. split.
    + intros d [->|Hd]%elem_of_cons; [|by apply Hin].
      by rewrite Hout.
    + intros p Hp. rewrite fmap_cons in Hp. apply not_elem_of_cons in Hp as [Hp1 Hp2].
      rewrite Hout by done. by apply Hother.
Qed.

Lemma process_documents_unchanged now docs st :
  (∀ doc, doc ∈ docs →
          document_hashes st !! DocumentContent.path doc
          = Some (md5 (DocumentContent.text doc))) →
  for_each (process_document' now) st docs = Ok st.
Proof.
  induction docs as [|doc docs IH]; intros Hall; cbn [for_each]; [done|].
  assert (process_document' now st doc = Ok st) as ->.
  { unfold process_document. cbv zeta.
    rewrite (Hall doc) by apply list_elem_of_here. by rewrite decide_True. }
  cbn [bind]. apply IH. intros d Hd. apply Hall. by apply list_elem_of_further.
Qed.

(** X22.  When [process_new_or_changed] has processed documents with
    pairwise different paths, a second call on the same documents finds
    every hash recorded, also for the documents whose extraction ended with
    an error: it returns no result, calls nothing and leaves the graph, the
    hashes and the world as they are. *)
Theorem process_new_or_changed_again now hashes docs g w st :
  NoDup (DocumentContent.path <$> docs) →
  process_new_or_changed lower strip fromisoformat json_loads uuid4 md5 client
    now hashes docs g w = Ok st →
  (∀ doc, doc ∈ docs →
          document_hashes st !! DocumentContent.path doc
          = Some (md5 (DocumentContent.text doc)))
  ∧ process_new_or_changed lower strip fromisoformat json_loads uuid4 md5 client
      now (document_hashes st) docs (inc_graph st) (inc_world st)
    = Ok (mkIncrementalState (document_hashes st) (inc_graph st) (inc_world st) []).
Proof.
  unfold process_new_or_changed. intros Hnd Hrun.
  destruct (process_documents_hashes now docs _ st Hnd Hrun) as [Hin _].
  split; [done|]. by apply process_documents_unchanged.
Qed.

End extract_extra.
(** ** Whole directories: [process_directory] and [_resolve_placeholders] *)

Section directory.

Variable lower : string → string.
Variable strip : string → string.
Variable split : string → list string.
Variable fromisoformat : string → result datetime.
Variable json_loads : string → result Extraction.
Variable uuid4 : nat → string.
Variable client : nat → llm_outcome.

Local Abbreviation matches := (placeholder_match lower split).

(** X23.  [_fuzzy_match] does not depend on the order of its two strings,
    and it is false when one of them has no word. *)
Theorem fuzzy_match_symmetric str1 str2 threshold :
  _fuzzy_match lower split str1 str2 threshold
  = _fuzzy_match lower split str2 str1 threshold
  ∧ ((split (lower str1) = [] ∨ split (lower str2) = []) →
     _fuzzy_match lower split str1 str2 threshold = false).
Proof.
  unfold _fuzzy_match. cbv zeta. split.
  - rewrite (orb_comm (bool_decide (list_to_set (split (lower str2)) = _))).
    destruct (_ || _); [done|].
    rewrite (comm_L (∩) (list_to_set (split (lower str2)))).
    by rewrite (comm_L (∪) (list_to_set (split (lower str2)))).
  - intros [->| ->]; simpl.
    + by rewrite bool_decide_eq_true_2.
    + rewrite (bool_decide_eq_true_2 (∅ = ∅)) by done. by rewrite orb_true_r.
Qed.

Lemma head_filter_Some (P : Node → bool) l d :
  head (filter (fun x => P x = true) l) = Some d → d ∈ l ∧ P d = true.
Proof.
  intros Hh. assert (d ∈ filter (fun x => P x = true) l) as Hin.
  { destruct (filter _ l); [done|]. injection Hh as ->. apply list_elem_of_here. }
  by apply list_elem_of_filter in Hin as [? ?].
Qed.

Lemma head_filter_None (P : Node → bool) l :
  head (filter (fun x => P x = true) l) = None → ∀ d, d ∈ l → P d = false.
Proof.
  intros Hh d Hd. destruct (P d) eqn:HP; [|done].
  assert (d ∈ filter (fun x => P x = true) l) as Hin by by apply list_elem_of_filter.
  destruct (filter _ l); [by apply elem_of_nil in Hin|done].
Qed.

(** The loop of [_resolve_placeholders] over placeholders that are in the
    graph, for documents that are in the graph under other ids. *)
Lemma resolve_loop real_docs placeholders g :
  graph_safe g →
  NoDup (Node.id <$> placeholders) →
  (∀ p, p ∈ placeholders → is_Some (get_node g (Node.id p))) →
  (∀ d, d ∈ real_docs → is_Some (get_node g (Node.id d))) →
  (∀ p d, p ∈ placeholders → d ∈ real_docs → Node.id p ≠ Node.id d) →
  ∃ g',
    for_each (resolve_placeholder lower split real_docs) g placeholders = Ok g'
    ∧ graph_safe g'
    ∧ dict_keys (edges g') = dict_keys (edges g)
    ∧ ∀ k, is_Some (get_node g' k)
           ↔ is_Some (get_node g k)
             ∧ ¬ ∃ p d, p ∈ placeholders ∧ Node.id p = k
                        ∧ d ∈ real_docs ∧ matches p d = true.
Proof.
  revert g. induction placeholders as [|p rest IH]; intros g Hs Hnd Hp Hd Hpd.
  - exists g. split_and!; try done. intros k. split; [|by intros [? _]].
    intros Hk. split; [done|]. by intros (p & d & Hin%elem_of_nil & _).
  - rewrite fmap_cons in Hnd. apply NoDup_cons in Hnd as [Hfresh Hnd].
    cbn [for_each]. unfold resolve_placeholder at 1.
    destruct (head (filter (fun doc => matches p doc = true) real_docs))
      as [doc|] eqn:Hhead.
    + apply head_filter_Some in Hhead as [Hdoc Hmatch].
      destruct (Hd doc Hdoc) as [node1 H1].
      destruct (Hp p) as [node2 H2]; [apply list_elem_of_here|].
      assert (Node.id p ≠ Node.id doc) as Hne
        by (apply Hpd; [apply list_elem_of_here|done]).
      destruct (merge_duplicate_nodes_safe g (Node.id doc) (Node.id p) node1 node2
                  Hs H1 H2) as (g1 & Hm & Hns & Hks & _).
      destruct (merge_duplicate_nodes_total g (Node.id doc) (Node.id p) Hs)
        as (g1' & r' & Hm' & Hs1).
      rewrite Hm in Hm'. injection Hm' as <- <-.
      pose proof (merge_lookup g (Node.id doc) (Node.id p) node1 node2 g1 Hs H1 Hns)
        as Hlook.
      rewrite Hm. cbn [bind fst].
      destruct (IH g1) as (g' & Hrun & Hs' & Hks' & Hnodes); try done.
      * intros q Hq. rewrite Hlook. rewrite decide_False.
        -- case_decide; [by eexists|]. apply Hp. by apply list_elem_of_further.
        -- intros Heq. apply Hfresh. rewrite <- Heq. apply list_elem_of_fmap.
           by exists q.
      * intros d Hd'. rewrite Hlook. rewrite decide_False.
        -- case_decide; [by eexists|]. by apply Hd.
        -- intros Heq. apply (Hpd p d); [apply list_elem_of_here|done|done].
      * intros q d Hq Hd'. apply Hpd; [by apply list_elem_of_further|done].
      * exists g'. split_and!; [done|done|congruence|].
        intros k. rewrite Hnodes, Hlook. split.
        -- intros [Hk Hno]. destruct (decide (k = Node.id p)) as [->|Hkp];
             [by destruct Hk|].
           split.
           ++ case_decide as Hkd; [|done]. subst k. by eexists.
           ++ intros (q & d & [->|Hq]%elem_of_cons & Hid & Hd' & Hmq); [done|].
              apply Hno. by exists q, d.
        -- intros [Hk Hno]. destruct (decide (k = Node.id p)) as [->|Hkp].
           { exfalso. apply Hno. exists p, doc.
             split_and!; [apply list_elem_of_here|done..]. }
           split.
           ++ case_decide; [by eexists|done].
           ++ intros (q & d & Hq & Hid & Hd' & Hmq). apply Hno. exists q, d.
              split_and!; [by apply list_elem_of_further|done..].
    + pose proof (head_filter_None _ _ Hhead) as Hnone.
      destruct (IH g) as (g' & Hrun & Hs' & Hks' & Hnodes); try done.
      * intros q Hq. apply Hp. by apply list_elem_of_further.
      * intros q d Hq Hd'. apply Hpd; [by apply list_elem_of_further|done].
      * exists g'. split_and!; try done. intros k. rewrite Hnodes.
        split; intros [Hk Hno]; (split; [done|]).
        -- intros (q & d & [->|Hq]%elem_of_cons & Hid & Hd' & Hmq).
           ++ rewrite (Hnone d Hd') in Hmq. done.
           ++ apply Hno. by exists q, d.
        -- intros (q & d & Hq & Hid & Hd' & Hmq). apply Hno. exists q, d.
           split_and!; [by apply list_elem_of_further|done..].
Qed.

Lemma resolve_placeholders_spec g :
  graph_safe g →
  ∃ g',
    _resolve_placeholders lower split g = Ok g'
    ∧ graph_safe g'
    ∧ dict_keys (edges g') = dict_keys (edges g)
    ∧ ∀ k, is_Some (get_node g' k)
           ↔ ∃ n, get_node g k = Some n
                  ∧ ¬ (("placeholder" ∈ Node.tags n)
                       ∧ ∃ d, d ∈ dict_values (nodes g)
                              ∧ Node.type d = DOCUMENT
                              ∧ ("placeholder" ∉ Node.tags d)
                              ∧ matches n d = true).
Proof.
  intros Hs. unfold _resolve_placeholders. cbv zeta.
  set (placeholders := filter (fun n => "placeholder" ∈ Node.tags n)
                              (dict_values (nodes g))).
  set (real_docs := filter (fun n => Node.type n = DOCUMENT ∧ "placeholder" ∉ Node.tags n)
                           (dict_values (nodes g))).
  assert (∀ p, p ∈ placeholders →
               get_node g (Node.id p) = Some p ∧ "placeholder" ∈ Node.tags p) as Hp.
  { intros p [Htag Hin]%list_elem_of_filter. split; [|done]. by apply get_node_value. }
  assert (∀ d, d ∈ real_docs →
               get_node g (Node.id d) = Some d ∧ d ∈ dict_values (nodes g)
               ∧ Node.type d = DOCUMENT ∧ "placeholder" ∉ Node.tags d) as Hd.
  { intros d [[Hty Htag] Hin]%list_elem_of_filter. split_and!; try done.
    by apply get_node_value. }
  destruct (resolve_loop real_docs placeholders g) as (g' & Hrun & Hs' & Hks & Hnodes).
  - done.
  - eapply sublist_NoDup; [|apply fmap_sublist, sublist_filter].
    rewrite node_ids_keys_safe by done. apply Hs.
  - intros p [Hget _]%Hp. by eexists.
  - intros d [Hget _]%Hd. by eexists.
  - intros p d [Hgp Htag]%Hp (Hgd & _ & _ & Hntag)%Hd Heq.
    rewrite Heq, Hgd in Hgp. injection Hgp as ->. done.
  - exists g'. split_and!; try done. intros k. rewrite Hnodes. split.
    + intros [[n Hn] Hno]. exists n. split; [done|].
      intros (Htag & d & Hin & Hty & Hntag & Hm). apply Hno.
      assert (Node.id n = k) as Hid by by apply (safe_node_id g Hs).
      exists n, d. split_and!; try done.
      * apply list_elem_of_filter. split; [done|].
        apply dict_values_elem. exists k. by apply dict_get_Some_elem.
      * apply list_elem_of_filter. by split.
    + intros (n & Hn & Hno). split; [by eexists|].
      intros (p & d & Hpin & Hid & Hdin & Hm).
      destruct (Hp p Hpin) as [Hgp Htag]. destruct (Hd d Hdin) as (_ & Hin & Hty & Hntag).
      rewrite Hid, Hn in Hgp. injection Hgp as ->.
      apply Hno. split; [done|]. by exists d.
Qed.

(** X24.  On a graph whose indexes are consistent, [_resolve_placeholders]
    raises nothing and keeps the indexes consistent and every edge id.  The
    nodes it removes are exactly the nodes tagged [placeholder] whose title
    matches the title of a node of type [document] without that tag; every
    other node id stays. *)
Theorem resolve_placeholders_removes_matched g :
  graph_safe g →
  ∃ g',
    _resolve_placeholders lower split g = Ok g'
    ∧ graph_safe g'
    ∧ dict_keys (edges g') = dict_keys (edges g)
    ∧ ∀ k, is_Some (get_node g' k)
           ↔ ∃ n, get_node g k = Some n
                  ∧ ¬ (("placeholder" ∈ Node.tags n)
                       ∧ ∃ d, d ∈ dict_values (nodes g)
                              ∧ Node.type d = DOCUMENT
                              ∧ ("placeholder" ∉ Node.tags d)
                              ∧ placeholder_match lower split n d = true).
Proof. exact (resolve_placeholders_spec g). Qed.

Local Abbreviation step' :=
  (process_directory_step lower strip fromisoformat json_loads uuid4 client).

Lemma process_directory_loop now progress_callback total
    (l : list (nat * DocumentContent)) st :
  graph_safe (dir_graph st) →
  ∃ st' rs,
    for_each (step' now progress_callback total) st l = Ok st'
    ∧ graph_safe (dir_graph st')
    ∧ dir_results st' = dir_results st ++ rs
    ∧ document_path <$> rs = DocumentContent.path <$> l.*2
    ∧ llm_calls (dir_world st') ≤ llm_calls (dir_world st) + 3 * length l
    ∧ dir_progress st'
      = dir_progress st
        ++ (if progress_callback
            then (fun d => (d.1 + 1, total, DocumentContent.filename d.2)) <$> l
            else []).
Proof.
  revert st. induction l as [|[i doc] l IH]; intros st Hs; cbn [for_each].
  - exists st, []. split_and!; try done; try lia; rewrite ?app_nil_r; try done.
    by destruct progress_callback; rewrite app_nil_r.
  - unfold process_directory_step at 1. cbn [fst snd].
    destruct (extract_attempts_bounded_spec lower strip fromisoformat json_loads uuid4
                client now doc (dir_graph st) (dir_world st))
      as (r & g' & w' & j & Hex & Hj & Hcalls & _).
    destruct (extract_outcomes_spec lower strip fromisoformat json_loads uuid4
                client now doc (dir_graph st) (dir_world st))
      as (r0 & g0 & w0 & Hex0 & Hpath & _).
    rewrite Hex in Hex0. injection Hex0 as <- <- <-.
    destruct (extract_created_spec lower strip fromisoformat json_loads uuid4
                client now doc (dir_graph st) (dir_world st) r g' w' Hex)
      as (Hsafe & _).
    rewrite Hex. cbn [bind fst snd].
    match goal with |- context [for_each _ ?st1 l] =>
      destruct (IH st1) as (st' & rs & Hrun & Hs' & Hres & Hpaths & Hle & Hprog)
    end; [by apply Hsafe|].
    cbn [dir_results dir_world dir_progress] in *.
    exists st', (r :: rs). split_and!; try done.
    + by rewrite Hres, <- app_assoc.
    + rewrite !fmap_cons. cbn [snd]. by rewrite Hpath, Hpaths.
    + cbn [length]. lia.
    + rewrite Hprog. destruct progress_callback; [|done].
      by rewrite fmap_cons, <- app_assoc.
Qed.


End directory.
(** ** Reprocessing a changed document *)

Section reprocess.

Variable lower : string → string.
Variable strip : string → string.
Variable fromisoformat : string → result datetime.
Variable json_loads : string → result Extraction.
Variable uuid4 : nat → string.
Variable md5 : string → string.
Variable client : nat → llm_outcome.

(** C10.  When [process_new_or_changed] meets a document whose stored
    hash differs from the hash of its text, on a graph that satisfies the
    invariant: the deletion loop raises nothing and removes from [nodes]
    exactly the nodes whose [source_document] is the path of the document,
    leaving [edges] and both indices as they are, so every edge incident to
    a removed node and the index entries of the removed ids stay; the
    extraction that follows, on the graph the deletion has left, raises
    nothing, its result is appended to the results and the new hash is
    recorded.  In the graph of the new state a node of the old graph whose
    [source_document] is the path of the document is no longer stored
    (unless [uuid4] hands out its id again, for a node created by this
    extraction); every node of the new graph whose [source_document] is that
    path has been created by this extraction; and the ids the extraction has
    not created hold what the deletion has left.  The extraction extends
    the graph, so each edge is still stored under its key (unchanged unless
    [uuid4] hands out that key again), each index entry is a prefix of the
    new one, and [edges] has not become shorter.  Over a whole run of
    [process_new_or_changed] the number of edges never decreases. *)
Theorem reprocess_changed_document :
  (∀ now st doc known,
     graph_wf (inc_graph st) →
     document_hashes st !! DocumentContent.path doc = Some known →
     known ≠ md5 (DocumentContent.text doc) →
     ∃ g1 st' r,
       delete_nodes (inc_graph st)
         (get_nodes_by_document (inc_graph st) (DocumentContent.path doc)) = Ok g1
       ∧ process_document lower strip fromisoformat json_loads uuid4 md5 client
           now st doc = Ok st'
       ∧ extract lower strip fromisoformat json_loads uuid4 client now doc g1
           (inc_world st) = Ok (r, inc_graph st', inc_world st')
       ∧ inc_results st' = inc_results st ++ [r]
       ∧ document_hashes st'
         = <[DocumentContent.path doc := md5 (DocumentContent.text doc)]>
             (document_hashes st)
       ∧ (∀ k n, get_node (inc_graph st) k = Some n →
                 get_node g1 k
                 = if decide (Node.source_document n
                              = Some (DocumentContent.path doc))
                   then None else Some n)
       ∧ (∀ k, get_node (inc_graph st) k = None → get_node g1 k = None)
       ∧ edges g1 = edges (inc_graph st)
       ∧ _adjacency g1 = _adjacency (inc_graph st)
       ∧ _reverse_adjacency g1 = _reverse_adjacency (inc_graph st)
       ∧ (∀ k n, get_node (inc_graph st) k = Some n →
                 Node.source_document n = Some (DocumentContent.path doc) →
                 (∀ i, uuid4 i ≠ k) →
                 get_node (inc_graph st') k = None)
       ∧ (∀ k n, get_node (inc_graph st') k = Some n →
                 Node.source_document n = Some (DocumentContent.path doc) →
                 k ∈ nodes_created r)
       ∧ (∀ k, k ∉ nodes_created r → get_node (inc_graph st') k = get_node g1 k)
       ∧ graph_extends uuid4 g1 (inc_graph st')
       ∧ length (edges (inc_graph st)) ≤ length (edges (inc_graph st')))
  ∧ (∀ now hashes documents g w st',
       process_new_or_changed lower strip fromisoformat json_loads uuid4 md5 client
         now hashes documents g w = Ok st' →
       length (edges g) ≤ length (edges (inc_graph st'))).
Proof.
  split.
  - intros now st doc known Hwf Hknown Hchanged.
    set (g := inc_graph st). set (path := DocumentContent.path doc).
    set (old := get_nodes_by_document g path).
    assert (∀ n, n ∈ old ↔
              ∃ k, get_node g k = Some n ∧ Node.id n = k
                   ∧ Node.source_document n = Some path) as Hold.
    { intros n. unfold old, get_nodes_by_document.
      rewrite list_elem_of_filter, dict_values_elem. split.
      - intros [Hsrc [k Hin]]. apply dict_elem_get in Hin; [|apply Hwf].
        exists k. split_and!; [done|by apply Hwf|done].
      - intros (k & Hget & _ & Hsrc). split; [done|].
        exists k. by apply dict_get_Some_elem. }
    destruct (delete_nodes_spec g old) as (g1 & Hdel & Hget).
    { apply Hwf. }
    { intros n (k & Hk & <- & _)%Hold. by eexists. }
    { unfold old, get_nodes_by_document.
      eapply sublist_NoDup; [|apply fmap_sublist, sublist_filter].
      rewrite node_ids_keys by done. apply Hwf. }
    destruct (delete_nodes_frame g old g1 Hdel) as (Hes & Ha & Hr).
    destruct (extract_total lower strip fromisoformat json_loads uuid4 client
                now doc g1 (inc_world st)) as (r & g2 & w2 & Hex & Hext).
    destruct (extract_created_spec lower strip fromisoformat json_loads uuid4 client
                now doc g1 (inc_world st) r g2 w2 Hex)
      as (_ & Hframe & _ & Huuid & _).
    assert (∀ k n, get_node g k = Some n →
                   get_node g1 k
                   = if decide (Node.source_document n = Some path)
                     then None else Some n) as Hkept.
    { intros k n Hk. rewrite Hget.
      destruct (decide (Node.source_document n = Some path)) as [Hsrc|Hsrc].
      * rewrite decide_True; [done|]. apply list_elem_of_fmap. exists n.
        split; [symmetry; by apply Hwf|]. apply Hold. exists k.
        split_and!; [done|by apply Hwf|done].
      * rewrite decide_False; [done|].
        intros (m & Hid & (k' & Hk' & Hidm & Hsrcm)%Hold)%list_elem_of_fmap.
        assert (k' = k) as -> by congruence. congruence. }
    assert (∀ k, get_node g k = None → get_node g1 k = None) as Hnone.
    { intros k Hk. rewrite Hget, Hk. by case_decide. }
    exists g1. eexists. exists r. split_and!.
    + exact Hdel.
    + unfold process_document. rewrite Hknown, decide_False by done.
      fold g path old. rewrite Hdel. cbn [bind]. rewrite Hex. cbn [bind]. done.
    + exact Hex.
    + done.
    + done.
    + exact Hkept.
    + exact Hnone.
    + done.
    + done.
    + done.
    + intros k n Hk Hsrc Hfresh. cbn [inc_graph]. rewrite Hframe.
      * rewrite (Hkept k n Hk). by rewrite decide_True.
      * intros [i Hi]%Huuid. by apply (Hfresh i).
    + intros k n Hk Hsrc. cbn [inc_graph] in Hk.
      destruct (decide (k ∈ nodes_created r)) as [|Hnot]; [done|exfalso].
      rewrite (Hframe k Hnot) in Hk.
      destruct (get_node g k) as [n0|] eqn:Hk0.
      * rewrite (Hkept k n0 Hk0) in Hk. case_decide; [done|]. congruence.
      * rewrite (Hnone k Hk0) in Hk. done.
    + intros k Hk. cbn [inc_graph]. by apply Hframe.
    + exact Hext.
    + simpl. destruct Hext as (_ & Hlen & _). fold g. rewrite <- Hes. exact Hlen.
  - intros now hashes documents g w st'. unfold process_new_or_changed.
    change g with (inc_graph (mkIncrementalState hashes g w [])) at 2.
    generalize (mkIncrementalState hashes g w []).
    induction documents as [|doc documents IH]; intros st; simpl.
    + by intros [= <-].
    + intros (st1 & Hstep & Hrest)%bind_Ok.
      apply process_document_edges in Hstep. apply IH in Hrest. lia.
Qed.

End reprocess.

(** * The theorems at concrete graphs *)

Lemma graph_wf_graph_of ns es : graph_wf (graph_of ns es).
Proof.
  unfold graph_of.
  assert (graph_wf (foldl add_node graph_init ns)) as Hns.
  { generalize graph_wf_init. generalize graph_init.
    induction ns as [|n ns IH]; intros g Hg; [done|].
    apply IH. by apply graph_wf_add_node. }
  revert Hns. generalize (foldl add_node graph_init ns).
  induction es as [|e es IH]; intros g Hg; [done|].
  apply IH. by apply graph_wf_add_edge.
Qed.

Lemma reachable_graph_of ns es : Forall node_times_ok ns → reachable (graph_of ns es).
Proof.
  intros Hok. unfold graph_of.
  assert (reachable (foldl add_node graph_init ns)) as Hns.
  { generalize reach_init. generalize graph_init.
    induction Hok as [|n ns Hn _ IH]; intros g Hg; [done|].
    apply IH. by apply reach_add_node. }
  revert Hns. generalize (foldl add_node graph_init ns).
  induction es as [|e es IH]; intros g Hg; [done|].
  apply IH. by apply reach_add_edge.
Qed.

Lemma example_node_times_ok id status tags metadata :
  node_times_ok (example_node id status tags metadata).
Proof. by split_and!. Qed.

(** C1 at [chain_graph]: completing [a] returns [a] completed and leaves
    the edges as they are. *)
Lemma update_status_completed_chain :
  graph_wf chain_graph
  ∧ get_node chain_graph "a" = Some (example_node "a" NOT_STARTED [] ∅)
  ∧ ∃ g' node',
      update_status chain_graph "a" COMPLETED example_later = Ok (g', Some node')
      ∧ Node.status node' = COMPLETED
      ∧ edges g' = edges chain_graph
      ∧ dict_keys (nodes g') = dict_keys (nodes chain_graph).
Proof.
  split; [apply graph_wf_graph_of|]. split; [reflexivity|].
  destruct (update_status_completed chain_graph "a" example_later
              (example_node "a" NOT_STARTED [] ∅)
              (graph_wf_graph_of _ _) eq_refl)
    as (g' & node' & dependents & Hup & _ & _ & _ & Hst & Hes & _ & _ & Hks & _).
  exists g', node'. split_and!; assumption.
Defined.

(** C2 at [waiting_graph]: [n] waits for the blocked [d] and is not
    returned; it is once [d] is not applicable. *)
Lemma get_actionable_items_waiting :
  graph_wf waiting_graph
  ∧ ∃ l,
      get_actionable_items waiting_graph = Ok l
      ∧ (example_node "n" NOT_STARTED [] ∅ ∉ l)
      ∧ ∃ g' r l',
          update_status waiting_graph "d" NOT_APPLICABLE example_later = Ok (g', r)
          ∧ get_actionable_items g' = Ok l'
          ∧ example_node "n" NOT_STARTED [] ∅ ∈ l'.
Proof.
  split; [apply graph_wf_graph_of|].
  destruct (get_actionable_items_spec waiting_graph (graph_wf_graph_of _ _))
    as (l & Hl & _ & _ & Hblocked & Hfreed).
  exists l. split; [exact Hl|]. split.
  - apply (Hblocked _ (example_node "d" BLOCKED [] ∅)).
    + apply list_elem_of_here.
    + reflexivity.
    + reflexivity.
  - apply (Hfreed (example_node "n" NOT_STARTED [] ∅) (example_node "d" BLOCKED [] ∅)).
    + apply list_elem_of_here.
    + reflexivity.
    + discriminate.
    + left. reflexivity.
Defined.

(** C3 at [chain_graph], whose edge [e4] leads from [e] to a node that is
    not stored. *)
Lemma dependencies_of_dangling_edge :
  index_closed chain_graph
  ∧ dict_get "e4" (edges chain_graph) = Some (example_edge "e4" "e" "z" REQUIRES)
  ∧ get_node chain_graph "z" = None
  ∧ ∃ deps dependents,
      get_dependencies chain_graph "e" = Ok deps
      ∧ get_dependents chain_graph "e" = Ok dependents
      ∧ ∀ n, n ∈ deps ∨ n ∈ dependents → n ∈ dict_values (nodes chain_graph).
Proof.
  split; [apply wf_index_closed, graph_wf_graph_of|].
  split; [reflexivity|]. split; [reflexivity|].
  destruct (dependencies_total_and_present chain_graph "e"
              (wf_index_closed _ (graph_wf_graph_of _ _)))
    as (deps & dependents & Hd & Hr & _ & _ & Hin).
  exists deps, dependents. split_and!; assumption.
Defined.

Lemma built_graph_of ns es : built (graph_of ns es).
Proof.
  unfold graph_of.
  assert (∀ g, built g → built (foldl add_node g ns)) as Hns.
  { induction ns as [|n ns IH]; intros g Hg; simpl; [done|].
    apply IH. by constructor. }
  assert (∀ g, built g → built (foldl add_edge g es)) as Hes.
  { induction es as [|e es IH]; intros g Hg; simpl; [done|].
    apply IH. by constructor. }
  apply Hes, Hns. constructor.
Qed.

(** C4 at [merge_graph], merging [B] into [A]. *)
Lemma merge_duplicate_nodes_merge_graph :
  graph_wf merge_graph
  ∧ ∃ g' merged,
      merge_duplicate_nodes merge_graph "A" "B" = Ok (g', Some merged)
      ∧ get_node g' "B" = None
      ∧ (∀ k e, dict_get k (edges g') = Some e →
                Edge.source_id e ≠ "B" ∧ Edge.target_id e ≠ "B")
      ∧ (∀ t, t ∈ Node.tags merged ↔ t ∈ ["form"; "signed"] ∨ t ∈ ["signed"; "placeholder"])
      ∧ S (length (nodes g')) = length (nodes merge_graph).
Proof.
  split; [apply graph_wf_graph_of|].
  destruct (merge_duplicate_nodes_spec merge_graph "A" "B"
              (example_node "A" NOT_STARTED ["form"; "signed"] {[ "owner" := PStr "kept" ]})
              (example_node "B" NOT_STARTED ["signed"; "placeholder"]
                 {[ "owner" := PStr "dropped" ]})
              (graph_wf_graph_of _ _) ltac:(discriminate) eq_refl eq_refl)
    as (g' & merged & Hm & _ & Hdrop & Hedges & Htags & _ & Hlen & _).
  exists g', merged. split_and!; assumption.
Defined.

(** C4, the sentence on metadata refuted: both nodes carry the key
    [owner], and after the merge the kept node carries the value of the
    dropped node, not its own. *)
Lemma merge_metadata_dropped_value_stands :
  get_node merge_graph "A"
  = Some (example_node "A" NOT_STARTED ["form"; "signed"] {[ "owner" := PStr "kept" ]})
  ∧ get_node merge_graph "B"
    = Some (example_node "B" NOT_STARTED ["signed"; "placeholder"]
              {[ "owner" := PStr "dropped" ]})
  ∧ ∃ g' merged,
      merge_duplicate_nodes merge_graph "A" "B" = Ok (g', Some merged)
      ∧ get_node g' "A" = Some merged
      ∧ Node.metadata merged !! "owner" = Some (PStr "dropped")
      ∧ Node.metadata merged !! "owner"
        ≠ Node.metadata
            (example_node "A" NOT_STARTED ["form"; "signed"] {[ "owner" := PStr "kept" ]})
          !! "owner".
Proof.
  split; [reflexivity|]. split; [reflexivity|].
  eexists _, _. split; [vm_compute; reflexivity|].
  split; [vm_compute; reflexivity|].
  split; [vm_compute; reflexivity|].
  vm_compute. discriminate.
Qed.

(** The invariant is needed for the sentence on the edges.  In
    [merge_graph] the edge [e1] leads from [C] to [B].  Merging [B] with
    itself deletes [B] and its index entries; after [B] and [A] have been
    added again, both are stored, the graph is built by the public methods,
    and merging [B] into [A] leaves [e1] with the target [B]. *)
Lemma merge_after_self_merge_keeps_edge :
  ∃ g1 r1,
    merge_duplicate_nodes merge_graph "B" "B" = Ok (g1, r1)
    ∧ let g3 := add_node (add_node g1 (example_node "B" NOT_STARTED [] ∅))
                  (example_node "A" NOT_STARTED [] ∅) in
      built g3
      ∧ is_Some (get_node g3 "A")
      ∧ is_Some (get_node g3 "B")
      ∧ ∃ g4 merged e,
          merge_duplicate_nodes g3 "A" "B" = Ok (g4, Some merged)
          ∧ dict_get "e1" (edges g4) = Some e
          ∧ Edge.target_id e = "B".
Proof.
  destruct (merge_duplicate_nodes merge_graph "B" "B") as [[g1 r1]|e] eqn:Hm;
    [|vm_compute in Hm; discriminate].
  exists g1, r1. split; [reflexivity|]. cbv zeta. split.
  { apply built_add_node, built_add_node.
    exact (built_merge merge_graph "B" "B" g1 r1 (built_graph_of _ _) Hm). }
  vm_compute in Hm. injection Hm as <- <-. split_and!.
  - vm_compute. by eexists.
  - vm_compute. by eexists.
  - eexists _, _, _. split; [vm_compute; reflexivity|].
    split; vm_compute; reflexivity.
Qed.

Lemma reachable_chain_graph : reachable chain_graph.
Proof. apply reachable_graph_of. repeat constructor; apply example_node_times_ok. Qed.

(** C5 at [chain_graph], with the parser of ISO texts of this file. *)
Lemma from_dict_to_dict_chain :
  reachable chain_graph
  ∧ ∃ g',
      from_dict fromisoformat_naive (to_dict chain_graph) = Ok g'
      ∧ nodes g' = nodes chain_graph
      ∧ edges g' = edges chain_graph.
Proof.
  split; [apply reachable_chain_graph|].
  destruct (from_dict_to_dict fromisoformat_naive fromisoformat_naive_isoformat
              chain_graph reachable_chain_graph)
    as (g' & Hg' & Hns & Hes & _).
  exists g'. split_and!; assumption.
Defined.

(** C6 at [ten_nodes_graph]: four of ten nodes completed, two not
    applicable, reported as 50.0. *)
Lemma completion_percentage_ten_nodes :
  length (nodes ten_nodes_graph) = 10
  ∧ length (get_nodes_by_status ten_nodes_graph NOT_APPLICABLE) = 2
  ∧ length (get_nodes_by_status ten_nodes_graph COMPLETED) = 4
  ∧ completion_percentage (get_completion_stats ten_nodes_graph) = PyFloat 50%float.
Proof.
  split; [reflexivity|]. split; [reflexivity|]. split; [reflexivity|].
  apply (proj2 completion_percentage_rounded ten_nodes_graph).
  split; [reflexivity|]. split; reflexivity.
Defined.

(** C6, the formula refuted: with one of three nodes completed and none
    not applicable, the reported percentage is the rounded [33.3], not the
    float [1 / 3 * 100]. *)
Lemma completion_percentage_one_third :
  length (nodes three_nodes_graph) = 3
  ∧ length (get_nodes_by_status three_nodes_graph NOT_APPLICABLE) = 0
  ∧ length (get_nodes_by_status three_nodes_graph COMPLETED) = 1
  ∧ completion_percentage (get_completion_stats three_nodes_graph)
    = PyFloat (py_round1 (PrimFloat.mul (PrimFloat.div 1 3) 100))
  ∧ completion_percentage (get_completion_stats three_nodes_graph)
    ≠ PyFloat (PrimFloat.mul (PrimFloat.div 1 3) 100).
Proof.
  split; [reflexivity|]. split; [reflexivity|]. split; [reflexivity|].
  split; [vm_compute; reflexivity|].
  intros H.
  assert (PrimFloat.eqb
            (match completion_percentage (get_completion_stats three_nodes_graph) with
             | PyFloat x => x
             | PyInt _ => 0%float
             end)
            (PrimFloat.mul (PrimFloat.div 1 3) 100) = true) as Heq.
  { rewrite H. vm_compute. reflexivity. }
  vm_compute in Heq. discriminate.
Qed.

(** C7 at [example_document]: a rate limit and a lost connection, then a
    response that parses; a refused key, which is terminal, at the first
    call and at the second; and a client that never returns a response
    object, where the extraction ends after the third attempt. *)
Lemma extract_retry_policy_example :
  retryable ascii_lower (PyExn OtherException "Error code: 429 - Rate limit exceeded") = true
  ∧ retryable ascii_lower (PyExn OtherException "Connection reset by peer") = true
  ∧ retryable ascii_lower (PyExn OtherException "Error code: 401 - invalid api key") = false
  ∧ (∃ r g' w',
       extract ascii_lower ascii_strip fromisoformat_naive stub_json_loads counter_uuid4
         client_rate_limited example_clock example_document graph_init fresh_world
       = Ok (r, g', w')
       ∧ error r = None
       ∧ llm_calls w' = 3
       ∧ slept w' = [2; 4])
  ∧ (∃ r w',
       extract ascii_lower ascii_strip fromisoformat_naive stub_json_loads counter_uuid4
         client_unauthorized example_clock example_document graph_init fresh_world
       = Ok (r, graph_init, w')
       ∧ error r = Some "LLM API error: Error code: 401 - invalid api key"
       ∧ llm_calls w' = 1)
  ∧ (∃ r w',
       extract ascii_lower ascii_strip fromisoformat_naive stub_json_loads counter_uuid4
         client_refused_second example_clock example_document graph_init fresh_world
       = Ok (r, graph_init, w')
       ∧ error r = Some "LLM API error: Error code: 401 - invalid api key"
       ∧ llm_calls w' = 2
       ∧ slept w' = [2])
  ∧ (∃ r w',
       extract ascii_lower ascii_strip fromisoformat_naive stub_json_loads counter_uuid4
         client_always_none example_clock example_document graph_init fresh_world
       = Ok (r, graph_init, w')
       ∧ error r = Some "Empty API response: API returned None response"
       ∧ llm_calls w' = 3
       ∧ slept w' = [2; 4]).
Proof.
  split; [reflexivity|]. split; [reflexivity|]. split; [reflexivity|].
  split; [|split; [|split]].
  - destruct (proj1 (extract_retry_policy ascii_lower ascii_strip fromisoformat_naive
                       stub_json_loads counter_uuid4 client_rate_limited)
                example_clock example_document graph_init fresh_world
                (PyExn OtherException "Error code: 429 - Rate limit exceeded")
                (PyExn OtherException "Connection reset by peer")
                "response-1" example_extraction
                eq_refl ltac:(discriminate) eq_refl eq_refl eq_refl eq_refl eq_refl eq_refl)
      as (r & g' & w' & Hex & Herr & _ & Hcalls & Hslept).
    exists r, g', w'. split_and!; assumption.
  - destruct (proj1 (proj2 (extract_retry_policy ascii_lower ascii_strip
                              fromisoformat_naive stub_json_loads counter_uuid4
                              client_unauthorized))
                example_clock example_document graph_init fresh_world
                (PyExn OtherException "Error code: 401 - invalid api key")
                eq_refl ltac:(discriminate) eq_refl
                ltac:(discriminate) ltac:(discriminate) eq_refl)
      as (r & w' & Hex & Herr & _ & _ & Hcalls & _).
    exists r, w'. split_and!; assumption.
  - assert (∀ i, i < 1 →
                 ∃ e, try_outcome stub_json_loads client_refused_second
                        (llm_calls fresh_world + i) = Raise e
                      ∧ (exn_kind e = JSONDecodeError ∨ exn_kind e = ValueError
                         ∨ retryable ascii_lower e = true)) as Hfail.
    { intros i Hi. assert (i = 0) as -> by lia.
      eexists. split; [reflexivity|]. right. right. reflexivity. }
    destruct (proj1 (proj2 (proj2 (proj2 (extract_retry_policy ascii_lower ascii_strip
                                            fromisoformat_naive stub_json_loads
                                            counter_uuid4 client_refused_second))
                             example_clock example_document graph_init fresh_world 1
                             eq_refl ltac:(discriminate) ltac:(lia) Hfail))
                (PyExn OtherException "Error code: 401 - invalid api key")
                eq_refl ltac:(discriminate) ltac:(discriminate) eq_refl)
      as (r & w' & Hex & Herr & _ & _ & Hcalls & Hslept).
    exists r, w'. split_and!; assumption.
  - assert (∀ i, i < 2 →
                 ∃ e, try_outcome stub_json_loads client_always_none
                        (llm_calls fresh_world + i) = Raise e
                      ∧ (exn_kind e = JSONDecodeError ∨ exn_kind e = ValueError
                         ∨ retryable ascii_lower e = true)) as Hfail.
    { intros i Hi. eexists. split; [reflexivity|]. right. left. reflexivity. }
    destruct (proj2 (proj2 (proj2 (proj2 (extract_retry_policy ascii_lower ascii_strip
                                            fromisoformat_naive stub_json_loads
                                            counter_uuid4 client_always_none))
                             example_clock example_document graph_init fresh_world 2
                             eq_refl ltac:(discriminate) ltac:(lia) Hfail))
                (PyExn ValueError "API returned None response") eq_refl eq_refl)
      as (r & w' & Hex & Herr & _ & _ & Hcalls & Hslept).
    exists r, w'. split_and!; assumption.
Defined.

(** C7, the second sentence refuted: an exception of class [ValueError]
    whose text carries no transient marker, and the [ValueError] that
    [extract] raises itself on an empty response, do not end the
    extraction: the client is called again and the result has no error. *)
Lemma extract_retries_value_error :
  retryable ascii_lower (PyExn ValueError "Unsupported response format") = false
  ∧ client_value_error 0 = LLMRaises (PyExn ValueError "Unsupported response format")
  ∧ (∃ r g' w',
       extract ascii_lower ascii_strip fromisoformat_naive stub_json_loads counter_uuid4
         client_value_error example_clock example_document graph_init fresh_world
       = Ok (r, g', w')
       ∧ error r = None
       ∧ llm_calls w' = 2
       ∧ slept w' = [2])
  ∧ retryable ascii_lower (PyExn ValueError "API returned None response") = false
  ∧ (∃ r g' w',
       extract ascii_lower ascii_strip fromisoformat_naive stub_json_loads counter_uuid4
         client_none_first example_clock example_document graph_init fresh_world
       = Ok (r, g', w')
       ∧ error r = None
       ∧ llm_calls w' = 2
       ∧ slept w' = [2]).
Proof.
  split; [reflexivity|]. split; [reflexivity|]. split.
  - eexists _, _, _. split; [vm_compute; reflexivity|]. by split_and!.
  - split; [reflexivity|].
    eexists _, _, _. split; [vm_compute; reflexivity|]. by split_and!.
Qed.

(** C8 at [exclusion_node], with the lowering of ASCII letters. *)
Lemma critical_keyword_exclusion_node :
  str_contains "Ausschlusskriterium" (Node.description exclusion_node) = true
  ∧ Node.metadata exclusion_node !! "is_required" = Some (PBool false)
  ∧ _determine_priority ascii_lower graph_init exclusion_node = Ok CRITICAL.
Proof.
  split; [reflexivity|]. split; [reflexivity|].
  apply (proj2 (critical_keyword_outranks_metadata ascii_lower ascii_lower_contains)
           graph_init exclusion_node); reflexivity.
Defined.

(** C9 at [hub_graph]: [hub] has three dependents. *)
Lemma priority_of_hub :
  index_closed hub_graph
  ∧ ∃ dependents,
      get_dependents hub_graph "hub" = Ok dependents
      ∧ _determine_priority ascii_lower hub_graph (example_node "hub" NOT_STARTED [] ∅)
        = Ok (if 3 <=? length dependents then HIGH else MEDIUM).
Proof.
  split; [apply wf_index_closed, graph_wf_graph_of|].
  assert (Node.metadata (example_node "hub" NOT_STARTED [] ∅) !! "is_required"
          ≠ Some (PBool true)) as Hmeta by (vm_compute; discriminate).
  assert (∀ t, t ≠ REQUIREMENT →
               Node.type (example_node "hub" NOT_STARTED [] ∅) ≠ t) as Htype
    by (intros t Ht Heq; apply Ht; symmetry; exact Heq).
  destruct (priority_by_dependent_count ascii_lower hub_graph
              (example_node "hub" NOT_STARTED [] ∅)
              (wf_index_closed _ (graph_wf_graph_of _ _)) eq_refl Hmeta
              (Htype SIGNATURE ltac:(discriminate))
              (Htype DEADLINE ltac:(discriminate))
              (Htype DOCUMENT ltac:(discriminate)))
    as (dependents & Hd & Hp & _).
  exists dependents. split; assumption.
Defined.

(** C9, the count of unfinished dependents refuted.  In [hub_graph] the
    three dependents of [hub] are all completed, so [hub] blocks nothing and
    has no unfinished dependent, none of the rules before the count applies
    to it, and its priority is HIGH.  In [double_edge_graph] the node [hub]
    has two dependents, [x] and [y], both unfinished; [x] is linked to it by
    two edges, [get_dependents] returns three entries, and the priority is
    HIGH. *)
Lemma priority_counts_completed_dependents :
  existsb
    (fun keyword =>
       str_contains keyword
         (ascii_lower
            (Node.title (example_node "hub" NOT_STARTED [] ∅)
             +:+ Node.description (example_node "hub" NOT_STARTED [] ∅)
             +:+ default "" (Node.source_text (example_node "hub" NOT_STARTED [] ∅)))))
    CRITICAL_KEYWORDS = false
  ∧ Node.metadata (example_node "hub" NOT_STARTED [] ∅) !! "is_required" = None
  ∧ Node.type (example_node "hub" NOT_STARTED [] ∅) = REQUIREMENT
  ∧ (∃ dependents,
       get_dependents hub_graph "hub" = Ok dependents
       ∧ length dependents = 3
       ∧ filter (fun dep => Node.status dep ≠ COMPLETED) dependents = [])
  ∧ todo_blocks hub_graph (example_node "hub" NOT_STARTED [] ∅) = Ok []
  ∧ _determine_priority ascii_lower hub_graph (example_node "hub" NOT_STARTED [] ∅)
    = Ok HIGH
  ∧ _determine_priority ascii_lower hub_graph (example_node "hub" NOT_STARTED [] ∅)
    ≠ Ok MEDIUM
  ∧ (∃ dependents,
       get_dependents double_edge_graph "hub" = Ok dependents
       ∧ Node.id <$> dependents = ["x"; "x"; "y"]
       ∧ filter (fun dep => Node.status dep ≠ COMPLETED) dependents = dependents)
  ∧ _determine_priority ascii_lower double_edge_graph
      (example_node "hub" NOT_STARTED [] ∅)
    = Ok HIGH.
Proof.
  split; [reflexivity|]. split; [reflexivity|]. split; [reflexivity|]. split.
  - eexists. split; [vm_compute; reflexivity|]. split; vm_compute; reflexivity.
  - split; [vm_compute; reflexivity|]. split; [vm_compute; reflexivity|].
    split; [vm_compute; discriminate|]. split.
    + eexists. split; [vm_compute; reflexivity|]. split; vm_compute; reflexivity.
    + vm_compute. reflexivity.
Qed.

(** C10 at [extracted_graph]: the text of [docs/angebot.txt] has changed;
    its nodes [p] and [q] go and are not in the graph of the new state, the
    node [r] of another document stays, the edges [e1] and [e2] stay, and
    the new hash is recorded. *)
Lemma reprocess_changed_document_example :
  graph_wf extracted_graph
  ∧ ∃ g1 st',
      delete_nodes extracted_graph
        (get_nodes_by_document extracted_graph "docs/angebot.txt") = Ok g1
      ∧ process_document ascii_lower ascii_strip fromisoformat_naive stub_json_loads
          counter_uuid4 text_digest client_rate_limited example_clock
          example_incremental_state example_document = Ok st'
      ∧ get_node g1 "p" = None
      ∧ get_node g1 "q" = None
      ∧ edges g1 = edges extracted_graph
      ∧ _adjacency g1 = _adjacency extracted_graph
      ∧ _reverse_adjacency g1 = _reverse_adjacency extracted_graph
      ∧ get_node (inc_graph st') "p" = None
      ∧ get_node (inc_graph st') "q" = None
      ∧ get_node (inc_graph st') "r" = get_node extracted_graph "r"
      ∧ document_hashes st' !! "docs/angebot.txt" = Some "Angebot mit Unterschrift"
      ∧ length (edges extracted_graph) ≤ length (edges (inc_graph st')).
Proof.
  split; [apply graph_wf_graph_of|].
  destruct (proj1 (reprocess_changed_document ascii_lower ascii_strip
                     fromisoformat_naive stub_json_loads counter_uuid4 text_digest
                     client_rate_limited)
              example_clock example_incremental_state example_document "Angebot"
              (graph_wf_graph_of _ _) eq_refl ltac:(discriminate))
    as (g1 & st' & r & Hdel & Hproc & Hex & _ & Hhash & Hgone & _ & Hes & Hadj & Hrev
        & Hold & Hnew & Hframe & _ & Hlen).
  assert (∀ k, (∀ i, counter_uuid4 i ≠ k) → k ∉ nodes_created r) as Hfresh.
  { intros k Hk Hin.
    destruct (extract_created_spec ascii_lower ascii_strip fromisoformat_naive
                stub_json_loads counter_uuid4 client_rate_limited example_clock
                example_document g1 _ r _ _ Hex) as (_ & _ & _ & Huuid & _).
    destruct (Huuid k Hin) as [i Hi]. by apply (Hk i). }
  exists g1, st'. split_and!; try assumption.
  - rewrite (Hgone "p" _ eq_refl). reflexivity.
  - rewrite (Hgone "q" _ eq_refl). reflexivity.
  - apply (Hold "p" _ eq_refl eq_refl). intros i. discriminate.
  - apply (Hold "q" _ eq_refl eq_refl). intros i. discriminate.
  - rewrite Hframe by (apply Hfresh; intros i; discriminate).
    rewrite (Hgone "r" _ eq_refl). reflexivity.
  - rewrite Hhash. reflexivity.
Defined.
(** ** The further properties at the example graphs *)

(** X2 at [chain_graph]: a new edge from [d] to [a]. *)
Lemma add_edge_appends_chain :
  index_closed chain_graph
  ∧ dict_get "e9" (edges chain_graph) = None
  ∧ ∃ out,
      get_outgoing_edges chain_graph "d" = Ok out
      ∧ get_outgoing_edges (add_edge chain_graph (example_edge "e9" "d" "a" REQUIRES)) "d"
        = Ok (out ++ [example_edge "e9" "d" "a" REQUIRES]).
Proof.
  assert (index_closed chain_graph) as Hc
    by apply (safe_index_closed _ (built_safe _ (built_graph_of _ _))).
  split; [exact Hc|]. split; [reflexivity|].
  destruct (add_edge_appends chain_graph (example_edge "e9" "d" "a" REQUIRES)
              Hc eq_refl) as (out & inc & Hout & _ & Hout' & _).
  exists out. split; assumption.
Defined.

(** X5 at [chain_graph]. *)
Lemma graph_methods_never_raise_chain :
  built chain_graph
  ∧ ∃ g', evaluate_conditions chain_graph = Ok g'.
Proof.
  split; [apply built_graph_of|].
  exact (proj1 (proj2 (graph_methods_never_raise chain_graph (built_graph_of _ _)))).
Defined.

(** X6 at [merge_graph]: [A] merged with itself is gone. *)
Lemma merge_with_itself_deletes_A :
  built merge_graph
  ∧ ∃ g' merged,
      merge_duplicate_nodes merge_graph "A" "A" = Ok (g', Some merged)
      ∧ get_node g' "A" = None.
Proof.
  split; [apply built_graph_of|].
  destruct (merge_with_itself_deletes merge_graph "A" _ (built_graph_of _ _) eq_refl)
    as (g' & merged & Hm & _ & Hgone & _).
  exists g', merged. split; assumption.
Defined.


(** X8 at [merge_graph], merging [B] into [A]. *)
Lemma merge_kept_node_A :
  built merge_graph
  ∧ ∃ g' merged,
      merge_duplicate_nodes merge_graph "A" "B" = Ok (g', Some merged)
      ∧ get_node g' "A" = Some merged
      ∧ get_node g' "C" = get_node merge_graph "C".
Proof.
  split; [apply built_graph_of|].
  destruct (merge_kept_node merge_graph "A" "B" _ _ (built_graph_of _ _)
              ltac:(discriminate) eq_refl eq_refl)
    as (g' & merged & Hm & Hget & _ & _ & Hother).
  exists g', merged. split_and!; try assumption.
  apply Hother; discriminate.
Defined.

(** X9 at [condition_graph]: [lot-form] becomes not applicable and
    [tax-form] is started again. *)
Lemma evaluate_conditions_changes_statuses_example :
  built condition_graph
  ∧ ∃ g',
      evaluate_conditions condition_graph = Ok g'
      ∧ Node.status <$> get_node g' "lot-form" = Some NOT_APPLICABLE
      ∧ Node.status <$> get_node g' "tax-form" = Some NOT_STARTED
      ∧ get_node g' "lots" = get_node condition_graph "lots".
Proof.
  split; [apply built_graph_of|].
  destruct (evaluate_conditions_changes_statuses condition_graph (built_graph_of _ _))
    as (g' & Hev & _ & _ & _ & _ & Hnodes).
  exists g'. split; [assumption|]. split_and!.
  - destruct (Hnodes "lot-form" _ eq_refl) as (s & -> & -> & _). reflexivity.
  - destruct (Hnodes "tax-form" _ eq_refl) as (s & -> & -> & _). reflexivity.
  - destruct (Hnodes "lots" _ eq_refl) as (s & _ & _ & _ & Hsame).
    rewrite Hsame; [reflexivity|]. vm_compute. intros Hin.
    repeat (apply elem_of_cons in Hin as [Hin|Hin]; [discriminate|]).
    by apply elem_of_nil in Hin.
Defined.

(** X10 at [condition_graph]. *)
Lemma evaluate_conditions_idempotent_example :
  built condition_graph
  ∧ ∃ g',
      evaluate_conditions condition_graph = Ok g'
      ∧ evaluate_conditions g' = Ok g'.
Proof.
  split; [apply built_graph_of|].
  destruct (evaluate_conditions_total condition_graph
              (built_safe _ (built_graph_of _ _))) as (g' & Hev & _).
  exists g'. split; [assumption|].
  exact (evaluate_conditions_idempotent condition_graph g' (built_graph_of _ _) Hev).
Defined.

(** X11 at [cycle_graph]: the search from [a] ends, and it reaches [a]
    itself through the circle. *)
Lemma transitive_dependents_reached_cycle :
  built cycle_graph
  ∧ length (nodes cycle_graph) + 2 ≤ 10
  ∧ ∃ dependents visited,
      _get_transitive_dependents 10 cycle_graph "a" ∅ = Ok (dependents, visited)
      ∧ "a" ∈ dependents
      ∧ "d" ∈ dependents.
Proof.
  split; [apply built_graph_of|].
  assert (length (nodes cycle_graph) + 2 ≤ 10) as Hdepth by (vm_compute; lia).
  split; [exact Hdepth|].
  destruct (transitive_dependents_reached cycle_graph "a" 10 (built_graph_of _ _) Hdepth)
    as (dependents & visited & Hrun & Hiff & _).
  exists dependents, visited. split; [assumption|].
  assert (∀ x y status,
            (∃ deps, get_dependents cycle_graph x = Ok deps
                     ∧ example_node y status [] ∅ ∈ deps) →
            dependent_of cycle_graph x y) as Hstep.
  { intros x y status (deps & Hdeps & Hin). by exists deps, (example_node y status [] ∅). }
  assert (dependent_of cycle_graph "a" "b") as Hab.
  { apply (Hstep _ _ NOT_STARTED). eexists. split; [reflexivity|].
    apply list_elem_of_here. }
  assert (dependent_of cycle_graph "b" "c") as Hbc.
  { apply (Hstep _ _ NOT_STARTED). eexists. split; [reflexivity|].
    apply list_elem_of_here. }
  assert (dependent_of cycle_graph "c" "a") as Hca.
  { apply (Hstep _ _ NOT_STARTED). eexists. split; [reflexivity|].
    apply list_elem_of_here. }
  assert (dependent_of cycle_graph "a" "d") as Had.
  { apply (Hstep _ _ NOT_STARTED). eexists. split; [reflexivity|].
    apply list_elem_of_further, list_elem_of_here. }
  split; apply Hiff.
  - eapply dt_more; [|exact Hca]. eapply dt_more; [|exact Hbc]. by apply dt_direct.
  - by apply dt_direct.
Defined.


(** X12 at [cycle_graph]: the four open nodes, without repetition. *)
Lemma get_critical_path_top_ten_cycle :
  built cycle_graph
  ∧ length (nodes cycle_graph) + 2 ≤ 10
  ∧ ∃ path,
      get_critical_path 10 cycle_graph = Ok path
      ∧ length path = 4
      ∧ NoDup (Node.id <$> path).
Proof.
  split; [apply built_graph_of|].
  assert (length (nodes cycle_graph) + 2 ≤ 10) as Hdepth by (vm_compute; lia).
  split; [exact Hdepth|].
  destruct (get_critical_path_top_ten cycle_graph 10 (built_graph_of _ _) Hdepth)
    as (path & Hrun & Hlen & Hnd & _).
  exists path. split_and!; assumption.
Defined.


(** X13 at the document node [d1] of [placeholder_graph], whose text
    holds no critical keyword and whose metadata do not say that it is
    required. *)
Lemma priority_rules_in_order_document :
  _determine_priority ascii_lower placeholder_graph
    (document_node "d1" "Formblatt 1 Angebot" [])
  = Ok HIGH.
Proof.
  apply (priority_rules_in_order ascii_lower placeholder_graph
           (document_node "d1" "Formblatt 1 Angebot" []) eq_refl);
    [discriminate|reflexivity].
Defined.


(** X14 at [chain_graph]: no item that can be worked on now is blocked
    by anything. *)
Lemma get_actionable_now_completed_only_chain :
  built chain_graph
  ∧ ∃ items,
      get_actionable_now ascii_lower chain_graph = Ok items
      ∧ ∀ todo, todo ∈ items → TodoItem.blocked_by todo = [].
Proof.
  split; [apply built_graph_of|].
  destruct (get_actionable_now_completed_only ascii_lower chain_graph
              (built_graph_of _ _))
    as (items & ready & Hrun & _ & _ & _ & Hfree & _).
  exists items. split; assumption.
Defined.


(** X15 at [chain_graph]. *)
Lemma critical_items_are_open_chain :
  built chain_graph
  ∧ ∃ items,
      get_critical_items ascii_lower chain_graph = Ok items
      ∧ filter (fun c => TodoItem.status c = COMPLETED) items = [].
Proof.
  split; [apply built_graph_of|].
  destruct (critical_items_are_open ascii_lower chain_graph (built_graph_of _ _))
    as (items & Hrun & _ & _ & Hnone & _).
  exists items. split; assumption.
Defined.


(** X16 at [ten_nodes_graph]: four items are completed. *)
Lemma generate_groups_by_type_ten_nodes :
  built ten_nodes_graph
  ∧ ∃ categories,
      generate ascii_lower ten_nodes_graph = Ok categories
      ∧ ("Other" ∉ cat_name <$> categories)
      ∧ sum_list (completed_count <$> categories) = 4.
Proof.
  split; [apply built_graph_of|].
  destruct (generate_groups_by_type ascii_lower ten_nodes_graph (built_graph_of _ _))
    as (categories & Hrun & _ & Hother & _ & _ & _ & Hdone).
  exists categories. split_and!; [assumption|assumption|].
  rewrite Hdone. reflexivity.
Defined.


(** X17 at [ten_nodes_graph]. *)
Lemma summary_counts_ten_nodes :
  built ten_nodes_graph
  ∧ ∃ s,
      get_summary ascii_lower ten_nodes_graph = Ok s
      ∧ sm_completed_items s = 4
      ∧ sm_critical_completed s = 0.
Proof.
  split; [apply built_graph_of|].
  destruct (summary_counts ascii_lower ten_nodes_graph (built_graph_of _ _))
    as (s & Hrun & _ & Hdone & Hcrit & _).
  exists s. split_and!; [assumption| |assumption].
  rewrite Hdone. reflexivity.
Defined.


(** X20 at [example_document], read into the empty graph. *)
Lemma extract_created_nodes_example :
  ∃ r g' w',
    extract ascii_lower ascii_strip fromisoformat_naive stub_json_loads counter_uuid4
      client_rate_limited example_clock example_document graph_init fresh_world
    = Ok (r, g', w')
    ∧ ∀ k, k ∈ nodes_created r →
           ∃ n, get_node g' k = Some n
                ∧ Node.source_document n = Some "docs/angebot.txt".
Proof.
  destruct (extract_total ascii_lower ascii_strip fromisoformat_naive stub_json_loads
              counter_uuid4 client_rate_limited example_clock example_document
              graph_init fresh_world) as (r & g' & w' & Hex & _).
  exists r, g', w'. split; [assumption|].
  intros k Hk.
  destruct (proj1 (extract_created_nodes ascii_lower ascii_strip fromisoformat_naive
                     stub_json_loads counter_uuid4 client_rate_limited example_clock
                     example_document graph_init fresh_world r g' w' Hex) k Hk)
    as (_ & n & Hget & _ & Hdoc).
  exists n. split; assumption.
Defined.


(** X21 at [example_document], read into the empty graph. *)
Lemma extract_created_edges_example :
  graph_safe graph_init
  ∧ ∃ r g' w',
      extract ascii_lower ascii_strip fromisoformat_naive stub_json_loads counter_uuid4
        client_rate_limited example_clock example_document graph_init fresh_world
      = Ok (r, g', w')
      ∧ graph_safe g'
      ∧ ∀ k, k ∈ edges_created r → is_Some (dict_get k (edges g')).
Proof.
  split; [apply graph_safe_init|].
  destruct (extract_total ascii_lower ascii_strip fromisoformat_naive stub_json_loads
              counter_uuid4 client_rate_limited example_clock example_document
              graph_init fresh_world) as (r & g' & w' & Hex & _).
  exists r, g', w'. split; [assumption|].
  destruct (extract_created_edges ascii_lower ascii_strip fromisoformat_naive
              stub_json_loads counter_uuid4 client_rate_limited example_clock
              example_document graph_init fresh_world r g' w' graph_safe_init Hex)
    as (Hsafe & Hnew & _).
  split; [assumption|].
  intros k Hk. destruct (Hnew k Hk) as (e & Hget & _). by exists e.
Defined.


(** X22 at [example_document]: the second run over the same document. *)
Lemma process_new_or_changed_again_example :
  NoDup (DocumentContent.path <$> [example_document])
  ∧ ∃ st,
      process_new_or_changed ascii_lower ascii_strip fromisoformat_naive stub_json_loads
        counter_uuid4 text_digest client_rate_limited example_clock ∅ [example_document]
        graph_init fresh_world = Ok st
      ∧ process_new_or_changed ascii_lower ascii_strip fromisoformat_naive
          stub_json_loads counter_uuid4 text_digest client_rate_limited example_clock
          (document_hashes st) [example_document] (inc_graph st) (inc_world st)
        = Ok (mkIncrementalState (document_hashes st) (inc_graph st) (inc_world st) []).
Proof.
  assert (NoDup (DocumentContent.path <$> [example_document])) as Hnd.
  { apply NoDup_singleton. }
  split; [exact Hnd|].
  destruct (extract_total ascii_lower ascii_strip fromisoformat_naive stub_json_loads
              counter_uuid4 client_rate_limited example_clock example_document
              graph_init fresh_world) as (r & g' & w' & Hex & _).
  eexists. split.
  - unfold process_new_or_changed, process_document. cbn [for_each].
    cbn [document_hashes inc_graph inc_world inc_results].
    rewrite lookup_empty, Hex. reflexivity.
  - match goal with
    | |- process_new_or_changed _ _ _ _ _ _ _ _ (document_hashes ?st) _ _ _ = _ =>
        exact (proj2 (process_new_or_changed_again ascii_lower ascii_strip
                        fromisoformat_naive stub_json_loads counter_uuid4 text_digest
                        client_rate_limited example_clock ∅ [example_document]
                        graph_init fresh_world st Hnd
                        ltac:(unfold process_new_or_changed, process_document;
                              cbn [for_each document_hashes inc_graph inc_world
                                     inc_results];
                              rewrite lookup_empty, Hex; reflexivity)))
    end.
Defined.


(** X24 at [placeholder_graph]: the placeholder [p1], which names the
    document [d1], is removed; the placeholder [p2] stays. *)
Lemma resolve_placeholders_removes_matched_example :
  graph_safe placeholder_graph
  ∧ ∃ g',
      _resolve_placeholders ascii_lower space_split placeholder_graph = Ok g'
      ∧ ¬ is_Some (get_node g' "p1")
      ∧ is_Some (get_node g' "p2")
      ∧ is_Some (get_node g' "d1").
Proof.
  assert (graph_safe placeholder_graph) as Hs
    by apply (built_safe _ (built_graph_of _ _)).
  split; [exact Hs|].
  destruct (resolve_placeholders_removes_matched ascii_lower space_split
              placeholder_graph Hs) as (g' & Hrun & _ & _ & Hnodes).
  exists g'. split; [assumption|]. split_and!.
  - intros (n & Hn & Hno)%Hnodes. apply Hno. injection Hn as <-. split.
    + apply list_elem_of_here.
    + exists (document_node "d1" "Formblatt 1 Angebot" []).
      split_and!; [apply list_elem_of_here|reflexivity|apply not_elem_of_nil
                  |vm_compute; reflexivity].
  - apply Hnodes. eexists. split; [reflexivity|].
    intros (_ & d & Hd & Hty & Htag & Hm).
    repeat (apply elem_of_cons in Hd as [->|Hd];
            [first [discriminate Hty
                   | exfalso; apply Htag, list_elem_of_here
                   | vm_compute in Hm; discriminate Hm]|]).
    by apply elem_of_nil in Hd.
  - apply Hnodes. eexists. split; [reflexivity|].
    intros (Htag & _). by apply elem_of_nil in Htag.
Defined.



